(** * strongly-typed-env: the declaration language and its typed store

    A shallow embedding of the TypeScript sources of the package.

    - [src/lexer.ts]: [lexer], the splitter of a text into statements, and
      [tokenize].
    - [src/types.ts], which holds three parts: the declarations of the
      types ([TokenType], [Token], [ASTNode], [EnvValue], [EnvType]); the
      function [parser] with its local functions [eat], [parseLiteral],
      [parseArray], [parseObject] and [parseDeclaration]; and the entry
      points that the tests import: [findVarType], [findKey],
      [stripQuotationMarks], [findValue], [typeImplication],
      [parseEnvFile], [config] and [validateEnv]; then [generateTypes],
      with the text that it writes, and [createTypedConfig].  The module
      [CallStack] has [parser] once more, on the call stack of an engine.

    The ECMAScript built-ins that these functions call are modelled in the
    module [JS]: [trim], [split], [join], [startsWith], [toLowerCase],
    [Number] on a string, [JSON.parse], [test] of a regular expression,
    [Object.keys] and the operator [in]; [JSON.stringify] stands with
    [generateTypes], on the two kinds of values that it is called with.

    Conventions.
    - A string is a sequence of UTF-16 code units, and a code unit is a
      number [N].  A literal of this file is read through the coercion
      [s2l]; [dq] reads a literal in which the backquote stands for the
      double quote.
    - A number is an IEEE-754 binary64 value, a [spec_float] at precision
      53 and maximal exponent 1024.
    - An exception is a value of type [Error], and a function that may
      throw returns a [result].  What [console.warn] and [console.error]
      are called with is collected in a log that the function returns.
    - A loop whose end the recursion of Rocq does not see is given fuel;
      the lemmas [parser_fuel] and [jsonValue_fuel] show that the fuel
      given is enough. *)

From Stdlib Require Import String Ascii List ZArith NArith Lia Bool Arith.
From Stdlib Require Import Floats.SpecFloat.
Import ListNotations.

Set Implicit Arguments.

Open Scope string_scope.
Open Scope list_scope.
Open Scope N_scope.

(** ** JavaScript strings and the string built-ins *)

Module JS.

Definition char := N.
Definition str := list char.

Definition ch (a : ascii) : char := N_of_ascii a.
Definition s2l (s : string) : str := map N_of_ascii (list_ascii_of_string s).
Coercion s2l : string >-> str.

(** The double quote, code unit 34. *)
Definition DQUOTE : char := 34.
(** The single quote, code unit 39. *)
Definition SQUOTE : char := 39.

(** A literal in which the backquote stands for the double quote. *)
Definition dq (s : string) : str :=
  map (fun c => if c =? 96 then DQUOTE else c) (s2l s).

Definition str_eqb (a b : str) : bool :=
  if list_eq_dec N.eq_dec a b then true else false.

(** [WhiteSpace] and [LineTerminator] of ECMAScript: what [trim] strips and
    what [\s] matches. *)
Definition isSpace (c : char) : bool :=
  ((9 <=? c) && (c <=? 13)) || (c =? 32) || (c =? 160) || (c =? 0x1680)
  || ((0x2000 <=? c) && (c <=? 0x200A)) || (c =? 0x2028) || (c =? 0x2029)
  || (c =? 0x202F) || (c =? 0x205F) || (c =? 0x3000) || (c =? 0xFEFF).

(** [LineTerminator]: what [.] does not match. *)
Definition isLineTerminator (c : char) : bool :=
  (c =? 10) || (c =? 13) || (c =? 0x2028) || (c =? 0x2029).

Definition isDigit (c : char) : bool := (48 <=? c) && (c <=? 57).
Definition isUpper (c : char) : bool := (65 <=? c) && (c <=? 90).
Definition isLower (c : char) : bool := (97 <=? c) && (c <=? 122).
Definition isAlpha (c : char) : bool := isUpper c || isLower c.
(** [\w] is [[A-Za-z0-9_]]. *)
Definition isWord (c : char) : bool := isAlpha c || isDigit c || (c =? 95).

Fixpoint trimStart (s : str) : str :=
  match s with
  | c :: r => if isSpace c then trimStart r else s
  | [] => []
  end.

Definition trimEnd (s : str) : str := rev (trimStart (rev s)).

(** [String.prototype.trim] *)
Definition trim (s : str) : str := trimEnd (trimStart s).

(** [s.split(sep)] for a separator of one code unit.  The result is never
    empty: [''.split(' ')] is [['']]. *)
Fixpoint split (sep : char) (s : str) : list str :=
  match s with
  | [] => [[]]
  | c :: r =>
      if c =? sep then [] :: split sep r
      else match split sep r with
           | h :: t => (c :: h) :: t
           | [] => [[c]]
           end
  end.

(** [parts.join(sep)] *)
Fixpoint join (sep : str) (parts : list str) : str :=
  match parts with
  | [] => []
  | [p] => p
  | p :: rest => p ++ sep ++ join sep rest
  end.

Definition startsWith (s : str) (c : char) : bool :=
  match s with
  | x :: _ => x =? c
  | [] => false
  end.

Fixpoint span (p : char -> bool) (s : str) : str * str :=
  match s with
  | c :: r => if p c then let (a, b) := span p r in (c :: a, b) else ([], s)
  | [] => ([], [])
  end.

(** ** Numbers *)

Definition number := spec_float.
Definition prec : Z := 53.
Definition emax : Z := 1024.

Definition NaN : number := S754_nan.
Definition Infinity (neg : bool) : number := S754_infinity neg.

Definition isNaN (n : number) : bool :=
  match n with S754_nan => true | _ => false end.

Definition isFinite (n : number) : bool :=
  match n with S754_zero _ | S754_finite _ _ _ => true | _ => false end.

(** The Number value for the real [(-1)^neg * m * 10^e]: the nearest binary64
    value, ties to even, an infinity beyond the largest one, a signed zero
    below the smallest one. *)
Definition roundDecimal (neg : bool) (m : N) (e : Z) : number :=
  match m with
  | N0 => S754_zero neg
  | Npos p =>
      match e with
      | Zneg k =>
          SFdiv prec emax (S754_finite neg p 0)
                (S754_finite false (Pos.pow 10 k) 0)
      | Z0 => SFdiv prec emax (S754_finite neg p 0) (S754_finite false 1 0)
      | Zpos k =>
          SFdiv prec emax (S754_finite neg (p * Pos.pow 10 k) 0)
                (S754_finite false 1 0)
      end
  end.

(** The value of a digit in bases up to sixteen, when it is one. *)
Definition digitValue (c : char) : option N :=
  if isDigit c then Some (c - 48)
  else if (97 <=? c) && (c <=? 102) then Some (c - 87)
  else if (65 <=? c) && (c <=? 70) then Some (c - 55)
  else None.

Definition isDigitOf (base : N) (c : char) : bool :=
  match digitValue c with
  | Some d => d <? base
  | None => false
  end.

(** The value of a run of digits, most significant first. *)
Definition digitsValue (base : N) (ds : str) : N :=
  fold_left (fun acc c =>
               acc * base + match digitValue c with Some d => d | None => 0 end)
            ds 0.

Definition allDigitsOf (base : N) (ds : str) : bool :=
  match ds with
  | [] => false
  | _ => forallb (isDigitOf base) ds
  end.

(** [SignedInteger] of an [ExponentPart]. *)
Definition signedInteger (s : str) : option Z :=
  match s with
  | c :: ds =>
      if c =? ch "+" then
        if allDigitsOf 10 ds then Some (Z.of_N (digitsValue 10 ds)) else None
      else if c =? ch "-" then
        if allDigitsOf 10 ds then Some (- Z.of_N (digitsValue 10 ds))%Z else None
      else
        if allDigitsOf 10 s then Some (Z.of_N (digitsValue 10 s)) else None
  | [] => None
  end.

(** What follows the digits of a decimal literal: nothing, or an
    [ExponentPart]. *)
Definition exponentPart (s : str) : option Z :=
  match s with
  | [] => Some 0%Z
  | c :: r => if (c =? ch "e") || (c =? ch "E") then signedInteger r else None
  end.

(** [StrUnsignedDecimalLiteral], with the sign read before it. *)
Definition strUnsignedDecimalLiteral (neg : bool) (s : str) : number :=
  if str_eqb s "Infinity" then Infinity neg
  else
    let (ip, r1) := span isDigit s in
    if startsWith r1 (ch ".") then
      let (fp, r3) := span isDigit (tl r1) in
      match ip ++ fp, exponentPart r3 with
      | _ :: _, Some e =>
          roundDecimal neg (digitsValue 10 (ip ++ fp))
                       (e - Z.of_nat (length fp))
      | _, _ => NaN
      end
    else
      match ip, exponentPart r1 with
      | _ :: _, Some e => roundDecimal neg (digitsValue 10 ip) e
      | _, _ => NaN
      end.

(** [NonDecimalIntegerLiteral]: [0x], [0o], [0b] and their digits. *)
Definition nonDecimalBase (s : str) : option (N * str) :=
  match s with
  | z :: p :: ds =>
      if negb (z =? ch "0") then None
      else if (p =? ch "x") || (p =? ch "X") then Some (16, ds)
      else if (p =? ch "o") || (p =? ch "O") then Some (8, ds)
      else if (p =? ch "b") || (p =? ch "B") then Some (2, ds)
      else None
  | _ => None
  end.

(** [StringToNumber]: what [Number(s)] is for a string [s]. *)
Definition StringToNumber (s : str) : number :=
  match trim s with
  | [] => S754_zero false
  | t =>
      match nonDecimalBase t with
      | Some (base, ds) =>
          if allDigitsOf base ds then roundDecimal false (digitsValue base ds) 0
          else NaN
      | None =>
          if startsWith t (ch "+") then strUnsignedDecimalLiteral false (tl t)
          else if startsWith t (ch "-") then strUnsignedDecimalLiteral true (tl t)
          else strUnsignedDecimalLiteral false t
      end
  end.

(** ** Values *)

#[warnings="-register-all"]
Inductive JSValue :=
| JUndefined
| JNull
| JBool (b : bool)
| JNum (n : number)
| JStr (s : str)
| JArr (elements : list JSValue)
| JObj (props : list (str * JSValue)).

(** [Array.isArray(v)] *)
Definition isArray (v : JSValue) : bool :=
  match v with JArr _ => true | _ => false end.

(** [typeof v === 'object'], which holds of [null] too. *)
Definition typeofObject (v : JSValue) : bool :=
  match v with JNull | JArr _ | JObj _ => true | _ => false end.

Definition isNull (v : JSValue) : bool :=
  match v with JNull => true | _ => false end.

(** The own properties of an object are kept in creation order.  Defining a
    property that exists replaces its value where it stands. *)
Fixpoint setProp {V : Type} (key : str) (v : V) (props : list (str * V))
  : list (str * V) :=
  match props with
  | [] => [(key, v)]
  | (k, w) :: rest =>
      if str_eqb k key then (k, v) :: rest else (k, w) :: setProp key v rest
  end.

Definition hasOwn {V : Type} (key : str) (props : list (str * V)) : bool :=
  existsb (fun kv => str_eqb (fst kv) key) props.

(** ** [JSON.parse] *)

(** What a step of a recursive-descent reader gives: a value and the rest of
    the text, a syntax error, or no answer for want of fuel. *)
Inductive outcome (A : Type) :=
| Return (a : A)
| SyntaxError
| OutOfFuel.
Arguments SyntaxError {A}.
Arguments OutOfFuel {A}.

Definition isJsonSpace (c : char) : bool :=
  (c =? 32) || (c =? 9) || (c =? 10) || (c =? 13).

Fixpoint skipWs (s : str) : str :=
  match s with
  | c :: r => if isJsonSpace c then skipWs r else s
  | [] => []
  end.

Definition hex4 (a b c d : char) : option char :=
  match digitValue a, digitValue b, digitValue c, digitValue d with
  | Some x, Some y, Some z, Some w => Some (((x * 16 + y) * 16 + z) * 16 + w)
  | _, _, _, _ => None
  end.

Definition simpleEscape (c : char) : option char :=
  if c =? DQUOTE then Some DQUOTE
  else if c =? ch "\" then Some (ch "\")
  else if c =? ch "/" then Some (ch "/")
  else if c =? ch "b" then Some 8
  else if c =? ch "f" then Some 12
  else if c =? ch "n" then Some 10
  else if c =? ch "r" then Some 13
  else if c =? ch "t" then Some 9
  else None.

(** The characters of a JSON string after its opening quote, up to the
    closing one, with the escapes decoded. *)
Fixpoint jsonString (s : str) (acc : str) : option (str * str) :=
  match s with
  | [] => None
  | c :: r =>
      if c =? DQUOTE then Some (acc, r)
      else if c =? ch "\" then
        match r with
        | [] => None
        | e :: r1 =>
            if e =? ch "u" then
              match r1 with
              | a :: b :: x :: d :: r2 =>
                  match hex4 a b x d with
                  | Some u => jsonString r2 (acc ++ [u])
                  | None => None
                  end
              | _ => None
              end
            else
              match simpleEscape e with
              | Some u => jsonString r1 (acc ++ [u])
              | None => None
              end
        end
      else if c <? 32 then None
      else jsonString r (acc ++ [c])
  end.

(** A JSON number: an optional minus, an integer part without a leading
    zero unless it is the single digit zero, an optional fraction of at
    least one digit, an optional exponent. *)
Definition jsonNumber (s : str) : option (number * str) :=
  let neg := startsWith s (ch "-") in
  let s1 := if neg then tl s else s in
  let (ip, r1) := span isDigit s1 in
  let intOk :=
    match ip with
    | [] => false
    | [_] => true
    | d :: _ => negb (d =? ch "0")
    end in
  if negb intOk then None
  else
    let '(fp, r2, fracOk) :=
      if startsWith r1 (ch ".") then
        let (fp, r2) := span isDigit (tl r1) in
        (fp, r2, match fp with [] => false | _ => true end)
      else ([], r1, true) in
    if negb fracOk then None
    else
      let mant := digitsValue 10 (ip ++ fp) in
      let shift := Z.of_nat (length fp) in
      if startsWith r2 (ch "e") || startsWith r2 (ch "E") then
        let r3 := tl r2 in
        let eneg := startsWith r3 (ch "-") in
        let r4 := if eneg || startsWith r3 (ch "+") then tl r3 else r3 in
        let (ep, r5) := span isDigit r4 in
        match ep with
        | [] => None
        | _ =>
            let e := Z.of_N (digitsValue 10 ep) in
            Some (roundDecimal neg mant ((if eneg then - e else e) - shift)%Z, r5)
        end
      else Some (roundDecimal neg mant (- shift)%Z, r2).

Fixpoint stripPrefix (p s : str) : option str :=
  match p, s with
  | [], _ => Some s
  | a :: p', b :: s' => if a =? b then stripPrefix p' s' else None
  | _ :: _, [] => None
  end.

Fixpoint jsonValue (fuel : nat) (s : str) : outcome (JSValue * str) :=
  match fuel with
  | O => OutOfFuel
  | S f =>
      match skipWs s with
      | [] => SyntaxError
      | c :: r =>
          if c =? ch "[" then
            if startsWith (skipWs r) (ch "]") then Return (JArr [], tl (skipWs r))
            else jsonElements f r []
          else if c =? ch "{" then
            if startsWith (skipWs r) (ch "}") then Return (JObj [], tl (skipWs r))
            else jsonMembers f r []
          else if c =? DQUOTE then
            match jsonString r [] with
            | Some (v, r') => Return (JStr v, r')
            | None => SyntaxError
            end
          else if (c =? ch "-") || isDigit c then
            match jsonNumber (c :: r) with
            | Some (n, r') => Return (JNum n, r')
            | None => SyntaxError
            end
          else
            match stripPrefix "true" (c :: r), stripPrefix "false" (c :: r),
                  stripPrefix "null" (c :: r) with
            | Some r', _, _ => Return (JBool true, r')
            | _, Some r', _ => Return (JBool false, r')
            | _, _, Some r' => Return (JNull, r')
            | _, _, _ => SyntaxError
            end
      end
  end

with jsonElements (fuel : nat) (s : str) (acc : list JSValue)
  : outcome (JSValue * str) :=
  match fuel with
  | O => OutOfFuel
  | S f =>
      match jsonValue f s with
      | Return (v, r) =>
          match skipWs r with
          | c :: r' =>
              if c =? ch "," then jsonElements f r' (acc ++ [v])
              else if c =? ch "]" then Return (JArr (acc ++ [v]), r')
              else SyntaxError
          | [] => SyntaxError
          end
      | SyntaxError => SyntaxError
      | OutOfFuel => OutOfFuel
      end
  end

with jsonMembers (fuel : nat) (s : str) (acc : list (str * JSValue))
  : outcome (JSValue * str) :=
  match fuel with
  | O => OutOfFuel
  | S f =>
      match skipWs s with
      | q :: r0 =>
          if q =? DQUOTE then
            match jsonString r0 [] with
            | Some (key, r1) =>
                match skipWs r1 with
                | colon :: r2 =>
                    if colon =? ch ":" then
                      match jsonValue f r2 with
                      | Return (v, r) =>
                          match skipWs r with
                          | c :: r' =>
                              if c =? ch "," then
                                jsonMembers f r' (setProp key v acc)
                              else if c =? ch "}" then
                                Return (JObj (setProp key v acc), r')
                              else SyntaxError
                          | [] => SyntaxError
                          end
                      | SyntaxError => SyntaxError
                      | OutOfFuel => OutOfFuel
                      end
                    else SyntaxError
                | [] => SyntaxError
                end
            | None => SyntaxError
            end
          else SyntaxError
      | [] => SyntaxError
      end
  end.

(** [JSON.parse(text)]: the value, or [None] when it throws a
    [SyntaxError].  The fuel given is more than a text of this length can
    use, see [jsonValue_fuel]. *)
Definition JSON_parse (text : str) : option JSValue :=
  match jsonValue (2 * length text + 2) text with
  | Return (v, r) => match skipWs r with [] => Some v | _ => None end
  | _ => None
  end.

(** ** Regular expressions *)

(** The regular expressions of the program have no group reference and no
    lookaround: [test] on a pattern anchored at both ends is membership of
    the whole string in its language, decided here with derivatives.  A
    class is given by its test on a code unit. *)
Inductive regex :=
| Empty
| Eps
| Cls (p : char -> bool)
| Cat (r1 r2 : regex)
| Alt (r1 r2 : regex)
| Star (r : regex).

Definition Plus (r : regex) : regex := Cat r (Star r).

Fixpoint nullable (r : regex) : bool :=
  match r with
  | Empty => false
  | Eps => true
  | Cls _ => false
  | Cat r1 r2 => nullable r1 && nullable r2
  | Alt r1 r2 => nullable r1 || nullable r2
  | Star _ => true
  end.

Fixpoint deriv (c : char) (r : regex) : regex :=
  match r with
  | Empty => Empty
  | Eps => Empty
  | Cls p => if p c then Eps else Empty
  | Cat r1 r2 =>
      if nullable r1 then Alt (Cat (deriv c r1) r2) (deriv c r2)
      else Cat (deriv c r1) r2
  | Alt r1 r2 => Alt (deriv c r1) (deriv c r2)
  | Star r1 => Cat (deriv c r1) (Star r1)
  end.

(** [/^r$/.test(s)] *)
Definition test (r : regex) (s : str) : bool :=
  nullable (fold_left (fun r c => deriv c r) s r).

(** The language of a regular expression. *)
Inductive Matches : regex -> str -> Prop :=
| MEps : Matches Eps []
| MCls p c : p c = true -> Matches (Cls p) [c]
| MCat r1 r2 s1 s2 :
    Matches r1 s1 -> Matches r2 s2 -> Matches (Cat r1 r2) (s1 ++ s2)
| MAltL r1 r2 s : Matches r1 s -> Matches (Alt r1 r2) s
| MAltR r1 r2 s : Matches r2 s -> Matches (Alt r1 r2) s
| MStar0 r : Matches (Star r) []
| MStarS r s1 s2 :
    Matches r s1 -> Matches (Star r) s2 -> Matches (Star r) (s1 ++ s2).

(** [s.toLowerCase()] on the code units of Basic Latin and Latin-1; the
    other code units are left as they are.  The program compares the result
    with [true] and [false] only, and no code unit beyond Latin-1 lowers to
    a letter of these. *)
Definition lowerUnit (c : char) : char :=
  if isUpper c then c + 32
  else if (192 <=? c) && (c <=? 222) && negb (c =? 215) then c + 32
  else c.

Definition toLowerCase (s : str) : str := map lowerUnit s.

(** ** Objects and the [in] operator *)

(** An object as the program sees one: its own enumerable properties in
    creation order, and the names that it inherits through its prototype
    chain. *)
Record Obj (V : Type) := mkObj {
  own : list (str * V);
  inherited : str -> bool
}.

(** The property names of [Object.prototype]. *)
Definition ObjectPrototypeKeys : list str :=
  [s2l "constructor"; s2l "hasOwnProperty"; s2l "isPrototypeOf";
   s2l "propertyIsEnumerable"; s2l "toLocaleString"; s2l "toString";
   s2l "valueOf"; s2l "__proto__"; s2l "__defineGetter__";
   s2l "__defineSetter__"; s2l "__lookupGetter__"; s2l "__lookupSetter__"].

(** The object of a literal [{ k: v, ... }]: its prototype is
    [Object.prototype]. *)
Definition literal {V : Type} (props : list (str * V)) : Obj V :=
  mkObj props (fun k => existsb (str_eqb k) ObjectPrototypeKeys).

(** An object without a prototype, [Object.create(null)] with properties. *)
Definition bare {V : Type} (props : list (str * V)) : Obj V :=
  mkObj props (fun _ => false).

(** An array index is the canonical numeral of an integer from 0 to
    2^32 - 2: a run of decimal digits without a leading zero, the numeral
    [0] apart. *)
Definition arrayIndex (k : str) : option N :=
  match k with
  | [] => None
  | c :: r =>
      if forallb isDigit k
         && (negb (c =? 48) || match r with [] => true | _ :: _ => false end)
         && (digitsValue 10 k <=? 4294967294)
      then Some (digitsValue 10 k)
      else None
  end.

Definition isArrayIndex (k : str) : bool :=
  match arrayIndex k with Some _ => true | None => false end.

(** A property of the index [n] put into the properties of lower indices
    before it and of higher indices behind it. *)
Fixpoint insertIndex {V : Type} (n : N) (kv : str * V)
  (l : list (N * (str * V))) : list (N * (str * V)) :=
  match l with
  | [] => [(n, kv)]
  | (m, kv') :: r =>
      if n <? m then (n, kv) :: l else (m, kv') :: insertIndex n kv r
  end.

(** [OrdinaryOwnPropertyKeys]: the order in which the own properties are
    listed, by [Object.keys] and by [JSON.stringify]: the array indices in
    ascending order, then the other names in creation order. *)
Definition ownPropertyOrder {V : Type} (props : list (str * V))
  : list (str * V) :=
  map snd
      (fold_left (fun acc kv =>
                    match arrayIndex (fst kv) with
                    | Some n => insertIndex n kv acc
                    | None => acc
                    end) props [])
  ++ filter (fun kv => negb (isArrayIndex (fst kv))) props.

(** [Object.keys(o)] *)
Definition keys {V : Type} (o : Obj V) : list str :=
  map fst (ownPropertyOrder (own o)).

(** [key in o]: own or inherited. *)
Definition hasProperty {V : Type} (key : str) (o : Obj V) : bool :=
  hasOwn key (own o) || inherited o key.

End JS.

Export JS.

(** ** src/types.ts, first part: the types *)

Module Types.

Inductive TokenType :=
| TYPE | IDENTIFIER | EQUALS | STRING_LITERAL | NUMBER_LITERAL
| BOOLEAN_LITERAL | L_BRACKET | R_BRACKET | L_BRACE | R_BRACE | COLON
| COMMA | NEWLINE | WHITESPACE | EOF | UNDERSCORE | WORD | COMMA_LITERAL
| SEMICOLON | KEYWORD.

Definition TokenType_eqb (a b : TokenType) : bool :=
  match a, b with
  | TYPE, TYPE | IDENTIFIER, IDENTIFIER | EQUALS, EQUALS
  | STRING_LITERAL, STRING_LITERAL | NUMBER_LITERAL, NUMBER_LITERAL
  | BOOLEAN_LITERAL, BOOLEAN_LITERAL | L_BRACKET, L_BRACKET
  | R_BRACKET, R_BRACKET | L_BRACE, L_BRACE | R_BRACE, R_BRACE
  | COLON, COLON | COMMA, COMMA | NEWLINE, NEWLINE
  | WHITESPACE, WHITESPACE | EOF, EOF | UNDERSCORE, UNDERSCORE
  | WORD, WORD | COMMA_LITERAL, COMMA_LITERAL | SEMICOLON, SEMICOLON
  | KEYWORD, KEYWORD => true
  | _, _ => false
  end.

(** A token as [tokenize] builds it: the [value] is absent on punctuation.
    The [line] and [column] of the declared type are never written nor
    read. *)
Record Token := mkToken {
  type : TokenType;
  value : option str
}.

(** The type [ASTNode]; [node_type] and [node_value] are its fields [type]
    and [value].  [parser] fills the type and the name with the [value] of
    two tokens, which may be absent. *)
Record ASTNode := mkNode {
  node_type : option str;
  name : option str;
  node_value : JSValue
}.

(** The exceptions of the program, one constructor for each [throw] and for
    the exceptions of the built-ins, with the values that the message
    interpolates:
    - [UnexpectedCharacter c i]: Unexpected character: 'c' at position i
      ([tokenize]);
    - [Expected t got]: Expected t, got the type found, if any ([eat]);
    - [UnexpectedLiteralToken t]: Unexpected literal token: t
      ([parseLiteral]);
    - [TypeErrorUndefined]: the TypeError of reading [type] of [undefined];
    - [InvalidName k]: Invalid or missing variable name 'k' ([findKey]);
    - [InvalidNumber v]: Invalid number value: v;
    - [InvalidBoolean v]: Invalid boolean value: v. Use 'true' or 'false';
    - [NotAnArray v]: Value is not an array: v;
    - [NotAnObject v]: Value is not an object: v;
    - [InvalidType t]: Invalid variable type: t. Supported types: ...;
    - [JSONSyntaxError]: the SyntaxError of [JSON.parse];
    - [Rethrown e]: the error that the [catch] of [typeImplication] makes
      of [e], with [e] as its cause;
    - [ErrorParsingLine n e]: Error parsing line n: the message of [e]
      ([parseEnvFile]);
    - [FileNotFound]: Environment file not found: the path;
    - [SystemError code]: the exception of a call of [fs] that fails, with
      its code;
    - [RangeError]: Maximum call stack size exceeded, the exception of the
      engine when the calls nest deeper than its stack allows. *)
Inductive Error :=
| UnexpectedCharacter (c : char) (position : nat)
| Expected (expectedType : TokenType) (got : option TokenType)
| UnexpectedLiteralToken (t : TokenType)
| TypeErrorUndefined
| InvalidName (rawKey : str)
| InvalidNumber (v : str)
| InvalidBoolean (v : str)
| NotAnArray (v : str)
| NotAnObject (v : str)
| InvalidType (varType : str)
| JSONSyntaxError
| Rethrown (cause : Error)
| ErrorParsingLine (lineNumber : nat) (cause : Error)
| FileNotFound
| SystemError (code : str)
| RangeError.

Inductive result (A : Type) :=
| Ok (a : A)
| Throw (e : Error).
Arguments Throw {A}.

End Types.

Export Types.

(** ** src/lexer.ts *)

Module Lexer.

(** The mutable variables of [lexer].  [stringChar] is [''] ([None]) or the
    quote that opened the current string.  [line], [column] and [position]
    only drive the scan and are never read for the result: the scan is the
    recursion over the input. *)
Record LexState := mkLex {
  declarations : list str;
  buffer : str;
  inString : bool;
  stringChar : option char;
  braceDepth : Z;
  bracketDepth : Z
}.

Definition initial : LexState := mkLex [] [] false None 0%Z 0%Z.

Definition isQuote (c : char) : bool := (c =? DQUOTE) || (c =? SQUOTE).

Definition isStringChar (st : LexState) (c : char) : bool :=
  match stringChar st with
  | Some q => c =? q
  | None => false
  end.

(** One iteration of the [while (!isEOF())] loop on the character [c]. *)
Definition lexer_step (st : LexState) (c : char) : LexState :=
  if isQuote c && negb (inString st) then
    mkLex (declarations st) (buffer st ++ [c]) true (Some c)
          (braceDepth st) (bracketDepth st)
  else if isStringChar st c && inString st then
    mkLex (declarations st) (buffer st ++ [c]) false None
          (braceDepth st) (bracketDepth st)
  else if inString st then
    mkLex (declarations st) (buffer st ++ [c]) (inString st) (stringChar st)
          (braceDepth st) (bracketDepth st)
  else
    let brace1 := if c =? ch "{" then (braceDepth st + 1)%Z else braceDepth st in
    let brace2 := if c =? ch "}" then (brace1 - 1)%Z else brace1 in
    let bracket1 := if c =? ch "[" then (bracketDepth st + 1)%Z else bracketDepth st in
    let bracket2 := if c =? ch "]" then (bracket1 - 1)%Z else bracket1 in
    if (c =? ch ";") && (brace2 =? 0)%Z && (bracket2 =? 0)%Z then
      mkLex (declarations st ++ [trim (buffer st ++ [c])]) []
            (inString st) (stringChar st) brace2 bracket2
    else
      mkLex (declarations st) (buffer st ++ [c])
            (inString st) (stringChar st) brace2 bracket2.

(** The state when the loop has read [input]. *)
Definition scan_from (st : LexState) (input : str) : LexState :=
  fold_left lexer_step input st.

Definition scan (input : str) : LexState := scan_from initial input.

(** [lexer(input)] *)
Definition lexer (input : str) : list str :=
  let st := scan input in
  match trim (buffer st) with
  | [] => declarations st
  | _ :: _ => declarations st ++ [trim (buffer st)]
  end.

(** *** [tokenize] *)

Definition isWhitespace (c : char) : bool := isSpace c.
Definition isNumeric (c : char) : bool := isDigit c.

Definition keywords : list str :=
  [s2l "NUMBER"; s2l "STRING"; s2l "BOOL"; s2l "ARRAY"; s2l "OBJ"].

Definition includes (l : list str) (w : str) : bool := existsb (str_eqb w) l.

Definition punct (t : TokenType) : Token := mkToken t None.

Definition wordToken (word : str) : Token :=
  if includes keywords word then mkToken TYPE (Some word)
  else if str_eqb word "true" || str_eqb word "false" then
    mkToken BOOLEAN_LITERAL (Some word)
  else mkToken IDENTIFIER (Some word).

(** The [while (i < declaration.length)] loop, at the index [i] with the
    characters [d] from [i] on still to read.  The three inner [while]
    loops are the three inner [fix]: each reads on from where the outer
    loop stands and gives the rest back to it. *)
Fixpoint tokenize_from (d : str) (i : nat) (tokens : list Token) {struct d}
  : result (list Token) :=
  match d with
  | [] => Ok (tokens ++ [punct EOF])
  | c :: r =>
      if isWhitespace c then tokenize_from r (S i) tokens
      else if c =? ch "=" then tokenize_from r (S i) (tokens ++ [punct EQUALS])
      else if c =? ch ";" then tokenize_from r (S i) (tokens ++ [punct SEMICOLON])
      else if c =? ch "{" then tokenize_from r (S i) (tokens ++ [punct L_BRACE])
      else if c =? ch "}" then tokenize_from r (S i) (tokens ++ [punct R_BRACE])
      else if c =? ch "[" then tokenize_from r (S i) (tokens ++ [punct L_BRACKET])
      else if c =? ch "]" then tokenize_from r (S i) (tokens ++ [punct R_BRACKET])
      else if c =? ch "," then tokenize_from r (S i) (tokens ++ [punct COMMA])
      else if c =? ch ":" then tokenize_from r (S i) (tokens ++ [punct COLON])
      else if c =? DQUOTE then
        (fix string_loop (d' : str) (i' : nat) (str0 : str) {struct d'} :=
           match d' with
           | [] =>
               Ok ((tokens ++ [mkToken STRING_LITERAL (Some str0)])
                     ++ [punct EOF])
           | x :: r' =>
               if negb (x =? DQUOTE) then string_loop r' (S i') (str0 ++ [x])
               else tokenize_from r' (S i')
                      (tokens ++ [mkToken STRING_LITERAL (Some str0)])
           end) r (S i) []
      else if isNumeric c then
        (fix number_loop (d' : str) (i' : nat) (num : str) {struct d'} :=
           match d' with
           | [] =>
               Ok ((tokens ++ [mkToken NUMBER_LITERAL (Some num)])
                     ++ [punct EOF])
           | x :: r' =>
               if isNumeric x then number_loop r' (S i') (num ++ [x])
               else tokenize_from d' i'
                      (tokens ++ [mkToken NUMBER_LITERAL (Some num)])
           end) r (S i) [c]
      else if isAlpha c then
        (fix word_loop (d' : str) (i' : nat) (word : str) {struct d'} :=
           match d' with
           | [] => Ok ((tokens ++ [wordToken word]) ++ [punct EOF])
           | x :: r' =>
               if isWord x then word_loop r' (S i') (word ++ [x])
               else tokenize_from d' i' (tokens ++ [wordToken word])
           end) r (S i) [c]
      else Throw (UnexpectedCharacter c i)
  end.

(** [tokenize(declaration)] *)
Definition tokenize (declaration : str) : result (list Token) :=
  tokenize_from declaration 0 [].

End Lexer.


(** ** src/types.ts, second part: [parser] *)

Module Parser.

(** [Number(token.value)], where the value may be [undefined]. *)
Definition NumberOf (v : option str) : number :=
  match v with
  | Some s => StringToNumber s
  | None => NaN
  end.

Definition valueOf (v : option str) : JSValue :=
  match v with
  | Some s => JStr s
  | None => JUndefined
  end.

(** The key that [obj[v] = ...] writes: [undefined] reads as a key as the
    string of that name. *)
Definition propertyKey (v : option str) : str :=
  match v with
  | Some s => s
  | None => s2l "undefined"
  end.

(** [obj[key] = v] on an object made by a literal.  Assigning to
    [__proto__] runs the setter inherited from [Object.prototype] and
    creates no own property. *)
Definition assignProp {V : Type} (key : str) (v : V) (props : list (str * V))
  : list (str * V) :=
  if str_eqb key "__proto__" then props else setProp key v props.

(** The functions of [parser] share the array [tokens] and the cursor
    [current]: the cursor is passed in and handed back.  [None] is the
    answer of a run that was given too little fuel, see [parser_fuel].
    The calls nest as deep as the literals do; the module [CallStack] has
    the same functions on a call stack that holds a limited number of
    calls. *)
Section Cursor.

Variable tokens : list Token.

Definition M (A : Type) : Type := option (result (A * nat)).

Definition bind {A B : Type} (m : M A) (k : A -> nat -> M B) : M B :=
  match m with
  | Some (Ok (a, current)) => k a current
  | Some (Throw e) => Some (Throw e)
  | None => None
  end.

Definition eat (expectedType : TokenType) (current : nat) : M Token :=
  match nth_error tokens current with
  | Some token =>
      if TokenType_eqb (type token) expectedType
      then Some (Ok (token, S current))
      else Some (Throw (Expected expectedType (Some (type token))))
  | None => Some (Throw (Expected expectedType None))
  end.

(** [tokens[current].type === t]; reading [type] of [undefined] throws. *)
Definition peekIs (t : TokenType) (current : nat) : M bool :=
  match nth_error tokens current with
  | Some token => Some (Ok (TokenType_eqb (type token) t, current))
  | None => Some (Throw TypeErrorUndefined)
  end.

Definition parseArrayWith
  (loop : nat -> list JSValue -> M (list JSValue)) (current : nat)
  : M JSValue :=
  bind (eat L_BRACKET current) (fun _ c1 =>
  bind (loop c1 []) (fun elements c2 =>
  bind (eat R_BRACKET c2) (fun _ c3 =>
  Some (Ok (JArr elements, c3))))).

Definition parseObjectWith
  (loop : nat -> list (str * JSValue) -> M (list (str * JSValue)))
  (current : nat) : M JSValue :=
  bind (eat L_BRACE current) (fun _ c1 =>
  bind (loop c1 []) (fun obj c2 =>
  bind (eat R_BRACE c2) (fun _ c3 =>
  Some (Ok (JObj obj, c3))))).

Fixpoint parseLiteral (fuel : nat) (current : nat) {struct fuel} : M JSValue :=
  match fuel with
  | O => None
  | S f =>
      match nth_error tokens current with
      | None => Some (Throw TypeErrorUndefined)
      | Some token =>
          match type token with
          | STRING_LITERAL => Some (Ok (valueOf (value token), S current))
          | NUMBER_LITERAL =>
              Some (Ok (JNum (NumberOf (value token)), S current))
          | BOOLEAN_LITERAL =>
              Some (Ok (JBool (match value token with
                               | Some s => str_eqb s "true"
                               | None => false
                               end), S current))
          | L_BRACKET => parseArrayWith (arrayLoop f) current
          | L_BRACE => parseObjectWith (objectLoop f) current
          | t => Some (Throw (UnexpectedLiteralToken t))
          end
      end
  end

(** [while (tokens[current].type !== 'R_BRACKET') { ... }] *)
with arrayLoop (fuel : nat) (current : nat) (elements : list JSValue)
  {struct fuel} : M (list JSValue) :=
  match fuel with
  | O => None
  | S f =>
      bind (peekIs R_BRACKET current) (fun closing _ =>
      if closing then Some (Ok (elements, current))
      else
        bind (parseLiteral f current) (fun v c1 =>
        bind (peekIs COMMA c1) (fun comma _ =>
        if comma then
          bind (eat COMMA c1) (fun _ c2 => arrayLoop f c2 (elements ++ [v]))
        else arrayLoop f c1 (elements ++ [v]))))
  end

(** [while (tokens[current].type !== 'R_BRACE') { ... }] *)
with objectLoop (fuel : nat) (current : nat) (obj : list (str * JSValue))
  {struct fuel} : M (list (str * JSValue)) :=
  match fuel with
  | O => None
  | S f =>
      bind (peekIs R_BRACE current) (fun closing _ =>
      if closing then Some (Ok (obj, current))
      else
        bind (eat STRING_LITERAL current) (fun keyToken c1 =>
        bind (eat COLON c1) (fun _ c2 =>
        bind (parseLiteral f c2) (fun v c3 =>
        let obj' := assignProp (propertyKey (value keyToken)) v obj in
        bind (peekIs COMMA c3) (fun comma _ =>
        if comma then
          bind (eat COMMA c3) (fun _ c4 => objectLoop f c4 obj')
        else objectLoop f c3 obj')))))
  end.

Definition parseArray (fuel : nat) (current : nat) : M JSValue :=
  parseArrayWith (arrayLoop fuel) current.

Definition parseObject (fuel : nat) (current : nat) : M JSValue :=
  parseObjectWith (objectLoop fuel) current.

Definition parseDeclaration (fuel : nat) (current : nat) : M ASTNode :=
  bind (eat TYPE current) (fun typeToken c1 =>
  bind (eat IDENTIFIER c1) (fun nameToken c2 =>
  bind (eat EQUALS c2) (fun _ c3 =>
  bind (parseLiteral fuel c3) (fun v c4 =>
  bind (eat SEMICOLON c4) (fun _ c5 =>
  Some (Ok (mkNode (value typeToken) (value nameToken) v, c5))))))).

End Cursor.

(** [parser(tokens)], with fuel for any nesting that [tokens] can hold. *)
Definition parser (tokens : list Token) : option (result ASTNode) :=
  match parseDeclaration tokens (2 * List.length tokens + 2) 0 with
  | Some (Ok (node, _)) => Some (Ok node)
  | Some (Throw e) => Some (Throw e)
  | None => None
  end.

End Parser.

(** ** src/types.ts, third part: the entry points *)

Module Index.

(** The pattern [regex] of the source, written here with blanks between
    its parts: [^ ( \w+ ) \s+ ( \w+ ) \s* = \s* ( .* ) $], with the flag [i].
    The flag changes nothing: no class of the pattern holds a cased letter
    that it does not hold in both cases. *)
Definition regex : JS.regex :=
  Cat (Plus (Cls isWord))
 (Cat (Plus (Cls isSpace))
 (Cat (Plus (Cls isWord))
 (Cat (Star (Cls isSpace))
 (Cat (Cls (fun c => c =? ch "="))
 (Cat (Star (Cls isSpace))
      (Star (Cls (fun c => negb (isLineTerminator c))))))))).

(** The pattern [variableNamingRegex]: [^ [a-zA-Z_] [a-zA-Z0-9_]* $]. *)
Definition variableNamingRegex : JS.regex :=
  Cat (Cls (fun c => isAlpha c || (c =? ch "_"))) (Star (Cls isWord)).

Definition findVarType (line : str) : str := hd [] (split (ch " ") line).

Definition findKey (lineArray : list str) : result str :=
  let rawKey :=
    match nth_error lineArray 1 with
    | Some part => trim (hd [] (split (ch "=") part))
    | None => []
    end in
  if negb (test variableNamingRegex rawKey) then Throw (InvalidName rawKey)
  else Ok rawKey.

(** [value.replace(r, '')] where the global pattern [r] is a quote at the
    start or a quote at the end: the matches are found from left to right,
    a quote at the start, then a quote at the end of what follows. *)
Definition stripQuotationMarks (v : str) : str :=
  let v1 := if startsWith v DQUOTE then tl v else v in
  match rev v1 with
  | c :: r => if c =? DQUOTE then rev r else v1
  | [] => v1
  end.

Definition findValue (line : str) : str :=
  trim (join (s2l "=") (tl (split (ch "=") line))).

(** The body of the [try] of [typeImplication]. *)
Definition typeImplication_body (varType : str) (v : str) : result JSValue :=
  if str_eqb varType "NUMBER" then
    let numValue := StringToNumber v in
    if isNaN numValue then Throw (InvalidNumber v) else Ok (JNum numValue)
  else if str_eqb varType "STRING" then Ok (JStr (stripQuotationMarks v))
  else if str_eqb varType "BOOL" then
    let lowerValue := toLowerCase v in
    if negb (str_eqb lowerValue "true" || str_eqb lowerValue "false")
    then Throw (InvalidBoolean v)
    else Ok (JBool (str_eqb lowerValue "true"))
  else if str_eqb varType "ARRAY" then
    match JSON_parse v with
    | None => Throw JSONSyntaxError
    | Some returnValue =>
        if negb (isArray returnValue) then Throw (NotAnArray v)
        else Ok returnValue
    end
  else if str_eqb varType "OBJ" then
    match JSON_parse v with
    | None => Throw JSONSyntaxError
    | Some returnValue =>
        if isArray returnValue || negb (typeofObject returnValue)
           || isNull returnValue
        then Throw (NotAnObject v)
        else Ok returnValue
    end
  else Throw (InvalidType varType).

(** [typeImplication]: whatever the body throws is thrown again, wrapped. *)
Definition typeImplication (varType : str) (v : str) : result JSValue :=
  match typeImplication_body varType v with
  | Ok r => Ok r
  | Throw e => Throw (Rethrown e)
  end.

(** The interface [ParsedEnvVar]; [vtype] and [val] are its fields [type]
    and [value].  The type is the first field of the line as it stands: it
    is one of the five names only once [typeImplication] has returned. *)
Record ParsedEnvVar := mkVar {
  key : str;
  vtype : str;
  val : JSValue
}.

(** What [console.warn] and [console.error] are called with. *)
Inductive Log :=
| SkippingInvalidLine (lineNumber : nat) (line : str)
| DuplicateVariable (key : str)
| ErrorReadingFile (e : Error)
| MissingVariables (missingKeys : list str)
| ExtraVariables (extraKeys : list str).

(** [envVars.findIndex((v) => v.key === key)], when there is one. *)
Fixpoint findIndex (k : str) (envVars : list ParsedEnvVar) : option nat :=
  match envVars with
  | [] => None
  | v :: rest =>
      if str_eqb (key v) k then Some O
      else option_map S (findIndex k rest)
  end.

(** [envVars[i] = v] at an index of the array. *)
Fixpoint setAt {A : Type} (i : nat) (v : A) (l : list A) : list A :=
  match l, i with
  | [], _ => []
  | _ :: rest, O => v :: rest
  | x :: rest, S j => x :: setAt j v rest
  end.

Definition some (k : str) (envVars : list ParsedEnvVar) : bool :=
  existsb (fun v => str_eqb (key v) k) envVars.

(** The [try] block of the callback of [lines.forEach], on the trimmed
    line: the declaration that it reads. *)
Definition readDeclaration (trimmedLine : str) : result ParsedEnvVar :=
  let lineArray := split (ch " ") trimmedLine in
  let varType := findVarType trimmedLine in
  match findKey lineArray with
  | Throw e => Throw e
  | Ok k =>
      let rawValue := findValue trimmedLine in
      match typeImplication varType rawValue with
      | Throw e => Throw e
      | Ok v => Ok (mkVar k varType v)
      end
  end.

(** The duplicate check and the store. *)
Definition store (d : ParsedEnvVar) (envVars : list ParsedEnvVar)
  : list Log * list ParsedEnvVar :=
  if some (key d) envVars then
    ([DuplicateVariable (key d)],
     match findIndex (key d) envVars with
     | Some existingIndex => setAt existingIndex d envVars
     | None => envVars
     end)
  else ([], envVars ++ [d]).

(** The callback of [lines.forEach] on the line of index [lineNumber]:
    the log that it writes, and the array after it or the exception. *)
Definition forEachLine (envVars : list ParsedEnvVar) (lineNumber : nat)
  (line : str) : list Log * result (list ParsedEnvVar) :=
  let trimmedLine := trim line in
  if match trimmedLine with [] => true | _ => false end
     || startsWith trimmedLine (ch "#")
  then ([], Ok envVars)
  else if negb (test regex trimmedLine) then
    ([SkippingInvalidLine (lineNumber + 1) line], Ok envVars)
  else
    match readDeclaration trimmedLine with
    | Ok d => let (log, envVars') := store d envVars in (log, Ok envVars')
    | Throw e => ([], Throw (ErrorParsingLine (lineNumber + 1) e))
    end.

(** [lines.forEach] from the line of index [lineNumber] on. *)
Fixpoint forEach (lines : list str) (lineNumber : nat)
  (envVars : list ParsedEnvVar) : list Log * result (list ParsedEnvVar) :=
  match lines with
  | [] => ([], Ok envVars)
  | line :: rest =>
      match forEachLine envVars lineNumber line with
      | (log, Ok envVars') =>
          let (log', r) := forEach rest (S lineNumber) envVars' in
          (log ++ log', r)
      | (log, Throw e) => (log, Throw e)
      end
  end.

(** [parseEnvFile(envPath)], given what the file system holds at
    [envPath]: [None] when no file exists there, its text otherwise. *)
Definition parseEnvFile (file : option str)
  : list Log * result (list ParsedEnvVar) :=
  match file with
  | None => ([], Throw FileNotFound)
  | Some text => forEach (split 10 text) 0 []
  end.

(** [config(options)] on the file at [options.path]: the object
    [parsedEnv], as its own properties. *)
Definition config (file : option str) (strict : bool)
  : list Log * result (list (str * JSValue)) :=
  match parseEnvFile file with
  | (log, Ok envVars) =>
      (log, Ok (fold_left (fun acc v => Parser.assignProp (key v) (val v) acc)
                          envVars []))
  | (log, Throw e) =>
      if strict then (log, Throw e)
      else (log ++ [ErrorReadingFile e], Ok [])
  end.

(** [validateEnv(env, schema)] *)
Definition validateEnv {V W : Type} (env : Obj V) (schema : Obj W)
  : list Log * bool :=
  let schemaKeys := keys schema in
  let envKeys := keys env in
  let missingKeys := filter (fun k => negb (hasProperty k env)) schemaKeys in
  if (0 <? List.length missingKeys)%nat then
    ([MissingVariables missingKeys], false)
  else
    let extraKeys := filter (fun k => negb (hasProperty k schema)) envKeys in
    (if (0 <? List.length extraKeys)%nat then [ExtraVariables extraKeys] else [],
     (List.length missingKeys =? 0)%nat).

End Index.
(** ** src/types.ts, third part: [generateTypes] and the typed entry points *)

Module Generate.
Import Index.

(** *** [JSON.stringify] on the values that [generateTypes] hands to it *)

(** A hexadecimal digit in lower case. *)
Definition hexDigit (n : N) : char := if n <? 10 then 48 + n else 87 + n.

(** [UnicodeEscape]: a backslash, the letter u and four hexadecimal digits. *)
Definition unicodeEscape (c : char) : str :=
  [ch "\"; ch "u"; hexDigit (c / 4096 mod 16); hexDigit (c / 256 mod 16);
   hexDigit (c / 16 mod 16); hexDigit (c mod 16)].

Definition isLeadSurrogate (c : char) : bool := (0xD800 <=? c) && (c <=? 0xDBFF).
Definition isTrailSurrogate (c : char) : bool := (0xDC00 <=? c) && (c <=? 0xDFFF).

(** The body of [QuoteJSONString]: the seven short escapes, an escape for
    the other control characters and for a surrogate that stands alone,
    and every other code point as it is. *)
Fixpoint quoteUnits (s : str) : str :=
  match s with
  | [] => []
  | c :: r =>
      if c =? 8 then ch "\" :: ch "b" :: quoteUnits r
      else if c =? 9 then ch "\" :: ch "t" :: quoteUnits r
      else if c =? 10 then ch "\" :: ch "n" :: quoteUnits r
      else if c =? 12 then ch "\" :: ch "f" :: quoteUnits r
      else if c =? 13 then ch "\" :: ch "r" :: quoteUnits r
      else if c =? DQUOTE then ch "\" :: DQUOTE :: quoteUnits r
      else if c =? ch "\" then ch "\" :: ch "\" :: quoteUnits r
      else if c <? 32 then unicodeEscape c ++ quoteUnits r
      else if isLeadSurrogate c then
        match r with
        | d :: r' =>
            if isTrailSurrogate d then c :: d :: quoteUnits r'
            else unicodeEscape c ++ quoteUnits r
        | [] => unicodeEscape c
        end
      else if isTrailSurrogate c then unicodeEscape c ++ quoteUnits r
      else c :: quoteUnits r
  end.

Definition QuoteJSONString (s : str) : str := DQUOTE :: quoteUnits s ++ [DQUOTE].

(** [JSON.stringify(a)] for an array [a] of strings. *)
Definition stringifyStrings (a : list str) : str :=
  ch "[" :: join (s2l ",") (map QuoteJSONString a) ++ [ch "]"].

(** [JSON.stringify(o, null, 2)] for an object [o] whose values are
    strings: its properties in the order in which they are listed, each on
    a line of its own behind two blanks. *)
Definition stringifyRecord (o : list (str * str)) : str :=
  match ownPropertyOrder o with
  | [] => s2l "{}"
  | kv :: rest =>
      ch "{" :: 10 :: s2l "  "
      ++ join (ch "," :: 10 :: s2l "  ")
              (map (fun kv => QuoteJSONString (fst kv) ++ s2l ": "
                              ++ QuoteJSONString (snd kv)) (kv :: rest))
      ++ [10; ch "}"]
  end.

(** *** [generateTypes] *)

(** The argument [options]; a field that is absent is [None]. *)
Record Options := mkOptions {
  interfaceName : option str;
  includeComments : option bool;
  exportSchema : option bool
}.

(** A parameter with a default value. *)
Definition orDefault {A : Type} (d : A) (o : option A) : A :=
  match o with
  | Some a => a
  | None => d
  end.

(** The lookup of the TypeScript type in the object literal of the
    callback.  A type that is none of the five never comes from
    [parseEnvFile]; [None] stands for what the lookup gives then. *)
Definition tsType (type : str) : option str :=
  if str_eqb type "NUMBER" then Some (s2l "number")
  else if str_eqb type "STRING" then Some (s2l "string")
  else if str_eqb type "BOOL" then Some (s2l "boolean")
  else if str_eqb type "ARRAY" then Some (s2l "any[]")
  else if str_eqb type "OBJ" then Some (s2l "Record<string, any>")
  else None.

(** The object [schema] of the [reduce]: each key with its type. *)
Definition schemaOf (envVars : list ParsedEnvVar) : list (str * str) :=
  fold_left (fun acc v => Parser.assignProp (key v) (vtype v) acc) envVars [].

(** The comment at the head of the file. *)
Definition header (envPath now : str) : str :=
  s2l "/**" ++ 10 :: s2l " * Auto-generated TypeScript types for environment variables"
  ++ 10 :: s2l " * Generated from: " ++ envPath
  ++ 10 :: s2l " * Generated at: " ++ now
  ++ 10 :: s2l " * "
  ++ 10 :: s2l " * DO NOT EDIT THIS FILE MANUALLY"
  ++ 10 :: s2l " * Run generateTypes() to regenerate when .env changes"
  ++ 10 :: s2l " */" ++ [10; 10].

(** What the callback of [envVars.forEach] adds to [content]. *)
Definition member (comments : bool) (v : ParsedEnvVar) : str :=
  (if comments then s2l "  /** Type: " ++ vtype v ++ s2l " */" ++ [10] else [])
  ++ s2l "  " ++ key v ++ s2l ": "
  ++ orDefault (s2l "undefined") (tsType (vtype v)) ++ s2l ";" ++ [10].

(** The text [content] that is written, with [now] what
    [new Date().toISOString()] gives. *)
Definition content (envPath now name : str) (comments schema : bool)
  (envVars : list ParsedEnvVar) : str :=
  (if comments then header envPath now else [])
  ++ s2l "export interface " ++ name ++ s2l " {" ++ [10]
  ++ concat (map (member comments) envVars)
  ++ s2l "}" ++ [10; 10]
  ++ (if schema then
        s2l "export const envSchema = " ++ stringifyRecord (schemaOf envVars)
        ++ s2l " as const;" ++ [10; 10]
      else [])
  ++ s2l "export type EnvKey = keyof " ++ name ++ s2l ";" ++ [10]
  ++ s2l "export type EnvType = "
  ++ join (s2l " | ")
          (map (fun v => ch "'" :: vtype v ++ [ch "'"]) envVars)
  ++ s2l ";" ++ [10; 10]
  ++ s2l "// Utility function to get environment variable keys" ++ [10]
  ++ s2l "export const envKeys: EnvKey[] = "
  ++ stringifyStrings (map key envVars) ++ s2l ";" ++ [10; 10]
  ++ s2l "// Type guard to check if a key exists in the environment config"
  ++ 10 :: s2l "export function isEnvKey(key: string): key is EnvKey {"
  ++ 10 :: s2l "  return envKeys.includes(key as EnvKey);"
  ++ 10 :: s2l "}" ++ [10].

(** The file system and the clock as [generateTypes] meets them:
    - [readFile p] is the text of the file at [p], when one exists there;
    - [dirname p] is [path.dirname(p)];
    - [existsSync d] is what [fs.existsSync(d)] returns;
    - [mkdirSync d] is [None] when [fs.mkdirSync(d, { recursive: true })]
      returns, and the exception that it throws otherwise;
    - [writeFileSync p text] is [None] when [fs.writeFileSync(p, text)]
      returns, and the exception that it throws otherwise;
    - [timestamp] is what [new Date().toISOString()] returns. *)
Record World := mkWorld {
  readFile : str -> option str;
  dirname : str -> str;
  existsSync : str -> bool;
  mkdirSync : str -> option Error;
  writeFileSync : str -> str -> option Error;
  timestamp : str
}.

(** What [generateTypes] does to the world, in the order in which it does
    it: what [parseEnvFile] logs, its own messages, and the calls of
    [fs.mkdirSync] and of [fs.writeFileSync], whether they return or
    throw. *)
Inductive Effect :=
| Console (l : Log)
| WarnNoVariables
| Mkdir (outputDir : str)
| WriteFile (outputPath text : str)
| LogGenerated (count : nat)
| LogOutput (outputPath : str)
| LogInterface (name : str)
| LogVariablesHeader
| LogVariable (key type : str)
| ErrorGeneratingTypes (e : Error).

(** The messages behind the write. *)
Definition report (outputPath name : str) (comments : bool)
  (envVars : list ParsedEnvVar) : list Effect :=
  [LogGenerated (List.length envVars); LogOutput outputPath;
   LogInterface name]
  ++ (if comments then
        LogVariablesHeader
        :: map (fun v => LogVariable (key v) (vtype v)) envVars
      else []).

(** [generateTypes(envPath, outputPath, options)] in a world [w].  Whatever
    is thrown inside the [try], by [parseEnvFile] or by a call of [fs], is
    caught, reported and thrown again. *)
Definition generateTypes (w : World)
  (envPathArg outputPathArg : option str) (options : option Options)
  : list Effect * result unit :=
  let envPath := orDefault (s2l ".env") envPathArg in
  let outputPath := orDefault (s2l "./src/types/env-types.ts") outputPathArg in
  let opts := orDefault (mkOptions None None None) options in
  let name := orDefault (s2l "EnvConfig") (interfaceName opts) in
  let comments := orDefault true (includeComments opts) in
  let schema := orDefault true (exportSchema opts) in
  match parseEnvFile (readFile w envPath) with
  | (log, Throw e) => (map Console log ++ [ErrorGeneratingTypes e], Throw e)
  | (log, Ok []) => (map Console log ++ [WarnNoVariables], Ok tt)
  | (log, Ok envVars) =>
      let outputDir := dirname w outputPath in
      let text := content envPath (timestamp w) name comments schema envVars in
      if existsSync w outputDir then
        match writeFileSync w outputPath text with
        | Some e =>
            (map Console log
             ++ [WriteFile outputPath text; ErrorGeneratingTypes e], Throw e)
        | None =>
            (map Console log ++ WriteFile outputPath text
                                :: report outputPath name comments envVars,
             Ok tt)
        end
      else
        match mkdirSync w outputDir with
        | Some e =>
            (map Console log ++ [Mkdir outputDir; ErrorGeneratingTypes e],
             Throw e)
        | None =>
            match writeFileSync w outputPath text with
            | Some e =>
                (map Console log
                 ++ [Mkdir outputDir; WriteFile outputPath text;
                     ErrorGeneratingTypes e], Throw e)
            | None =>
                (map Console log
                 ++ Mkdir outputDir :: WriteFile outputPath text
                    :: report outputPath name comments envVars,
                 Ok tt)
            end
        end
  end.

(** *** [config] with its argument, and [createTypedConfig] *)

(** The argument [options] of [config].  The field [encoding] is never
    read: the file is read as UTF-8. *)
Record ConfigOptions := mkConfigOptions {
  path : option str;
  encoding : option str;
  strict : option bool
}.

(** [config(options)], given the file system: [options?.path || '.env']
    takes the default for the empty path too. *)
Definition configOf (readFile : str -> option str)
  (options : option ConfigOptions)
  : list Log * result (list (str * JSValue)) :=
  let envPath :=
    match options with
    | Some o => match path o with
                | Some (c :: p) => c :: p
                | _ => s2l ".env"
                end
    | None => s2l ".env"
    end in
  let strict :=
    match options with
    | Some o => orDefault false (strict o)
    | None => false
    end in
  config (readFile envPath) strict.

(** [createTypedConfig()] is the function that calls [config]. *)
Definition createTypedConfig (readFile : str -> option str)
  : option ConfigOptions -> list Log * result (list (str * JSValue)) :=
  fun options => configOf readFile options.

End Generate.

(** ** src/types.ts, second part again: [parser] on a call stack *)

(** [Parser] has the functions of [parser] as the language defines them,
    on a call stack without a limit.  An engine holds a limited number of
    calls, and [parseLiteral] calls itself, through [parseArray] and
    [parseObject], once for every literal inside a literal.  Here are the
    same functions with that limit: [stack] is the number of calls of
    [parseLiteral] that the engine still holds one inside the other, and
    the call that would be one more throws its RangeError, which nothing
    in [parser] catches.  The loops, [eat] and the reading of a token are
    those of [Parser]. *)
Module CallStack.
Import Parser.

Section Cursor.

Variable tokens : list Token.

Fixpoint parseLiteral (fuel : nat) (stack : nat) (current : nat) {struct fuel}
  : M JSValue :=
  match fuel with
  | O => None
  | S f =>
      match stack with
      | O => Some (Throw RangeError)
      | S deeper =>
          match nth_error tokens current with
          | None => Some (Throw TypeErrorUndefined)
          | Some token =>
              match type token with
              | STRING_LITERAL => Some (Ok (valueOf (value token), S current))
              | NUMBER_LITERAL =>
                  Some (Ok (JNum (NumberOf (value token)), S current))
              | BOOLEAN_LITERAL =>
                  Some (Ok (JBool (match value token with
                                   | Some s => str_eqb s "true"
                                   | None => false
                                   end), S current))
              | L_BRACKET => parseArrayWith tokens (arrayLoop f deeper) current
              | L_BRACE => parseObjectWith tokens (objectLoop f deeper) current
              | t => Some (Throw (UnexpectedLiteralToken t))
              end
          end
      end
  end

with arrayLoop (fuel : nat) (stack : nat) (current : nat)
  (elements : list JSValue) {struct fuel} : M (list JSValue) :=
  match fuel with
  | O => None
  | S f =>
      bind (peekIs tokens R_BRACKET current) (fun closing _ =>
      if closing then Some (Ok (elements, current))
      else
        bind (parseLiteral f stack current) (fun v c1 =>
        bind (peekIs tokens COMMA c1) (fun comma _ =>
        if comma then
          bind (eat tokens COMMA c1)
               (fun _ c2 => arrayLoop f stack c2 (elements ++ [v]))
        else arrayLoop f stack c1 (elements ++ [v]))))
  end

with objectLoop (fuel : nat) (stack : nat) (current : nat)
  (obj : list (str * JSValue)) {struct fuel} : M (list (str * JSValue)) :=
  match fuel with
  | O => None
  | S f =>
      bind (peekIs tokens R_BRACE current) (fun closing _ =>
      if closing then Some (Ok (obj, current))
      else
        bind (eat tokens STRING_LITERAL current) (fun keyToken c1 =>
        bind (eat tokens COLON c1) (fun _ c2 =>
        bind (parseLiteral f stack c2) (fun v c3 =>
        let obj' := assignProp (propertyKey (value keyToken)) v obj in
        bind (peekIs tokens COMMA c3) (fun comma _ =>
        if comma then
          bind (eat tokens COMMA c3) (fun _ c4 => objectLoop f stack c4 obj')
        else objectLoop f stack c3 obj')))))
  end.

Definition parseDeclaration (fuel : nat) (stack : nat) (current : nat)
  : M ASTNode :=
  bind (eat tokens TYPE current) (fun typeToken c1 =>
  bind (eat tokens IDENTIFIER c1) (fun nameToken c2 =>
  bind (eat tokens EQUALS c2) (fun _ c3 =>
  bind (parseLiteral fuel stack c3) (fun v c4 =>
  bind (eat tokens SEMICOLON c4) (fun _ c5 =>
  Some (Ok (mkNode (value typeToken) (value nameToken) v, c5))))))).

End Cursor.

(** [parser(tokens)] on an engine whose stack holds [stack] calls of
    [parseLiteral]. *)
Definition parser (stack : nat) (tokens : list Token)
  : option (result ASTNode) :=
  match parseDeclaration tokens (2 * List.length tokens + 2) stack 0 with
  | Some (Ok (node, _)) => Some (Ok node)
  | Some (Throw e) => Some (Throw e)
  | None => None
  end.

End CallStack.


(** * Notions of the statements *)

(** The predicates, counts and example texts that the properties below are
    stated with.  None of them is part of the program. *)

Module Notions.
Import Lexer Parser Index.

(** The line feed, code unit 10. *)
Definition LF : char := 10.

(** *** Strings *)

(** A string that starts and ends outside the white space. *)
Definition solid (s : str) : Prop :=
  match s, rev s with
  | c :: _, d :: _ => isSpace c = false /\ isSpace d = false
  | _, _ => False
  end.

Definition isnt (sep : char) (c : char) : bool := negb (c =? sep).

Definition noSpace (c : char) : bool := negb (isSpace c).

(** A character of a field of a line: neither the blank nor the equals
    sign. *)
Definition fieldChar (c : char) : bool := isnt (ch " ") c && isnt (ch "=") c.

(** *** Numerals *)

(** The sign of a numeral: none, plus, or minus. *)
Definition signOf (sign : str) (neg : bool) : Prop :=
  (sign = [] /\ neg = false) \/ (sign = [ch "+"] /\ neg = false)
  \/ (sign = [ch "-"] /\ neg = true).

(** The part of a numeral behind the integer digits: nothing, or a point
    and the fraction digits [fp]. *)
Definition fraction (fp frac : str) : Prop :=
  (frac = [] /\ fp = []) \/ frac = ch "." :: fp.

(** *** The splitter *)

(** The state [st] with the statements [ds] in place of its own. *)
Definition withDeclarations (ds : list str) (st : LexState) : LexState :=
  mkLex ds (buffer st) (inString st) (stringChar st)
        (braceDepth st) (bracketDepth st).

(** The notions of the splitter as they are read off a text alone, without
    the scanner.  A quote opens a string when none is open, and the same
    quote closes it: [openQuote q s] is the quote that is open behind [s],
    when [q] is the one open before it. *)
Fixpoint openQuote (q : option char) (s : str) : option char :=
  match s with
  | [] => q
  | c :: r =>
      match q with
      | None => openQuote (if isQuote c then Some c else None) r
      | Some q0 => openQuote (if c =? q0 then None else q) r
      end
  end.

(** The characters of [s] that stand outside the quoted strings, the
    quotes left out. *)
Fixpoint outside (q : option char) (s : str) : str :=
  match s with
  | [] => []
  | c :: r =>
      match q with
      | None => if isQuote c then outside (Some c) r else c :: outside None r
      | Some q0 => outside (if c =? q0 then None else q) r
      end
  end.

(** How often [c] occurs in [s]. *)
Definition count (c : char) (s : str) : Z :=
  Z.of_nat (List.length (filter (N.eqb c) s)).

(** The nesting depth behind [s] for a pair of an opening and a closing
    character: the opening ones less the closing ones, outside the
    strings. *)
Definition depth (opening closing : char) (s : str) : Z :=
  (count opening (outside None s) - count closing (outside None s))%Z.

(** A separator behind [pre] stands at the top level: outside every string
    and with both nesting depths zero. *)
Definition topLevel (pre : str) : bool :=
  match openQuote None pre with Some _ => false | None => true end
  && (depth (ch "{") (ch "}") pre =? 0)%Z
  && (depth (ch "[") (ch "]") pre =? 0)%Z.

(** The statements of a text as the specification words them: the text is
    cut behind every separator at the top level and each piece is trimmed;
    what is left at the end is a last statement when it is not blank.
    [pre] is the text read so far, [cur] the statement begun, [rest] the
    text to read. *)
Fixpoint topLevelStatements (pre cur rest : str) : list str :=
  match rest with
  | [] => match trim cur with
          | [] => []
          | _ :: _ => [trim cur]
          end
  | c :: r =>
      if (c =? ch ";") && topLevel pre
      then trim (cur ++ [c]) :: topLevelStatements (pre ++ [c]) [] r
      else topLevelStatements (pre ++ [c]) (cur ++ [c]) r
  end.

(** A text with separators between braces and between brackets, outside
    every string. *)
Definition separators_example : str :=
  dq "OBJ O={`a`:1;`b`:[2;3]};NUMBER N=4".

(** *** Tokens *)

Definition stringToken (s : str) : Token := mkToken STRING_LITERAL (Some s).

(** The type of the token at an index, when there is one. *)
Definition typeAt (tokens : list Token) (c : nat) : option TokenType :=
  option_map type (nth_error tokens c).

(** The statement of the nesting-robustness property of the specification. *)
Definition nesting_example : str :=
  dq "ARRAY ITEMS=[{`a`: `;`, `b`: [1,2]}, {`a`: `x`}]".

(** The tokens of [ARRAY X=[1,,];]. *)
Definition array_double_comma : list Token :=
  [mkToken TYPE (Some (s2l "ARRAY")); mkToken IDENTIFIER (Some (s2l "X"));
   punct EQUALS; punct L_BRACKET;
   mkToken NUMBER_LITERAL (Some (s2l "1")); punct COMMA; punct COMMA;
   punct R_BRACKET; punct SEMICOLON; punct EOF].

(** The tokens of [ARRAY X=[1,];]. *)
Definition array_trailing_comma : list Token :=
  [mkToken TYPE (Some (s2l "ARRAY")); mkToken IDENTIFIER (Some (s2l "X"));
   punct EQUALS; punct L_BRACKET;
   mkToken NUMBER_LITERAL (Some (s2l "1")); punct COMMA;
   punct R_BRACKET; punct SEMICOLON; punct EOF].

(** The tokens of an OBJ statement whose literal is the member of the key
    [k], a comma and the closing brace. *)
Definition object_trailing_comma : list Token :=
  [mkToken TYPE (Some (s2l "OBJ")); mkToken IDENTIFIER (Some (s2l "X"));
   punct EQUALS; punct L_BRACE;
   mkToken STRING_LITERAL (Some (s2l "k")); punct COLON;
   mkToken NUMBER_LITERAL (Some (s2l "1")); punct COMMA;
   punct R_BRACE; punct SEMICOLON; punct EOF].

(** *** Lines *)

(** A line of the shape that [regex] accepts: a word [T], white space, a
    word [N], maybe white space, the equals sign, and a rest made of white
    space and then of characters that are no line terminators. *)
Definition Shape (s : str) : Prop :=
  exists T ws N ws' w t,
    s = T ++ ws ++ N ++ ws' ++ ch "=" :: w ++ t
    /\ (T <> [] /\ forallb isWord T = true)
    /\ (ws <> [] /\ forallb isSpace ws = true)
    /\ (N <> [] /\ forallb isWord N = true)
    /\ forallb isSpace ws' = true
    /\ forallb isSpace w = true
    /\ forallb (fun c => negb (isLineTerminator c)) t = true.

(** A name that [variableNamingRegex] accepts: a letter or an underscore,
    then letters, digits and underscores. *)
Definition validName (k : str) : Prop :=
  exists c r, k = c :: r /\ (isAlpha c || (c =? ch "_")) = true
              /\ forallb isWord r = true.

(** The name part of a line of that shape, the second group of [regex]:
    the word behind the first word and the white space after it. *)
Definition namePart (s : str) : str :=
  fst (span isWord (snd (span isSpace (snd (span isWord s))))).

(** The test of the first [if] of the callback, on the trimmed line: blank
    or comment. *)
Definition skipped (trimmedLine : str) : bool :=
  match trimmedLine with [] => true | _ => false end
  || startsWith trimmedLine (ch "#").

(** A file of five lines: a declaration, a comment, a line without an
    equals sign, a number that is none, a declaration. *)
Definition tiers_example : str :=
  s2l "NUMBER A=1" ++ LF :: s2l "# note" ++ LF :: s2l "no equals here"
  ++ LF :: s2l "NUMBER B=x" ++ LF :: s2l "NUMBER C=3".

(** *** Declarations and the store *)

(** The declaration that a line holds, when it holds one. *)
Definition declarationOf (line : str) : option ParsedEnvVar :=
  let t := trim line in
  if skipped t then None
  else if negb (test regex t) then None
  else match readDeclaration t with
       | Ok d => Some d
       | Throw _ => None
       end.

(** The declarations of the lines, in the order of the file. *)
Definition declared (lines : list str) : list ParsedEnvVar :=
  flat_map (fun line => match declarationOf line with
                        | Some d => [d]
                        | None => []
                        end) lines.

Definition hasKey (K : str) (v : ParsedEnvVar) : bool := str_eqb (key v) K.

(** The last declaration of the key [K]. *)
Definition lastDeclaration (K : str) (ds : list ParsedEnvVar)
  : option ParsedEnvVar :=
  fold_left (fun acc d => if hasKey K d then Some d else acc) ds None.

(** The keys in the order in which they are first seen, after [acc]. *)
Definition firstSeen (ks : list str) (acc : list str) : list str :=
  fold_left (fun acc k =>
               if existsb (fun k' => str_eqb k' k) acc then acc else acc ++ [k])
            ks acc.

(** How often [K] is declared. *)
Definition declCount (K : str) (ds : list ParsedEnvVar) : nat :=
  List.length (filter (hasKey K) ds).

Definition isDuplicateWarning (K : str) (l : Log) : bool :=
  match l with
  | DuplicateVariable k => str_eqb k K
  | _ => false
  end.

(** How often the log warns of a duplicate of [K]. *)
Definition duplicateWarnings (K : str) (log : list Log) : nat :=
  List.length (filter (isDuplicateWarning K) log).

(** The array after the declarations [ds] are stored one after the other. *)
Definition storeAll (ds : list ParsedEnvVar) (envVars : list ParsedEnvVar)
  : list ParsedEnvVar :=
  fold_left (fun vs d => snd (store d vs)) ds envVars.

(** The file of the duplicate-key property of the specification. *)
Definition duplicate_example : str :=
  s2l "STRING NAME=First" ++ LF :: s2l "STRING NAME=Second".

End Notions.
(** * Further notions *)

(** The predicates and texts that the further properties are stated with.
    None of them is part of the program. *)

Module Terms.
Import Lexer Parser Index Notions.

(** *** The splitter *)

(** What the splitter holds of the input read so far: the statements
    emitted and the buffer. *)
Definition kept (st : LexState) : str := concat (declarations st) ++ buffer st.

Definition endsWith (s : str) (c : char) : Prop := exists m, s = m ++ [c].

(** A character that the splitter only appends to its buffer: no quote, no
    brace, no bracket and no separator. *)
Definition plain (c : char) : bool :=
  negb (isQuote c || (c =? ch "{") || (c =? ch "}") || (c =? ch "[")
        || (c =? ch "]") || (c =? ch ";")).

(** A statement without its separator that starts outside the white space,
    when it is not empty, and is made of plain characters. *)
Definition plainStatement (d : str) : Prop :=
  match d with
  | c :: _ => isSpace c = false
  | [] => True
  end /\ forallb plain d = true.

Definition closed (d : str) : str := d ++ [ch ";"].

(** *** Lines and values *)

(** The kind of a value, by the name of the type that declares it. *)
Definition kindOf (v : JSValue) : option str :=
  match v with
  | JNum _ => Some (s2l "NUMBER")
  | JStr _ => Some (s2l "STRING")
  | JBool _ => Some (s2l "BOOL")
  | JArr _ => Some (s2l "ARRAY")
  | JObj _ => Some (s2l "OBJ")
  | JUndefined | JNull => None
  end.

(** A variable whose value is of the kind that its type names, and no
    NaN. *)
Definition wellTyped (v : ParsedEnvVar) : Prop :=
  kindOf (val v) = Some (vtype v)
  /\ forall n, val v = JNum n -> isNaN n = false.

(** [v] is the word [lower], of small letters, in any mix of cases. *)
Definition spelled (lower : str) (v : str) : Prop :=
  Forall2 (fun l c => c = l \/ c + 32 = l) lower v.

(** The line of a type, one blank, a key, the equals sign and a value. *)
Definition declarationLine (T K v : str) : str := T ++ ch " " :: K ++ ch "=" :: v.

(** The text with a carriage return before every line feed. *)
Definition crlf (text : str) : str :=
  flat_map (fun c => if c =? LF then [13; LF] else [c]) text.

(** The lines of a text with a carriage return at the end of each line
    but the last. *)
Fixpoint addCR (lines : list str) : list str :=
  match lines with
  | [] => []
  | [l] => [l]
  | l :: rest => (l ++ [13]) :: addCR rest
  end.

Definition notProto (v : ParsedEnvVar) : bool :=
  negb (str_eqb (key v) "__proto__").

(** The own properties of [parsedEnv]: the variables but the one that is
    called [__proto__]. *)
Definition ownProperties (envVars : list ParsedEnvVar) : list (str * JSValue) :=
  map (fun v => (key v, val v)) (filter notProto envVars).

(** An object with other values under the same names. *)
Definition mapValues {V W : Type} (f : V -> W) (o : Obj V) : Obj W :=
  mkObj (map (fun kv => (fst kv, f (snd kv))) (own o)) (inherited o).

(** A record of strings as a value: each string a string value. *)
Definition recordValue (o : list (str * str)) : JSValue :=
  JObj (map (fun kv => (fst kv, JStr (snd kv))) o).

(** A string of letters, digits and underscores. *)
Definition wordy (s : str) : Prop := forallb isWord s = true.

(** The text of a member of a record: the key, a colon, a blank and the
    value. *)
Definition memberText (kv : str * str) : str :=
  Generate.QuoteJSONString (fst kv) ++ s2l ": "
  ++ Generate.QuoteJSONString (snd kv).

(** A string between two double quotes, as it stands. *)
Definition quoted (s : str) : str := DQUOTE :: s ++ [DQUOTE].

(** The text of an array of strings in which nothing is escaped. *)
Definition plainArray (ks : list str) : str :=
  ch "[" :: join (s2l ",") (map quoted ks) ++ [ch "]"].

(** The text of a record of strings in which nothing is escaped: each
    member on a line of its own behind two blanks, in the order of the
    record. *)
Definition plainRecord (o : list (str * str)) : str :=
  match o with
  | [] => s2l "{}"
  | _ :: _ =>
      ch "{" :: LF :: s2l "  "
      ++ join (ch "," :: LF :: s2l "  ")
              (map (fun kv => quoted (fst kv) ++ s2l ": " ++ quoted (snd kv)) o)
      ++ [LF; ch "}"]
  end.

(** The calls of [fs] that write, among the effects, in their order. *)
Definition isCall (e : Generate.Effect) : bool :=
  match e with
  | Generate.Mkdir _ | Generate.WriteFile _ _ => true
  | _ => false
  end.

Definition calls (effects : list Generate.Effect) : list Generate.Effect :=
  filter isCall effects.

(** A message of the report that follows the write. *)
Definition isReport (e : Generate.Effect) : bool :=
  match e with
  | Generate.LogGenerated _ | Generate.LogOutput _ | Generate.LogInterface _
  | Generate.LogVariablesHeader | Generate.LogVariable _ _ => true
  | _ => false
  end.

(** A run that fails with [e]: [e] is thrown, the last thing done is the
    message of the error, and no message of the report is printed. *)
Definition failedWith (run : list Generate.Effect * result unit) (e : Error)
  : Prop :=
  snd run = Throw e
  /\ existsb isReport (fst run) = false
  /\ exists effects, fst run = effects ++ [Generate.ErrorGeneratingTypes e].

(** A world with the text [text] at every path, in which the directory of
    the output exists and every call of [fs] returns. *)
Definition worldOf (text : str) : Generate.World :=
  Generate.mkWorld (fun _ => Some text) (fun _ => s2l "./src/types")
                   (fun _ => true) (fun _ => None) (fun _ _ => None)
                   (s2l "2024-01-01T00:00:00.000Z").

(** *** The tokenizer *)

(** The token of a punctuation character. *)
Definition punctOf (c : char) : option TokenType :=
  if c =? ch "=" then Some EQUALS
  else if c =? ch ";" then Some SEMICOLON
  else if c =? ch "{" then Some L_BRACE
  else if c =? ch "}" then Some R_BRACE
  else if c =? ch "[" then Some L_BRACKET
  else if c =? ch "]" then Some R_BRACKET
  else if c =? ch "," then Some COMMA
  else if c =? ch ":" then Some COLON
  else None.

(** A character at which the outer loop of [tokenize] does not throw. *)
Definition startable (c : char) : bool :=
  isWhitespace c
  || match punctOf c with Some _ => true | None => false end
  || (c =? DQUOTE) || isNumeric c || isAlpha c.

Definition isPunct (t : TokenType) : bool :=
  match t with
  | EQUALS | SEMICOLON | L_BRACE | R_BRACE | L_BRACKET | R_BRACKET
  | COMMA | COLON => true
  | _ => false
  end.

(** What a token of [tokenize] looks like, by its type. *)
Definition wellFormed (t : Token) : Prop :=
  match type t with
  | EQUALS | SEMICOLON | L_BRACE | R_BRACE | L_BRACKET | R_BRACKET
  | COMMA | COLON => value t = None
  | STRING_LITERAL => exists s, value t = Some s /\ ~ In DQUOTE s
  | NUMBER_LITERAL =>
      exists ds, value t = Some ds /\ ds <> [] /\ forallb isDigit ds = true
  | TYPE => exists w, value t = Some w /\ In w keywords
  | BOOLEAN_LITERAL =>
      value t = Some (s2l "true") \/ value t = Some (s2l "false")
  | IDENTIFIER =>
      exists c w, value t = Some (c :: w) /\ isAlpha c = true
                  /\ forallb isWord w = true /\ ~ In (c :: w) keywords
                  /\ c :: w <> s2l "true" /\ c :: w <> s2l "false"
  | _ => False
  end.

(** A word that [tokenize] reads as an IDENTIFIER: a letter, then
    letters, digits and underscores, and none of the words with a meaning
    of their own. *)
Definition identifierWord (w : str) : Prop :=
  (exists c r, w = c :: r /\ isAlpha c = true /\ forallb isWord r = true)
  /\ ~ In w keywords /\ w <> s2l "true" /\ w <> s2l "false".

(** *** The parser *)

(** The cursor stands at or before an EOF token. *)
Definition beforeEOF (tokens : list Token) (c : nat) : Prop :=
  exists j, (c <= j)%nat /\ typeAt tokens j = Some EOF.

(** The errors that [parser] throws itself, on a token that is there. *)
Definition ownError (e : Error) : Prop :=
  (exists t g, e = Expected t (Some g)) \/ exists t, e = UnexpectedLiteralToken t.

(** What a run on a token list with an EOF may give. *)
Definition guarded {A : Type} (tokens : list Token) (m : M A) : Prop :=
  match m with
  | Some (Ok (_, c')) => beforeEOF tokens c'
  | Some (Throw e) => ownError e
  | None => True
  end.

(** A token that opens a literal inside which literals stand. *)
Definition isOpener (t : Token) : bool :=
  match type t with
  | L_BRACKET | L_BRACE => true
  | _ => false
  end.

(** The opening brackets and braces of a list of tokens. *)
Definition openers (tokens : list Token) : nat :=
  List.length (filter isOpener tokens).

(** What a run on a call stack gives next to the run without a limit: the
    same, or the RangeError. *)
Definition within {A : Type} (limited unlimited : option (result A)) : Prop :=
  limited = Some (Throw RangeError) \/ limited = unlimited.

(** A token that is a literal by itself. *)
Definition simpleLiteral (t : Token) : bool :=
  match type t with
  | STRING_LITERAL | NUMBER_LITERAL | BOOLEAN_LITERAL => true
  | _ => false
  end.

(** The value that [parseLiteral] gives for such a token. *)
Definition literalValue (t : Token) : JSValue :=
  match type t with
  | NUMBER_LITERAL => JNum (NumberOf (value t))
  | BOOLEAN_LITERAL =>
      JBool (match value t with Some s => str_eqb s "true" | None => false end)
  | _ => valueOf (value t)
  end.

(** The tokens of elements, each with a comma behind it or without. *)
Definition elementTokens (items : list (Token * bool)) : list Token :=
  flat_map (fun item : Token * bool => if snd item then [fst item; punct COMMA]
                        else [fst item]) items.

(** The tokens of members, each a key, a colon and a literal token, with a
    comma behind it or without. *)
Definition memberTokens (items : list (str * Token * bool)) : list Token :=
  flat_map (fun item : str * Token * bool =>
              let '(k, t, comma) := item in
              if comma then [stringToken k; punct COLON; t; punct COMMA]
              else [stringToken k; punct COLON; t]) items.

(** The object that the members make, written one after the other into
    [obj]. *)
Definition membersObject (items : list (str * Token * bool))
  (obj : list (str * JSValue)) : list (str * JSValue) :=
  fold_left (fun o (item : str * Token * bool) =>
               let '(k, t, _) := item in assignProp k (literalValue t) o)
            items obj.

(** The head of a declaration: type, name and equals sign. *)
Definition declarationHead (T N : option str) : list Token :=
  [mkToken TYPE T; mkToken IDENTIFIER N; punct EQUALS].

(** *** Statements of the declaration language *)

(** A literal of one token, as it is written. *)
Inductive SimpleLit :=
| LitString (s : str)
| LitNumber (ds : str)
| LitBoolean (b : bool).

Definition litText (l : SimpleLit) : str :=
  match l with
  | LitString s => DQUOTE :: s ++ [DQUOTE]
  | LitNumber ds => ds
  | LitBoolean true => s2l "true"
  | LitBoolean false => s2l "false"
  end.

(** A string literal holds no double quote, a number literal is digits. *)
Definition litOk (l : SimpleLit) : Prop :=
  match l with
  | LitString s => ~ In DQUOTE s
  | LitNumber ds => ds <> [] /\ forallb isDigit ds = true
  | LitBoolean _ => True
  end.

Definition litToken (l : SimpleLit) : Token :=
  match l with
  | LitString s => stringToken s
  | LitNumber ds => mkToken NUMBER_LITERAL (Some ds)
  | LitBoolean b => mkToken BOOLEAN_LITERAL (Some (litText l))
  end.

(** The value that the literal denotes: the string as it stands, the
    binary64 value nearest to the decimal integer, the truth value. *)
Definition litValue (l : SimpleLit) : JSValue :=
  match l with
  | LitString s => JStr s
  | LitNumber ds => JNum (roundDecimal false (digitsValue 10 ds) 0)
  | LitBoolean b => JBool b
  end.

(** The statement of a type, a name and a literal, with one blank between
    the parts. *)
Definition statementText (T N : str) (l : SimpleLit) : str :=
  T ++ ch " " :: N ++ s2l " = " ++ litText l ++ [ch ";"].

Definition statementTokens (T N : str) (l : SimpleLit) : list Token :=
  [mkToken TYPE (Some T); mkToken IDENTIFIER (Some N); punct EQUALS;
   litToken l; punct SEMICOLON; punct EOF].

End Terms.

(** * Properties *)

(** ** Strings, classes and regular expressions *)

Module JSFacts.
Import Notions.

Lemma str_eqb_eq (a b : str) : str_eqb a b = true <-> a = b.
Proof. unfold str_eqb. destruct (list_eq_dec N.eq_dec a b); split; congruence. Qed.

Lemma str_eqb_refl (a : str) : str_eqb a a = true.
Proof. now apply str_eqb_eq. Qed.

Lemma str_eqb_neq (a b : str) : str_eqb a b = false <-> a <> b.
Proof. unfold str_eqb. destruct (list_eq_dec N.eq_dec a b); split; congruence. Qed.

(** *** Classes of code units *)

Ltac norm_ch :=
  repeat match goal with
         | |- context [ch ?a] =>
             let v := eval vm_compute in (ch a) in change (ch a) with v
         | H : context [ch ?a] |- _ =>
             let v := eval vm_compute in (ch a) in change (ch a) with v in H
         end.

Ltac unit_solve :=
  intros;
  unfold isWord, isAlpha, isUpper, isLower, isDigit, isSpace,
    isLineTerminator, DQUOTE, SQUOTE in *;
  norm_ch;
  repeat match goal with
         | |- ?b = false => destruct b eqn:?; [exfalso|reflexivity]
         | H : _ = false |- _ => apply not_true_iff_false in H
         end;
  repeat rewrite ?orb_true_iff, ?andb_true_iff, ?negb_true_iff,
    ?N.eqb_eq, ?N.leb_le, ?N.eqb_neq, ?N.ltb_lt in *;
  try lia.

Lemma word_not_space (c : char) : isWord c = true -> isSpace c = false.
Proof. unit_solve. Qed.

Lemma space_not_word (c : char) : isSpace c = true -> isWord c = false.
Proof. unit_solve. Qed.

Lemma word_not_equals (c : char) : isWord c = true -> (c =? ch "=") = false.
Proof. unit_solve. Qed.

Lemma space_not_equals (c : char) : isSpace c = true -> (c =? ch "=") = false.
Proof. unit_solve. Qed.

Lemma word_not_blank (c : char) : isWord c = true -> (c =? ch " ") = false.
Proof. unit_solve. Qed.

Lemma word_not_hash (c : char) : isWord c = true -> (c =? ch "#") = false.
Proof. unit_solve. Qed.

Lemma digit_not_space (c : char) : isDigit c = true -> isSpace c = false.
Proof. unit_solve. Qed.

Lemma digit_is_word (c : char) : isDigit c = true -> isWord c = true.
Proof. unit_solve. Qed.

(** *** [trim] *)

Lemma trimStart_spaces (ws s : str) :
  forallb isSpace ws = true -> trimStart (ws ++ s) = trimStart s.
Proof.
  induction ws as [|c ws IH]; cbn; [easy|].
  intros H. apply andb_true_iff in H as [Hc Hws]. rewrite Hc. auto.
Qed.

Lemma trimStart_solid (c : char) (s : str) :
  isSpace c = false -> trimStart (c :: s) = c :: s.
Proof. intros H. cbn. now rewrite H. Qed.

Lemma trimEnd_spaces (s ws : str) :
  forallb isSpace ws = true -> trimEnd (s ++ ws) = trimEnd s.
Proof.
  intros H. unfold trimEnd. rewrite rev_app_distr.
  rewrite trimStart_spaces; [easy|].
  rewrite forallb_forall in *. intros x Hx. apply H. now apply in_rev.
Qed.

Lemma trimEnd_solid (s : str) (c : char) :
  isSpace c = false -> trimEnd (s ++ [c]) = s ++ [c].
Proof.
  intros H. unfold trimEnd. rewrite rev_app_distr. cbn [rev app].
  rewrite trimStart_solid by assumption.
  change (c :: rev s) with ([c] ++ rev s).
  now rewrite rev_app_distr, rev_involutive.
Qed.

Lemma trim_spaces (ws : str) : forallb isSpace ws = true -> trim ws = [].
Proof.
  intros H. unfold trim.
  rewrite <- (app_nil_r ws), trimStart_spaces by assumption. reflexivity.
Qed.

(** A string with no white space at either end is its own [trim]. *)
Lemma trim_solid (c d : char) (s : str) :
  isSpace c = false -> isSpace d = false ->
  trim (c :: s ++ [d]) = c :: s ++ [d].
Proof.
  intros Hc Hd. unfold trim. rewrite trimStart_solid by assumption.
  change (c :: s ++ [d]) with ((c :: s) ++ [d]). now apply trimEnd_solid.
Qed.

Lemma trim_solid1 (c : char) : isSpace c = false -> trim [c] = [c].
Proof.
  intros Hc. unfold trim. rewrite trimStart_solid by assumption.
  now apply (trimEnd_solid []).
Qed.

Lemma trim_of_solid (s : str) : solid s -> trim s = s.
Proof.
  unfold solid. destruct s as [|c s]; [easy|].
  destruct (rev (c :: s)) as [|d r] eqn:E; [easy|]. intros [Hc Hd].
  assert (E' : c :: s = rev r ++ [d]).
  { rewrite <- (rev_involutive (c :: s)), E. reflexivity. }
  destruct (rev r) as [|c' r'] eqn:Er.
  - injection E' as -> ->. now apply trim_solid1.
  - injection E' as -> ->. now apply trim_solid.
Qed.

Lemma trim_around (ws1 s ws2 : str) :
  forallb isSpace ws1 = true -> forallb isSpace ws2 = true -> solid s ->
  trim (ws1 ++ s ++ ws2) = s.
Proof.
  intros H1 H2 Hs. unfold trim. rewrite trimStart_spaces by assumption.
  pose proof (trim_of_solid _ Hs) as Ht. unfold trim in Ht.
  destruct s as [|c s]; [easy|].
  assert (Hc : isSpace c = false).
  { unfold solid in Hs. destruct (rev (c :: s)); tauto. }
  rewrite <- app_comm_cons, trimStart_solid by assumption.
  rewrite app_comm_cons, trimEnd_spaces by assumption.
  now rewrite trimStart_solid in Ht.
Qed.

Lemma word_solid (s : str) : s <> [] -> forallb isWord s = true -> solid s.
Proof.
  intros Hne Hw. unfold solid. destruct s as [|c s]; [easy|].
  destruct (rev (c :: s)) as [|d r] eqn:E.
  - apply (f_equal (@List.length _)) in E. rewrite length_rev in E. easy.
  - rewrite forallb_forall in Hw. split; apply word_not_space, Hw.
    + now left.
    + apply in_rev. rewrite E. now left.
Qed.

(** *** Regular expressions: [test] decides the language *)

Lemma Matches_cat_inv (r1 r2 : regex) (s : str) :
  Matches (Cat r1 r2) s ->
  exists s1 s2, s = s1 ++ s2 /\ Matches r1 s1 /\ Matches r2 s2.
Proof. inversion 1; subst; eauto. Qed.

Lemma Matches_alt_inv (r1 r2 : regex) (s : str) :
  Matches (Alt r1 r2) s -> Matches r1 s \/ Matches r2 s.
Proof. inversion 1; subst; auto. Qed.

Lemma Matches_cls_inv (p : char -> bool) (s : str) :
  Matches (Cls p) s -> exists c, s = [c] /\ p c = true.
Proof. inversion 1; subst; eauto. Qed.

Lemma Matches_eps_inv (s : str) : Matches Eps s -> s = [].
Proof. now inversion 1. Qed.

Lemma Matches_empty_inv (s : str) : ~ Matches Empty s.
Proof. inversion 1. Qed.

(** A non-empty word of a star starts with a non-empty word of its body. *)
Lemma Matches_star_cons (r : regex) (c : char) (s : str) :
  Matches (Star r) (c :: s) ->
  exists s1 s2, s = s1 ++ s2 /\ Matches r (c :: s1) /\ Matches (Star r) s2.
Proof.
  intros H. remember (Star r) as r' eqn:Er. remember (c :: s) as w eqn:Ew.
  revert c s Ew.
  induction H as [| | | | | |r0 s1 s2 H1 _ H2 IH2]; try discriminate.
  injection Er as ->. intros c s Ew.
  destruct s1 as [|x s1].
  - cbn in Ew. now apply IH2.
  - cbn in Ew. injection Ew as -> <-. eauto.
Qed.

Lemma nullable_spec (r : regex) : nullable r = true <-> Matches r [].
Proof.
  induction r as [| |p|r1 IH1 r2 IH2|r1 IH1 r2 IH2|r IH]; cbn.
  - split; [discriminate|]. intros H. now apply Matches_empty_inv in H.
  - split; [constructor|easy].
  - split; [discriminate|]. intros H.
    apply Matches_cls_inv in H as (c & H & _). discriminate.
  - rewrite andb_true_iff, IH1, IH2. split.
    + intros [H1 H2]. now apply (MCat H1 H2).
    + intros H. apply Matches_cat_inv in H as (s1 & s2 & E & H1 & H2).
      symmetry in E. apply app_eq_nil in E as [-> ->]. auto.
  - rewrite orb_true_iff, IH1, IH2. split.
    + intros [H|H]; [now apply MAltL|now apply MAltR].
    + apply Matches_alt_inv.
  - split; [constructor|easy].
Qed.

Lemma deriv_spec (c : char) (r : regex) (s : str) :
  Matches (deriv c r) s <-> Matches r (c :: s).
Proof.
  revert s.
  induction r as [| |p|r1 IH1 r2 IH2|r1 IH1 r2 IH2|r IH]; intros s; cbn.
  - split; intros H; now apply Matches_empty_inv in H.
  - split; intros H; [now apply Matches_empty_inv in H|].
    apply Matches_eps_inv in H. discriminate.
  - destruct (p c) eqn:Hp; split; intros H.
    + apply Matches_eps_inv in H as ->. now constructor.
    + apply Matches_cls_inv in H as (x & [= -> ->] & _). constructor.
    + now apply Matches_empty_inv in H.
    + apply Matches_cls_inv in H as (x & [= -> ->] & Hx). congruence.
  - assert (Hcat : Matches (Cat (deriv c r1) r2) s <->
                   exists s1 s2, s = s1 ++ s2 /\ Matches r1 (c :: s1)
                                 /\ Matches r2 s2).
    { split.
      - intros H. apply Matches_cat_inv in H as (s1 & s2 & -> & H1 & H2).
        apply IH1 in H1. eauto.
      - intros (s1 & s2 & -> & H1 & H2). apply IH1 in H1.
        now apply MCat. }
    assert (Hsplit : Matches (Cat r1 r2) (c :: s) <->
                     (exists s1 s2, s = s1 ++ s2 /\ Matches r1 (c :: s1)
                                    /\ Matches r2 s2)
                     \/ (Matches r1 [] /\ Matches r2 (c :: s))).
    { split.
      - intros H. apply Matches_cat_inv in H as (s1 & s2 & E & H1 & H2).
        destruct s1 as [|x s1]; cbn in E.
        + subst s2. now right.
        + injection E as <- ->. left. eauto.
      - intros [(s1 & s2 & -> & H1 & H2)|[H1 H2]].
        + change (c :: s1 ++ s2) with ((c :: s1) ++ s2). now apply MCat.
        + change (c :: s) with ([] ++ c :: s). now apply MCat. }
    rewrite Hsplit. destruct (nullable r1) eqn:Hn.
    + apply nullable_spec in Hn. split.
      * intros H. apply Matches_alt_inv in H as [H|H].
        -- left. now apply Hcat.
        -- right. split; [easy|]. now apply IH2.
      * intros [H|[_ H]].
        -- apply MAltL. now apply Hcat.
        -- apply MAltR. now apply IH2.
    + rewrite Hcat. split; [auto|]. intros [H|[H _]]; [easy|].
      apply nullable_spec in H. congruence.
  - split; intros H.
    + apply Matches_alt_inv in H as [H|H];
        [apply MAltL; now apply IH1|apply MAltR; now apply IH2].
    + apply Matches_alt_inv in H as [H|H];
        [apply MAltL; now apply IH1|apply MAltR; now apply IH2].
  - split; intros H.
    + apply Matches_cat_inv in H as (s1 & s2 & -> & H1 & H2).
      apply IH in H1. change (c :: s1 ++ s2) with ((c :: s1) ++ s2).
      now apply MStarS.
    + apply Matches_star_cons in H as (s1 & s2 & -> & H1 & H2).
      apply IH in H1. now apply MCat.
Qed.

Lemma test_spec (r : regex) (s : str) : test r s = true <-> Matches r s.
Proof.
  unfold test. revert r. induction s as [|c s IH]; intros r; cbn.
  - apply nullable_spec.
  - rewrite IH. apply deriv_spec.
Qed.

(** Runs of a class. *)
Lemma Matches_star_cls (p : char -> bool) (s : str) :
  Matches (Star (Cls p)) s <-> forallb p s = true.
Proof.
  split.
  - induction s as [|c s IH]; [easy|]. intros H.
    apply Matches_star_cons in H as (s1 & s2 & -> & H1 & H2).
    apply Matches_cls_inv in H1 as (x & [= -> ->] & Hp). cbn.
    rewrite Hp. now apply IH.
  - induction s as [|c s IH]; cbn; [constructor|].
    intros H. apply andb_true_iff in H as [Hc Hs].
    change (c :: s) with ([c] ++ s). apply MStarS; [now constructor|auto].
Qed.

Lemma Matches_plus_cls (p : char -> bool) (s : str) :
  Matches (Plus (Cls p)) s <-> s <> [] /\ forallb p s = true.
Proof.
  unfold Plus. split.
  - intros H. apply Matches_cat_inv in H as (s1 & s2 & -> & H1 & H2).
    apply Matches_cls_inv in H1 as (c & -> & Hc).
    apply Matches_star_cls in H2. cbn. now rewrite Hc.
  - intros [Hne H]. destruct s as [|c s]; [easy|]. cbn in H.
    apply andb_true_iff in H as [Hc Hs].
    change (c :: s) with ([c] ++ s).
    apply MCat; [now constructor|now apply Matches_star_cls].
Qed.

(** *** [span], [split] and [join] *)

Lemma span_all (p : char -> bool) (a b : str) :
  forallb p a = true -> span p (a ++ b) = (a ++ fst (span p b), snd (span p b)).
Proof.
  induction a as [|c a IH]; cbn.
  - now destruct (span p b).
  - intros H. apply andb_true_iff in H as [Hc Ha]. rewrite Hc, IH by assumption.
    reflexivity.
Qed.

Lemma span_stop (p : char -> bool) (a : str) (x : char) (r : str) :
  forallb p a = true -> p x = false -> span p (a ++ x :: r) = (a, x :: r).
Proof.
  intros Ha Hx. rewrite span_all by assumption. cbn. rewrite Hx. cbn.
  now rewrite app_nil_r.
Qed.

Lemma span_nil_r (p : char -> bool) (a : str) :
  forallb p a = true -> span p a = (a, []).
Proof.
  intros Ha. rewrite <- (app_nil_r a) at 1. rewrite span_all by assumption.
  cbn. now rewrite app_nil_r.
Qed.

(** Where a run stops inside [a], what follows [a] does not matter. *)
Lemma span_not_all (p : char -> bool) (a b : str) :
  forallb p a = false -> fst (span p (a ++ b)) = fst (span p a).
Proof.
  induction a as [|c a IH]; cbn; [discriminate|].
  destruct (p c); cbn; [|easy]. intros H. specialize (IH H).
  destruct (span p (a ++ b)), (span p a). cbn in *. congruence.
Qed.

Lemma span_fst_forallb (p q : char -> bool) (a : str) :
  forallb q a = true -> forallb q (fst (span p a)) = true.
Proof.
  induction a as [|c a IH]; cbn; [easy|].
  intros H. apply andb_true_iff in H as [Hc Ha].
  destruct (p c); [|easy]. specialize (IH Ha).
  destruct (span p a). cbn in *. now rewrite Hc.
Qed.

Lemma span_fst_idem (p q : char -> bool) (a : str) :
  fst (span p (fst (span q a)))
  = fst (span (fun c => q c && p c) a).
Proof.
  induction a as [|c a IH]; cbn; [easy|].
  destruct (q c); cbn; [|easy].
  destruct (span q a) as [u v]. cbn in *.
  destruct (p c); cbn; [|easy].
  destruct (span p u), (span (fun c => q c && p c) a). cbn in *. congruence.
Qed.

(** The first field of a split is the run up to the first separator. *)
Lemma hd_split (sep : char) (s : str) :
  hd [] (split sep s) = fst (span (isnt sep) s).
Proof.
  induction s as [|c s IH]; cbn; [easy|]. unfold isnt at 1.
  destruct (c =? sep); cbn; [easy|].
  destruct (split sep s) as [|h t]; destruct (span (isnt sep) s) as [u v];
    cbn in *; congruence.
Qed.

Lemma split_app_sep (sep : char) (a b : str) :
  forallb (isnt sep) a = true ->
  split sep (a ++ sep :: b) = a :: split sep b.
Proof.
  induction a as [|c a IH]; cbn.
  - now rewrite N.eqb_refl.
  - intros H. apply andb_true_iff in H as [Hc Ha]. unfold isnt in Hc.
    apply negb_true_iff in Hc. rewrite Hc, IH by assumption. reflexivity.
Qed.

Lemma split_not_nil (sep : char) (s : str) : split sep s <> [].
Proof.
  induction s as [|c s IH]; cbn; [easy|].
  destruct (c =? sep); [easy|]. now destruct (split sep s).
Qed.

Lemma join_split (sep : char) (s : str) : join [sep] (split sep s) = s.
Proof.
  induction s as [|c s IH]; cbn [split]; [easy|].
  pose proof (split_not_nil sep s) as Hn.
  destruct (split sep s) as [|h t]; [easy|].
  destruct (N.eqb_spec c sep) as [->|Hne].
  - change (join [sep] ([] :: h :: t)) with (sep :: join [sep] (h :: t)).
    now rewrite IH.
  - assert (E : join [sep] ((c :: h) :: t) = c :: join [sep] (h :: t))
      by now destruct t.
    now rewrite E, IH.
Qed.

(** The first separator of a string, when it has one. *)
Lemma first_separator (p : char -> bool) (s : str) :
  forallb p s = true
  \/ exists a x b, s = a ++ x :: b /\ forallb p a = true /\ p x = false.
Proof.
  induction s as [|c s [IH|(a & x & b & -> & Ha & Hx)]]; cbn.
  - now left.
  - destruct (p c) eqn:Hc; [now left|].
    right. exists [], c, s. auto.
  - right. destruct (p c) eqn:Hc.
    + exists (c :: a), x, b. cbn. rewrite Hc. auto.
    + exists [], c, (a ++ x :: b). auto.
Qed.

Lemma forallb_app_true (p : char -> bool) (a b : str) :
  forallb p (a ++ b) = true <-> forallb p a = true /\ forallb p b = true.
Proof. rewrite forallb_app. apply andb_true_iff. Qed.

Lemma forallb_impl (p q : char -> bool) (s : str) :
  (forall c, p c = true -> q c = true) ->
  forallb p s = true -> forallb q s = true.
Proof.
  intros Hpq. rewrite !forallb_forall. auto.
Qed.

End JSFacts.

(** ** Numbers *)

Module NumberFacts.
Import Notions JSFacts.

Lemma shr_1_nonneg (mrs : shr_record) :
  (0 <= shr_m mrs)%Z -> (0 <= shr_m (shr_1 mrs))%Z.
Proof.
  destruct mrs as [m r s]. cbn.
  destruct m as [|p|p]; [| destruct p | ]; cbn; lia.
Qed.

Lemma iter_pos_nonneg (p : positive) (mrs : shr_record) :
  (0 <= shr_m mrs)%Z -> (0 <= shr_m (iter_pos shr_1 p mrs))%Z.
Proof.
  revert mrs. induction p as [p IH|p IH|]; intros mrs H; cbn.
  - apply IH, IH. now apply shr_1_nonneg.
  - now apply IH, IH.
  - now apply shr_1_nonneg.
Qed.

Lemma shr_fexp_nonneg (m e : Z) (l : location) :
  (0 <= m)%Z -> (0 <= shr_m (fst (shr_fexp prec emax m e l)))%Z.
Proof.
  intros H. unfold shr_fexp, shr.
  assert (H0 : (0 <= shr_m (shr_record_of_loc m l))%Z)
    by (destruct l as [|[]]; exact H).
  destruct (_ - e)%Z; cbn [fst]; try exact H0.
  now apply iter_pos_nonneg.
Qed.

Lemma round_nearest_even_nonneg (m : Z) (l : location) :
  (0 <= m)%Z -> (0 <= round_nearest_even m l)%Z.
Proof.
  intros H. unfold round_nearest_even.
  destruct l as [|[]]; try destruct (Z.even m); lia.
Qed.

Lemma binary_round_aux_not_nan (sx : bool) (mx ex : Z) (lx : location) :
  (0 <= mx)%Z -> binary_round_aux prec emax sx mx ex lx <> S754_nan.
Proof.
  intros H. unfold binary_round_aux.
  pose proof (shr_fexp_nonneg ex lx H) as H1.
  destruct (shr_fexp prec emax mx ex lx) as [mrs' e']. cbn [fst] in H1.
  pose proof (round_nearest_even_nonneg (loc_of_shr_record mrs') H1) as H2.
  pose proof (shr_fexp_nonneg e' loc_Exact H2) as H3.
  destruct (shr_fexp prec emax _ e' loc_Exact) as [mrs'' e''].
  cbn [fst] in H3.
  destruct (shr_m mrs'') as [|p|p]; [discriminate| |lia].
  destruct (e'' <=? emax - prec)%Z; discriminate.
Qed.

Lemma SFdiv_finite_not_nan (sx sy : bool) (mx my : positive) (ex ey : Z) :
  SFdiv prec emax (S754_finite sx mx ex) (S754_finite sy my ey) <> S754_nan.
Proof.
  unfold SFdiv, SFdiv_core_binary.
  set (m' := match (_ - _ - _)%Z with
             | Zpos _ => Z.shiftl (Zpos mx) _
             | Z0 => Zpos mx
             | Zneg _ => Z0
             end).
  assert (Hm : (0 <= m')%Z).
  { subst m'. destruct (_ - _ - _)%Z; try lia. now apply Z.shiftl_nonneg. }
  pose proof (Z_div_mod m' (Zpos my) eq_refl) as Hd.
  destruct (Z.div_eucl m' (Zpos my)) as [q r].
  apply binary_round_aux_not_nan. nia.
Qed.

(** The Number value of a decimal is a number. *)
Lemma roundDecimal_not_nan (neg : bool) (m : N) (e : Z) :
  isNaN (roundDecimal neg m e) = false.
Proof.
  unfold roundDecimal. destruct m as [|p]; [easy|].
  destruct e; match goal with
              | |- isNaN ?x = false =>
                  pose proof (SFdiv_finite_not_nan neg false) as H;
                  destruct x eqn:E; try reflexivity;
                  exfalso; eapply H; exact E
              end.
Qed.

(** *** [StringToNumber] on decimal numerals *)

Lemma solid_of_noSpace (v : str) :
  v <> [] -> forallb noSpace v = true -> solid v.
Proof.
  intros Hne H. unfold solid. destruct v as [|c v]; [easy|].
  destruct (rev (c :: v)) as [|d r] eqn:E.
  - apply (f_equal (@List.length _)) in E. rewrite length_rev in E. easy.
  - rewrite forallb_forall in H. split.
    + apply negb_true_iff, H. now left.
    + apply negb_true_iff, H. apply in_rev. rewrite E. now left.
Qed.

Lemma digit_noSpace (s : str) :
  forallb isDigit s = true -> forallb noSpace s = true.
Proof.
  apply forallb_impl. intros c Hc. unfold noSpace.
  now rewrite (digit_not_space _ Hc).
Qed.

Lemma digit_facts (c : char) :
  isDigit c = true ->
  (c =? ch "x") = false /\ (c =? ch "X") = false /\ (c =? ch "o") = false
  /\ (c =? ch "O") = false /\ (c =? ch "b") = false /\ (c =? ch "B") = false
  /\ (c =? ch "+") = false /\ (c =? ch "-") = false /\ (c =? ch ".") = false
  /\ (c =? ch "I") = false.
Proof. intros H. repeat split; revert H; unit_solve. Qed.

Lemma numeral_nonDecimal (ip fp frac : str) :
  ip <> [] -> forallb isDigit ip = true -> fraction fp frac ->
  nonDecimalBase (ip ++ frac) = None.
Proof.
  intros Hne Hd Hf. destruct ip as [|d ip]; [easy|]. cbn in Hd.
  apply andb_true_iff in Hd as [_ Hip]. cbn [app]. unfold nonDecimalBase.
  destruct (ip ++ frac) as [|p ds] eqn:E; [easy|].
  destruct (negb (d =? ch "0")); [easy|].
  assert (Hp : isDigit p = true \/ p = ch ".").
  { destruct ip as [|x ip]; cbn in E.
    - destruct Hf as [[-> _]| ->]; [discriminate|]. injection E as <- _. now right.
    - injection E as <- _. cbn in Hip. apply andb_true_iff in Hip as [Hx _].
      now left. }
  destruct Hp as [Hp| ->]; [|reflexivity].
  destruct (digit_facts _ Hp) as (-> & -> & -> & -> & -> & -> & _).
  reflexivity.
Qed.

Lemma unsigned_decimal (neg : bool) (ip fp frac : str) :
  ip <> [] -> forallb isDigit ip = true -> forallb isDigit fp = true ->
  fraction fp frac ->
  strUnsignedDecimalLiteral neg (ip ++ frac)
  = roundDecimal neg (digitsValue 10 (ip ++ fp))
                 (- Z.of_nat (List.length fp))%Z.
Proof.
  intros Hne Hip Hfp Hf. unfold strUnsignedDecimalLiteral.
  assert (Hinf : str_eqb (ip ++ frac) "Infinity" = false).
  { apply str_eqb_neq. destruct ip as [|d ip]; [easy|]. cbn in Hip.
    apply andb_true_iff in Hip as [Hd _]. intros [= -> _]. discriminate Hd. }
  rewrite Hinf. destruct Hf as [[-> ->]| ->].
  - rewrite !app_nil_r. rewrite span_nil_r by assumption.
    cbn [startsWith exponentPart List.length Z.of_nat Z.opp].
    now destruct ip.
  - rewrite span_stop by (assumption || reflexivity).
    cbn [startsWith tl]. rewrite N.eqb_refl.
    rewrite span_nil_r by assumption. cbn [exponentPart].
    destruct (ip ++ fp) eqn:E.
    + apply app_eq_nil in E as [-> _]. easy.
    + now rewrite Z.sub_0_l.
Qed.

Lemma StringToNumber_solid (v : str) :
  trim v = v -> v <> [] ->
  StringToNumber v
  = match nonDecimalBase v with
    | Some (base, ds) =>
        if allDigitsOf base ds then roundDecimal false (digitsValue base ds) 0
        else NaN
    | None =>
        if startsWith v (ch "+") then strUnsignedDecimalLiteral false (tl v)
        else if startsWith v (ch "-") then strUnsignedDecimalLiteral true (tl v)
        else strUnsignedDecimalLiteral false v
    end.
Proof.
  intros Ht Hne. unfold StringToNumber. rewrite Ht. now destruct v.
Qed.

Lemma StringToNumber_decimal (sign : str) (neg : bool) (ip fp frac : str) :
  signOf sign neg ->
  ip <> [] -> forallb isDigit ip = true -> forallb isDigit fp = true ->
  fraction fp frac ->
  StringToNumber (sign ++ ip ++ frac)
  = roundDecimal neg (digitsValue 10 (ip ++ fp))
                 (- Z.of_nat (List.length fp))%Z.
Proof.
  intros Hs Hne Hip Hfp Hf.
  assert (Hfrac : forallb noSpace frac = true).
  { destruct Hf as [[-> _]| ->]; [easy|]. cbn. now apply digit_noSpace. }
  assert (Hbody : forallb noSpace (ip ++ frac) = true).
  { apply forallb_app_true. split; [now apply digit_noSpace|easy]. }
  assert (Hsign : forallb noSpace sign = true).
  { destruct Hs as [[-> _]|[[-> _]|[-> _]]]; reflexivity. }
  assert (Htrim : trim (sign ++ ip ++ frac) = sign ++ ip ++ frac).
  { apply trim_of_solid, solid_of_noSpace.
    - destruct ip; [easy|]. now destruct sign.
    - now apply forallb_app_true. }
  rewrite StringToNumber_solid;
    [|assumption|destruct ip; [easy|now destruct sign]].
  pose proof (unsigned_decimal neg Hne Hip Hfp Hf) as Hu.
  destruct Hs as [[-> ->]|[[-> ->]|[-> ->]]]; cbn [app].
  - rewrite (numeral_nonDecimal Hne Hip Hf).
    destruct ip as [|d ip]; [easy|]. cbn [app] in *. cbn in Hip.
    apply andb_true_iff in Hip as [Hd _].
    destruct (digit_facts _ Hd) as (_ & _ & _ & _ & _ & _ & Hp & Hm & _).
    cbn [startsWith]. now rewrite Hp, Hm.
  - destruct (ip ++ frac) as [|c l] eqn:E; [now destruct ip|].
    change (nonDecimalBase (ch "+" :: c :: l)) with (@None (N * str)).
    cbn [startsWith tl]. change (ch "+" =? ch "+") with true. exact Hu.
  - destruct (ip ++ frac) as [|c l] eqn:E; [now destruct ip|].
    change (nonDecimalBase (ch "-" :: c :: l)) with (@None (N * str)).
    cbn [startsWith tl]. change (ch "-" =? ch "+") with false.
    change (ch "-" =? ch "-") with true. exact Hu.
Qed.

End NumberFacts.

(** ** [JSON.parse]: the fuel is enough *)

Module JsonFacts.
Import Notions JSFacts.

Lemma skipWs_length (s : str) : (List.length (skipWs s) <= List.length s)%nat.
Proof.
  induction s as [|c s IH]; cbn; [lia|]. destruct (isJsonSpace c); cbn; lia.
Qed.

Lemma span_length (p : char -> bool) (s : str) :
  List.length s
  = (List.length (fst (span p s)) + List.length (snd (span p s)))%nat.
Proof.
  induction s as [|c s IH]; cbn; [easy|].
  destruct (p c); cbn; [|easy]. destruct (span p s). cbn in *. lia.
Qed.

Lemma tl_length (s : str) : (List.length (tl s) <= List.length s)%nat.
Proof. destruct s; cbn; lia. Qed.

Lemma jsonString_shorter (n : nat) :
  forall s acc v r,
    (List.length s <= n)%nat ->
    jsonString s acc = Some (v, r) -> (List.length r < List.length s)%nat.
Proof.
  induction n as [|n IH]; intros s acc v r Hn H.
  - destruct s; [discriminate|cbn in Hn; lia].
  - destruct s as [|c s]; [discriminate|]. cbn in Hn. cbn [jsonString] in H.
    destruct (c =? DQUOTE); [injection H as _ <-; cbn; lia|].
    destruct (c =? ch "\").
    + destruct s as [|e r1]; [discriminate|].
      destruct (e =? ch "u").
      * destruct r1 as [|a [|b [|x [|d r2]]]]; try discriminate.
        destruct (hex4 a b x d); [|discriminate].
        apply IH in H; cbn in *; lia.
      * destruct (simpleEscape e); [|discriminate].
        apply IH in H; cbn in *; lia.
    + destruct (c <? 32); [discriminate|].
      apply IH in H; cbn in *; lia.
Qed.

Lemma jsonNumber_shorter (s : str) (n : number) (r : str) :
  jsonNumber s = Some (n, r) -> (List.length r < List.length s)%nat.
Proof.
  unfold jsonNumber.
  set (s1 := if startsWith s (ch "-") then tl s else s).
  assert (H1 : (List.length s1 <= List.length s)%nat).
  { subst s1. destruct (startsWith s (ch "-")); [apply tl_length|lia]. }
  pose proof (span_length isDigit s1) as Hs.
  destruct (span isDigit s1) as [ip r1]. cbn [fst snd] in Hs.
  destruct ip as [|d ip]; [discriminate|].
  match goal with |- context [negb ?b] => destruct (negb b) end;
    [discriminate|].
  assert (Hr2 : forall fp r2 ok,
             (if startsWith r1 (ch ".")
              then let (fp, r2) := span isDigit (tl r1) in
                   (fp, r2, match fp with [] => false | _ => true end)
              else ([], r1, true)) = (fp, r2, ok) ->
             (List.length r2 <= List.length r1)%nat).
  { intros fp r2 ok. destruct (startsWith r1 (ch ".")).
    - pose proof (span_length isDigit (tl r1)) as Ht.
      pose proof (tl_length r1).
      destruct (span isDigit (tl r1)). cbn [fst snd] in Ht.
      intros [= _ <- _]. lia.
    - intros [= _ <- _]. lia. }
  destruct (if startsWith r1 (ch ".") then _ else _) as [[fp r2] ok] eqn:E.
  specialize (Hr2 _ _ _ eq_refl). destruct (negb ok); [discriminate|].
  destruct (startsWith r2 (ch "e") || startsWith r2 (ch "E")).
  - cbv zeta.
    match goal with |- context [span isDigit ?x] => set (r4 := x) end.
    assert (H4 : (List.length r4 <= List.length r2)%nat).
    { subst r4. pose proof (tl_length r2). pose proof (tl_length (tl r2)).
      destruct (_ || _); lia. }
    pose proof (span_length isDigit r4) as H5.
    destruct (span isDigit r4) as [ep r5]. cbn [fst snd] in H5.
    destruct ep; [discriminate|]. intros [= _ <-]. cbn in *. lia.
  - intros [= _ <-]. cbn in *. lia.
Qed.

Lemma stripPrefix_length (p s r : str) :
  stripPrefix p s = Some r ->
  List.length s = (List.length p + List.length r)%nat.
Proof.
  revert s. induction p as [|a p IH]; intros s; cbn.
  - now intros [= ->].
  - destruct s as [|b s]; [discriminate|]. destruct (a =? b); [|discriminate].
    intros H. apply IH in H. cbn. lia.
Qed.

(** What a value read leaves is shorter than the text. *)
Lemma json_progress (fuel : nat) :
  (forall s v r, jsonValue fuel s = Return (v, r) ->
                 (List.length r < List.length s)%nat)
  /\ (forall s acc v r, jsonElements fuel s acc = Return (v, r) ->
                        (List.length r < List.length s)%nat)
  /\ (forall s acc v r, jsonMembers fuel s acc = Return (v, r) ->
                        (List.length r < List.length s)%nat).
Proof.
  induction fuel as [|f (IHv & IHe & IHm)].
  { repeat split; intros; discriminate. }
  split; [|split].
  - intros s v r H. cbn [jsonValue] in H.
    pose proof (skipWs_length s) as Hs.
    destruct (skipWs s) as [|c s']; [discriminate|]. cbn in Hs.
    pose proof (skipWs_length s') as Hs'.
    pose proof (tl_length (skipWs s')) as Ht.
    destruct (c =? ch "[").
    { destruct (startsWith (skipWs s') (ch "]")).
      - injection H as _ <-. lia.
      - apply IHe in H. lia. }
    destruct (c =? ch "{").
    { destruct (startsWith (skipWs s') (ch "}")).
      - injection H as _ <-. lia.
      - apply IHm in H. lia. }
    destruct (c =? DQUOTE).
    { destruct (jsonString s' []) as [[v' r']|] eqn:E; [|discriminate].
      apply (jsonString_shorter (n := List.length s')) in E; [|lia].
      injection H as _ <-. lia. }
    destruct ((c =? ch "-") || isDigit c).
    { destruct (jsonNumber (c :: s')) as [[n r']|] eqn:E; [|discriminate].
      apply jsonNumber_shorter in E. injection H as _ <-. cbn in E. lia. }
    destruct (stripPrefix "true" (c :: s')) as [r1|] eqn:E1.
    { apply stripPrefix_length in E1. injection H as _ <-. cbn in E1. lia. }
    destruct (stripPrefix "false" (c :: s')) as [r2|] eqn:E2.
    { apply stripPrefix_length in E2. injection H as _ <-. cbn in E2. lia. }
    destruct (stripPrefix "null" (c :: s')) as [r3|] eqn:E3; [|discriminate].
    apply stripPrefix_length in E3. injection H as _ <-. cbn in E3. lia.
  - intros s acc v r H. cbn [jsonElements] in H.
    destruct (jsonValue f s) as [[v1 r1]| |] eqn:E; try discriminate.
    apply IHv in E. pose proof (skipWs_length r1) as Hs.
    destruct (skipWs r1) as [|c r']; [discriminate|]. cbn in Hs.
    destruct (c =? ch ",").
    { apply IHe in H. lia. }
    destruct (c =? ch "]"); [|discriminate]. injection H as _ <-. lia.
  - intros s acc v r H. cbn [jsonMembers] in H.
    pose proof (skipWs_length s) as Hs.
    destruct (skipWs s) as [|q r0]; [discriminate|]. cbn in Hs.
    destruct (q =? DQUOTE); [|discriminate].
    destruct (jsonString r0 []) as [[k r1]|] eqn:Ek; [|discriminate].
    apply (jsonString_shorter (n := List.length r0)) in Ek; [|lia].
    pose proof (skipWs_length r1) as Hs1.
    destruct (skipWs r1) as [|colon r2]; [discriminate|]. cbn in Hs1.
    destruct (colon =? ch ":"); [|discriminate].
    destruct (jsonValue f r2) as [[v1 r3]| |] eqn:E; try discriminate.
    apply IHv in E. pose proof (skipWs_length r3) as Hs3.
    destruct (skipWs r3) as [|c r']; [discriminate|]. cbn in Hs3.
    destruct (c =? ch ",").
    { apply IHm in H. lia. }
    destruct (c =? ch "}"); [|discriminate]. injection H as _ <-. lia.
Qed.

(** Fuel of twice the length of the text, and a little, is enough. *)
Lemma json_fuel (fuel : nat) :
  (forall s, (2 * List.length s + 1 <= fuel)%nat ->
             jsonValue fuel s <> OutOfFuel)
  /\ (forall s acc, (2 * List.length s + 2 <= fuel)%nat ->
                    jsonElements fuel s acc <> OutOfFuel)
  /\ (forall s acc, (2 * List.length s + 2 <= fuel)%nat ->
                    jsonMembers fuel s acc <> OutOfFuel).
Proof.
  induction fuel as [|f (IHv & IHe & IHm)].
  { repeat split; intros; lia. }
  split; [|split].
  - intros s Hf H. cbn [jsonValue] in H.
    pose proof (skipWs_length s) as Hs.
    destruct (skipWs s) as [|c s']; [discriminate|]. cbn in Hs.
    destruct (c =? ch "[").
    { destruct (startsWith (skipWs s') (ch "]")); [discriminate|].
      apply IHe in H; [easy|lia]. }
    destruct (c =? ch "{").
    { destruct (startsWith (skipWs s') (ch "}")); [discriminate|].
      apply IHm in H; [easy|lia]. }
    destruct (c =? DQUOTE).
    { destruct (jsonString s' []) as [[v' r']|]; discriminate. }
    destruct ((c =? ch "-") || isDigit c).
    { destruct (jsonNumber (c :: s')) as [[n r']|]; discriminate. }
    destruct (stripPrefix "true" (c :: s')); [discriminate|].
    destruct (stripPrefix "false" (c :: s')); [discriminate|].
    destruct (stripPrefix "null" (c :: s')); discriminate.
  - intros s acc Hf H. cbn [jsonElements] in H.
    destruct (jsonValue f s) as [[v1 r1]| |] eqn:E; try discriminate.
    + apply (proj1 (json_progress f)) in E.
      pose proof (skipWs_length r1) as Hs.
      destruct (skipWs r1) as [|c r']; [discriminate|]. cbn in Hs.
      destruct (c =? ch ","); [apply IHe in H; [easy|lia]|].
      destruct (c =? ch "]"); discriminate.
    + apply IHv in E; [easy|lia].
  - intros s acc Hf H. cbn [jsonMembers] in H.
    pose proof (skipWs_length s) as Hs.
    destruct (skipWs s) as [|q r0]; [discriminate|]. cbn in Hs.
    destruct (q =? DQUOTE); [|discriminate].
    destruct (jsonString r0 []) as [[k r1]|] eqn:Ek; [|discriminate].
    apply (jsonString_shorter (n := List.length r0)) in Ek; [|lia].
    pose proof (skipWs_length r1) as Hs1.
    destruct (skipWs r1) as [|colon r2]; [discriminate|]. cbn in Hs1.
    destruct (colon =? ch ":"); [|discriminate].
    destruct (jsonValue f r2) as [[v1 r3]| |] eqn:E; try discriminate.
    + apply (proj1 (json_progress f)) in E.
      pose proof (skipWs_length r3) as Hs3.
      destruct (skipWs r3) as [|c r']; [discriminate|]. cbn in Hs3.
      destruct (c =? ch ","); [apply IHm in H; [easy|lia]|].
      destruct (c =? ch "}"); discriminate.
    + apply IHv in E; [easy|lia].
Qed.

(** [JSON_parse] never answers [None] for want of fuel. *)
Lemma jsonValue_fuel (text : str) :
  jsonValue (2 * List.length text + 2) text <> OutOfFuel.
Proof. apply (proj1 (json_fuel _)). lia. Qed.

End JsonFacts.

(** ** The declaration splitter *)

Module LexerFacts.
Import Lexer Notions JSFacts.

Lemma scan_snoc (pre : str) (c : char) :
  scan (pre ++ [c]) = lexer_step (scan pre) c.
Proof. unfold scan, scan_from. now rewrite fold_left_app. Qed.

Lemma scan_from_app (st : LexState) (a b : str) :
  scan_from st (a ++ b) = scan_from (scan_from st a) b.
Proof. unfold scan_from. now rewrite fold_left_app. Qed.

(** A top-level [;] closes the statement. *)
Lemma step_boundary (st : LexState) :
  inString st = false -> braceDepth st = 0%Z -> bracketDepth st = 0%Z ->
  lexer_step st (ch ";")
  = mkLex (declarations st ++ [trim (buffer st ++ [ch ";"])]) []
          false (stringChar st) 0%Z 0%Z.
Proof.
  intros Hs Hb Hk. unfold lexer_step.
  rewrite Hs, Hb, Hk, andb_false_r. reflexivity.
Qed.

(** Every other iteration only appends the character to the buffer. *)
Lemma step_no_boundary (st : LexState) (c : char) :
  ~ (c = ch ";" /\ inString st = false
     /\ braceDepth st = 0%Z /\ bracketDepth st = 0%Z) ->
  declarations (lexer_step st c) = declarations st
  /\ buffer (lexer_step st c) = buffer st ++ [c].
Proof.
  intros Hn. unfold lexer_step.
  destruct (isQuote c && negb (inString st)) eqn:Hq; [now simpl|].
  destruct (isStringChar st c && inString st) eqn:Hc; [now simpl|].
  destruct (inString st) eqn:Hs; [now simpl|].
  cbv zeta.
  destruct (c =? ch ";") eqn:Hsemi; [|now simpl].
  apply N.eqb_eq in Hsemi. subst c. norm_ch. cbn [N.eqb Pos.eqb andb].
  destruct (braceDepth st =? 0)%Z eqn:Hb; [|now simpl].
  destruct (bracketDepth st =? 0)%Z eqn:Hk; [|now simpl].
  apply Z.eqb_eq in Hb, Hk. exfalso. apply Hn. now norm_ch.
Qed.

(** A string literal is read as a whole: whatever stands between the quotes,
    no statement ends there and the nesting depths do not move. *)
Lemma scan_string_literal (st : LexState) (q : char) (s : str) :
  inString st = false -> isQuote q = true -> ~ In q s ->
  scan_from st (q :: s ++ [q])
  = mkLex (declarations st) (buffer st ++ q :: s ++ [q]) false None
          (braceDepth st) (bracketDepth st).
Proof.
  intros Hs Hq Hin. cbn [scan_from fold_left].
  assert (H1 : lexer_step st q
               = mkLex (declarations st) (buffer st ++ [q]) true (Some q)
                       (braceDepth st) (bracketDepth st)).
  { unfold lexer_step. now rewrite Hq, Hs. }
  rewrite H1. clear H1.
  assert (H2 : forall b,
             fold_left lexer_step s
               (mkLex (declarations st) b true (Some q)
                      (braceDepth st) (bracketDepth st))
             = mkLex (declarations st) (b ++ s) true (Some q)
                     (braceDepth st) (bracketDepth st)).
  { induction s as [|x s IH]; intros b; cbn [fold_left].
    - now rewrite app_nil_r.
    - assert (Hx : x <> q) by (intros ->; apply Hin; now left).
      assert (Hstep : lexer_step
                 (mkLex (declarations st) b true (Some q)
                        (braceDepth st) (bracketDepth st)) x
               = mkLex (declarations st) (b ++ [x]) true (Some q)
                       (braceDepth st) (bracketDepth st)).
      { unfold lexer_step, isStringChar. cbn.
        rewrite andb_false_r. apply N.eqb_neq in Hx. now rewrite Hx. }
      rewrite Hstep, IH by (intros Hi; apply Hin; now right).
      now rewrite <- app_assoc. }
  rewrite fold_left_app, H2. cbn [fold_left].
  unfold lexer_step, isStringChar. cbn.
  rewrite andb_false_r, N.eqb_refl. cbn.
  now rewrite <- !app_assoc.
Qed.

(** The statements already emitted play no part in the scan. *)
Lemma step_withDeclarations (ds : list str) (st : LexState) (c : char) :
  lexer_step (withDeclarations (ds ++ declarations st) st) c
  = withDeclarations (ds ++ declarations (lexer_step st c)) (lexer_step st c).
Proof.
  unfold lexer_step, withDeclarations, isStringChar. cbn.
  destruct (isQuote c && negb (inString st)); [easy|].
  destruct (match stringChar st with Some q => c =? q | None => false end
            && inString st); [easy|].
  destruct (inString st); [easy|].
  match goal with
  | |- context [if ?b then mkLex (_ ++ [_]) _ _ _ _ _ else _] => destruct b
  end; cbn; [|easy].
  now rewrite app_assoc.
Qed.

Lemma scan_from_withDeclarations (ds : list str) (input : str) (st : LexState) :
  scan_from (withDeclarations (ds ++ declarations st) st) input
  = withDeclarations (ds ++ declarations (scan_from st input))
                     (scan_from st input).
Proof.
  revert st. induction input as [|c input IH]; intros st; [easy|].
  cbn [scan_from fold_left]. rewrite step_withDeclarations. apply IH.
Qed.

Lemma scan_from_fresh (ds : list str) (input : str) :
  scan_from (withDeclarations ds initial) input
  = withDeclarations (ds ++ declarations (scan input)) (scan input).
Proof.
  pose proof (scan_from_withDeclarations ds input initial) as H.
  change (declarations initial) with (@nil str) in H.
  now rewrite app_nil_r in H.
Qed.

(** Outside a string no quote is remembered. *)
Lemma scan_stringChar (input : str) :
  inString (scan input) = false -> stringChar (scan input) = None.
Proof.
  assert (H : forall st, (inString st = false -> stringChar st = None) ->
                    inString (scan_from st input) = false ->
                    stringChar (scan_from st input) = None).
  { induction input as [|c input IH]; intros st Hst; [exact Hst|].
    cbn [scan_from fold_left]. apply IH. unfold lexer_step.
    destruct (isQuote c && negb (inString st)); [discriminate|].
    destruct (isStringChar st c && inString st); [easy|].
    destruct (inString st) eqn:Hs; [cbn; discriminate|]. cbv zeta.
    match goal with
    | |- context [if ?b then mkLex (_ ++ [_]) _ _ _ _ _ else _] => destruct b
    end; cbn; auto. }
  apply H. reflexivity.
Qed.

(** The splitter on a text with a top-level separator: what it gives up to
    the separator, then what it gives on the rest. *)
Lemma lexer_at_boundary (pre post : str) :
  inString (scan pre) = false ->
  braceDepth (scan pre) = 0%Z -> bracketDepth (scan pre) = 0%Z ->
  lexer (pre ++ ch ";" :: post)
  = declarations (scan pre)
    ++ trim (buffer (scan pre) ++ [ch ";"]) :: lexer post.
Proof.
  intros Hs Hb Hk. unfold lexer, scan at 1 2 3 4.
  rewrite scan_from_app. cbn [scan_from fold_left]. fold (scan pre).
  rewrite step_boundary by assumption. rewrite (scan_stringChar _ Hs).
  set (ds := declarations (scan pre) ++ [trim (buffer (scan pre) ++ [ch ";"])]).
  change (mkLex ds [] false None 0%Z 0%Z) with (withDeclarations ds initial).
  fold (scan_from (withDeclarations ds initial) post).
  rewrite scan_from_fresh. unfold withDeclarations. cbn [buffer declarations].
  subst ds. destruct (trim (buffer (scan post)));
    now rewrite <- !app_assoc.
Qed.

(** The notions of a text in parts. *)
Lemma openQuote_app (q : option char) (a b : str) :
  openQuote q (a ++ b) = openQuote (openQuote q a) b.
Proof.
  revert q. induction a as [|c a IH]; intros q; [easy|].
  cbn [app openQuote]. destruct q; apply IH.
Qed.

Lemma outside_app (q : option char) (a b : str) :
  outside q (a ++ b) = outside q a ++ outside (openQuote q a) b.
Proof.
  revert q. induction a as [|c a IH]; intros q; [easy|].
  cbn [app openQuote outside]. destruct q as [q0|]; [apply IH|].
  destruct (isQuote c); [apply IH|]. cbn [app]. now rewrite IH.
Qed.

Lemma count_snoc (c x : char) (s : str) :
  count c (s ++ [x]) = (count c s + (if (c =? x)%N then 1 else 0))%Z.
Proof.
  unfold count. rewrite filter_app, length_app, Nat2Z.inj_add. cbn [filter].
  now destruct (c =? x).
Qed.

(** What the scanner remembers is what the text read shows: the quote that
    is open, and for each pair the opening characters less the closing
    ones, outside the strings. *)
Lemma scan_state (pre : str) :
  stringChar (scan pre) = openQuote None pre
  /\ inString (scan pre)
     = match openQuote None pre with Some _ => true | None => false end
  /\ braceDepth (scan pre) = depth (ch "{") (ch "}") pre
  /\ bracketDepth (scan pre) = depth (ch "[") (ch "]") pre.
Proof.
  induction pre as [|c pre (IHq & IHs & IHb & IHk)] using rev_ind.
  { repeat split. }
  rewrite scan_snoc. unfold depth in *.
  rewrite openQuote_app, outside_app. cbn [openQuote outside].
  unfold lexer_step, isStringChar. rewrite IHq, IHs, IHb, IHk.
  destruct (openQuote None pre) as [q|].
  - rewrite andb_false_r, andb_true_r.
    destruct (c =? q); cbn [stringChar inString braceDepth bracketDepth];
      now rewrite app_nil_r.
  - cbn [negb]. rewrite andb_true_r, andb_false_r.
    destruct (isQuote c) eqn:Hq;
      cbn [stringChar inString braceDepth bracketDepth];
      [now rewrite app_nil_r|].
    assert (Hd : forall o k b1 b2 s l sc,
               braceDepth (if (c =? ch ";") && o && k
                           then mkLex s [] false sc b1 b2
                           else mkLex l (buffer (scan pre) ++ [c]) false sc b1 b2)
               = b1
               /\ bracketDepth (if (c =? ch ";") && o && k
                                then mkLex s [] false sc b1 b2
                                else mkLex l (buffer (scan pre) ++ [c])
                                           false sc b1 b2)
                  = b2
               /\ inString (if (c =? ch ";") && o && k
                            then mkLex s [] false sc b1 b2
                            else mkLex l (buffer (scan pre) ++ [c])
                                       false sc b1 b2)
                  = false
               /\ stringChar (if (c =? ch ";") && o && k
                              then mkLex s [] false sc b1 b2
                              else mkLex l (buffer (scan pre) ++ [c])
                                         false sc b1 b2)
                  = sc).
    { intros. now destruct ((c =? ch ";") && o && k). }
    cbv zeta. rewrite !count_snoc.
    match goal with
    | |- context [if _ && ?o && ?k then mkLex ?s _ _ ?sc ?b1 ?b2
                  else mkLex ?l _ _ _ _ _] =>
        destruct (Hd o k b1 b2 s l sc) as (E1 & E2 & E3 & E4)
    end.
    rewrite E1, E2, E3, E4. rewrite !(N.eqb_sym _ c).
    repeat split.
    + destruct (c =? ch "{"), (c =? ch "}"); lia.
    + destruct (c =? ch "["), (c =? ch "]"); lia.
Qed.

(** The top level is where the scanner is outside every string with both
    depths zero. *)
Lemma topLevel_state (pre : str) :
  topLevel pre = true
  <-> inString (scan pre) = false
      /\ braceDepth (scan pre) = 0%Z /\ bracketDepth (scan pre) = 0%Z.
Proof.
  destruct (scan_state pre) as (_ & -> & -> & ->). unfold topLevel.
  rewrite !andb_true_iff, !Z.eqb_eq.
  destruct (openQuote None pre); intuition discriminate.
Qed.

(** The statements that the loop has emitted and the one that the end of
    the input emits are the statements at the top level. *)
Lemma lexer_from (rest pre : str) :
  (let st := scan_from (scan pre) rest in
   match trim (buffer st) with
   | [] => declarations st
   | _ :: _ => declarations st ++ [trim (buffer st)]
   end)
  = declarations (scan pre)
    ++ topLevelStatements pre (buffer (scan pre)) rest.
Proof.
  cbv zeta. revert pre. induction rest as [|c rest IH]; intros pre.
  - cbn [scan_from fold_left topLevelStatements].
    destruct (trim (buffer (scan pre))); [now rewrite app_nil_r|easy].
  - cbn [scan_from fold_left topLevelStatements].
    fold (scan_from (lexer_step (scan pre) c) rest).
    rewrite <- scan_snoc, IH.
    destruct ((c =? ch ";") && topLevel pre) eqn:E.
    + apply andb_true_iff in E as [Hc Ht]. apply N.eqb_eq in Hc. subst c.
      apply topLevel_state in Ht as (Hs & Hb & Hk).
      rewrite scan_snoc, step_boundary by assumption.
      cbn [declarations buffer]. now rewrite <- app_assoc.
    + assert (Hn : ~ (c = ch ";" /\ inString (scan pre) = false
                      /\ braceDepth (scan pre) = 0%Z
                      /\ bracketDepth (scan pre) = 0%Z)).
      { intros (-> & H). apply topLevel_state in H.
        rewrite H, N.eqb_refl in E. discriminate E. }
      rewrite scan_snoc.
      destruct (step_no_boundary _ Hn) as [-> ->]. reflexivity.
Qed.

(** C4.  The splitter ends a statement at [;] exactly when the scanner is
    outside every string and both nesting depths are zero: there the
    trimmed buffer, separator included, is emitted and the buffer cleared;
    at any other character or state nothing is emitted and the character
    joins the buffer.  A quoted string is read as a whole, so separators,
    braces and brackets in it neither end a statement nor move the depths.
    Behind a top-level separator the splitter starts afresh on the rest.
    The nested example of the specification is one statement, and a buffer
    that is not blank at the end of the input is emitted as a last
    statement.

    What the scanner holds is what the text read shows: it is inside a
    string exactly when a quote of the text is open, and each depth is the
    number of the opening characters read outside the strings less the
    number of the closing ones.  So the statements of every input are the
    pieces of the text cut behind the separators that stand outside every
    string and behind as many closing as opening braces and brackets, and
    a separator between braces or brackets ends no statement. *)
Theorem lexer_statement_boundaries :
  (forall (pre : str) (c : char),
      (c = ch ";" /\ inString (scan pre) = false
       /\ braceDepth (scan pre) = 0%Z /\ bracketDepth (scan pre) = 0%Z ->
       declarations (scan (pre ++ [c]))
       = declarations (scan pre) ++ [trim (buffer (scan pre) ++ [c])]
       /\ buffer (scan (pre ++ [c])) = [])
      /\ (~ (c = ch ";" /\ inString (scan pre) = false
             /\ braceDepth (scan pre) = 0%Z /\ bracketDepth (scan pre) = 0%Z) ->
          declarations (scan (pre ++ [c])) = declarations (scan pre)
          /\ buffer (scan (pre ++ [c])) = buffer (scan pre) ++ [c]))
  /\ (forall (pre : str) (q : char) (s : str),
        inString (scan pre) = false -> isQuote q = true -> ~ In q s ->
        scan (pre ++ q :: s ++ [q])
        = mkLex (declarations (scan pre)) (buffer (scan pre) ++ q :: s ++ [q])
                false None (braceDepth (scan pre)) (bracketDepth (scan pre)))
  /\ (forall pre post : str,
        inString (scan pre) = false ->
        braceDepth (scan pre) = 0%Z -> bracketDepth (scan pre) = 0%Z ->
        lexer (pre ++ ch ";" :: post)
        = declarations (scan pre)
          ++ trim (buffer (scan pre) ++ [ch ";"]) :: lexer post)
  /\ lexer nesting_example = [nesting_example]
  /\ (forall input : str,
        trim (buffer (scan input)) <> [] ->
        lexer input
        = declarations (scan input) ++ [trim (buffer (scan input))])
  /\ (forall pre : str,
        stringChar (scan pre) = openQuote None pre
        /\ (inString (scan pre) = true <-> openQuote None pre <> None)
        /\ braceDepth (scan pre) = depth (ch "{") (ch "}") pre
        /\ bracketDepth (scan pre) = depth (ch "[") (ch "]") pre)
  /\ (forall input : str, lexer input = topLevelStatements [] [] input)
  /\ lexer separators_example
     = [dq "OBJ O={`a`:1;`b`:[2;3]};"; s2l "NUMBER N=4"].
Proof.
  split; [|split; [|split; [|split; [|split; [|split; [|split]]]]]].
  - intros pre c. rewrite scan_snoc. split.
    + intros (-> & Hs & Hb & Hk). now rewrite step_boundary.
    + apply step_no_boundary.
  - intros pre q s Hs Hq Hin. unfold scan. rewrite scan_from_app.
    now apply scan_string_literal.
  - apply lexer_at_boundary.
  - vm_compute. reflexivity.
  - intros input Hne. unfold lexer.
    destruct (trim (buffer (scan input))); congruence.
  - intros pre. destruct (scan_state pre) as (Hq & Hs & Hb & Hk).
    repeat split; try assumption.
    + intros H. rewrite H in Hs. now destruct (openQuote None pre).
    + intros H. rewrite Hs. now destruct (openQuote None pre).
  - intros input. exact (lexer_from input []).
  - vm_compute. reflexivity.
Qed.

(** The theorem at [A=1;B], at the character [;] inside [[1], at the
    string ["x;"] and at the depth behind [X=[1]. *)
Lemma lexer_statement_boundaries_witness :
  declarations (scan "A=1;") = [s2l "A=1;"]
  /\ (declarations (scan "X=[1;") = [] /\ buffer (scan "X=[1;") = s2l "X=[1;")
  /\ declarations (scan (dq "S=`x;`")) = []
  /\ lexer "A=1;B" = [s2l "A=1;"; s2l "B"]
  /\ bracketDepth (scan "X=[1") = 1%Z
  /\ lexer "X=[1;2];Y" = [s2l "X=[1;2];"; s2l "Y"].
Proof.
  destruct lexer_statement_boundaries
    as (H1 & H2 & H3 & _ & H4 & H5 & H6 & _).
  split; [|split; [|split; [|split; [|split]]]].
  - destruct (H1 (s2l "A=1") (ch ";")) as [Hb _].
    destruct Hb as [Hd _]; [vm_compute; repeat split; reflexivity|]. exact Hd.
  - destruct (H1 (s2l "X=[1") (ch ";")) as [_ Hn].
    apply Hn. vm_compute. intros (_ & _ & _ & Hk). discriminate Hk.
  - change (dq "S=`x;`") with (s2l "S=" ++ DQUOTE :: s2l "x;" ++ [DQUOTE]).
    rewrite (H2 (s2l "S=") DQUOTE (s2l "x;")).
    + reflexivity.
    + reflexivity.
    + reflexivity.
    + vm_compute. intros [H|[H|[]]]; discriminate H.
  - apply (H4 (s2l "A=1;B")). vm_compute. discriminate.
  - destruct (H5 (s2l "X=[1")) as (_ & _ & _ & ->). vm_compute. reflexivity.
  - rewrite (H6 (s2l "X=[1;2];Y")). vm_compute. reflexivity.
Defined.

End LexerFacts.

(** ** The tokenizer *)

Module TokenizeFacts.
Import Lexer Notions.

Lemma tokenize_from_quote (d : str) (i : nat) (tokens : list Token) :
  tokenize_from (DQUOTE :: d) i tokens
  = (fix string_loop (d' : str) (i' : nat) (str0 : str) {struct d'} :=
       match d' with
       | [] => Ok ((tokens ++ [stringToken str0]) ++ [punct EOF])
       | x :: r' =>
           if negb (x =? DQUOTE) then string_loop r' (S i') (str0 ++ [x])
           else tokenize_from r' (S i') (tokens ++ [stringToken str0])
       end) d (S i) [].
Proof. reflexivity. Qed.

(** The inner loop of a string literal that no quote closes. *)
Lemma string_loop_open (tokens : list Token) (s : str) :
  ~ In DQUOTE s ->
  forall (i : nat) (str0 : str),
    (fix string_loop (d' : str) (i' : nat) (str0 : str) {struct d'} :=
       match d' with
       | [] => Ok ((tokens ++ [stringToken str0]) ++ [punct EOF])
       | x :: r' =>
           if negb (x =? DQUOTE) then string_loop r' (S i') (str0 ++ [x])
           else tokenize_from r' (S i') (tokens ++ [stringToken str0])
       end) s i str0
    = Ok (tokens ++ [stringToken (str0 ++ s); punct EOF]).
Proof.
  induction s as [|x s IH]; intros Hin i str0.
  - now rewrite app_nil_r, <- app_assoc.
  - assert (Hx : (x =? DQUOTE) = false)
      by (apply N.eqb_neq; intros ->; apply Hin; now left).
    rewrite Hx. cbn [negb]. rewrite IH by (intros H; apply Hin; now right).
    now rewrite <- app_assoc.
Qed.

(** The inner loop of a string literal that a quote closes. *)
Lemma string_loop_closed (tokens : list Token) (s rest : str) :
  ~ In DQUOTE s ->
  forall (i : nat) (str0 : str),
    (fix string_loop (d' : str) (i' : nat) (str0 : str) {struct d'} :=
       match d' with
       | [] => Ok ((tokens ++ [stringToken str0]) ++ [punct EOF])
       | x :: r' =>
           if negb (x =? DQUOTE) then string_loop r' (S i') (str0 ++ [x])
           else tokenize_from r' (S i') (tokens ++ [stringToken str0])
       end) (s ++ DQUOTE :: rest) i str0
    = tokenize_from rest (S (i + List.length s))
                    (tokens ++ [stringToken (str0 ++ s)]).
Proof.
  induction s as [|x s IH]; intros Hin i str0.
  - cbn [app List.length]. rewrite N.eqb_refl. cbn [negb].
    now rewrite app_nil_r, Nat.add_0_r.
  - assert (Hx : (x =? DQUOTE) = false)
      by (apply N.eqb_neq; intros ->; apply Hin; now left).
    cbn [app]. rewrite Hx. cbn [negb].
    rewrite IH by (intros H; apply Hin; now right).
    cbn [List.length]. rewrite <- app_assoc, Nat.add_succ_r. reflexivity.
Qed.

(** C6, as the code has it.  Where the loop stands at a double quote, the
    characters up to the next double quote are one STRING_LITERAL token,
    taken as they are, backslashes included, and the loop goes on behind
    the closing quote.  When no double quote follows, this is no failure:
    the token holds all the characters to the end of the input and EOF
    follows it. *)
Theorem tokenize_string_literal (s : str) (i : nat) (tokens : list Token) :
  ~ In DQUOTE s ->
  tokenize_from (DQUOTE :: s) i tokens
  = Ok (tokens ++ [stringToken s; punct EOF])
  /\ tokenize (DQUOTE :: s) = Ok [stringToken s; punct EOF]
  /\ forall rest : str,
      tokenize_from (DQUOTE :: s ++ DQUOTE :: rest) i tokens
      = tokenize_from rest (i + List.length s + 2) (tokens ++ [stringToken s]).
Proof.
  intros Hin. split; [|split].
  - rewrite tokenize_from_quote. now rewrite string_loop_open.
  - unfold tokenize. rewrite tokenize_from_quote.
    now rewrite string_loop_open.
  - intros rest. rewrite tokenize_from_quote.
    rewrite string_loop_closed by assumption.
    cbn [app]. f_equal. lia.
Qed.

Lemma tokenize_string_literal_witness :
  tokenize (dq "`a\n;b") = Ok [stringToken (s2l "a\n;b"); punct EOF]
  /\ tokenize (dq "`a\b`=") = Ok [stringToken (s2l "a\b"); punct EQUALS; punct EOF].
Proof.
  assert (Hin : forall s : str, forallb (fun c => negb (c =? DQUOTE)) s = true ->
                           ~ In DQUOTE s).
  { intros s Hs Hi. rewrite forallb_forall in Hs. apply Hs in Hi.
    now rewrite N.eqb_refl in Hi. }
  split.
  - apply (tokenize_string_literal (s2l "a\n;b") 0 []). now apply Hin.
  - destruct (tokenize_string_literal (s2l "a\b") 0 []) as (_ & _ & H).
    + now apply Hin.
    + change (dq "`a\b`=") with (DQUOTE :: s2l "a\b" ++ DQUOTE :: s2l "=").
      unfold tokenize. rewrite H. reflexivity.
Defined.

(** C6, as the claim has it, fails: the statement [STRING X=] followed by a
    double quote and [abc], whose double quote is never closed, is tokenized
    without an error. *)
Lemma tokenize_unterminated_string_accepted :
  tokenize (dq "STRING X=`abc")
  = Ok [mkToken TYPE (Some (s2l "STRING")); mkToken IDENTIFIER (Some (s2l "X"));
        punct EQUALS; stringToken (s2l "abc"); punct EOF].
Proof. reflexivity. Qed.

End TokenizeFacts.

(** ** The literal parser *)

Module ParserFacts.
Import Parser Notions.

Section Cursor.

Variable tokens : list Token.

Lemma bind_ok {A B : Type} (m : M A) (k : A -> nat -> M B) (b : B) (c' : nat) :
  bind m k = Some (Ok (b, c')) ->
  exists a c, m = Some (Ok (a, c)) /\ k a c = Some (Ok (b, c')).
Proof.
  unfold bind. destruct m as [[[a c]|e]|]; try discriminate. eauto.
Qed.

Lemma bind_none {A B : Type} (m : M A) (k : A -> nat -> M B) :
  bind m k = None ->
  m = None \/ exists a c, m = Some (Ok (a, c)) /\ k a c = None.
Proof.
  unfold bind. destruct m as [[[a c]|e]|]; try discriminate; eauto.
Qed.

Lemma eat_ok (t : TokenType) (c c' : nat) (token : Token) :
  eat tokens t c = Some (Ok (token, c')) ->
  nth_error tokens c = Some token /\ TokenType_eqb (type token) t = true
  /\ c' = S c.
Proof.
  unfold eat. destruct (nth_error tokens c) as [tok|]; try discriminate.
  destruct (TokenType_eqb (type tok) t) eqn:E; try discriminate.
  intros [= <- <-]. auto.
Qed.

Lemma eat_some (t : TokenType) (c : nat) : eat tokens t c <> None.
Proof.
  unfold eat. destruct (nth_error tokens c) as [tok|]; try discriminate.
  destruct (TokenType_eqb (type tok) t); discriminate.
Qed.

Lemma peekIs_ok (t : TokenType) (c c' : nat) (b : bool) :
  peekIs tokens t c = Some (Ok (b, c')) ->
  exists token, nth_error tokens c = Some token
                /\ b = TokenType_eqb (type token) t /\ c' = c.
Proof.
  unfold peekIs. destruct (nth_error tokens c) as [tok|]; try discriminate.
  intros [= <- <-]. eauto.
Qed.

Lemma peekIs_some (t : TokenType) (c : nat) : peekIs tokens t c <> None.
Proof. unfold peekIs. destruct (nth_error tokens c); discriminate. Qed.

Lemma nth_error_lt (c : nat) (token : Token) :
  nth_error tokens c = Some token -> (c < List.length tokens)%nat.
Proof. intros H. apply nth_error_Some. congruence. Qed.

(** Every literal read moves the cursor on; a loop that returns stands on
    its closing token. *)
Lemma progress (fuel : nat) :
  (forall c v c', parseLiteral tokens fuel c = Some (Ok (v, c')) ->
                  (c < c' <= List.length tokens)%nat)
  /\ (forall c acc r c', arrayLoop tokens fuel c acc = Some (Ok (r, c')) ->
                         (c <= c' < List.length tokens)%nat)
  /\ (forall c acc r c', objectLoop tokens fuel c acc = Some (Ok (r, c')) ->
                         (c <= c' < List.length tokens)%nat).
Proof.
  induction fuel as [|f (IHl & IHa & IHo)].
  { repeat split; intros; discriminate. }
  split; [|split].
  - intros c v c' H. cbn [parseLiteral] in H.
    destruct (nth_error tokens c) as [token|] eqn:Hn; try discriminate.
    pose proof (nth_error_lt _ Hn) as Hlt.
    destruct (type token); try discriminate;
      try (injection H as <- <-; lia).
    + unfold parseArrayWith in H.
      apply bind_ok in H as (? & c1 & He & H). apply eat_ok in He as (_ & _ & ->).
      apply bind_ok in H as (? & c2 & Hl & H). apply IHa in Hl.
      apply bind_ok in H as (? & c3 & He & H). apply eat_ok in He as (_ & _ & ->).
      injection H as <- <-. lia.
    + unfold parseObjectWith in H.
      apply bind_ok in H as (? & c1 & He & H). apply eat_ok in He as (_ & _ & ->).
      apply bind_ok in H as (? & c2 & Hl & H). apply IHo in Hl.
      apply bind_ok in H as (? & c3 & He & H). apply eat_ok in He as (_ & _ & ->).
      injection H as <- <-. lia.
  - intros c acc r c' H. cbn [arrayLoop] in H.
    apply bind_ok in H as (closing & ? & Hp & H).
    apply peekIs_ok in Hp as (token & Hn & -> & ->).
    pose proof (nth_error_lt _ Hn) as Hlt.
    destruct (TokenType_eqb (type token) R_BRACKET).
    + injection H as <- <-. lia.
    + apply bind_ok in H as (v & c1 & Hl & H). apply IHl in Hl.
      apply bind_ok in H as (comma & ? & Hp & H).
      apply peekIs_ok in Hp as (? & _ & -> & ->).
      destruct (TokenType_eqb _ COMMA).
      * apply bind_ok in H as (? & c2 & He & H).
        apply eat_ok in He as (_ & _ & ->). apply IHa in H. lia.
      * apply IHa in H. lia.
  - intros c acc r c' H. cbn [objectLoop] in H.
    apply bind_ok in H as (closing & ? & Hp & H).
    apply peekIs_ok in Hp as (token & Hn & -> & ->).
    pose proof (nth_error_lt _ Hn) as Hlt.
    destruct (TokenType_eqb (type token) R_BRACE).
    + injection H as <- <-. lia.
    + apply bind_ok in H as (? & c1 & He & H). apply eat_ok in He as (_ & _ & ->).
      apply bind_ok in H as (? & c2 & He & H). apply eat_ok in He as (_ & _ & ->).
      apply bind_ok in H as (v & c3 & Hl & H). apply IHl in Hl.
      apply bind_ok in H as (comma & ? & Hp & H).
      apply peekIs_ok in Hp as (? & _ & -> & ->).
      destruct (TokenType_eqb _ COMMA).
      * apply bind_ok in H as (? & c4 & He & H).
        apply eat_ok in He as (_ & _ & ->). apply IHo in H. lia.
      * apply IHo in H. lia.
Qed.

(** Fuel of twice the number of the tokens ahead, and a little, is enough. *)
Lemma enough_fuel (fuel : nat) :
  (forall c, (2 * (List.length tokens - c) + 1 <= fuel)%nat ->
             parseLiteral tokens fuel c <> None)
  /\ (forall c acc, (2 * (List.length tokens - c) + 2 <= fuel)%nat ->
                    arrayLoop tokens fuel c acc <> None)
  /\ (forall c acc, (2 * (List.length tokens - c) + 2 <= fuel)%nat ->
                    objectLoop tokens fuel c acc <> None).
Proof.
  induction fuel as [|f (IHl & IHa & IHo)].
  { repeat split; intros; lia. }
  split; [|split].
  - intros c Hf H. cbn [parseLiteral] in H.
    destruct (nth_error tokens c) as [token|] eqn:Hn; try discriminate.
    pose proof (nth_error_lt _ Hn) as Hlt.
    destruct (type token); try discriminate.
    + unfold parseArrayWith in H.
      apply bind_none in H as [H|(? & c1 & He & H)]; [now apply eat_some in H|].
      apply eat_ok in He as (_ & _ & ->).
      apply bind_none in H as [H|(? & c2 & _ & H)]; [apply IHa in H; [easy|lia]|].
      apply bind_none in H as [H|(? & ? & _ & H)]; [now apply eat_some in H|].
      discriminate.
    + unfold parseObjectWith in H.
      apply bind_none in H as [H|(? & c1 & He & H)]; [now apply eat_some in H|].
      apply eat_ok in He as (_ & _ & ->).
      apply bind_none in H as [H|(? & c2 & _ & H)]; [apply IHo in H; [easy|lia]|].
      apply bind_none in H as [H|(? & ? & _ & H)]; [now apply eat_some in H|].
      discriminate.
  - intros c acc Hf H. cbn [arrayLoop] in H.
    apply bind_none in H as [H|(closing & ? & Hp & H)];
      [now apply peekIs_some in H|].
    apply peekIs_ok in Hp as (token & Hn & -> & ->).
    pose proof (nth_error_lt _ Hn) as Hlt.
    destruct (TokenType_eqb (type token) R_BRACKET); try discriminate.
    apply bind_none in H as [H|(v & c1 & Hl & H)]; [apply IHl in H; [easy|lia]|].
    apply (proj1 (progress f)) in Hl.
    apply bind_none in H as [H|(comma & ? & Hp & H)];
      [now apply peekIs_some in H|].
    apply peekIs_ok in Hp as (tok1 & Hn1 & -> & ->).
    pose proof (nth_error_lt _ Hn1) as Hlt1.
    destruct (TokenType_eqb _ COMMA).
    + apply bind_none in H as [H|(? & c2 & He & H)]; [now apply eat_some in H|].
      apply eat_ok in He as (_ & _ & ->). apply IHa in H; [easy|lia].
    + apply IHa in H; [easy|lia].
  - intros c acc Hf H. cbn [objectLoop] in H.
    apply bind_none in H as [H|(closing & ? & Hp & H)];
      [now apply peekIs_some in H|].
    apply peekIs_ok in Hp as (token & Hn & -> & ->).
    pose proof (nth_error_lt _ Hn) as Hlt.
    destruct (TokenType_eqb (type token) R_BRACE); try discriminate.
    apply bind_none in H as [H|(? & c1 & He & H)]; [now apply eat_some in H|].
    apply eat_ok in He as (_ & _ & ->).
    apply bind_none in H as [H|(? & c2 & He & H)]; [now apply eat_some in H|].
    apply eat_ok in He as (_ & _ & ->).
    apply bind_none in H as [H|(v & c3 & Hl & H)]; [apply IHl in H; [easy|lia]|].
    apply (proj1 (progress f)) in Hl.
    apply bind_none in H as [H|(comma & ? & Hp & H)];
      [now apply peekIs_some in H|].
    apply peekIs_ok in Hp as (tok1 & Hn1 & -> & ->).
    pose proof (nth_error_lt _ Hn1) as Hlt1.
    destruct (TokenType_eqb _ COMMA).
    + apply bind_none in H as [H|(? & c4 & He & H)]; [now apply eat_some in H|].
      apply eat_ok in He as (_ & _ & ->). apply IHo in H; [easy|lia].
    + apply IHo in H; [easy|lia].
Qed.

Lemma bind_some {A B : Type} (m : M A) (k : A -> nat -> M B) (r : result (B * nat)) :
  bind m k = Some r ->
  (exists e, m = Some (Throw e) /\ r = Throw e)
  \/ exists a c, m = Some (Ok (a, c)) /\ k a c = Some r.
Proof.
  unfold bind. destruct m as [[[a c]|e]|]; try discriminate.
  - eauto.
  - intros [= <-]. eauto.
Qed.

(** An answer does not change when more fuel is given. *)
Lemma more_fuel (fuel : nat) :
  (forall c r, parseLiteral tokens fuel c = Some r ->
               parseLiteral tokens (S fuel) c = Some r)
  /\ (forall c acc r, arrayLoop tokens fuel c acc = Some r ->
                      arrayLoop tokens (S fuel) c acc = Some r)
  /\ (forall c acc r, objectLoop tokens fuel c acc = Some r ->
                      objectLoop tokens (S fuel) c acc = Some r).
Proof.
  induction fuel as [|f (IHl & IHa & IHo)].
  { repeat split; intros; discriminate. }
  split; [|split].
  - intros c r H. cbn [parseLiteral] in H |- *.
    destruct (nth_error tokens c) as [token|]; [|exact H].
    destruct (type token); try exact H.
    + unfold parseArrayWith in *.
      destruct (eat tokens L_BRACKET c) as [[[t c1]|e]|]; try exact H.
      cbn [bind] in *.
      destruct (arrayLoop tokens f c1 []) as [r1|] eqn:E; [|discriminate].
      now rewrite (IHa _ _ _ E).
    + unfold parseObjectWith in *.
      destruct (eat tokens L_BRACE c) as [[[t c1]|e]|]; try exact H.
      cbn [bind] in *.
      destruct (objectLoop tokens f c1 []) as [r1|] eqn:E; [|discriminate].
      now rewrite (IHo _ _ _ E).
  - intros c acc r H. cbn [arrayLoop] in H |- *.
    destruct (peekIs tokens R_BRACKET c) as [[[closing c0]|e]|]; try exact H.
    cbn [bind] in *. destruct closing; [exact H|].
    destruct (parseLiteral tokens f c) as [r1|] eqn:E; [|discriminate].
    rewrite (IHl _ _ E). destruct r1 as [[v c1]|e]; [|exact H].
    cbn [bind] in *.
    destruct (peekIs tokens COMMA c1) as [[[comma c2]|e]|]; try exact H.
    cbn [bind] in *. destruct comma.
    + destruct (eat tokens COMMA c1) as [[[t c3]|e]|]; try exact H.
      cbn [bind] in *. now apply IHa.
    + now apply IHa.
  - intros c acc r H. cbn [objectLoop] in H |- *.
    destruct (peekIs tokens R_BRACE c) as [[[closing c0]|e]|]; try exact H.
    cbn [bind] in *. destruct closing; [exact H|].
    destruct (eat tokens STRING_LITERAL c) as [[[keyToken c1]|e]|]; try exact H.
    cbn [bind] in *.
    destruct (eat tokens COLON c1) as [[[t c2]|e]|]; try exact H.
    cbn [bind] in *.
    destruct (parseLiteral tokens f c2) as [r1|] eqn:E; [|discriminate].
    rewrite (IHl _ _ E). destruct r1 as [[v c3]|e]; [|exact H].
    cbn [bind] in *.
    destruct (peekIs tokens COMMA c3) as [[[comma c4]|e]|]; try exact H.
    cbn [bind] in *. destruct comma.
    + destruct (eat tokens COMMA c3) as [[[t' c5]|e]|]; try exact H.
      cbn [bind] in *. now apply IHo.
    + now apply IHo.
Qed.

End Cursor.

(** [parser] always answers: it returns a node or throws. *)
Lemma parser_fuel (tokens : list Token) : parser tokens <> None.
Proof.
  unfold parser, parseDeclaration.
  destruct (bind _ _) as [[[node c]|e]|] eqn:H; try discriminate.
  exfalso.
  apply bind_none in H as [H|(? & c1 & He & H)]; [now apply eat_some in H|].
  apply eat_ok in He as (_ & _ & ->).
  apply bind_none in H as [H|(? & c2 & He & H)]; [now apply eat_some in H|].
  apply eat_ok in He as (_ & _ & ->).
  apply bind_none in H as [H|(? & c3 & He & H)]; [now apply eat_some in H|].
  apply eat_ok in He as (_ & _ & ->).
  apply bind_none in H as [H|(? & c4 & _ & H)].
  - apply (proj1 (enough_fuel tokens _)) in H; [easy|lia].
  - apply bind_none in H as [H|(? & ? & _ & H)]; [now apply eat_some in H|].
    discriminate.
Qed.

Lemma typeAt_peekIs (tokens : list Token) (c : nat) (t u : TokenType) :
  typeAt tokens c = Some t ->
  peekIs tokens u c = Some (Ok (TokenType_eqb t u, c)).
Proof.
  unfold typeAt, peekIs. destruct (nth_error tokens c); [|discriminate].
  now intros [= ->].
Qed.

Lemma typeAt_eat (tokens : list Token) (c : nat) (t : TokenType) :
  typeAt tokens c = Some t ->
  exists token, eat tokens t c = Some (Ok (token, S c)).
Proof.
  unfold typeAt, eat. destruct (nth_error tokens c) as [tok|]; [|discriminate].
  cbn [option_map]. intros [= <-]. exists tok.
  assert (E : TokenType_eqb (type tok) (type tok) = true)
    by now destruct (type tok).
  now rewrite E.
Qed.

(** A token that starts a literal is no closing token. *)
Lemma parseLiteral_start (tokens : list Token) (fuel c c1 : nat) (v : JSValue) :
  parseLiteral tokens fuel c = Some (Ok (v, c1)) ->
  exists f t, fuel = S f /\ typeAt tokens c = Some t
              /\ TokenType_eqb t R_BRACKET = false
              /\ TokenType_eqb t R_BRACE = false.
Proof.
  destruct fuel as [|f]; [discriminate|]. cbn [parseLiteral]. unfold typeAt.
  destruct (nth_error tokens c) as [tok|]; [|discriminate].
  intros H. exists f, (type tok). cbn [option_map].
  destruct (type tok); try discriminate; auto.
Qed.

(** *** A run reads the tokens up to where it returns *)

Section Locality.

Variables tokens1 tokens2 : list Token.
Variable n : nat.
Hypothesis agree :
  forall i, (i < n)%nat -> nth_error tokens1 i = nth_error tokens2 i.

Lemma eat_agree (t : TokenType) (c : nat) :
  (c < n)%nat -> eat tokens2 t c = eat tokens1 t c.
Proof. intros H. unfold eat. now rewrite (agree H). Qed.

Lemma peekIs_agree (t : TokenType) (c : nat) :
  (c < n)%nat -> peekIs tokens2 t c = peekIs tokens1 t c.
Proof. intros H. unfold peekIs. now rewrite (agree H). Qed.

(** A run that returns within the tokens on which two lists agree returns
    the same on both. *)
Lemma local (fuel : nat) :
  (forall c v c', parseLiteral tokens1 fuel c = Some (Ok (v, c')) ->
                  (c' <= n)%nat ->
                  parseLiteral tokens2 fuel c = Some (Ok (v, c')))
  /\ (forall c acc r c', arrayLoop tokens1 fuel c acc = Some (Ok (r, c')) ->
                         (c' < n)%nat ->
                         arrayLoop tokens2 fuel c acc = Some (Ok (r, c')))
  /\ (forall c acc r c', objectLoop tokens1 fuel c acc = Some (Ok (r, c')) ->
                         (c' < n)%nat ->
                         objectLoop tokens2 fuel c acc = Some (Ok (r, c'))).
Proof.
  induction fuel as [|f (IHl & IHa & IHo)].
  { repeat split; intros; discriminate. }
  split; [|split].
  - intros c v c' H Hn.
    pose proof (proj1 (progress tokens1 (S f)) _ _ _ H) as Hp.
    cbn [parseLiteral] in H |- *. rewrite <- (@agree c) by lia.
    destruct (nth_error tokens1 c) as [token|]; [|discriminate].
    destruct (type token); try exact H.
    + unfold parseArrayWith in *.
      apply bind_ok in H as (t & c1 & He & H).
      pose proof (eat_ok _ _ _ He) as (_ & _ & E1).
      apply bind_ok in H as (els & c2 & Hl & H).
      apply bind_ok in H as (t' & c3 & He2 & H).
      pose proof (eat_ok _ _ _ He2) as (_ & _ & E3).
      injection H as <- <-. subst c1 c3.
      rewrite eat_agree, He by lia. cbn [bind].
      rewrite (IHa _ _ _ _ Hl) by lia. cbn [bind].
      rewrite eat_agree, He2 by lia. reflexivity.
    + unfold parseObjectWith in *.
      apply bind_ok in H as (t & c1 & He & H).
      pose proof (eat_ok _ _ _ He) as (_ & _ & E1).
      apply bind_ok in H as (obj & c2 & Hl & H).
      apply bind_ok in H as (t' & c3 & He2 & H).
      pose proof (eat_ok _ _ _ He2) as (_ & _ & E3).
      injection H as <- <-. subst c1 c3.
      rewrite eat_agree, He by lia. cbn [bind].
      rewrite (IHo _ _ _ _ Hl) by lia. cbn [bind].
      rewrite eat_agree, He2 by lia. reflexivity.
  - intros c acc r c' H Hn.
    pose proof (proj1 (proj2 (progress tokens1 (S f))) _ _ _ _ H) as Hc.
    cbn [arrayLoop] in H |- *.
    apply bind_ok in H as (closing & c0 & Hp & H).
    rewrite peekIs_agree, Hp by lia. cbn [bind].
    destruct closing; [exact H|].
    apply bind_ok in H as (v & c1 & Hl & H).
    apply bind_ok in H as (comma & c1' & Hp1 & H).
    destruct comma.
    + apply bind_ok in H as (t & c2 & He & H).
      pose proof (eat_ok _ _ _ He) as (_ & _ & E2). subst c2.
      pose proof (proj1 (proj2 (progress tokens1 f)) _ _ _ _ H) as Hc2.
      rewrite (IHl _ _ _ Hl) by lia. cbn [bind].
      rewrite peekIs_agree, Hp1 by lia. cbn [bind].
      rewrite eat_agree, He by lia. cbn [bind]. now apply IHa.
    + pose proof (proj1 (proj2 (progress tokens1 f)) _ _ _ _ H) as Hc1.
      rewrite (IHl _ _ _ Hl) by lia. cbn [bind].
      rewrite peekIs_agree, Hp1 by lia. cbn [bind]. now apply IHa.
  - intros c acc r c' H Hn.
    pose proof (proj2 (proj2 (progress tokens1 (S f))) _ _ _ _ H) as Hc.
    cbn [objectLoop] in H |- *.
    apply bind_ok in H as (closing & c0 & Hp & H).
    rewrite peekIs_agree, Hp by lia. cbn [bind].
    destruct closing; [exact H|].
    apply bind_ok in H as (keyToken & c1 & He1 & H).
    pose proof (eat_ok _ _ _ He1) as (_ & _ & E1). subst c1.
    apply bind_ok in H as (t & c2 & He2 & H).
    pose proof (eat_ok _ _ _ He2) as (_ & _ & E2). subst c2.
    apply bind_ok in H as (v & c3 & Hl & H). cbv zeta in H.
    apply bind_ok in H as (comma & c3' & Hp3 & H).
    pose proof (proj1 (progress tokens1 f) _ _ _ Hl) as Hc3.
    destruct comma.
    + apply bind_ok in H as (t' & c4 & He4 & H).
      pose proof (eat_ok _ _ _ He4) as (_ & _ & E4). subst c4.
      pose proof (proj2 (proj2 (progress tokens1 f)) _ _ _ _ H) as Hc4.
      rewrite eat_agree, He1 by lia. cbn [bind].
      rewrite eat_agree, He2 by lia. cbn [bind].
      rewrite (IHl _ _ _ Hl) by lia. cbn [bind]. cbv zeta.
      rewrite peekIs_agree, Hp3 by lia. cbn [bind].
      rewrite eat_agree, He4 by lia. cbn [bind]. now apply IHo.
    + pose proof (proj2 (proj2 (progress tokens1 f)) _ _ _ _ H) as Hc4.
      rewrite eat_agree, He1 by lia. cbn [bind].
      rewrite eat_agree, He2 by lia. cbn [bind].
      rewrite (IHl _ _ _ Hl) by lia. cbn [bind]. cbv zeta.
      rewrite peekIs_agree, Hp3 by lia. cbn [bind]. now apply IHo.
Qed.

(** The second list has a COMMA at [n], where the first has the closing
    token, and the closing token behind it. *)
Hypothesis comma_there : typeAt tokens2 n = Some COMMA.

(** The array loop that stops at the closing bracket at [n] stops at the
    bracket behind the comma, with the same elements, unless a comma
    stands before [n] already. *)
Lemma arrayLoop_comma_inserted (fuel : nat) :
  typeAt tokens1 n = Some R_BRACKET -> typeAt tokens2 (S n) = Some R_BRACKET ->
  (forall c1, S c1 = n -> typeAt tokens1 c1 <> Some COMMA) ->
  forall c acc r,
    arrayLoop tokens1 fuel c acc = Some (Ok (r, n)) -> (c < n)%nat ->
    arrayLoop tokens2 fuel c acc = Some (Ok (r, S n)).
Proof.
  intros Hclose Hclose2 Hlast.
  induction fuel as [|f IH]; intros c acc r H Hc; [discriminate|].
  cbn [arrayLoop] in H |- *.
  apply bind_ok in H as (closing & c0 & Hp & H).
  rewrite peekIs_agree, Hp by lia. cbn [bind].
  destruct closing; [injection H as _ E; lia|].
  apply bind_ok in H as (v & c1 & Hl & H).
  apply bind_ok in H as (comma & c1' & Hp1 & H).
  pose proof Hp1 as Hp1'.
  apply peekIs_ok in Hp1' as (tok1 & Hn1 & Ecomma & _).
  destruct comma.
  - apply bind_ok in H as (t & c2 & He & H).
    pose proof (eat_ok _ _ _ He) as (_ & _ & E2). subst c2.
    pose proof (proj1 (proj2 (progress tokens1 f)) _ _ _ _ H) as Hc2.
    assert (Hlt : (S c1 < n)%nat).
    { destruct (Nat.eq_dec (S c1) n) as [E|E]; [|lia].
      exfalso. apply (Hlast c1 E). unfold typeAt. rewrite Hn1. cbn.
      destruct (type tok1); try discriminate. reflexivity. }
    rewrite (proj1 (local f) _ _ _ Hl) by lia. cbn [bind].
    rewrite peekIs_agree, Hp1 by lia. cbn [bind].
    rewrite eat_agree, He by lia. cbn [bind]. now apply IH.
  - pose proof (proj1 (proj2 (progress tokens1 f)) _ _ _ _ H) as Hc1.
    rewrite (proj1 (local f) _ _ _ Hl) by lia. cbn [bind].
    destruct (Nat.eq_dec c1 n) as [->|Hne].
    + rewrite (typeAt_peekIs _ _ COMMA comma_there). cbn [bind TokenType_eqb].
      destruct (typeAt_eat _ _ comma_there) as (tok & ->). cbn [bind].
      destruct f as [|f']; [discriminate|]. cbn [arrayLoop] in H |- *.
      rewrite (typeAt_peekIs _ _ R_BRACKET Hclose) in H.
      rewrite (typeAt_peekIs _ _ R_BRACKET Hclose2).
      cbn [bind TokenType_eqb] in H |- *. now injection H as <-.
    + rewrite peekIs_agree, Hp1 by lia. cbn [bind]. apply IH; [exact H|lia].
Qed.

(** The same for the object loop and the closing brace. *)
Lemma objectLoop_comma_inserted (fuel : nat) :
  typeAt tokens1 n = Some R_BRACE -> typeAt tokens2 (S n) = Some R_BRACE ->
  (forall c1, S c1 = n -> typeAt tokens1 c1 <> Some COMMA) ->
  forall c obj r,
    objectLoop tokens1 fuel c obj = Some (Ok (r, n)) -> (c < n)%nat ->
    objectLoop tokens2 fuel c obj = Some (Ok (r, S n)).
Proof.
  intros Hclose Hclose2 Hlast.
  induction fuel as [|f IH]; intros c obj r H Hc; [discriminate|].
  cbn [objectLoop] in H |- *.
  apply bind_ok in H as (closing & c0 & Hp & H).
  rewrite peekIs_agree, Hp by lia. cbn [bind].
  destruct closing; [injection H as _ E; lia|].
  apply bind_ok in H as (keyToken & c1 & He1 & H).
  pose proof (eat_ok _ _ _ He1) as (_ & _ & E1). subst c1.
  apply bind_ok in H as (t & c2 & He2 & H).
  pose proof (eat_ok _ _ _ He2) as (Hn2 & _ & E2). subst c2.
  apply nth_error_lt in Hn2.
  apply bind_ok in H as (v & c3 & Hl & H). cbv zeta in H.
  apply bind_ok in H as (comma & c3' & Hp3 & H).
  pose proof (proj1 (progress tokens1 f) _ _ _ Hl) as Hc3.
  pose proof Hp3 as Hp3'.
  apply peekIs_ok in Hp3' as (tok3 & Hn3 & Ecomma & _).
  assert (Hle : (c3 <= n)%nat).
  { destruct comma.
    - apply bind_ok in H as (t' & c4 & He4 & H).
      pose proof (eat_ok _ _ _ He4) as (_ & _ & E4). subst c4.
      pose proof (proj2 (proj2 (progress tokens1 f)) _ _ _ _ H). lia.
    - pose proof (proj2 (proj2 (progress tokens1 f)) _ _ _ _ H). lia. }
  rewrite eat_agree, He1 by lia. cbn [bind].
  rewrite eat_agree, He2 by lia. cbn [bind].
  rewrite (proj1 (local f) _ _ _ Hl) by lia. cbn [bind]. cbv zeta.
  destruct comma.
  - apply bind_ok in H as (t' & c4 & He4 & H).
    pose proof (eat_ok _ _ _ He4) as (_ & _ & E4). subst c4.
    pose proof (proj2 (proj2 (progress tokens1 f)) _ _ _ _ H) as Hc4.
    assert (Hlt : (S c3 < n)%nat).
    { destruct (Nat.eq_dec (S c3) n) as [E|E]; [|lia].
      exfalso. apply (Hlast c3 E). unfold typeAt. rewrite Hn3. cbn.
      destruct (type tok3); try discriminate. reflexivity. }
    rewrite peekIs_agree, Hp3 by lia. cbn [bind].
    rewrite eat_agree, He4 by lia. cbn [bind]. now apply IH.
  - destruct (Nat.eq_dec c3 n) as [->|Hne].
    + rewrite (typeAt_peekIs _ _ COMMA comma_there). cbn [bind TokenType_eqb].
      destruct (typeAt_eat _ _ comma_there) as (tok & ->). cbn [bind].
      destruct f as [|f']; [discriminate|]. cbn [objectLoop] in H |- *.
      rewrite (typeAt_peekIs _ _ R_BRACE Hclose) in H.
      rewrite (typeAt_peekIs _ _ R_BRACE Hclose2).
      cbn [bind TokenType_eqb] in H |- *. now injection H as <-.
    + rewrite peekIs_agree, Hp3 by lia. cbn [bind]. apply IH; [exact H|lia].
Qed.

(** A literal that is closed at [n], behind an element, is closed behind
    the comma with the same value. *)
Lemma literal_comma_inserted (closing : TokenType) (fuel c0 : nat)
  (v : JSValue) :
  closing = R_BRACKET \/ closing = R_BRACE ->
  typeAt tokens1 n = Some closing -> typeAt tokens2 (S n) = Some closing ->
  (forall c1, S c1 = n -> typeAt tokens1 c1 <> Some COMMA) ->
  (S c0 < n)%nat ->
  parseLiteral tokens1 fuel c0 = Some (Ok (v, S n)) ->
  parseLiteral tokens2 fuel c0 = Some (Ok (v, S (S n))).
Proof.
  intros Hkind Hclose Hclose2 Hlast Hc0 H.
  destruct fuel as [|f]; [discriminate|].
  cbn [parseLiteral] in H |- *. rewrite <- (@agree c0) by lia.
  destruct (nth_error tokens1 c0) as [token|]; [|discriminate].
  destruct (type token); try discriminate; try (injection H as _ E; lia).
  - unfold parseArrayWith in *.
    apply bind_ok in H as (t & c1 & He & H).
    pose proof (eat_ok _ _ _ He) as (_ & _ & E1). subst c1.
    apply bind_ok in H as (els & c2 & Hl & H).
    apply bind_ok in H as (t' & c3 & He2 & H).
    pose proof (eat_ok _ _ _ He2) as (Hn2 & Ht2 & E3).
    injection H as <- E. assert (c2 = n) by lia. subst c2. clear E E3.
    assert (Hb : closing = R_BRACKET).
    { unfold typeAt in Hclose. rewrite Hn2 in Hclose. cbn in Hclose.
      injection Hclose as <-. now destruct (type t'). }
    subst closing.
    rewrite eat_agree, He by lia. cbn [bind].
    rewrite (@arrayLoop_comma_inserted f Hclose Hclose2 Hlast _ _ _ Hl) by lia.
    cbn [bind]. destruct (typeAt_eat _ _ Hclose2) as (tok & ->). reflexivity.
  - unfold parseObjectWith in *.
    apply bind_ok in H as (t & c1 & He & H).
    pose proof (eat_ok _ _ _ He) as (_ & _ & E1). subst c1.
    apply bind_ok in H as (obj & c2 & Hl & H).
    apply bind_ok in H as (t' & c3 & He2 & H).
    pose proof (eat_ok _ _ _ He2) as (Hn2 & Ht2 & E3).
    injection H as <- E. assert (c2 = n) by lia. subst c2. clear E E3.
    assert (Hb : closing = R_BRACE).
    { unfold typeAt in Hclose. rewrite Hn2 in Hclose. cbn in Hclose.
      injection Hclose as <-. now destruct (type t'). }
    subst closing.
    rewrite eat_agree, He by lia. cbn [bind].
    rewrite (@objectLoop_comma_inserted f Hclose Hclose2 Hlast _ _ _ Hl) by lia.
    cbn [bind]. destruct (typeAt_eat _ _ Hclose2) as (tok & ->). reflexivity.
Qed.

End Locality.

(** Where the array loop stands on a COMMA it reads it as an element, and
    the literal parser refuses it. *)
Lemma arrayLoop_at_comma (tokens : list Token) (fuel c : nat)
  (elements : list JSValue) :
  typeAt tokens c = Some COMMA ->
  arrayLoop tokens (S (S fuel)) c elements
  = Some (Throw (UnexpectedLiteralToken COMMA)).
Proof.
  intros H. cbn [arrayLoop parseLiteral].
  rewrite (typeAt_peekIs _ _ R_BRACKET H). cbn [bind TokenType_eqb].
  unfold typeAt in H. destruct (nth_error tokens c) as [tok|]; [|discriminate].
  injection H as H. now rewrite H.
Qed.

(** Where the object loop stands on a COMMA it asks for a key. *)
Lemma objectLoop_at_comma (tokens : list Token) (fuel c : nat)
  (obj : list (str * JSValue)) :
  typeAt tokens c = Some COMMA ->
  objectLoop tokens (S fuel) c obj
  = Some (Throw (Expected STRING_LITERAL (Some COMMA))).
Proof.
  intros H. cbn [objectLoop].
  rewrite (typeAt_peekIs _ _ R_BRACE H). cbn [bind TokenType_eqb].
  unfold typeAt in H. unfold eat.
  destruct (nth_error tokens c) as [tok|]; [|discriminate].
  injection H as H. now rewrite H.
Qed.

(** C5, as the code has it.  The comma behind an element is eaten when it
    is there, and nothing is asked of what follows it: when the literal
    read at [c] ends at a COMMA that stands directly before R_BRACKET, the
    array loop eats the comma and stops at the bracket with the same
    elements as when the literal ends at the bracket itself; the object
    loop does the same with the member of a key at a COMMA before R_BRACE.
    So an array or an object of one element and a trailing comma is parsed
    as a literal.

    A COMMA that follows no element is still refused: where a loop stands
    on a COMMA, at the start of the literal or behind a comma that it has
    eaten, the array loop throws the error of an unexpected literal token
    and the object loop the error of an expected key.  So a comma directly
    behind the opening token and two commas behind an element are a
    failure, whatever follows them.

    In terms of the tokens alone: a literal that is closed behind an
    element, whatever its elements are, has the same value when a COMMA
    is put before its closing token. *)
Theorem trailing_comma_accepted (tokens : list Token) :
  (forall (fuel c c1 : nat) (v : JSValue),
      parseLiteral tokens fuel c = Some (Ok (v, c1)) ->
      (typeAt tokens c1 = Some COMMA -> typeAt tokens (S c1) = Some R_BRACKET ->
       forall elements,
         arrayLoop tokens (S fuel) c elements = Some (Ok (elements ++ [v], S c1)))
      /\ (typeAt tokens c1 = Some R_BRACKET ->
          forall elements,
            arrayLoop tokens (S fuel) c elements = Some (Ok (elements ++ [v], c1)))
      /\ (typeAt tokens c1 = Some COMMA -> typeAt tokens (S c1) = Some R_BRACE ->
          forall keyToken c0 obj,
            c = S (S c0) -> nth_error tokens c0 = Some keyToken ->
            type keyToken = STRING_LITERAL -> typeAt tokens (S c0) = Some COLON ->
            objectLoop tokens (S fuel) c0 obj
            = Some (Ok (assignProp (propertyKey (value keyToken)) v obj, S c1)))
      /\ (typeAt tokens c1 = Some R_BRACE ->
          forall keyToken c0 obj,
            c = S (S c0) -> nth_error tokens c0 = Some keyToken ->
            type keyToken = STRING_LITERAL -> typeAt tokens (S c0) = Some COLON ->
            objectLoop tokens (S fuel) c0 obj
            = Some (Ok (assignProp (propertyKey (value keyToken)) v obj, c1)))
      /\ (typeAt tokens c1 = Some COMMA -> typeAt tokens (S c1) = Some R_BRACKET ->
          forall c0,
            c = S c0 -> typeAt tokens c0 = Some L_BRACKET ->
            parseLiteral tokens (S (S fuel)) c0
            = Some (Ok (JArr [v], S (S c1))))
      /\ (typeAt tokens c1 = Some COMMA -> typeAt tokens (S c1) = Some R_BRACE ->
          forall keyToken c0,
            c = S (S c0) -> nth_error tokens c0 = Some keyToken ->
            type keyToken = STRING_LITERAL -> typeAt tokens (S c0) = Some COLON ->
            forall c00,
              c0 = S c00 -> typeAt tokens c00 = Some L_BRACE ->
              parseLiteral tokens (S (S fuel)) c00
              = Some (Ok (JObj (assignProp (propertyKey (value keyToken)) v []),
                          S (S c1))))
      /\ (typeAt tokens c1 = Some COMMA -> typeAt tokens (S c1) = Some COMMA ->
          forall elements,
            arrayLoop tokens (S (S fuel)) c elements
            = Some (Throw (UnexpectedLiteralToken COMMA)))
      /\ (typeAt tokens c1 = Some COMMA -> typeAt tokens (S c1) = Some COMMA ->
          forall keyToken c0 obj,
            c = S (S c0) -> nth_error tokens c0 = Some keyToken ->
            type keyToken = STRING_LITERAL -> typeAt tokens (S c0) = Some COLON ->
            objectLoop tokens (S (S fuel)) c0 obj
            = Some (Throw (Expected STRING_LITERAL (Some COMMA)))))
  /\ (forall (fuel c : nat) (elements : list JSValue),
        typeAt tokens c = Some COMMA ->
        arrayLoop tokens (S (S fuel)) c elements
        = Some (Throw (UnexpectedLiteralToken COMMA)))
  /\ (forall (fuel c : nat) (obj : list (str * JSValue)),
        typeAt tokens c = Some COMMA ->
        objectLoop tokens (S fuel) c obj
        = Some (Throw (Expected STRING_LITERAL (Some COMMA))))
  /\ (forall fuel c0 : nat,
        typeAt tokens c0 = Some L_BRACKET -> typeAt tokens (S c0) = Some COMMA ->
        parseLiteral tokens (S (S (S fuel))) c0
        = Some (Throw (UnexpectedLiteralToken COMMA)))
  /\ (forall fuel c0 : nat,
        typeAt tokens c0 = Some L_BRACE -> typeAt tokens (S c0) = Some COMMA ->
        parseLiteral tokens (S (S fuel)) c0
        = Some (Throw (Expected STRING_LITERAL (Some COMMA))))
  /\ Lexer.tokenize "ARRAY X=[1,,];" = Ok array_double_comma
  /\ parser array_double_comma = Some (Throw (UnexpectedLiteralToken COMMA))
  /\ (forall (pre post : list Token) (comma closer : Token) (fuel c0 : nat)
             (v : JSValue),
        tokens = pre ++ closer :: post ->
        type comma = COMMA ->
        type closer = R_BRACKET \/ type closer = R_BRACE ->
        (S c0 < List.length pre)%nat ->
        (forall c1, S c1 = List.length pre -> typeAt tokens c1 <> Some COMMA) ->
        parseLiteral tokens fuel c0 = Some (Ok (v, S (List.length pre))) ->
        parseLiteral (pre ++ comma :: closer :: post) fuel c0
        = Some (Ok (v, S (S (List.length pre))))).
Proof.
  split; [|split; [intros; now apply arrayLoop_at_comma
                  |split; [intros; now apply objectLoop_at_comma
                          |split; [|split; [|split; [reflexivity|split;
                                                       [reflexivity|]]]]]]].
  4:{ intros pre post comma closer fuel c0 v -> Hcomma Hkind Hc0 Hlast H.
      assert (Hat : forall (x : Token) (rest : list Token),
                 nth_error (pre ++ x :: rest) (List.length pre) = Some x).
      { intros x rest. rewrite nth_error_app2 by lia.
        now rewrite Nat.sub_diag. }
      apply (@literal_comma_inserted (pre ++ closer :: post)
               (pre ++ comma :: closer :: post) (List.length pre)) with (closing := type closer).
      - intros i Hi. now rewrite !nth_error_app1 by lia.
      - unfold typeAt. rewrite Hat. cbn. now rewrite Hcomma.
      - exact Hkind.
      - unfold typeAt. now rewrite Hat.
      - unfold typeAt. rewrite nth_error_app2 by lia.
        replace (S (List.length pre) - List.length pre)%nat with 1%nat by lia.
        reflexivity.
      - exact Hlast.
      - exact Hc0.
      - exact H. }
  2:{ intros fuel c0 Hopen Hcomma.
      change (parseLiteral tokens (S (S (S fuel))) c0)
        with (match nth_error tokens c0 with
              | None => Some (Throw TypeErrorUndefined)
              | Some token =>
                  match type token with
                  | STRING_LITERAL => Some (Ok (valueOf (value token), S c0))
                  | NUMBER_LITERAL =>
                      Some (Ok (JNum (NumberOf (value token)), S c0))
                  | BOOLEAN_LITERAL =>
                      Some (Ok (JBool (match value token with
                                       | Some s => str_eqb s "true"
                                       | None => false
                                       end), S c0))
                  | L_BRACKET =>
                      parseArrayWith tokens (arrayLoop tokens (S (S fuel))) c0
                  | L_BRACE =>
                      parseObjectWith tokens (objectLoop tokens (S (S fuel))) c0
                  | t => Some (Throw (UnexpectedLiteralToken t))
                  end
              end).
      destruct (typeAt_eat _ _ Hopen) as (tok & He).
      unfold typeAt in Hopen.
      destruct (nth_error tokens c0) as [token|]; [|discriminate].
      injection Hopen as Hopen. rewrite Hopen. unfold parseArrayWith.
      rewrite He. cbn [bind]. now rewrite arrayLoop_at_comma. }
  2:{ intros fuel c0 Hopen Hcomma.
      change (parseLiteral tokens (S (S fuel)) c0)
        with (match nth_error tokens c0 with
              | None => Some (Throw TypeErrorUndefined)
              | Some token =>
                  match type token with
                  | STRING_LITERAL => Some (Ok (valueOf (value token), S c0))
                  | NUMBER_LITERAL =>
                      Some (Ok (JNum (NumberOf (value token)), S c0))
                  | BOOLEAN_LITERAL =>
                      Some (Ok (JBool (match value token with
                                       | Some s => str_eqb s "true"
                                       | None => false
                                       end), S c0))
                  | L_BRACKET =>
                      parseArrayWith tokens (arrayLoop tokens (S fuel)) c0
                  | L_BRACE =>
                      parseObjectWith tokens (objectLoop tokens (S fuel)) c0
                  | t => Some (Throw (UnexpectedLiteralToken t))
                  end
              end).
      destruct (typeAt_eat _ _ Hopen) as (tok & He).
      unfold typeAt in Hopen.
      destruct (nth_error tokens c0) as [token|]; [|discriminate].
      injection Hopen as Hopen. rewrite Hopen. unfold parseObjectWith.
      rewrite He. cbn [bind]. now rewrite objectLoop_at_comma. }
  intros fuel c c1 v Hl.
  destruct (parseLiteral_start _ _ _ Hl) as (f & t & -> & Ht & Hb & Hc).
  assert (HA : typeAt tokens c1 = Some COMMA ->
               typeAt tokens (S c1) = Some R_BRACKET ->
               forall elements,
                 arrayLoop tokens (S (S f)) c elements
                 = Some (Ok (elements ++ [v], S c1))).
  { intros Hcomma Hclose elements.
    cbn [arrayLoop]. rewrite (typeAt_peekIs _ _ R_BRACKET Ht), Hb.
    cbn [bind]. rewrite Hl. cbn [bind].
    rewrite (typeAt_peekIs _ _ COMMA Hcomma). cbn [bind TokenType_eqb].
    destruct (typeAt_eat _ _ Hcomma) as (tok & ->). cbn [bind].
    now rewrite (typeAt_peekIs _ _ R_BRACKET Hclose). }
  assert (HO : typeAt tokens c1 = Some COMMA ->
               typeAt tokens (S c1) = Some R_BRACE ->
               forall keyToken c0 obj,
                 c = S (S c0) -> nth_error tokens c0 = Some keyToken ->
                 type keyToken = STRING_LITERAL ->
                 typeAt tokens (S c0) = Some COLON ->
                 objectLoop tokens (S (S f)) c0 obj
                 = Some (Ok (assignProp (propertyKey (value keyToken)) v obj,
                             S c1))).
  { intros Hcomma Hclose keyToken c0 obj -> Hkey Hstr Hcolon.
    assert (Hk : typeAt tokens c0 = Some STRING_LITERAL)
      by (unfold typeAt; now rewrite Hkey, <- Hstr).
    cbn [objectLoop]. rewrite (typeAt_peekIs _ _ R_BRACE Hk).
    cbn [bind TokenType_eqb].
    unfold eat at 1. rewrite Hkey, Hstr. cbn [bind TokenType_eqb].
    destruct (typeAt_eat _ _ Hcolon) as (tok & ->). cbn [bind].
    rewrite Hl. cbn [bind].
    rewrite (typeAt_peekIs _ _ COMMA Hcomma). cbn [bind TokenType_eqb].
    destruct (typeAt_eat _ _ Hcomma) as (tok' & ->). cbn [bind].
    now rewrite (typeAt_peekIs _ _ R_BRACE Hclose). }
  pose proof (proj1 (more_fuel tokens (S f)) _ _ Hl) as Hl'.
  split; [exact HA|].
  split; [|split; [exact HO|split; [|split; [|split; [|split]]]]].
  - intros Hclose elements.
    cbn [arrayLoop]. rewrite (typeAt_peekIs _ _ R_BRACKET Ht), Hb.
    cbn [bind]. rewrite Hl. cbn [bind].
    rewrite (typeAt_peekIs _ _ COMMA Hclose). cbn [bind TokenType_eqb].
    now rewrite (typeAt_peekIs _ _ R_BRACKET Hclose).
  - intros Hclose keyToken c0 obj -> Hkey Hstr Hcolon.
    assert (Hk : typeAt tokens c0 = Some STRING_LITERAL)
      by (unfold typeAt; now rewrite Hkey, <- Hstr).
    cbn [objectLoop]. rewrite (typeAt_peekIs _ _ R_BRACE Hk).
    cbn [bind TokenType_eqb].
    unfold eat at 1. rewrite Hkey, Hstr. cbn [bind TokenType_eqb].
    destruct (typeAt_eat _ _ Hcolon) as (tok & ->). cbn [bind].
    rewrite Hl. cbn [bind].
    rewrite (typeAt_peekIs _ _ COMMA Hclose). cbn [bind TokenType_eqb].
    now rewrite (typeAt_peekIs _ _ R_BRACE Hclose).
  - intros Hcomma Hclose c0 -> Hopen.
    cbn [parseLiteral]. unfold typeAt in Hopen.
    destruct (nth_error tokens c0) as [tok|] eqn:Hn; [|discriminate].
    injection Hopen as Hopen. rewrite Hopen. unfold parseArrayWith, eat at 1.
    rewrite Hn, Hopen. cbn [TokenType_eqb bind].
    rewrite (HA Hcomma Hclose []). cbn [bind app].
    destruct (typeAt_eat _ _ Hclose) as (tok' & ->). reflexivity.
  - intros Hcomma Hclose keyToken c0 Hc0 Hkey Hstr Hcolon c00 -> Hopen.
    cbn [parseLiteral]. unfold typeAt in Hopen.
    destruct (nth_error tokens c00) as [tok|] eqn:Hn; [|discriminate].
    injection Hopen as Hopen. rewrite Hopen. unfold parseObjectWith, eat at 1.
    rewrite Hn, Hopen. cbn [TokenType_eqb bind].
    rewrite (HO Hcomma Hclose keyToken _ [] Hc0 Hkey Hstr Hcolon).
    cbn [bind].
    destruct (typeAt_eat _ _ Hclose) as (tok' & ->). reflexivity.
  - intros Hcomma Hnext elements.
    change (arrayLoop tokens (S (S (S f))) c elements)
      with (bind (peekIs tokens R_BRACKET c) (fun closing _ =>
            if closing then Some (Ok (elements, c))
            else
              bind (parseLiteral tokens (S (S f)) c) (fun v c1 =>
              bind (peekIs tokens COMMA c1) (fun comma _ =>
              if comma then
                bind (eat tokens COMMA c1)
                     (fun _ c2 => arrayLoop tokens (S (S f)) c2 (elements ++ [v]))
              else arrayLoop tokens (S (S f)) c1 (elements ++ [v]))))).
    rewrite (typeAt_peekIs _ _ R_BRACKET Ht), Hb.
    cbn [bind]. rewrite Hl'. cbn [bind].
    rewrite (typeAt_peekIs _ _ COMMA Hcomma). cbn [bind TokenType_eqb].
    destruct (typeAt_eat _ _ Hcomma) as (tok & ->). cbn [bind].
    now apply arrayLoop_at_comma.
  - intros Hcomma Hnext keyToken c0 obj -> Hkey Hstr Hcolon.
    assert (Hk : typeAt tokens c0 = Some STRING_LITERAL)
      by (unfold typeAt; now rewrite Hkey, <- Hstr).
    change (objectLoop tokens (S (S (S f))) c0 obj)
      with (bind (peekIs tokens R_BRACE c0) (fun closing _ =>
            if closing then Some (Ok (obj, c0))
            else
              bind (eat tokens STRING_LITERAL c0) (fun keyToken c1 =>
              bind (eat tokens COLON c1) (fun _ c2 =>
              bind (parseLiteral tokens (S (S f)) c2) (fun v c3 =>
              let obj' := assignProp (propertyKey (value keyToken)) v obj in
              bind (peekIs tokens COMMA c3) (fun comma _ =>
              if comma then
                bind (eat tokens COMMA c3)
                     (fun _ c4 => objectLoop tokens (S (S f)) c4 obj')
              else objectLoop tokens (S (S f)) c3 obj')))))).
    rewrite (typeAt_peekIs _ _ R_BRACE Hk). cbn [bind TokenType_eqb].
    unfold eat at 1. rewrite Hkey, Hstr. cbn [bind TokenType_eqb].
    destruct (typeAt_eat _ _ Hcolon) as (tok & ->). cbn [bind].
    rewrite Hl'. cbn [bind].
    rewrite (typeAt_peekIs _ _ COMMA Hcomma). cbn [bind TokenType_eqb].
    destruct (typeAt_eat _ _ Hcomma) as (tok' & ->). cbn [bind].
    now apply objectLoop_at_comma.
Qed.

(** The theorem at the tokens of [ARRAY X=[1,];], of the object with a
    trailing comma, and of [ARRAY X=[1,,];]; and at the tokens of
    [ARRAY X=[1];] with a comma put before the bracket. *)
Lemma trailing_comma_accepted_witness :
  arrayLoop array_trailing_comma 2 4 []
  = Some (Ok ([JNum (StringToNumber "1")], 6%nat))
  /\ objectLoop object_trailing_comma 2 4 []
     = Some (Ok ([(s2l "k", JNum (StringToNumber "1"))], 8%nat))
  /\ arrayLoop array_double_comma 3 4 []
     = Some (Throw (UnexpectedLiteralToken COMMA))
  /\ parseLiteral array_trailing_comma 3 3
     = Some (Ok (JArr [JNum (StringToNumber "1")], 7%nat)).
Proof.
  split; [|split; [|split]].
  4:{ destruct (trailing_comma_accepted
                  (firstn 5 array_trailing_comma
                   ++ Lexer.punct R_BRACKET :: skipn 7 array_trailing_comma))
        as (_ & _ & _ & _ & _ & _ & _ & H).
      apply (H (firstn 5 array_trailing_comma) (skipn 7 array_trailing_comma)
               (Lexer.punct COMMA) (Lexer.punct R_BRACKET) 3%nat 3%nat
               (JArr [JNum (StringToNumber "1")])).
      - reflexivity.
      - reflexivity.
      - now left.
      - cbn. lia.
      - intros c1 E. cbn in E. injection E as ->. vm_compute.
        intros X. discriminate X.
      - reflexivity. }
  - destruct (trailing_comma_accepted array_trailing_comma) as (H & _).
    destruct (H 1%nat 4%nat 5%nat (JNum (StringToNumber "1")) eq_refl)
      as (H1 & _).
    exact (H1 eq_refl eq_refl []).
  - destruct (trailing_comma_accepted object_trailing_comma) as (H & _).
    destruct (H 1%nat 6%nat 7%nat (JNum (StringToNumber "1")) eq_refl)
      as (_ & _ & H3 & _).
    exact (H3 eq_refl eq_refl (mkToken STRING_LITERAL (Some (s2l "k"))) 4%nat []
              eq_refl eq_refl eq_refl eq_refl).
  - destruct (trailing_comma_accepted array_double_comma) as (H & _).
    destruct (H 1%nat 4%nat 5%nat (JNum (StringToNumber "1")) eq_refl)
      as (_ & _ & _ & _ & _ & _ & H7 & _).
    exact (H7 eq_refl eq_refl []).
Defined.

(** C5, as the claim has it, fails: an array literal and an object literal
    with a comma directly before the closing token are parsed. *)
Lemma trailing_comma_not_rejected :
  parser array_trailing_comma
  = Some (Ok (mkNode (Some (s2l "ARRAY")) (Some (s2l "X"))
                     (JArr [JNum (StringToNumber "1")])))
  /\ parser object_trailing_comma
     = Some (Ok (mkNode (Some (s2l "OBJ")) (Some (s2l "X"))
                        (JObj [(s2l "k", JNum (StringToNumber "1"))])))
  /\ Lexer.tokenize "ARRAY X=[1,];" = Ok array_trailing_comma.
Proof. repeat split; reflexivity. Qed.

End ParserFacts.

(** ** Lines, shapes and names *)

Module IndexFacts.
Import Index Notions JSFacts.

Lemma regex_shape (s : str) : test regex s = true <-> Shape s.
Proof.
  rewrite test_spec. unfold regex, Shape. split.
  - intros H.
    apply Matches_cat_inv in H as (T & s1 & -> & HT & H).
    apply Matches_cat_inv in H as (ws & s2 & -> & Hws & H).
    apply Matches_cat_inv in H as (N & s3 & -> & HN & H).
    apply Matches_cat_inv in H as (ws' & s4 & -> & Hws' & H).
    apply Matches_cat_inv in H as (e & s5 & -> & He & H).
    apply Matches_cat_inv in H as (w & t & -> & Hw & Ht).
    apply Matches_plus_cls in HT, Hws, HN.
    apply Matches_star_cls in Hws', Hw, Ht.
    apply Matches_cls_inv in He as (c & -> & Hc).
    apply N.eqb_eq in Hc as ->.
    exists T, ws, N, ws', w, t. auto 10.
  - intros (T & ws & N & ws' & w & t & -> & HT & Hws & HN & Hws' & Hw & Ht).
    apply MCat; [now apply Matches_plus_cls|].
    apply MCat; [now apply Matches_plus_cls|].
    apply MCat; [now apply Matches_plus_cls|].
    apply MCat; [now apply Matches_star_cls|].
    change (ch "=" :: w ++ t) with ([ch "="] ++ w ++ t).
    apply MCat; [constructor; apply N.eqb_refl|].
    apply MCat; now apply Matches_star_cls.
Qed.

Lemma naming_spec (k : str) :
  test variableNamingRegex k = true <-> validName k.
Proof.
  rewrite test_spec. unfold variableNamingRegex, validName. split.
  - intros H. apply Matches_cat_inv in H as (a & r & -> & Ha & Hr).
    apply Matches_cls_inv in Ha as (c & -> & Hc).
    apply Matches_star_cls in Hr. exists c, r. auto.
  - intros (c & r & -> & Hc & Hr). change (c :: r) with ([c] ++ r).
    apply MCat; [now constructor|now apply Matches_star_cls].
Qed.

Lemma findKey_ok (lineArray : list str) (k : str) :
  findKey lineArray = Ok k -> validName k.
Proof.
  unfold findKey.
  destruct (test variableNamingRegex _) eqn:E; [|discriminate].
  cbn. intros [= <-]. now apply naming_spec.
Qed.

(** A line of the shape is neither blank nor a comment. *)
Lemma Shape_not_skipped (s : str) :
  Shape s ->
  (match s with [] => true | _ => false end || startsWith s (ch "#")) = false.
Proof.
  intros (T & ws & N & ws' & w & t & -> & (HT & HTw) & _).
  destruct T as [|c T]; [easy|]. cbn in *.
  apply andb_true_iff in HTw as [Hc _]. now apply word_not_hash.
Qed.

(** *** [forEach] *)

Lemma forEach_app (pre post : list str) (n : nat) (envVars : list ParsedEnvVar) :
  forEach (pre ++ post) n envVars
  = match forEach pre n envVars with
    | (log, Ok envVars') =>
        let (log', r) := forEach post (n + List.length pre) envVars' in
        (log ++ log', r)
    | (log, Throw e) => (log, Throw e)
    end.
Proof.
  revert n envVars. induction pre as [|line pre IH]; intros n envVars.
  - cbn [app forEach List.length]. rewrite Nat.add_0_r.
    now destruct (forEach post n envVars).
  - cbn [app forEach List.length].
    destruct (forEachLine envVars n line) as [log [envVars'|e]]; [|easy].
    rewrite IH. rewrite Nat.add_succ_r. cbn [Nat.add].
    destruct (forEach pre (S n) envVars') as [log1 [envVars1|e1]]; [|easy].
    destruct (forEach post _ envVars1) as [log2 r].
    now rewrite app_assoc.
Qed.

Lemma forEachLine_skip (envVars : list ParsedEnvVar) (n : nat) (line : str) :
  skipped (trim line) = true -> forEachLine envVars n line = ([], Ok envVars).
Proof. unfold forEachLine, skipped. now intros ->. Qed.

Lemma forEachLine_invalid (envVars : list ParsedEnvVar) (n : nat) (line : str) :
  skipped (trim line) = false -> ~ Shape (trim line) ->
  forEachLine envVars n line
  = ([SkippingInvalidLine (n + 1) line], Ok envVars).
Proof.
  unfold forEachLine, skipped. intros -> Hs.
  destruct (test regex (trim line)) eqn:E; [|easy].
  now apply regex_shape in E.
Qed.

Lemma forEachLine_throw (envVars : list ParsedEnvVar) (n : nat) (line : str)
  (e : Error) :
  Shape (trim line) -> readDeclaration (trim line) = Throw e ->
  forEachLine envVars n line = ([], Throw (ErrorParsingLine (n + 1) e)).
Proof.
  intros Hs Hr. unfold forEachLine.
  rewrite (Shape_not_skipped Hs).
  apply regex_shape in Hs. now rewrite Hs, Hr.
Qed.

Lemma forEachLine_store (envVars : list ParsedEnvVar) (n : nat) (line : str)
  (d : ParsedEnvVar) :
  Shape (trim line) -> readDeclaration (trim line) = Ok d ->
  forEachLine envVars n line
  = (fst (store d envVars), Ok (snd (store d envVars))).
Proof.
  intros Hs Hr. unfold forEachLine.
  rewrite (Shape_not_skipped Hs).
  apply regex_shape in Hs. rewrite Hs, Hr. cbn.
  now destruct (store d envVars).
Qed.

(** What it is for [readDeclaration] to throw: the name is refused, or the
    name is accepted and the coercion fails. *)
Lemma readDeclaration_throw (t : str) (e : Error) :
  readDeclaration t = Throw e <->
  findKey (split (ch " ") t) = Throw e
  \/ (exists k, findKey (split (ch " ") t) = Ok k
                /\ typeImplication (findVarType t) (findValue t) = Throw e).
Proof.
  unfold readDeclaration.
  destruct (findKey _) as [k|e1].
  - destruct (typeImplication _ _) as [v|e2]; split.
    + discriminate.
    + intros [H|(k' & _ & H)]; discriminate.
    + intros [= ->]. right. eauto.
    + intros [H|(k' & _ & H)]; [discriminate|congruence].
  - split.
    + intros [= ->]. now left.
    + intros [H|(k' & H & _)]; [congruence|discriminate].
Qed.

(** *** Names *)

Lemma typeImplication_unknown (varType v : str) :
  str_eqb varType "NUMBER" = false -> str_eqb varType "STRING" = false ->
  str_eqb varType "BOOL" = false -> str_eqb varType "ARRAY" = false ->
  str_eqb varType "OBJ" = false ->
  typeImplication varType v = Throw (Rethrown (InvalidType varType)).
Proof.
  intros H1 H2 H3 H4 H5. unfold typeImplication, typeImplication_body.
  now rewrite H1, H2, H3, H4, H5.
Qed.

(** A type that holds a white space character is none of the five. *)
Lemma spaced_type_unknown (varType v : str) (b : char) :
  In b varType -> isSpace b = true ->
  typeImplication varType v = Throw (Rethrown (InvalidType varType)).
Proof.
  intros Hin Hb.
  assert (H : forall kw : str, forallb isWord kw = true ->
                          str_eqb varType kw = false).
  { intros kw Hkw. apply str_eqb_neq. intros ->.
    rewrite forallb_forall in Hkw. apply Hkw in Hin.
    apply space_not_word in Hb. congruence. }
  apply typeImplication_unknown; now apply H.
Qed.

Lemma word_fieldChar (c : char) : isWord c = true -> fieldChar c = true.
Proof.
  intros H. unfold fieldChar, isnt.
  now rewrite (word_not_blank _ H), (word_not_equals _ H).
Qed.

(** The key read in the second field of a line whose first field ends at a
    blank: the name, or nothing. *)
Lemma rawKey_of_field (ws1 N ws' rest : str) :
  forallb isSpace ws1 = true -> N <> [] -> forallb isWord N = true ->
  forallb isSpace ws' = true ->
  let u := ws1 ++ N ++ ws' ++ ch "=" :: rest in
  let rawKey := trim (hd [] (split (ch "=") (hd [] (split (ch " ") u)))) in
  rawKey = [] \/ rawKey = N.
Proof.
  intros Hws1 HN HNw Hws' u rawKey. subst rawKey.
  rewrite !hd_split, span_fst_idem. fold fieldChar. subst u.
  destruct (forallb fieldChar ws1) eqn:Hok.
  - right. rewrite span_all by assumption. cbn [fst].
    rewrite span_all by (eapply forallb_impl; [apply word_fieldChar|easy]).
    cbn [fst].
    assert (Hw : forallb isSpace (fst (span fieldChar (ws' ++ ch "=" :: rest)))
                 = true).
    { destruct (first_separator fieldChar ws')
        as [Hall|(a & x & b & -> & Ha & Hx)].
      - rewrite span_stop by (assumption || reflexivity). assumption.
      - rewrite <- app_assoc. cbn [app]. rewrite span_stop by assumption.
        cbn [fst]. now apply forallb_app_true in Hws' as [Hws' _]. }
    apply trim_around; [assumption|assumption|now apply word_solid].
  - left. rewrite span_not_all by assumption.
    apply trim_spaces. now apply span_fst_forallb.
Qed.

(** A line of the shape whose name part is no valid name is never read as
    a declaration. *)
Lemma invalid_name_fails (T ws N ws' rest : str) :
  T <> [] -> forallb isWord T = true ->
  ws <> [] -> forallb isSpace ws = true ->
  N <> [] -> forallb isWord N = true ->
  forallb isSpace ws' = true ->
  ~ validName N ->
  exists e, readDeclaration (T ++ ws ++ N ++ ws' ++ ch "=" :: rest) = Throw e.
Proof.
  intros HT HTw Hws Hwss HN HNw Hws' Hbad.
  set (s := T ++ ws ++ N ++ ws' ++ ch "=" :: rest).
  assert (Hblank : forallb (isnt (ch " ")) T = true).
  { eapply forallb_impl; [|exact HTw]. intros c Hc. unfold isnt.
    now rewrite (word_not_blank _ Hc). }
  assert (Hnone : test variableNamingRegex [] = false) by reflexivity.
  assert (HbadN : test variableNamingRegex N = false).
  { destruct (test variableNamingRegex N) eqn:E; [|easy].
    now apply naming_spec in E. }
  destruct ws as [|b ws1]; [easy|]. cbn in Hwss.
  apply andb_true_iff in Hwss as [Hb Hws1].
  destruct (N.eqb_spec b (ch " ")) as [->|Hnb].
  - (* the first field is the type, the key is read behind the blank *)
    assert (Hkey : exists k, findKey (split (ch " ") s) = Throw (InvalidName k)).
    { unfold findKey, s. rewrite <- app_comm_cons.
      rewrite split_app_sep by assumption. cbn [nth_error].
      pose proof (split_not_nil (ch " ") (ws1 ++ N ++ ws' ++ ch "=" :: rest))
        as Hne.
      pose proof (rawKey_of_field ws1 ws' rest Hws1 HN HNw Hws') as Hraw.
      cbv zeta in Hraw.
      destruct (split (ch " ") (ws1 ++ N ++ ws' ++ ch "=" :: rest))
        as [|part parts]; [easy|]. cbn [nth_error hd] in *.
      destruct Hraw as [-> | ->].
      - rewrite Hnone. cbn [negb]. eauto.
      - rewrite HbadN. cbn [negb]. eauto. }
    destruct Hkey as (k & Hkey). exists (InvalidName k).
    unfold readDeclaration. now rewrite Hkey.
  - (* the first field runs over the white space: it is no type *)
    unfold readDeclaration.
    destruct (findKey (split (ch " ") s)) as [k|e]; [|eauto].
    assert (Hin : In b (findVarType s)).
    { unfold findVarType, s. rewrite hd_split.
      rewrite span_all by assumption. cbn [fst].
      apply in_or_app. right. cbn [app span]. unfold isnt at 1.
      apply N.eqb_neq in Hnb. rewrite Hnb. cbn [negb].
      destruct (span _ _). now left. }
    rewrite (@spaced_type_unknown (findVarType s) (findValue s) b Hin Hb).
    eauto.
Qed.

Lemma namePart_shape (T ws N ws' rest : str) :
  forallb isWord T = true ->
  ws <> [] -> forallb isSpace ws = true ->
  N <> [] -> forallb isWord N = true ->
  forallb isSpace ws' = true ->
  namePart (T ++ ws ++ N ++ ws' ++ ch "=" :: rest) = N.
Proof.
  intros HT Hws Hwss HN HNw Hws'. unfold namePart.
  destruct ws as [|b ws]; [easy|]. destruct N as [|x N]; [easy|].
  cbn in Hwss, HNw.
  apply andb_true_iff in Hwss as [Hb Hwss].
  apply andb_true_iff in HNw as [Hx HNw].
  rewrite <- !app_comm_cons.
  rewrite span_stop by (assumption || now apply space_not_word). cbn [snd].
  rewrite app_comm_cons.
  rewrite span_stop
    by (cbn; try rewrite Hb; assumption || now apply word_not_space).
  cbn [snd]. rewrite app_comm_cons.
  destruct ws' as [|y ws'].
  - change ([] ++ ch "=" :: rest) with (ch "=" :: rest).
    rewrite span_stop; [easy|cbn; now rewrite Hx|reflexivity].
  - cbn in Hws'. apply andb_true_iff in Hws' as [Hy _].
    change ((y :: ws') ++ ch "=" :: rest) with (y :: ws' ++ ch "=" :: rest).
    rewrite span_stop; [easy|cbn; now rewrite Hx|now apply space_not_word].
Qed.

Lemma setAt_Forall {A : Type} (P : A -> Prop) (i : nat) (v : A) (l : list A) :
  P v -> Forall P l -> Forall P (setAt i v l).
Proof.
  intros Hv Hl. revert i. induction Hl as [|x l Hx Hl IH]; intros i.
  - destruct i; cbn; constructor.
  - destruct i; cbn; constructor; auto.
Qed.

Lemma store_Forall (P : ParsedEnvVar -> Prop) (d : ParsedEnvVar)
  (envVars : list ParsedEnvVar) :
  P d -> Forall P envVars -> Forall P (snd (store d envVars)).
Proof.
  intros Hd Hv. unfold store. destruct (some (key d) envVars); cbn.
  - destruct (findIndex (key d) envVars); [now apply setAt_Forall|easy].
  - apply Forall_app. auto.
Qed.

Lemma readDeclaration_key (t : str) (d : ParsedEnvVar) :
  readDeclaration t = Ok d -> validName (key d).
Proof.
  unfold readDeclaration. destruct (findKey _) as [k|e] eqn:Hk; [|discriminate].
  destruct (typeImplication _ _); [|discriminate].
  intros [= <-]. cbn. now apply findKey_ok in Hk.
Qed.

Lemma forEachLine_Forall (P : ParsedEnvVar -> Prop) (envVars envVars' : list ParsedEnvVar)
  (n : nat) (line : str) (log : list Log) :
  (forall d, readDeclaration (trim line) = Ok d -> P d) ->
  Forall P envVars ->
  forEachLine envVars n line = (log, Ok envVars') -> Forall P envVars'.
Proof.
  intros Hd Hv. unfold forEachLine.
  destruct (_ || _); [now intros [= _ <-]|].
  destruct (negb _); [now intros [= _ <-]|].
  destruct (readDeclaration (trim line)) as [d|e]; [|discriminate].
  pose proof (@store_Forall P d envVars (Hd d eq_refl) Hv) as H.
  destruct (store d envVars). now intros [= _ <-].
Qed.

Lemma forEach_Forall (P : ParsedEnvVar -> Prop) (lines : list str) :
  (forall t d, readDeclaration t = Ok d -> P d) ->
  forall n envVars log envVars',
    Forall P envVars ->
    forEach lines n envVars = (log, Ok envVars') -> Forall P envVars'.
Proof.
  intros Hd. induction lines as [|line lines IH]; intros n envVars log envVars' Hv.
  - now intros [= _ <-].
  - cbn [forEach].
    destruct (forEachLine envVars n line) as [l [vars1|e]] eqn:E; [|discriminate].
    apply forEachLine_Forall with (P := P) in E; [|now eauto|easy].
    destruct (forEach lines (S n) vars1) as [l' r] eqn:E'.
    intros [= _ ->]. eauto.
Qed.

Lemma forEach_throws (lines : list str) (line : str) :
  In line lines ->
  (forall envVars n, exists e,
      forEachLine envVars n line = ([], Throw (ErrorParsingLine (n + 1) e))) ->
  forall n envVars, exists log m e,
      forEach lines n envVars = (log, Throw (ErrorParsingLine m e)).
Proof.
  intros Hin Hline. induction lines as [|l lines IH]; [easy|].
  intros n envVars. cbn [forEach].
  destruct Hin as [->|Hin].
  - destruct (Hline envVars n) as (e & ->). eauto.
  - destruct (forEachLine envVars n l) as [log [vars1|e]] eqn:E.
    + destruct (IH Hin (S n) vars1) as (log' & m & e & ->). eauto.
    + unfold forEachLine in E.
      destruct (_ || _); [discriminate|].
      destruct (negb _); [discriminate|].
      destruct (readDeclaration (trim l)); [|injection E as <- <-; eauto].
      destruct (store _ _). discriminate.
Qed.

(** C9.  Every key that a successful [parseEnvFile] returns is an
    identifier: a letter or an underscore, then letters, digits and
    underscores.  A file with a line of the shape of [regex] whose name
    part is no identifier is not parsed: [parseEnvFile] throws, so that no
    such key is ever stored.  [STRING 123bad=test] throws,
    [STRING _ok123=test] is read. *)
Theorem keys_are_identifiers :
  (forall (text : str) (log : list Log) (envVars : list ParsedEnvVar),
      parseEnvFile (Some text) = (log, Ok envVars) ->
      Forall (fun v => validName (key v)) envVars)
  /\ (forall (text line : str),
        In line (split LF text) ->
        test regex (trim line) = true ->
        test variableNamingRegex (namePart (trim line)) = false ->
        exists log n e,
          parseEnvFile (Some text) = (log, Throw (ErrorParsingLine n e)))
  /\ parseEnvFile (Some (s2l "STRING 123bad=test"))
     = ([], Throw (ErrorParsingLine 1 (InvalidName (s2l "123bad"))))
  /\ parseEnvFile (Some (s2l "STRING _ok123=test"))
     = ([], Ok [mkVar (s2l "_ok123") (s2l "STRING") (JStr (s2l "test"))])
  /\ (forall k : str, test variableNamingRegex k = true <-> validName k).
Proof.
  split; [|split; [|split; [|split]]].
  - intros text log envVars H. unfold parseEnvFile in H.
    eapply forEach_Forall in H; [exact H| |constructor].
    intros t d. apply readDeclaration_key.
  - intros text line Hin Hshape Hbad.
    unfold parseEnvFile. fold LF. apply forEach_throws with (line := line);
      [assumption|].
    intros envVars n. pose proof Hshape as Hs. apply regex_shape in Hs.
    destruct Hs as (T & ws & N & ws' & w & t & Ht & [HT HTw] & [Hws Hwss]
                    & [HN HNw] & Hws' & _).
    rewrite Ht, namePart_shape in Hbad by assumption.
    destruct (@invalid_name_fails T ws N ws' (w ++ t)) as (e & He);
      try assumption.
    { intros Hv. apply naming_spec in Hv. congruence. }
    exists e. apply forEachLine_throw.
    + now apply regex_shape.
    + now rewrite Ht.
  - reflexivity.
  - reflexivity.
  - apply naming_spec.
Qed.

Lemma keys_are_identifiers_witness :
  Forall (fun v => validName (key v))
         [mkVar (s2l "_ok123") (s2l "STRING") (JStr (s2l "test"))]
  /\ exists log n e,
      parseEnvFile (Some (s2l "NUMBER A=1" ++ LF :: s2l "STRING 123bad=test"))
      = (log, Throw (ErrorParsingLine n e)).
Proof.
  destruct keys_are_identifiers as (H1 & H2 & _).
  split.
  - exact (H1 (s2l "STRING _ok123=test") [] _ eq_refl).
  - apply (H2 _ (s2l "STRING 123bad=test")).
    + right. now left.
    + reflexivity.
    + reflexivity.
Defined.

(** C1.  The lines of the file are read in order; with [pre] the lines
    before [line], read without an exception, the line of index
    [length pre] is treated in one of three ways.  Blank or comment: nothing
    is logged and the reading goes on with the same variables.  Not of the
    shape of [regex]: one warning with the line number, counted from one,
    and the reading goes on with the same variables.  Of the shape, and the
    name is refused or the coercion fails: the whole parse throws, with
    that line number and the cause.  The shape is word, white space, word,
    equals sign, rest. *)
Theorem three_tier_line_policy
  (text : str) (pre : list str) (line : str) (post : list str)
  (log : list Log) (envVars : list ParsedEnvVar) :
  split LF text = pre ++ line :: post ->
  forEach pre 0 [] = (log, Ok envVars) ->
  (trim line = [] \/ startsWith (trim line) (ch "#") = true ->
   parseEnvFile (Some text)
   = let (log', r) := forEach post (S (List.length pre)) envVars in
     (log ++ log', r))
  /\ (trim line <> [] -> startsWith (trim line) (ch "#") = false ->
      test regex (trim line) = false ->
      parseEnvFile (Some text)
      = let (log', r) := forEach post (S (List.length pre)) envVars in
        (log ++ SkippingInvalidLine (List.length pre + 1) line :: log', r))
  /\ (forall e : Error,
        test regex (trim line) = true ->
        findKey (split (ch " ") (trim line)) = Throw e
        \/ (exists k, findKey (split (ch " ") (trim line)) = Ok k
                      /\ typeImplication (findVarType (trim line))
                                         (findValue (trim line)) = Throw e) ->
        parseEnvFile (Some text)
        = (log, Throw (ErrorParsingLine (List.length pre + 1) e)))
  /\ (forall s : str, test regex s = true <-> Shape s).
Proof.
  intros Hlines Hpre.
  assert (Hrun : forall l r,
             forEachLine envVars (List.length pre) line = (l, r) ->
             parseEnvFile (Some text)
             = match r with
               | Ok envVars' =>
                   let (log', r') :=
                     forEach post (S (List.length pre)) envVars' in
                   (log ++ l ++ log', r')
               | Throw e => (log ++ l, Throw e)
               end).
  { intros l r Hl. unfold parseEnvFile. fold LF. rewrite Hlines.
    rewrite forEach_app, Hpre. cbn [forEach Nat.add]. rewrite Hl.
    destruct r as [envVars'|e]; [|easy].
    now destruct (forEach post _ envVars'). }
  split; [|split; [|split]].
  - intros Hskip. rewrite (Hrun [] (Ok envVars)); [easy|].
    apply forEachLine_skip. unfold skipped.
    destruct Hskip as [-> | ->]; [easy|apply orb_true_r].
  - intros Hne Hhash Hshape.
    rewrite (Hrun [SkippingInvalidLine (List.length pre + 1) line]
                  (Ok envVars)); [easy|].
    apply forEachLine_invalid.
    + unfold skipped. rewrite Hhash. now destruct (trim line).
    + intros H. apply regex_shape in H. congruence.
  - intros e Hshape Hthrow.
    rewrite (Hrun [] (Throw (ErrorParsingLine (List.length pre + 1) e))).
    + now rewrite app_nil_r.
    + apply forEachLine_throw; [now apply regex_shape|].
      now apply readDeclaration_throw.
  - apply regex_shape.
Qed.

Lemma three_tier_line_policy_witness :
  parseEnvFile (Some tiers_example)
  = ([SkippingInvalidLine 3 (s2l "no equals here")],
     Throw (ErrorParsingLine 4 (Rethrown (InvalidNumber (s2l "x"))))).
Proof.
  pose (a := mkVar (s2l "A") (s2l "NUMBER") (JNum (StringToNumber "1"))).
  destruct (@three_tier_line_policy tiers_example [s2l "NUMBER A=1"]
              (s2l "# note")
              [s2l "no equals here"; s2l "NUMBER B=x"; s2l "NUMBER C=3"]
              [] [a] eq_refl eq_refl) as (H1 & _).
  destruct (@three_tier_line_policy tiers_example
              [s2l "NUMBER A=1"; s2l "# note"] (s2l "no equals here")
              [s2l "NUMBER B=x"; s2l "NUMBER C=3"]
              [] [a] eq_refl eq_refl) as (_ & H2 & _).
  destruct (@three_tier_line_policy tiers_example
              [s2l "NUMBER A=1"; s2l "# note"; s2l "no equals here"]
              (s2l "NUMBER B=x") [s2l "NUMBER C=3"]
              [SkippingInvalidLine 3 (s2l "no equals here")] [a]
              eq_refl eq_refl) as (_ & _ & H3 & _).
  assert (E1 := H1 (or_intror eq_refl)).
  assert (E2 := H2 ltac:(discriminate) eq_refl eq_refl).
  exact (H3 (Rethrown (InvalidNumber (s2l "x"))) eq_refl
            (or_intror (ex_intro _ (s2l "B") (conj eq_refl eq_refl)))).
Defined.

End IndexFacts.

(** ** The store of the declarations *)

Module StoreFacts.
Import Index Notions JSFacts IndexFacts.

Lemma some_existsb (K : str) (envVars : list ParsedEnvVar) :
  some K envVars = existsb (fun k' => str_eqb k' K) (map key envVars).
Proof.
  unfold some. induction envVars as [|v vs IH]; cbn; [easy|]. now rewrite IH.
Qed.

Lemma some_findIndex (K : str) (envVars : list ParsedEnvVar) :
  some K envVars = true -> exists i, findIndex K envVars = Some i.
Proof.
  unfold some. induction envVars as [|v vs IH]; cbn; [discriminate|].
  destruct (str_eqb (key v) K); cbn; [eauto|].
  intros H. destruct (IH H) as (i & ->). cbn. eauto.
Qed.

Lemma keys_setAt (d : ParsedEnvVar) (envVars : list ParsedEnvVar) (i : nat) :
  findIndex (key d) envVars = Some i ->
  map key (setAt i d envVars) = map key envVars.
Proof.
  revert i. induction envVars as [|v vs IH]; intros i; cbn; [discriminate|].
  destruct (str_eqb (key v) (key d)) eqn:E.
  - intros [= <-]. cbn. apply str_eqb_eq in E. now rewrite E.
  - destruct (findIndex (key d) vs) as [j|]; [|discriminate].
    intros [= <-]. cbn. now rewrite IH.
Qed.

Lemma find_setAt (K : str) (d : ParsedEnvVar) (envVars : list ParsedEnvVar)
  (i : nat) :
  findIndex (key d) envVars = Some i ->
  find (hasKey K) (setAt i d envVars)
  = if hasKey K d then Some d else find (hasKey K) envVars.
Proof.
  revert i. induction envVars as [|v vs IH]; intros i; cbn; [discriminate|].
  destruct (str_eqb (key v) (key d)) eqn:E.
  - intros [= <-]. cbn. apply str_eqb_eq in E. unfold hasKey.
    rewrite E. now destruct (str_eqb (key d) K).
  - destruct (findIndex (key d) vs) as [j|]; [|discriminate].
    intros [= <-]. cbn. rewrite IH by reflexivity.
    destruct (hasKey K d) eqn:Ed; [|easy].
    unfold hasKey in *. apply str_eqb_eq in Ed.
    rewrite <- Ed. now rewrite E.
Qed.

Lemma find_push (K : str) (d : ParsedEnvVar) (envVars : list ParsedEnvVar) :
  some (key d) envVars = false ->
  find (hasKey K) (envVars ++ [d])
  = if hasKey K d then Some d else find (hasKey K) envVars.
Proof.
  unfold some. induction envVars as [|v vs IH]; cbn.
  - now destruct (hasKey K d).
  - intros H. apply orb_false_iff in H as [Hv Hvs]. rewrite IH by assumption.
    destruct (hasKey K d) eqn:Ed; [|easy].
    unfold hasKey in *. apply str_eqb_eq in Ed. rewrite <- Ed. now rewrite Hv.
Qed.

(** What [store] does to the keys, to the entry of a key, and to the log. *)
Lemma store_keys (d : ParsedEnvVar) (envVars : list ParsedEnvVar) :
  map key (snd (store d envVars))
  = if existsb (fun k' => str_eqb k' (key d)) (map key envVars)
    then map key envVars else map key envVars ++ [key d].
Proof.
  unfold store. rewrite <- some_existsb.
  destruct (some (key d) envVars) eqn:E; cbn.
  - destruct (some_findIndex _ _ E) as (i & Hi). rewrite Hi.
    now apply keys_setAt.
  - now rewrite map_app.
Qed.

Lemma store_find (K : str) (d : ParsedEnvVar) (envVars : list ParsedEnvVar) :
  find (hasKey K) (snd (store d envVars))
  = if hasKey K d then Some d else find (hasKey K) envVars.
Proof.
  unfold store. destruct (some (key d) envVars) eqn:E; cbn.
  - destruct (some_findIndex _ _ E) as (i & Hi). rewrite Hi.
    now apply find_setAt.
  - now apply find_push.
Qed.

Lemma store_some (K : str) (d : ParsedEnvVar) (envVars : list ParsedEnvVar) :
  some K (snd (store d envVars)) = some K envVars || hasKey K d.
Proof.
  rewrite !some_existsb, store_keys.
  destruct (existsb _ (map key envVars)) eqn:E.
  - destruct (hasKey K d) eqn:Ed; [|now rewrite orb_false_r].
    unfold hasKey in Ed. apply str_eqb_eq in Ed. subst K.
    now rewrite E.
  - rewrite existsb_app. cbn. now rewrite orb_false_r.
Qed.

Lemma store_log (K : str) (d : ParsedEnvVar) (envVars : list ParsedEnvVar) :
  duplicateWarnings K (fst (store d envVars))
  = if hasKey K d && some K envVars then 1%nat else 0%nat.
Proof.
  unfold store, duplicateWarnings, hasKey.
  destruct (str_eqb (key d) K) eqn:Ed.
  - apply str_eqb_eq in Ed. subst K.
    destruct (some (key d) envVars); cbn; [|easy].
    now rewrite str_eqb_refl.
  - destruct (some (key d) envVars); cbn; [|easy]. now rewrite Ed.
Qed.

Lemma storeAll_keys (ds : list ParsedEnvVar) (envVars : list ParsedEnvVar) :
  map key (storeAll ds envVars) = firstSeen (map key ds) (map key envVars).
Proof.
  revert envVars. induction ds as [|d ds IH]; intros envVars; cbn; [easy|].
  unfold storeAll in *. rewrite IH, store_keys. reflexivity.
Qed.

Lemma storeAll_find (K : str) (ds : list ParsedEnvVar)
  (envVars : list ParsedEnvVar) :
  find (hasKey K) (storeAll ds envVars)
  = fold_left (fun acc d => if hasKey K d then Some d else acc) ds
              (find (hasKey K) envVars).
Proof.
  revert envVars. induction ds as [|d ds IH]; intros envVars; cbn; [easy|].
  unfold storeAll in *. rewrite IH, store_find. reflexivity.
Qed.

Lemma existsb_str (k : str) (l : list str) :
  existsb (fun k' => str_eqb k' k) l = true <-> In k l.
Proof.
  rewrite existsb_exists. split.
  - intros (x & Hx & E). apply str_eqb_eq in E. now subst.
  - intros H. exists k. split; [easy|apply str_eqb_refl].
Qed.

Lemma firstSeen_NoDup (ks acc : list str) :
  NoDup acc -> NoDup (firstSeen ks acc).
Proof.
  revert acc. induction ks as [|k ks IH]; intros acc Hacc; cbn; [easy|].
  apply IH. destruct (existsb _ acc) eqn:E; [easy|].
  apply NoDup_app; [easy|repeat constructor; easy|].
  intros x Hx [<-|[]]. apply existsb_str in Hx. congruence.
Qed.

Lemma lastDeclaration_some (K : str) (ds : list ParsedEnvVar) :
  In K (map key ds) ->
  exists d, lastDeclaration K ds = Some d /\ key d = K.
Proof.
  unfold lastDeclaration. intros Hin.
  assert (Hgen : forall acc : option ParsedEnvVar,
             (In K (map key ds)
              \/ exists d, acc = Some d /\ key d = K) ->
             exists d,
               fold_left (fun acc d => if hasKey K d then Some d else acc)
                         ds acc = Some d /\ key d = K).
  { clear Hin. induction ds as [|d ds IH]; intros acc H; cbn.
    - destruct H as [[]|H]. exact H.
    - apply IH. destruct (hasKey K d) eqn:Ed.
      + right. exists d. split; [easy|]. now apply str_eqb_eq in Ed.
      + destruct H as [[H|H]|H]; [|now left|now right].
        unfold hasKey in Ed. rewrite H, str_eqb_refl in Ed. discriminate. }
  apply Hgen. now left.
Qed.

(** What a successful [forEach] leaves: the declarations stored one after
    the other, and one warning for each declaration of a key that the
    array holds already. *)
Lemma forEach_ok (lines : list str) :
  forall (n : nat) (envVars : list ParsedEnvVar) (log : list Log)
         (envVars' : list ParsedEnvVar),
    forEach lines n envVars = (log, Ok envVars') ->
    envVars' = storeAll (declared lines) envVars
    /\ forall K,
        (duplicateWarnings K log
         + (if some K envVars then 0
            else if existsb (hasKey K) (declared lines) then 1 else 0)
         = declCount K (declared lines))%nat.
Proof.
  induction lines as [|line lines IH]; intros n envVars log envVars'.
  - cbn. intros [= <- <-]. split; [easy|]. intros K. now destruct (some K envVars).
  - cbn [forEach declared flat_map]. fold (declared lines).
    unfold forEachLine, declarationOf. fold (skipped (trim line)).
    destruct (skipped (trim line)).
    { destruct (forEach lines (S n) envVars) as [l' r] eqn:E.
      intros [= <- ->]. now apply IH in E. }
    destruct (negb (test regex (trim line))).
    { destruct (forEach lines (S n) envVars) as [l' r] eqn:E.
      intros [= <- ->]. apply IH in E as [E1 E2]. split; [easy|].
      intros K. specialize (E2 K). now cbn. }
    destruct (readDeclaration (trim line)) as [d|e]; [|discriminate].
    pose proof (store_log) as Hlog. pose proof (store_some) as Hsome.
    specialize (fun K => Hlog K d envVars).
    specialize (fun K => Hsome K d envVars).
    change (storeAll ([d] ++ declared lines) envVars)
      with (storeAll (declared lines) (snd (store d envVars))).
    destruct (store d envVars) as [l1 vars1]. cbn [fst snd] in *.
    destruct (forEach lines (S n) vars1) as [l' r] eqn:E.
    intros [= <- ->]. apply IH in E as [E1 E2]. split; [easy|].
    intros K. specialize (E2 K). specialize (Hlog K). specialize (Hsome K).
    unfold duplicateWarnings, declCount in *.
    rewrite filter_app, length_app, Hlog. cbn [app filter existsb].
    rewrite Hsome in E2.
    destruct (hasKey K d), (some K envVars); cbn in *; lia.
Qed.

Lemma filter_none (K : str) (l : list ParsedEnvVar) :
  ~ In K (map key l) -> filter (hasKey K) l = [].
Proof.
  induction l as [|v l IH]; cbn; [easy|]. intros H.
  destruct (hasKey K v) eqn:E.
  - unfold hasKey in E. apply str_eqb_eq in E. tauto.
  - apply IH. tauto.
Qed.

Lemma find_unique (K : str) (d : ParsedEnvVar) (l : list ParsedEnvVar) :
  NoDup (map key l) -> find (hasKey K) l = Some d ->
  filter (hasKey K) l = [d].
Proof.
  induction l as [|v l IH]; cbn; [discriminate|].
  intros Hnd. apply NoDup_cons_iff in Hnd as [Hv Hl].
  destruct (hasKey K v) eqn:E.
  - intros [= ->]. unfold hasKey in E. apply str_eqb_eq in E. subst K.
    now rewrite filter_none.
  - now apply IH.
Qed.

(** C2.  When [parseEnvFile] returns, the array holds each declared key
    once, in the order in which the keys are first declared; the entry of a
    key is its last declaration, type and value; the log holds one
    duplicate warning for each declaration of a key after its first, so
    that a key declared [n] times is warned of [n - 1] times; and [config]
    returns as well, whether [strict] is set or not. *)
Theorem duplicate_keys_last_wins
  (text : str) (log : list Log) (envVars : list ParsedEnvVar) :
  parseEnvFile (Some text) = (log, Ok envVars) ->
  NoDup (map key envVars)
  /\ map key envVars = firstSeen (map key (declared (split LF text))) []
  /\ (forall K : str,
        In K (map key (declared (split LF text))) ->
        exists d,
          lastDeclaration K (declared (split LF text)) = Some d
          /\ key d = K
          /\ filter (hasKey K) envVars = [d]
          /\ declCount K (declared (split LF text))
             = S (duplicateWarnings K log))
  /\ (forall strict : bool,
        exists parsedEnv, config (Some text) strict = (log, Ok parsedEnv)).
Proof.
  intros H. pose proof H as Hrun. unfold parseEnvFile in Hrun. fold LF in Hrun.
  apply forEach_ok in Hrun as [Hvars Hlog].
  assert (Hkeys : map key envVars
                  = firstSeen (map key (declared (split LF text))) []).
  { rewrite Hvars. apply storeAll_keys. }
  assert (Hnd : NoDup (map key envVars)).
  { rewrite Hkeys. apply firstSeen_NoDup. constructor. }
  split; [exact Hnd|]. split; [exact Hkeys|]. split.
  - intros K HK. destruct (lastDeclaration_some _ _ HK) as (d & Hd & Hkd).
    exists d. split; [easy|]. split; [easy|]. split.
    + apply find_unique; [easy|]. rewrite Hvars, storeAll_find. exact Hd.
    + specialize (Hlog K). cbn [some existsb] in Hlog.
      assert (E : existsb (hasKey K) (declared (split LF text)) = true).
      { apply existsb_exists. apply in_map_iff in HK as (v & Hv & Hin).
        exists v. split; [easy|]. unfold hasKey. rewrite Hv.
        apply str_eqb_refl. }
      rewrite E in Hlog. lia.
  - intros strict. unfold config. rewrite H. eauto.
Qed.

Lemma duplicate_keys_last_wins_witness :
  map key [mkVar (s2l "NAME") (s2l "STRING") (JStr (s2l "Second"))]
  = firstSeen (map key (declared (split LF duplicate_example))) []
  /\ exists d,
      lastDeclaration (s2l "NAME") (declared (split LF duplicate_example))
      = Some d
      /\ key d = s2l "NAME"
      /\ filter (hasKey (s2l "NAME"))
                [mkVar (s2l "NAME") (s2l "STRING") (JStr (s2l "Second"))]
         = [d]
      /\ declCount (s2l "NAME") (declared (split LF duplicate_example))
         = S (duplicateWarnings (s2l "NAME")
                                [DuplicateVariable (s2l "NAME")]).
Proof.
  destruct (@duplicate_keys_last_wins duplicate_example
              [DuplicateVariable (s2l "NAME")]
              [mkVar (s2l "NAME") (s2l "STRING") (JStr (s2l "Second"))]
              eq_refl) as (_ & H2 & H3 & _).
  split; [exact H2|]. apply H3. now left.
Defined.

End StoreFacts.

(** ** Type coercion *)

Module CoercionFacts.
Import Index Notions JSFacts IndexFacts NumberFacts.

Lemma stripQuotationMarks_quoted (s : str) :
  stripQuotationMarks (DQUOTE :: s ++ [DQUOTE]) = s.
Proof.
  unfold stripQuotationMarks. cbn [startsWith tl]. rewrite N.eqb_refl.
  rewrite rev_app_distr. cbn [rev app]. rewrite N.eqb_refl.
  apply rev_involutive.
Qed.

Lemma stripQuotationMarks_bare (v : str) :
  startsWith v DQUOTE = false -> startsWith (rev v) DQUOTE = false ->
  stripQuotationMarks v = v.
Proof.
  unfold stripQuotationMarks. intros -> H.
  destruct (rev v) as [|c r]; [easy|]. cbn in H. now rewrite H.
Qed.

Lemma stripQuotationMarks_leading (s : str) :
  startsWith (rev s) DQUOTE = false ->
  stripQuotationMarks (DQUOTE :: s) = s.
Proof.
  unfold stripQuotationMarks. cbn [startsWith tl]. rewrite N.eqb_refl.
  intros H. destruct (rev s) as [|c r]; [easy|]. cbn in H. now rewrite H.
Qed.

Lemma stripQuotationMarks_trailing (s : str) :
  startsWith s DQUOTE = false ->
  stripQuotationMarks (s ++ [DQUOTE]) = s.
Proof.
  unfold stripQuotationMarks. intros H. destruct s as [|c s].
  - reflexivity.
  - change (startsWith ((c :: s) ++ [DQUOTE]) DQUOTE)
      with (startsWith (c :: s) DQUOTE).
    rewrite H, rev_app_distr. cbn [rev app]. rewrite N.eqb_refl.
    apply (rev_involutive (c :: s)).
Qed.

Lemma typeImplication_string (v : str) :
  typeImplication "STRING" v = Ok (JStr (stripQuotationMarks v)).
Proof.
  unfold typeImplication, typeImplication_body.
  change (str_eqb "STRING" "NUMBER") with false.
  change (str_eqb "STRING" "STRING") with true. reflexivity.
Qed.

(** C7, as the code has it.  Under STRING a double quote at the start of
    the value and a double quote at the end of it are stripped, each on
    its own: a value between two double quotes loses exactly these two and
    nothing else, whatever stands between them, quotes and backslashes
    included; a value with no double quote at either end is the string as
    it is, white space inside included; and a value with a double quote at
    one end only loses that quote.  Every value is of one of these four
    kinds, and none makes the coercion throw.  The two lines of the test
    of the repository give [Hello World]. *)
Theorem string_coercion :
  (forall s : str,
      typeImplication "STRING" (DQUOTE :: s ++ [DQUOTE]) = Ok (JStr s))
  /\ (forall v : str,
        startsWith v DQUOTE = false -> startsWith (rev v) DQUOTE = false ->
        typeImplication "STRING" v = Ok (JStr v))
  /\ parseEnvFile (Some (s2l "STRING UNQUOTED=Hello World"))
     = ([], Ok [mkVar (s2l "UNQUOTED") (s2l "STRING")
                      (JStr (s2l "Hello World"))])
  /\ parseEnvFile (Some (dq "STRING QUOTED=`Hello World`"))
     = ([], Ok [mkVar (s2l "QUOTED") (s2l "STRING")
                      (JStr (s2l "Hello World"))])
  /\ (forall s : str,
        startsWith (rev s) DQUOTE = false ->
        typeImplication "STRING" (DQUOTE :: s) = Ok (JStr s))
  /\ (forall s : str,
        startsWith s DQUOTE = false ->
        typeImplication "STRING" (s ++ [DQUOTE]) = Ok (JStr s))
  /\ (forall v : str,
        (exists s, v = DQUOTE :: s ++ [DQUOTE])
        \/ (startsWith v DQUOTE = false /\ startsWith (rev v) DQUOTE = false)
        \/ (exists s, v = DQUOTE :: s /\ startsWith (rev s) DQUOTE = false)
        \/ (exists s, v = s ++ [DQUOTE] /\ startsWith s DQUOTE = false)).
Proof.
  split; [|split; [|split; [|split; [|split; [|split]]]]].
  - intros s. now rewrite typeImplication_string, stripQuotationMarks_quoted.
  - intros v H1 H2.
    now rewrite typeImplication_string, stripQuotationMarks_bare.
  - reflexivity.
  - reflexivity.
  - intros s H.
    now rewrite typeImplication_string, stripQuotationMarks_leading.
  - intros s H.
    now rewrite typeImplication_string, stripQuotationMarks_trailing.
  - intros v. destruct (startsWith v DQUOTE) eqn:H1.
    + destruct v as [|c s]; [discriminate|]. cbn in H1.
      apply N.eqb_eq in H1. subst c.
      destruct (startsWith (rev s) DQUOTE) eqn:H2.
      * left. destruct (rev s) as [|d r] eqn:E; [discriminate|].
        cbn in H2. apply N.eqb_eq in H2. subst d. exists (rev r).
        rewrite <- (rev_involutive s), E. reflexivity.
      * right. right. left. now exists s.
    + destruct (startsWith (rev v) DQUOTE) eqn:H2.
      * right. right. right.
        destruct (rev v) as [|d r] eqn:E; [discriminate|].
        cbn in H2. apply N.eqb_eq in H2. subst d. exists (rev r).
        assert (Ev : v = rev r ++ [DQUOTE])
          by (rewrite <- (rev_involutive v), E; reflexivity).
        split; [exact Ev|]. rewrite Ev in H1.
        destruct (rev r); [discriminate H1|exact H1].
      * right. now left.
Qed.

Lemma string_coercion_witness :
  typeImplication "STRING" (s2l "Hello  World \ n") = Ok (JStr (s2l "Hello  World \ n"))
  /\ typeImplication "STRING" (dq "`a\`b`") = Ok (JStr (dq "a\`b"))
  /\ typeImplication "STRING" (dq "`abc") = Ok (JStr (s2l "abc"))
  /\ typeImplication "STRING" (dq "say `hi`") = Ok (JStr (dq "say `hi")).
Proof.
  destruct string_coercion as (H1 & H2 & _ & _ & H3 & H4 & _).
  split; [|split; [|split]].
  - apply (H2 (s2l "Hello  World \ n")); reflexivity.
  - exact (H1 (dq "a\`b")).
  - apply (H3 (s2l "abc")). reflexivity.
  - apply (H4 (dq "say `hi")). reflexivity.
Defined.

(** C7, as the claim has it, fails: a value that is no quoted string is not
    always accepted as it is.  The value [say "hi"] starts with no quote
    and loses the quote at its end; the value that only starts with a quote
    loses that one. *)
Lemma string_unquoted_not_verbatim :
  startsWith (dq "say `hi`") DQUOTE = false
  /\ typeImplication "STRING" (dq "say `hi`") = Ok (JStr (dq "say `hi"))
  /\ typeImplication "STRING" (dq "say `hi`") <> Ok (JStr (dq "say `hi`"))
  /\ typeImplication "STRING" (dq "`abc") = Ok (JStr (s2l "abc"))
  /\ parseEnvFile (Some (dq "STRING GREETING=say `hi`"))
     = ([], Ok [mkVar (s2l "GREETING") (s2l "STRING")
                      (JStr (dq "say `hi"))]).
Proof.
  split; [|split; [|split; [|split]]]; try (vm_compute; reflexivity).
  vm_compute. discriminate.
Qed.

(** C8.  Under ARRAY and OBJ the value is what [JSON.parse] makes of the
    raw text, and the coercion throws when the text is no JSON or when the
    value is of the other kind: under ARRAY when it is no array, under OBJ
    when it is an array, no object, or null.  [OBJ X=[1,2,3]] and an ARRAY
    line with the object of the key [k] both throw. *)
Theorem literal_coercion (v : str) :
  (forall j, JSON_parse v = Some j -> isArray j = false ->
             typeImplication "ARRAY" v = Throw (Rethrown (NotAnArray v)))
  /\ (forall j, JSON_parse v = Some j ->
                isArray j = true \/ typeofObject j = false \/ j = JNull ->
                typeImplication "OBJ" v = Throw (Rethrown (NotAnObject v)))
  /\ (JSON_parse v = None ->
      typeImplication "ARRAY" v = Throw (Rethrown JSONSyntaxError)
      /\ typeImplication "OBJ" v = Throw (Rethrown JSONSyntaxError))
  /\ (forall r, typeImplication "ARRAY" v = Ok r ->
                JSON_parse v = Some r /\ exists l, r = JArr l)
  /\ (forall r, typeImplication "OBJ" v = Ok r ->
                JSON_parse v = Some r /\ exists props, r = JObj props)
  /\ parseEnvFile (Some (s2l "OBJ X=[1,2,3]"))
     = ([], Throw (ErrorParsingLine 1
                     (Rethrown (NotAnObject (s2l "[1,2,3]")))))
  /\ parseEnvFile (Some (dq "ARRAY Y={`k`:1}"))
     = ([], Throw (ErrorParsingLine 1
                     (Rethrown (NotAnArray (dq "{`k`:1}"))))).
Proof.
  assert (EA : forall w, typeImplication "ARRAY" w
               = match JSON_parse w with
                 | None => Throw (Rethrown JSONSyntaxError)
                 | Some j => if negb (isArray j)
                             then Throw (Rethrown (NotAnArray w)) else Ok j
                 end).
  { intros w. unfold typeImplication, typeImplication_body.
    change (str_eqb "ARRAY" "NUMBER") with false.
    change (str_eqb "ARRAY" "STRING") with false.
    change (str_eqb "ARRAY" "BOOL") with false.
    change (str_eqb "ARRAY" "ARRAY") with true. cbv iota.
    destruct (JSON_parse w) as [j|]; [|easy]. now destruct (negb (isArray j)). }
  assert (EO : forall w, typeImplication "OBJ" w
               = match JSON_parse w with
                 | None => Throw (Rethrown JSONSyntaxError)
                 | Some j => if isArray j || negb (typeofObject j) || isNull j
                             then Throw (Rethrown (NotAnObject w)) else Ok j
                 end).
  { intros w. unfold typeImplication, typeImplication_body.
    change (str_eqb "OBJ" "NUMBER") with false.
    change (str_eqb "OBJ" "STRING") with false.
    change (str_eqb "OBJ" "BOOL") with false.
    change (str_eqb "OBJ" "ARRAY") with false.
    change (str_eqb "OBJ" "OBJ") with true. cbv iota.
    destruct (JSON_parse w) as [j|]; [|easy].
    now destruct (isArray j || negb (typeofObject j) || isNull j). }
  repeat split.
  - intros j Hj Ha. now rewrite EA, Hj, Ha.
  - intros j Hj H. rewrite EO, Hj.
    destruct H as [-> | [-> | ->]]; [easy| |easy].
    now rewrite orb_true_r.
  - now rewrite EA, H.
  - now rewrite EO, H.
  - rewrite EA in H. destruct (JSON_parse v) as [j|]; [|discriminate].
    destruct (isArray j); [|discriminate]. cbn in H. congruence.
  - rewrite EA in H. destruct (JSON_parse v) as [j|]; [|discriminate].
    destruct j; try discriminate. injection H as <-. eauto.
  - rewrite EO in H. destruct (JSON_parse v) as [j|]; [|discriminate].
    destruct (_ || _); [discriminate|]. congruence.
  - rewrite EO in H. destruct (JSON_parse v) as [j|]; [|discriminate].
    destruct j; try discriminate. injection H as <-. eauto.
Qed.

Lemma literal_coercion_witness :
  typeImplication "ARRAY" (dq "{`k`:1}")
  = Throw (Rethrown (NotAnArray (dq "{`k`:1}")))
  /\ typeImplication "OBJ" (s2l "[1,2,3]")
     = Throw (Rethrown (NotAnObject (s2l "[1,2,3]")))
  /\ typeImplication "OBJ" (s2l "null")
     = Throw (Rethrown (NotAnObject (s2l "null")))
  /\ typeImplication "OBJ" (s2l "{1}") = Throw (Rethrown JSONSyntaxError)
  /\ JSON_parse (s2l "[1,2,3]")
     = Some (JArr [JNum (StringToNumber "1"); JNum (StringToNumber "2");
                   JNum (StringToNumber "3")]).
Proof.
  split; [|split; [|split; [|split]]].
  - destruct (literal_coercion (dq "{`k`:1}")) as (H & _).
    exact (H _ eq_refl eq_refl).
  - destruct (literal_coercion (s2l "[1,2,3]")) as (_ & H & _).
    exact (H _ eq_refl (or_introl eq_refl)).
  - destruct (literal_coercion (s2l "null")) as (_ & H & _).
    exact (H _ eq_refl (or_intror (or_intror eq_refl))).
  - destruct (literal_coercion (s2l "{1}")) as (_ & _ & H & _).
    exact (proj2 (H eq_refl)).
  - destruct (literal_coercion (s2l "[1,2,3]")) as (_ & _ & _ & H & _).
    exact (proj1 (H _ eq_refl)).
Defined.

Lemma typeImplication_number (v : str) :
  typeImplication "NUMBER" v
  = if isNaN (StringToNumber v) then Throw (Rethrown (InvalidNumber v))
    else Ok (JNum (StringToNumber v)).
Proof.
  unfold typeImplication, typeImplication_body.
  change (str_eqb "NUMBER" "NUMBER") with true. cbv iota.
  now destruct (isNaN (StringToNumber v)).
Qed.

(** C3, as the code has it.  Under NUMBER the coercion throws the
    invalid-number error exactly when [Number] of the raw text is NaN, and
    returns the Number value otherwise, an infinity included.  A signed
    decimal numeral with an optional fraction is never NaN: its value is
    the binary64 value nearest to the decimal that it denotes. *)
Theorem number_coercion (v : str) :
  (isNaN (StringToNumber v) = true ->
   typeImplication "NUMBER" v = Throw (Rethrown (InvalidNumber v)))
  /\ (isNaN (StringToNumber v) = false ->
      typeImplication "NUMBER" v = Ok (JNum (StringToNumber v)))
  /\ (forall (sign : str) (neg : bool) (ip fp frac : str),
        v = sign ++ ip ++ frac ->
        signOf sign neg ->
        ip <> [] /\ forallb isDigit ip = true ->
        forallb isDigit fp = true ->
        fraction fp frac ->
        typeImplication "NUMBER" v
        = Ok (JNum (roundDecimal neg (digitsValue 10 (ip ++ fp))
                                 (- Z.of_nat (List.length fp))%Z)))
  /\ typeImplication "NUMBER" "-Infinity" = Ok (JNum (Infinity true)).
Proof.
  rewrite typeImplication_number. repeat split.
  - now intros ->.
  - now intros ->.
  - intros sign neg ip fp frac -> Hs [Hne Hip] Hfp Hf.
    rewrite (StringToNumber_decimal Hs Hne Hip Hfp Hf).
    now rewrite roundDecimal_not_nan.
Qed.

Lemma number_coercion_witness :
  typeImplication "NUMBER" "12px" = Throw (Rethrown (InvalidNumber (s2l "12px")))
  /\ typeImplication "NUMBER" "0x1F"
     = Ok (JNum (S754_finite false 8725724278030336 (-48)))
  /\ typeImplication "NUMBER" "-3.14"
     = Ok (JNum (roundDecimal true 314 (-2))).
Proof.
  split; [|split].
  - destruct (number_coercion (s2l "12px")) as (H & _). exact (H eq_refl).
  - destruct (number_coercion (s2l "0x1F")) as (_ & H & _). exact (H eq_refl).
  - destruct (number_coercion (s2l "-3.14")) as (_ & _ & H & _).
    apply (H (s2l "-") true (s2l "3") (s2l "14") (s2l ".14")).
    + reflexivity.
    + right. right. split; reflexivity.
    + split; [discriminate|reflexivity].
    + reflexivity.
    + right. reflexivity.
Defined.

(** C3, as the claim has it, fails: the raw texts [Infinity] and [1e999]
    give no finite number, and the coercion returns them. *)
Lemma number_infinity_accepted :
  typeImplication "NUMBER" "Infinity" = Ok (JNum (Infinity false))
  /\ isFinite (StringToNumber "Infinity") = false
  /\ typeImplication "NUMBER" "1e999" = Ok (JNum (Infinity false))
  /\ parseEnvFile (Some (s2l "NUMBER LIMIT=Infinity"))
     = ([], Ok [mkVar (s2l "LIMIT") (s2l "NUMBER") (JNum (Infinity false))]).
Proof. repeat split; vm_compute; reflexivity. Qed.

End CoercionFacts.

(** ** [validateEnv] *)

Module ValidateFacts.
Import Index Notions JSFacts.

Lemma filter_length_zero {A : Type} (p : A -> bool) (l : list A) :
  (0 <? List.length (filter p l))%nat = false <->
  forall x, In x l -> p x = false.
Proof.
  rewrite Nat.ltb_ge. split.
  - intros H x Hx. destruct (p x) eqn:E; [|easy].
    assert (Hin : In x (filter p l)) by now apply filter_In.
    destruct (filter p l); [easy|cbn in H; lia].
  - intros H. assert (E : filter p l = []).
    { induction l as [|a l IH]; cbn; [easy|].
      rewrite (H a) by now left. apply IH. intros x Hx. apply H. now right. }
    now rewrite E.
Qed.

(** [validateEnv] returns [true] exactly when [in] finds every key of the
    schema in [env], as an own property or through the prototype chain.
    The values of [env] and the keys outside the schema play no part. *)
Lemma validateEnv_true {V W : Type} (env : Obj V) (schema : Obj W) :
  snd (validateEnv env schema) = true <->
  forall k, In k (keys schema) -> hasProperty k env = true.
Proof.
  unfold validateEnv.
  destruct (0 <? List.length (filter _ (keys schema)))%nat eqn:E; cbn [snd].
  - split; [discriminate|]. intros H. exfalso.
    apply Nat.ltb_lt in E.
    destruct (filter _ (keys schema)) as [|k l] eqn:F; [cbn in E; lia|].
    assert (Hin : In k (filter (fun k => negb (hasProperty k env))
                               (keys schema))) by (rewrite F; now left).
    apply filter_In in Hin as [Hk Hn]. rewrite (H k Hk) in Hn. discriminate.
  - pose proof (proj1 (filter_length_zero _ _) E) as E'. cbv beta in E'.
    apply Nat.ltb_ge in E. split.
    + intros _ k Hk. apply E' in Hk. now apply negb_false_iff in Hk.
    + intros _. apply Nat.eqb_eq. lia.
Qed.

(** For an environment without a prototype, the keys found are the own
    keys. *)
Lemma validateEnv_bare {V W : Type} (props : list (str * V)) (schema : Obj W) :
  snd (validateEnv (bare props) schema) = true <->
  forall k, In k (keys schema) -> In k (map fst props).
Proof.
  rewrite validateEnv_true. unfold hasProperty, bare, hasOwn. cbn.
  split; intros H k Hk; specialize (H k Hk).
  - rewrite orb_false_r in H. apply existsb_exists in H as ((k' & v) & Hin & E).
    apply str_eqb_eq in E. cbn in E. subst k'.
    apply in_map_iff. now exists (k, v).
  - rewrite orb_false_r. apply in_map_iff in H as ((k' & v) & E & Hin).
    cbn in E. subst k'. apply existsb_exists. exists (k, v).
    split; [easy|apply str_eqb_refl].
Qed.

(** C10 at the failing input: the environment [{}] and the schema with the
    one key [toString].  The key is no key of the environment, nothing is
    logged, and the answer is [true]. *)
Theorem validateEnv_inherited_key :
  validateEnv (literal (V := JSValue) [])
              (literal [(s2l "toString", s2l "STRING")])
  = ([], true)
  /\ keys (literal (V := JSValue) []) = []
  /\ keys (literal [(s2l "toString", s2l "STRING")]) = [s2l "toString"].
Proof. repeat split; reflexivity. Qed.

End ValidateFacts.
(** * Further properties *)

(** ** The splitter: what its statements look like *)

Module LexerMore.
Import Lexer Notions Terms JSFacts LexerFacts.

(** *** What [trim] leaves *)

Lemma trimStart_split (s : str) :
  exists ws, s = ws ++ trimStart s /\ forallb isSpace ws = true
             /\ (trimStart s = []
                 \/ exists c r, trimStart s = c :: r /\ isSpace c = false).
Proof.
  induction s as [|c s IH].
  - exists []. cbn. auto.
  - cbn [trimStart]. destruct (isSpace c) eqn:Hc.
    + destruct IH as (ws & E & Hws & Hh). exists (c :: ws). cbn.
      rewrite Hc, Hws. split; [now f_equal|auto].
    + exists []. cbn. split; [easy|]. split; [easy|]. right. eauto.
Qed.

Lemma solid_ends (s : str) :
  solid s <->
  (exists c r, s = c :: r /\ isSpace c = false)
  /\ (exists m d, s = m ++ [d] /\ isSpace d = false).
Proof.
  unfold solid. destruct s as [|c s].
  - split; [easy|]. now intros [(c & r & E & _) _].
  - remember (rev (c :: s)) as t eqn:Et. destruct t as [|d r].
    + apply (f_equal (@List.length _)) in Et. rewrite length_rev in Et. easy.
    + assert (E : c :: s = rev r ++ [d]).
      { rewrite <- (rev_involutive (c :: s)), <- Et. reflexivity. }
      split.
      * intros [Hc Hd]. split; eauto.
      * intros [(c' & r' & [= <- <-] & Hc) (m & d' & Em & Hd)].
        rewrite Em in E. apply app_inj_tail in E as [_ ->]. easy.
Qed.

(** A string is white space, its [trim], and white space; the [trim] is
    empty or starts and ends outside the white space. *)
Lemma trim_split (s : str) :
  exists ws1 ws2,
    s = ws1 ++ trim s ++ ws2
    /\ forallb isSpace ws1 = true /\ forallb isSpace ws2 = true
    /\ (trim s = [] \/ solid (trim s)).
Proof.
  destruct (trimStart_split s) as (ws1 & E1 & H1 & Hh).
  destruct (trimStart_split (rev (trimStart s))) as (ws2 & E2 & H2 & Hl).
  exists ws1, (rev ws2). unfold trim, trimEnd.
  assert (E3 : trimStart s = rev (trimStart (rev (trimStart s))) ++ rev ws2).
  { rewrite <- rev_app_distr, <- E2. now rewrite rev_involutive. }
  split; [now rewrite <- E3|]. split; [easy|]. split.
  { rewrite forallb_forall in *. intros x Hx. apply H2. now apply in_rev. }
  destruct Hl as [Hl|(d & u & Hu & Hd)]; [rewrite Hl; now left|].
  right. apply solid_ends. rewrite Hu in E3 |- *. cbn [rev] in *. split.
  - destruct Hh as [Hh|(c & r & Hr & Hc)].
    { rewrite Hh in E3. now destruct (rev u). }
    rewrite Hr in E3. destruct (rev u) as [|x u']; cbn in E3 |- *.
    + injection E3 as <- _. eauto.
    + injection E3 as <- _. eauto.
  - eauto.
Qed.

Lemma filter_spaces (ws : str) :
  forallb isSpace ws = true -> filter noSpace ws = [].
Proof.
  induction ws as [|c ws IH]; cbn; [easy|]. intros H.
  apply andb_true_iff in H as [Hc Hws]. unfold noSpace at 1. rewrite Hc. cbn. auto.
Qed.

Lemma filter_noSpace_trim (s : str) : filter noSpace (trim s) = filter noSpace s.
Proof.
  destruct (trim_split s) as (ws1 & ws2 & E & H1 & H2 & _).
  rewrite E at 2. rewrite !filter_app, (filter_spaces _ H1), (filter_spaces _ H2).
  now rewrite app_nil_r.
Qed.

Lemma solid_trim_snoc (b : str) (c : char) :
  isSpace c = false ->
  solid (trim (b ++ [c])) /\ exists m, trim (b ++ [c]) = m ++ [c].
Proof.
  intros Hc. destruct (trim_split (b ++ [c])) as (ws1 & ws2 & E & H1 & H2 & Hs).
  destruct ws2 as [|x l _] using rev_ind.
  - rewrite app_nil_r in E.
    destruct (trim (b ++ [c])) as [|y t _] using rev_ind.
    + rewrite app_nil_r in E. rewrite <- E, forallb_app in H1. cbn in H1.
      rewrite Hc, andb_false_r in H1. discriminate.
    + rewrite app_assoc in E. apply app_inj_tail in E as [_ <-].
      split; [|eauto]. destruct Hs as [Hs|Hs]; [now destruct t|easy].
  - rewrite !app_assoc in E. apply app_inj_tail in E as [_ <-].
    rewrite forallb_app in H2. cbn in H2.
    rewrite Hc, andb_false_r in H2. discriminate.
Qed.

(** *** The scan *)

(** An iteration closes a statement at a separator, or appends the
    character to the buffer. *)
Lemma step_cases (st : LexState) (c : char) :
  (c = ch ";" /\ declarations (lexer_step st c)
                 = declarations st ++ [trim (buffer st ++ [c])]
   /\ buffer (lexer_step st c) = [])
  \/ (declarations (lexer_step st c) = declarations st
      /\ buffer (lexer_step st c) = buffer st ++ [c]).
Proof.
  unfold lexer_step.
  destruct (isQuote c && negb (inString st)); [now right|].
  destruct (isStringChar st c && inString st); [now right|].
  destruct (inString st); [now right|]. cbv zeta.
  destruct (c =? ch ";") eqn:Hsemi; [|now right].
  apply N.eqb_eq in Hsemi.
  match goal with
  | |- context [if ?b then mkLex (_ ++ [_]) _ _ _ _ _ else _] => destruct b
  end; [left|right]; easy.
Qed.

Lemma step_kept (st : LexState) (c : char) :
  filter noSpace (kept (lexer_step st c)) = filter noSpace (kept st ++ [c]).
Proof.
  unfold kept.
  destruct (step_cases st c) as [(_ & -> & ->)|(-> & ->)].
  - rewrite concat_app. cbn [concat]. rewrite !app_nil_r.
    rewrite <- !app_assoc, !filter_app. f_equal.
    now rewrite filter_noSpace_trim, filter_app.
  - now rewrite app_assoc.
Qed.

Lemma scan_from_kept (input : str) (st : LexState) :
  filter noSpace (kept (scan_from st input))
  = filter noSpace (kept st ++ input).
Proof.
  revert st. induction input as [|c input IH]; intros st.
  - cbn. now rewrite app_nil_r.
  - cbn [scan_from fold_left]. fold (scan_from (lexer_step st c) input).
    rewrite IH, filter_app, step_kept, <- filter_app, <- app_assoc.
    reflexivity.
Qed.

Lemma lexer_kept (input : str) :
  filter noSpace (concat (lexer input)) = filter noSpace input.
Proof.
  pose proof (scan_from_kept input initial) as H.
  change (kept initial ++ input) with input in H. rewrite <- H.
  unfold lexer, kept. fold (scan input).
  destruct (trim (buffer (scan input))) as [|c r] eqn:E.
  - rewrite filter_app, <- (filter_noSpace_trim (buffer _)), E. cbn.
    now rewrite app_nil_r.
  - rewrite concat_app, !filter_app. cbn [concat]. rewrite app_nil_r.
    now rewrite <- E, filter_noSpace_trim.
Qed.

Lemma scan_from_statements (input : str) (st : LexState) :
  Forall (fun d => solid d /\ endsWith d (ch ";")) (declarations st) ->
  Forall (fun d => solid d /\ endsWith d (ch ";"))
         (declarations (scan_from st input)).
Proof.
  revert st. induction input as [|c input IH]; intros st H; [easy|].
  cbn [scan_from fold_left]. apply IH.
  destruct (step_cases st c) as [(-> & -> & _)|(-> & _)]; [|easy].
  apply Forall_app. split; [easy|]. constructor; [|constructor].
  apply solid_trim_snoc. reflexivity.
Qed.

Lemma lexer_solid (input : str) : Forall solid (lexer input).
Proof.
  pose proof (@scan_from_statements input initial (Forall_nil _)) as H.
  fold (scan input) in H. unfold lexer.
  destruct (trim_split (buffer (scan input))) as (_ & _ & _ & _ & _ & Hs).
  destruct (trim (buffer (scan input))) as [|c r] eqn:E.
  - eapply Forall_impl; [|exact H]. now intros d [Hd _].
  - destruct Hs as [Hs|Hs]; [discriminate|]. apply Forall_app. split.
    + eapply Forall_impl; [|exact H]. now intros d [Hd _].
    + now repeat constructor.
Qed.

Lemma filter_noSpace_nil (s : str) :
  filter noSpace s = [] <-> forallb isSpace s = true.
Proof.
  induction s as [|c s IH]; cbn; [easy|]. unfold noSpace at 1.
  destruct (isSpace c); cbn; [exact IH|]. split; discriminate.
Qed.

Lemma solid_not_blank (d : str) : solid d -> filter noSpace d <> [].
Proof.
  intros Hd. apply solid_ends in Hd as [(c & r & -> & Hc) _].
  cbn. unfold noSpace at 1. now rewrite Hc.
Qed.

(** X1.  Every statement that [lexer] returns is trimmed and not empty:
    it starts and ends outside the white space.  Every statement but the
    last ends with the separator [;]. *)
Theorem lexer_statements (input : str) :
  Forall solid (lexer input)
  /\ Forall (fun d => endsWith d (ch ";")) (removelast (lexer input)).
Proof.
  split; [apply lexer_solid|].
  pose proof (@scan_from_statements input initial (Forall_nil _)) as H.
  fold (scan input) in H. unfold lexer.
  destruct (trim (buffer (scan input))) as [|c r] eqn:E.
  - apply Forall_forall. intros d Hd.
    rewrite Forall_forall in H. apply H.
    destruct (declarations (scan input)) as [|x l] using rev_ind; [easy|].
    rewrite removelast_last in Hd. apply in_or_app. now left.
  - rewrite removelast_last.
    eapply Forall_impl; [|exact H]. now intros d [_ Hd].
Qed.

(** X2.  [lexer] neither loses nor invents a character outside the white
    space: the statements, one behind the other, hold the characters of
    the input that are no white space, in their order.  So it returns no
    statement exactly when the input is white space only, the empty input
    included. *)
Theorem lexer_keeps_characters (input : str) :
  filter noSpace (concat (lexer input)) = filter noSpace input
  /\ (lexer input = [] <-> forallb isSpace input = true).
Proof.
  split; [apply lexer_kept|].
  rewrite <- filter_noSpace_nil, <- lexer_kept. split.
  - now intros ->.
  - intros H. pose proof (lexer_solid input) as Hs.
    destruct (lexer input) as [|d l]; [easy|]. exfalso.
    apply Forall_inv in Hs. apply solid_not_blank in Hs.
    cbn [concat] in H. rewrite filter_app in H.
    now destruct (filter noSpace d).
Qed.

(** Below the top level no separator ends a statement. *)
Lemma scan_from_below (rest : str) :
  forall st : LexState,
    inString st = false ->
    forallb (fun c => negb (isQuote c)) rest = true ->
    ((braceDepth st < 0)%Z /\ ~ In (ch "{") rest)
    \/ ((bracketDepth st < 0)%Z /\ ~ In (ch "[") rest) ->
    declarations (scan_from st rest) = declarations st
    /\ buffer (scan_from st rest) = buffer st ++ rest.
Proof.
  induction rest as [|c rest IH]; intros st Hs Hq Hd.
  - cbn. now rewrite app_nil_r.
  - cbn [scan_from fold_left]. fold (scan_from (lexer_step st c) rest).
    cbn [forallb] in Hq. apply andb_true_iff in Hq as [Hc Hq].
    apply negb_true_iff in Hc.
    assert (Hstep : lexer_step st c
                    = mkLex (declarations st) (buffer st ++ [c]) false
                            (stringChar st)
                            (braceDepth (lexer_step st c))
                            (bracketDepth (lexer_step st c))
                      /\ ((braceDepth st < 0 -> c <> ch "{" ->
                           braceDepth (lexer_step st c) < 0)%Z)
                      /\ ((bracketDepth st < 0 -> c <> ch "[" ->
                           bracketDepth (lexer_step st c) < 0)%Z)).
    { unfold lexer_step. rewrite Hc, Hs. cbn [andb]. rewrite andb_false_r.
      cbv zeta.
      destruct (c =? ch "{") eqn:E1, (c =? ch "}") eqn:E2,
        (c =? ch "[") eqn:E3, (c =? ch "]") eqn:E4, (c =? ch ";") eqn:E5;
        apply N.eqb_eq in E1 || apply N.eqb_neq in E1;
        apply N.eqb_eq in E2 || apply N.eqb_neq in E2;
        apply N.eqb_eq in E3 || apply N.eqb_neq in E3;
        apply N.eqb_eq in E4 || apply N.eqb_neq in E4;
        apply N.eqb_eq in E5 || apply N.eqb_neq in E5;
        subst; try discriminate; cbn [andb];
        repeat match goal with
               | |- context [(?z =? 0)%Z] =>
                   destruct (Z.eqb_spec z 0)
               end;
        cbn [andb braceDepth bracketDepth declarations buffer];
        repeat split; intros; try lia; try easy;
        destruct Hd as [[Hd Hn]|[Hd Hn]]; cbn [In] in Hn; try lia; tauto. }
    destruct Hstep as (E & Hb & Hk).
    destruct (IH (lexer_step st c)) as [E1 E2].
    + now rewrite E.
    + exact Hq.
    + destruct Hd as [[Hd Hn]|[Hd Hn]]; [left|right]; cbn [In] in Hn.
      * split; [apply Hb; [easy|intros ->; tauto]|tauto].
      * split; [apply Hk; [easy|intros ->; tauto]|tauto].
    + rewrite E1, E2, E. cbn. now rewrite <- app_assoc.
Qed.

(** X3.  A closing brace or bracket that nothing opened takes the depth
    below zero, and the splitter never comes back to the top level by
    itself: when no quote and no opening character of that kind follows,
    no separator ends a statement any more, and the whole input is one
    statement. *)
Theorem lexer_unmatched_closer (c : char) (rest : str) :
  (c = ch "}" /\ ~ In (ch "{") rest) \/ (c = ch "]" /\ ~ In (ch "[") rest) ->
  forallb (fun c => negb (isQuote c)) rest = true ->
  lexer (c :: rest) = [trim (c :: rest)].
Proof.
  intros Hc Hq. unfold lexer, scan. cbn [scan_from fold_left].
  fold (scan_from (lexer_step initial c) rest).
  destruct (@scan_from_below rest (lexer_step initial c)) as [E1 E2].
  - now destruct Hc as [[-> _]|[-> _]].
  - exact Hq.
  - destruct Hc as [[-> Hn]|[-> Hn]]; [left|right]; (split; [now cbn|easy]).
  - rewrite E1, E2.
    assert (Eb : buffer (lexer_step initial c) = [c])
      by now destruct Hc as [[-> _]|[-> _]].
    assert (Ed : declarations (lexer_step initial c) = [])
      by now destruct Hc as [[-> _]|[-> _]].
    rewrite Eb, Ed. cbn [app].
    destruct (trim (c :: rest)) eqn:Et; [|easy]. exfalso.
    assert (H : filter noSpace (c :: rest) = []).
    { now rewrite <- filter_noSpace_trim, Et. }
    cbn in H. now destruct Hc as [[-> _]|[-> _]].
Qed.

(** Plain characters only join the buffer. *)
Lemma scan_plain (d : str) (st : LexState) :
  inString st = false -> forallb plain d = true ->
  scan_from st d
  = mkLex (declarations st) (buffer st ++ d) false (stringChar st)
          (braceDepth st) (bracketDepth st).
Proof.
  revert st. induction d as [|c d IH]; intros st Hs Hp.
  - cbn. rewrite app_nil_r. destruct st. cbn in Hs. now subst.
  - cbn [forallb] in Hp. apply andb_true_iff in Hp as [Hc Hp].
    cbn [scan_from fold_left]. fold (scan_from (lexer_step st c) d).
    assert (E : lexer_step st c
                = mkLex (declarations st) (buffer st ++ [c]) false
                        (stringChar st) (braceDepth st) (bracketDepth st)).
    { unfold plain in Hc. apply negb_true_iff in Hc.
      do 5 (apply orb_false_iff in Hc as [Hc ?]).
      unfold lexer_step. rewrite Hc, Hs. cbn [andb]. rewrite andb_false_r.
      cbv zeta.
      repeat match goal with H : (c =? _) = false |- _ => rewrite H; clear H end.
      reflexivity. }
    rewrite E, IH by easy. cbn. now rewrite <- app_assoc.
Qed.

Lemma trim_closed (d : str) :
  match d with c :: _ => isSpace c = false | [] => True end ->
  trim (closed d) = closed d.
Proof.
  intros H. apply trim_of_solid. apply solid_ends. unfold closed. split.
  - destruct d as [|c d]; cbn; eauto.
  - exists d, (ch ";"). easy.
Qed.

(** X4.  Splitting undoes joining: for statements of plain characters
    that do not start with white space, each closed by the separator and
    written one behind the other, [lexer] returns these statements. *)
Theorem lexer_of_joined (ds : list str) :
  Forall plainStatement ds ->
  lexer (concat (map closed ds)) = map closed ds.
Proof.
  induction ds as [|d ds IH]; intros H; [reflexivity|].
  apply Forall_cons_iff in H as [[Hd Hp] Hds].
  cbn [map concat]. unfold closed at 1. rewrite <- app_assoc. cbn [app].
  assert (E : scan d = mkLex [] d false None 0%Z 0%Z).
  { unfold scan. now rewrite scan_plain. }
  rewrite lexer_at_boundary by now rewrite E.
  rewrite E. cbn [declarations buffer app]. rewrite IH by assumption.
  f_equal. now apply trim_closed.
Qed.

(** The theorem at a closing brace before two assignments. *)
Lemma lexer_unmatched_closer_witness :
  lexer "} A=1; B=2;" = [s2l "} A=1; B=2;"].
Proof.
  apply (@lexer_unmatched_closer (ch "}") (s2l " A=1; B=2;")).
  - left. split; [reflexivity|].
    vm_compute. intros H.
    repeat (destruct H as [H|H]; [discriminate H|]). exact H.
  - reflexivity.
Defined.

(** The theorem at three statements, the second one empty. *)
Lemma lexer_of_joined_witness :
  lexer "NUMBER A = 1;;BOOL B = true;"
  = [s2l "NUMBER A = 1;"; s2l ";"; s2l "BOOL B = true;"].
Proof.
  apply (@lexer_of_joined [s2l "NUMBER A = 1"; []; s2l "BOOL B = true"]).
  repeat constructor.
Defined.

End LexerMore.

(** ** The tokenizer: its tokens and its one exception *)

Module TokenizeMore.
Import Lexer Notions Terms JSFacts JsonFacts.

(** *** The inner loops *)

(** The inner loop of a number. *)
Lemma number_loop_span (tokens : list Token) (d : str) :
  forall (i : nat) (num : str),
    (fix number_loop (d' : str) (i' : nat) (num : str) {struct d'} :=
       match d' with
       | [] =>
           Ok ((tokens ++ [mkToken NUMBER_LITERAL (Some num)])
                 ++ [punct EOF])
       | x :: r' =>
           if isNumeric x then number_loop r' (S i') (num ++ [x])
           else tokenize_from d' i'
                  (tokens ++ [mkToken NUMBER_LITERAL (Some num)])
       end) d i num
    = tokenize_from (snd (span isNumeric d))
        (i + List.length (fst (span isNumeric d)))
        (tokens ++ [mkToken NUMBER_LITERAL
                            (Some (num ++ fst (span isNumeric d)))]).
Proof.
  induction d as [|x d IH]; intros i num.
  - cbn. now rewrite app_nil_r.
  - cbn [span]. cbv beta iota. destruct (isNumeric x) eqn:Hx.
    + rewrite IH. destruct (span isNumeric d) as [ds rest].
      cbn [fst snd List.length]. rewrite <- app_assoc, Nat.add_succ_r.
      reflexivity.
    + cbn [fst snd List.length]. now rewrite app_nil_r, Nat.add_0_r.
Qed.

(** The inner loop of a word. *)
Lemma word_loop_span (tokens : list Token) (d : str) :
  forall (i : nat) (word : str),
    (fix word_loop (d' : str) (i' : nat) (word : str) {struct d'} :=
       match d' with
       | [] => Ok ((tokens ++ [wordToken word]) ++ [punct EOF])
       | x :: r' =>
           if isWord x then word_loop r' (S i') (word ++ [x])
           else tokenize_from d' i' (tokens ++ [wordToken word])
       end) d i word
    = tokenize_from (snd (span isWord d))
        (i + List.length (fst (span isWord d)))
        (tokens ++ [wordToken (word ++ fst (span isWord d))]).
Proof.
  induction d as [|x d IH]; intros i word.
  - cbn. now rewrite app_nil_r.
  - cbn [span]. cbv beta iota. destruct (isWord x) eqn:Hx.
    + rewrite IH. destruct (span isWord d) as [w rest].
      cbn [fst snd List.length]. rewrite <- app_assoc, Nat.add_succ_r.
      reflexivity.
    + cbn [fst snd List.length]. now rewrite app_nil_r, Nat.add_0_r.
Qed.

(** The inner loop of a string literal. *)
Lemma string_loop_span (tokens : list Token) (d : str) :
  forall (i : nat) (str0 : str),
    (fix string_loop (d' : str) (i' : nat) (str0 : str) {struct d'} :=
       match d' with
       | [] => Ok ((tokens ++ [stringToken str0]) ++ [punct EOF])
       | x :: r' =>
           if negb (x =? DQUOTE) then string_loop r' (S i') (str0 ++ [x])
           else tokenize_from r' (S i') (tokens ++ [stringToken str0])
       end) d i str0
    = tokenize_from (tl (snd (span (isnt DQUOTE) d)))
        (S (i + List.length (fst (span (isnt DQUOTE) d))))
        (tokens ++ [stringToken (str0 ++ fst (span (isnt DQUOTE) d))]).
Proof.
  induction d as [|x d IH]; intros i str0.
  - cbn. now rewrite app_nil_r.
  - cbn [span]. cbv beta iota. change (negb (x =? DQUOTE)) with (isnt DQUOTE x).
    destruct (isnt DQUOTE x) eqn:Hx.
    + rewrite IH. destruct (span (isnt DQUOTE) d) as [s rest].
      cbn [fst snd List.length]. rewrite <- app_assoc, Nat.add_succ_r.
      reflexivity.
    + cbn [fst snd List.length tl]. now rewrite app_nil_r, Nat.add_0_r.
Qed.

(** One turn of the outer loop, with the inner loops run to their end. *)
Lemma tokenize_from_cons (c : char) (r : str) (i : nat) (tokens : list Token) :
  tokenize_from (c :: r) i tokens
  = if isWhitespace c then tokenize_from r (S i) tokens
    else match punctOf c with
         | Some t => tokenize_from r (S i) (tokens ++ [punct t])
         | None =>
             if c =? DQUOTE then
               tokenize_from (tl (snd (span (isnt DQUOTE) r)))
                 (S (S i + List.length (fst (span (isnt DQUOTE) r))))
                 (tokens ++ [stringToken (fst (span (isnt DQUOTE) r))])
             else if isNumeric c then
               tokenize_from (snd (span isNumeric r))
                 (S i + List.length (fst (span isNumeric r)))
                 (tokens ++ [mkToken NUMBER_LITERAL
                                     (Some (c :: fst (span isNumeric r)))])
             else if isAlpha c then
               tokenize_from (snd (span isWord r))
                 (S i + List.length (fst (span isWord r)))
                 (tokens ++ [wordToken (c :: fst (span isWord r))])
             else Throw (UnexpectedCharacter c i)
         end.
Proof.
  cbn [tokenize_from]. unfold punctOf.
  destruct (isWhitespace c); [reflexivity|].
  repeat match goal with
         | |- context [if c =? ch ?a then _ else _] =>
             destruct (c =? ch a); [reflexivity|]
         end.
  destruct (c =? DQUOTE); [apply (string_loop_span tokens r (S i) [])|].
  destruct (isNumeric c); [apply (number_loop_span tokens r (S i) [c])|].
  destruct (isAlpha c); [apply (word_loop_span tokens r (S i) [c])|].
  reflexivity.
Qed.

(** *** Runs *)

Lemma span_app (p : char -> bool) (s : str) :
  fst (span p s) ++ snd (span p s) = s.
Proof.
  induction s as [|c s IH]; cbn; [easy|].
  destruct (p c); cbn; [|easy]. destruct (span p s). cbn in *. now f_equal.
Qed.

Lemma span_fst_all (p : char -> bool) (s : str) :
  forallb p (fst (span p s)) = true.
Proof.
  induction s as [|c s IH]; cbn; [easy|].
  destruct (p c) eqn:Hc; cbn; [|easy]. destruct (span p s). cbn in *.
  now rewrite Hc.
Qed.

(** *** Well-formed tokens *)

Lemma punctOf_wellFormed (c : char) (t : TokenType) :
  punctOf c = Some t -> wellFormed (punct t).
Proof.
  unfold punctOf.
  repeat match goal with
         | |- context [if ?b then _ else _] => destruct b
         end; intros [= <-]; reflexivity.
Qed.

Lemma includes_In (l : list str) (w : str) : includes l w = true <-> In w l.
Proof.
  unfold includes. rewrite existsb_exists. split.
  - intros (x & Hx & E). apply str_eqb_eq in E. now subst.
  - intros H. exists w. split; [easy|apply str_eqb_refl].
Qed.

Lemma wordToken_wellFormed (c : char) (w : str) :
  isAlpha c = true -> forallb isWord w = true ->
  wellFormed (wordToken (c :: w)).
Proof.
  intros Hc Hw. unfold wordToken.
  destruct (includes keywords (c :: w)) eqn:Ek.
  - apply includes_In in Ek. cbn. eauto.
  - destruct (str_eqb (c :: w) "true") eqn:Et.
    { apply str_eqb_eq in Et. cbn. left. now f_equal. }
    destruct (str_eqb (c :: w) "false") eqn:Ef.
    { apply str_eqb_eq in Ef. cbn. right. now f_equal. }
    unfold wellFormed. cbn [type value]. exists c, w. repeat split; try easy.
    + intros H. apply includes_In in H. congruence.
    + now apply str_eqb_neq.
    + now apply str_eqb_neq.
Qed.

(** What the outer loop gives from any place of the input: the tokens that
    it had, well-formed tokens and EOF, or the exception for a character
    of the input at which no token starts, at its index. *)
Lemma tokenize_from_spec (n : nat) :
  forall (d : str) (i : nat) (tokens : list Token),
    (List.length d <= n)%nat ->
    match tokenize_from d i tokens with
    | Ok ts =>
        exists body, ts = tokens ++ body ++ [punct EOF]
                     /\ Forall wellFormed body
    | Throw e =>
        exists c j, e = UnexpectedCharacter c j /\ (i <= j)%nat
                    /\ nth_error d (j - i) = Some c /\ startable c = false
    end.
Proof.
  induction n as [|n IH]; intros d i tokens Hn.
  { destruct d; [|cbn in Hn; lia]. cbn. exists []. auto. }
  destruct d as [|c r]; [cbn; exists []; auto|].
  cbn [List.length] in Hn. rewrite tokenize_from_cons.
  assert (Hskip : forall (pre : str) (rest : str) (tok : list Token),
             c :: r = pre ++ rest -> pre <> [] ->
             Forall wellFormed tok ->
             match tokenize_from rest (i + List.length pre) (tokens ++ tok) with
             | Ok ts =>
                 exists body, ts = tokens ++ body ++ [punct EOF]
                              /\ Forall wellFormed body
             | Throw e =>
                 exists c0 j, e = UnexpectedCharacter c0 j /\ (i <= j)%nat
                              /\ nth_error (c :: r) (j - i) = Some c0
                              /\ startable c0 = false
             end).
  { intros pre rest tok E Hpre Htok.
    assert (Hlen : (List.length rest <= n)%nat).
    { apply (f_equal (@List.length _)) in E. rewrite length_app in E.
      cbn [List.length] in E. destruct pre; [easy|cbn in E; lia]. }
    specialize (IH rest (i + List.length pre)%nat (tokens ++ tok) Hlen).
    destruct (tokenize_from rest _ _) as [ts|e].
    - destruct IH as (body & -> & Hb). exists (tok ++ body).
      split; [now rewrite <- !app_assoc|]. apply Forall_app. auto.
    - destruct IH as (c0 & j & -> & Hj & Hnth & Hc0). exists c0, j.
      split; [easy|]. split; [lia|]. split; [|easy].
      rewrite E, nth_error_app2 by lia. rewrite <- Hnth. f_equal. lia. }
  destruct (isWhitespace c) eqn:Hw.
  { specialize (Hskip [c] r [] eq_refl ltac:(discriminate) (Forall_nil _)).
    rewrite app_nil_r in Hskip. cbn [List.length] in Hskip.
    now rewrite Nat.add_1_r in Hskip. }
  destruct (punctOf c) as [t|] eqn:Hp.
  { specialize (Hskip [c] r [punct t] eq_refl ltac:(discriminate)).
    cbn [List.length] in Hskip. rewrite Nat.add_1_r in Hskip.
    apply Hskip. constructor; [|constructor].
    now apply punctOf_wellFormed with (c := c). }
  destruct (c =? DQUOTE) eqn:Hq.
  { pose proof (span_app (isnt DQUOTE) r) as Er.
    pose proof (span_fst_all (isnt DQUOTE) r) as Hs.
    destruct (span (isnt DQUOTE) r) as [s rest]. cbn [fst snd] in *.
    assert (Hwf : wellFormed (stringToken s)).
    { cbn. exists s. split; [easy|]. intros Hin.
      rewrite forallb_forall in Hs. apply Hs in Hin. unfold isnt in Hin.
      now rewrite N.eqb_refl in Hin. }
    destruct rest as [|x rest].
    - cbn [tl tokenize_from]. exists [stringToken s].
      split; [now rewrite <- app_assoc|]. now constructor.
    - specialize (Hskip (c :: s ++ [x]) rest [stringToken s]).
      cbn [tl]. cbn [List.length] in Hskip. rewrite length_app in Hskip.
      cbn [List.length] in Hskip.
      replace (i + S (List.length s + 1))%nat
        with (S (S i + List.length s)) in Hskip by lia.
      apply Hskip; [|easy|now constructor].
      rewrite <- Er. cbn. now rewrite <- app_assoc. }
  destruct (isNumeric c) eqn:Hd.
  { pose proof (span_app isNumeric r) as Er.
    pose proof (span_fst_all isNumeric r) as Hs.
    destruct (span isNumeric r) as [ds rest]. cbn [fst snd] in *.
    specialize (Hskip (c :: ds) rest [mkToken NUMBER_LITERAL (Some (c :: ds))]).
    cbn [List.length] in Hskip.
    replace (i + S (List.length ds))%nat
      with (S i + List.length ds)%nat in Hskip by lia.
    apply Hskip; [now rewrite <- Er|easy|].
    constructor; [|constructor]. cbn. exists (c :: ds).
    split; [easy|]. split; [easy|]. cbn [forallb].
    apply andb_true_iff. split; [exact Hd|exact Hs]. }
  destruct (isAlpha c) eqn:Ha.
  { pose proof (span_app isWord r) as Er.
    pose proof (span_fst_all isWord r) as Hs.
    destruct (span isWord r) as [w rest]. cbn [fst snd] in *.
    specialize (Hskip (c :: w) rest [wordToken (c :: w)]).
    cbn [List.length] in Hskip.
    replace (i + S (List.length w))%nat
      with (S i + List.length w)%nat in Hskip by lia.
    apply Hskip; [now rewrite <- Er|easy|].
    constructor; [|constructor]. now apply wordToken_wellFormed. }
  exists c, i. split; [easy|]. split; [lia|]. rewrite Nat.sub_diag.
  split; [easy|]. unfold startable. now rewrite Hw, Hp, Hq, Hd, Ha.
Qed.

Lemma wellFormed_not_EOF (t : Token) : wellFormed t -> type t <> EOF.
Proof. unfold wellFormed. intros H E. now rewrite E in H. Qed.

(** X5.  What [tokenize] returns is a run of well-formed tokens and then
    one EOF token, the only one.  A punctuation token has no value; a
    STRING_LITERAL holds a string without a double quote, a NUMBER_LITERAL
    a run of digits that is not empty, a TYPE one of the five keywords, a
    BOOLEAN_LITERAL [true] or [false], an IDENTIFIER a letter and then
    letters, digits and underscores, and no word of these other kinds.
    The types NEWLINE, WHITESPACE, UNDERSCORE, WORD, COMMA_LITERAL and
    KEYWORD are never produced. *)
Theorem tokenize_tokens (d : str) (ts : list Token) :
  tokenize d = Ok ts ->
  exists body, ts = body ++ [punct EOF]
               /\ Forall wellFormed body
               /\ Forall (fun t => type t <> EOF) body.
Proof.
  intros H. pose proof (@tokenize_from_spec _ d 0%nat [] (le_n _)) as S.
  fold (tokenize d) in S. rewrite H in S. destruct S as (body & -> & Hb).
  exists body. split; [easy|]. split; [easy|].
  eapply Forall_impl; [|exact Hb]. apply wellFormed_not_EOF.
Qed.

(** X6.  The one exception of [tokenize] is the one for an unexpected
    character: it names a character of the input, at the index that it
    reports, at which no token starts: no white space, no punctuation, no
    double quote, no digit and no letter.  An input made of characters at
    which a token starts is tokenized. *)
Theorem tokenize_unexpected_character (d : str) :
  (forall e, tokenize d = Throw e ->
             exists c i, e = UnexpectedCharacter c i
                         /\ nth_error d i = Some c /\ startable c = false)
  /\ (forallb startable d = true -> exists ts, tokenize d = Ok ts).
Proof.
  pose proof (@tokenize_from_spec _ d 0%nat [] (le_n _)) as S.
  fold (tokenize d) in S. split.
  - intros e H. rewrite H in S. destruct S as (c & j & -> & _ & Hn & Hc).
    rewrite Nat.sub_0_r in Hn. eauto.
  - intros Hall. destruct (tokenize d) as [ts|e]; [eauto|].
    destruct S as (c & j & _ & _ & Hn & Hc). apply nth_error_In in Hn.
    rewrite forallb_forall in Hall. rewrite (Hall c Hn) in Hc. discriminate.
Qed.

(** *** Whole tokens *)

Lemma alpha_starts_word (c : char) :
  isAlpha c = true ->
  isWhitespace c = false /\ punctOf c = None /\ (c =? DQUOTE) = false
  /\ isNumeric c = false.
Proof.
  intros H. unfold isWhitespace, isNumeric, punctOf.
  assert (Hp : forall a, isAlpha (ch a) = false -> (c =? ch a) = false).
  { intros a Ha. destruct (N.eqb_spec c (ch a)) as [->|]; congruence. }
  split; [revert H; unit_solve|].
  split; [|split; revert H; unit_solve].
  rewrite !Hp by reflexivity. reflexivity.
Qed.

Lemma digit_starts_number (c : char) :
  isDigit c = true ->
  isWhitespace c = false /\ punctOf c = None /\ (c =? DQUOTE) = false.
Proof.
  intros H. unfold isWhitespace, punctOf.
  assert (Hp : forall a, isDigit (ch a) = false -> (c =? ch a) = false).
  { intros a Ha. destruct (N.eqb_spec c (ch a)) as [->|]; congruence. }
  split; [revert H; unit_solve|].
  split; [|revert H; unit_solve].
  rewrite !Hp by reflexivity. reflexivity.
Qed.

Lemma tokenize_word_stop (c : char) (w : str) (x : char) (r : str) (i : nat)
  (tokens : list Token) :
  isAlpha c = true -> forallb isWord w = true -> isWord x = false ->
  tokenize_from ((c :: w) ++ x :: r) i tokens
  = tokenize_from (x :: r) (S i + List.length w)
                  (tokens ++ [wordToken (c :: w)]).
Proof.
  intros Hc Hw Hx. cbn [app]. rewrite tokenize_from_cons.
  destruct (alpha_starts_word _ Hc) as (-> & -> & -> & ->). rewrite Hc.
  now rewrite span_stop.
Qed.

Lemma tokenize_number_stop (c : char) (ds : str) (x : char) (r : str) (i : nat)
  (tokens : list Token) :
  isDigit c = true -> forallb isDigit ds = true -> isDigit x = false ->
  tokenize_from ((c :: ds) ++ x :: r) i tokens
  = tokenize_from (x :: r) (S i + List.length ds)
                  (tokens ++ [mkToken NUMBER_LITERAL (Some (c :: ds))]).
Proof.
  intros Hc Hd Hx. cbn [app]. rewrite tokenize_from_cons.
  destruct (digit_starts_number _ Hc) as (-> & -> & ->).
  unfold isNumeric. rewrite Hc. now rewrite span_stop.
Qed.

Lemma tokenize_string_stop (s r : str) (i : nat) (tokens : list Token) :
  ~ In DQUOTE s ->
  tokenize_from (DQUOTE :: s ++ DQUOTE :: r) i tokens
  = tokenize_from r (S (S i + List.length s)) (tokens ++ [stringToken s]).
Proof.
  intros Hin. rewrite tokenize_from_cons.
  change (isWhitespace DQUOTE) with false.
  change (punctOf DQUOTE) with (@None TokenType).
  change (DQUOTE =? DQUOTE) with true. cbv iota.
  rewrite span_stop; [reflexivity| |now cbn].
  apply forallb_forall. intros y Hy. unfold isnt. apply negb_true_iff.
  apply N.eqb_neq. intros ->. contradiction.
Qed.

(** The theorem at a statement with an array of a number and a string. *)
Lemma tokenize_tokens_witness :
  exists body,
    [mkToken TYPE (Some (s2l "ARRAY")); mkToken IDENTIFIER (Some (s2l "xs"));
     punct EQUALS; punct L_BRACKET; mkToken NUMBER_LITERAL (Some (s2l "12"));
     punct COMMA; stringToken (s2l "a b"); punct R_BRACKET; punct SEMICOLON;
     punct EOF]
    = body ++ [punct EOF]
    /\ Forall wellFormed body
    /\ Forall (fun t => type t <> EOF) body.
Proof.
  apply (@tokenize_tokens (dq "ARRAY xs = [12, `a b`];")). reflexivity.
Defined.

End TokenizeMore.

(** ** The parser: its errors, and the commas that it does not ask for *)

Module ParserMore.
Import Lexer Parser Notions Terms JSFacts ParserFacts.

(** *** Before an EOF token the cursor never leaves the tokens *)

Section Guarded.

Variable tokens : list Token.

Lemma guarded_bind {A B : Type} (m : M A) (k : A -> nat -> M B) :
  guarded tokens m ->
  (forall a c, m = Some (Ok (a, c)) -> beforeEOF tokens c ->
               guarded tokens (k a c)) ->
  guarded tokens (bind m k).
Proof.
  unfold bind. destruct m as [[[a c]|e]|]; cbn; auto.
Qed.

Lemma beforeEOF_token (c : nat) :
  beforeEOF tokens c -> exists token, nth_error tokens c = Some token.
Proof.
  intros (j & Hj & He). unfold typeAt in He.
  destruct (nth_error tokens j) as [t|] eqn:E; [|discriminate].
  assert (Hlt : (c < List.length tokens)%nat).
  { apply nth_error_lt in E. lia. }
  apply nth_error_Some in Hlt. destruct (nth_error tokens c); [eauto|easy].
Qed.

Lemma beforeEOF_next (c : nat) (token : Token) :
  beforeEOF tokens c -> nth_error tokens c = Some token ->
  type token <> EOF -> beforeEOF tokens (S c).
Proof.
  intros (j & Hj & He) Hn Ht. exists j. split; [|easy].
  destruct (Nat.eq_dec c j) as [->|Hne]; [|lia].
  unfold typeAt in He. rewrite Hn in He. cbn in He. congruence.
Qed.

Lemma guarded_eat (t : TokenType) (c : nat) :
  t <> EOF -> beforeEOF tokens c -> guarded tokens (eat tokens t c).
Proof.
  intros Ht Hc. destruct (beforeEOF_token Hc) as (token & Hn).
  unfold eat. rewrite Hn.
  destruct (TokenType_eqb (type token) t) eqn:E; cbn.
  - apply beforeEOF_next with (token := token); [easy|easy|].
    intros Heof. rewrite Heof in E. now destruct t.
  - left. eauto.
Qed.

Lemma guarded_peekIs (t : TokenType) (c : nat) :
  beforeEOF tokens c -> guarded tokens (peekIs tokens t c).
Proof.
  intros Hc. destruct (beforeEOF_token Hc) as (token & Hn).
  unfold peekIs. now rewrite Hn.
Qed.

(** Every function of the parser, started at or before an EOF token,
    returns at or before it, or throws an error of its own. *)
Lemma guarded_parse (fuel : nat) :
  (forall c, beforeEOF tokens c -> guarded tokens (parseLiteral tokens fuel c))
  /\ (forall c acc, beforeEOF tokens c ->
                    guarded tokens (arrayLoop tokens fuel c acc))
  /\ (forall c acc, beforeEOF tokens c ->
                    guarded tokens (objectLoop tokens fuel c acc)).
Proof.
  induction fuel as [|f (IHl & IHa & IHo)]; [now repeat split|].
  split; [|split].
  - intros c Hc. cbn [parseLiteral].
    destruct (beforeEOF_token Hc) as (token & Hn). rewrite Hn.
    pose proof (beforeEOF_next Hc Hn) as Hnext.
    destruct (type token) eqn:Et;
      try (cbn; right; eauto; fail);
      try (cbn; apply Hnext; discriminate).
    + unfold parseArrayWith.
      apply guarded_bind; [now apply guarded_eat|]. intros _ c1 _ H1.
      apply guarded_bind; [now apply IHa|]. intros elements c2 _ H2.
      apply guarded_bind; [now apply guarded_eat|]. intros _ c3 _ H3.
      exact H3.
    + unfold parseObjectWith.
      apply guarded_bind; [now apply guarded_eat|]. intros _ c1 _ H1.
      apply guarded_bind; [now apply IHo|]. intros obj c2 _ H2.
      apply guarded_bind; [now apply guarded_eat|]. intros _ c3 _ H3.
      exact H3.
  - intros c acc Hc. cbn [arrayLoop].
    apply guarded_bind; [now apply guarded_peekIs|]. intros closing c0 _ _.
    destruct closing; [exact Hc|].
    apply guarded_bind; [now apply IHl|]. intros v c1 _ H1.
    apply guarded_bind; [now apply guarded_peekIs|]. intros comma c1' _ _.
    destruct comma; [|now apply IHa].
    apply guarded_bind; [now apply guarded_eat|]. intros _ c2 _ H2.
    now apply IHa.
  - intros c acc Hc. cbn [objectLoop].
    apply guarded_bind; [now apply guarded_peekIs|]. intros closing c0 _ _.
    destruct closing; [exact Hc|].
    apply guarded_bind; [now apply guarded_eat|]. intros keyToken c1 _ H1.
    apply guarded_bind; [now apply guarded_eat|]. intros _ c2 _ H2.
    apply guarded_bind; [now apply IHl|]. intros v c3 _ H3.
    apply guarded_bind; [now apply guarded_peekIs|]. intros comma c3' _ _.
    destruct comma; [|now apply IHo].
    apply guarded_bind; [now apply guarded_eat|]. intros _ c4 _ H4.
    now apply IHo.
Qed.

Lemma guarded_parseDeclaration (fuel : nat) :
  beforeEOF tokens 0 -> guarded tokens (parseDeclaration tokens fuel 0).
Proof.
  intros H0. unfold parseDeclaration.
  apply guarded_bind; [now apply guarded_eat|]. intros typeToken c1 _ H1.
  apply guarded_bind; [now apply guarded_eat|]. intros nameToken c2 _ H2.
  apply guarded_bind; [now apply guarded_eat|]. intros _ c3 _ H3.
  apply guarded_bind; [now apply (proj1 (guarded_parse fuel))|].
  intros v c4 _ H4.
  apply guarded_bind; [now apply guarded_eat|]. intros _ c5 _ H5.
  exact H5.
Qed.

End Guarded.

(** On tokens with an EOF token [parser] returns a node or throws an
    error of its own. *)
Lemma parser_guarded (tokens : list Token) :
  (exists j, typeAt tokens j = Some EOF) ->
  (exists node, parser tokens = Some (Ok node))
  \/ (exists e, parser tokens = Some (Throw e) /\ ownError e).
Proof.
  intros (j & Hj).
  assert (H0 : beforeEOF tokens 0) by (exists j; split; [lia|easy]).
  pose proof (guarded_parseDeclaration (2 * List.length tokens + 2) H0) as G.
  pose proof (parser_fuel tokens) as Hf. unfold parser in *.
  destruct (parseDeclaration tokens _ 0) as [[[node c]|e]|]; [eauto| |easy].
  right. eauto.
Qed.

(** *** The call stack *)

Section Stack.

Variable tokens : list Token.

Lemma within_refl {A : Type} (m : option (result A)) : within m m.
Proof. now right. Qed.

Lemma within_bind {A B : Type} (m1 m2 : M A) (k1 k2 : A -> nat -> M B) :
  within m1 m2 -> (forall a c, within (k1 a c) (k2 a c)) ->
  within (bind m1 k1) (bind m2 k2).
Proof.
  intros [->| ->] Hk; [now left|].
  destruct m2 as [[[a c]|e]|]; cbn [bind]; [apply Hk|now right|now right].
Qed.

(** The limit of the stack changes an outcome into the RangeError, and
    into nothing else. *)
Lemma stack_within (fuel : nat) :
  (forall stack c,
      within (CallStack.parseLiteral tokens fuel stack c)
             (parseLiteral tokens fuel c))
  /\ (forall stack c acc,
        within (CallStack.arrayLoop tokens fuel stack c acc)
               (arrayLoop tokens fuel c acc))
  /\ (forall stack c acc,
        within (CallStack.objectLoop tokens fuel stack c acc)
               (objectLoop tokens fuel c acc)).
Proof.
  induction fuel as [|f (IHl & IHa & IHo)]; [now repeat split; right|].
  split; [|split].
  - intros stack c. cbn [CallStack.parseLiteral parseLiteral].
    destruct stack as [|deeper]; [now left|].
    destruct (nth_error tokens c) as [token|]; [|apply within_refl].
    destruct (type token); try apply within_refl.
    + unfold parseArrayWith.
      apply within_bind; [apply within_refl|]. intros _ c1.
      apply within_bind; [apply IHa|]. intros elements c2. apply within_refl.
    + unfold parseObjectWith.
      apply within_bind; [apply within_refl|]. intros _ c1.
      apply within_bind; [apply IHo|]. intros obj c2. apply within_refl.
  - intros stack c acc. cbn [CallStack.arrayLoop arrayLoop].
    apply within_bind; [apply within_refl|]. intros closing _.
    destruct closing; [apply within_refl|].
    apply within_bind; [apply IHl|]. intros v c1.
    apply within_bind; [apply within_refl|]. intros comma _.
    destruct comma; [|apply IHa].
    apply within_bind; [apply within_refl|]. intros _ c2. apply IHa.
  - intros stack c acc. cbn [CallStack.objectLoop objectLoop].
    apply within_bind; [apply within_refl|]. intros closing _.
    destruct closing; [apply within_refl|].
    apply within_bind; [apply within_refl|]. intros keyToken c1.
    apply within_bind; [apply within_refl|]. intros _ c2.
    apply within_bind; [apply IHl|]. intros v c3. cbv zeta.
    apply within_bind; [apply within_refl|]. intros comma _.
    destruct comma; [|apply IHo].
    apply within_bind; [apply within_refl|]. intros _ c4. apply IHo.
Qed.

Lemma bind_ext {A B : Type} (m : M A) (k1 k2 : A -> nat -> M B) :
  (forall a c, m = Some (Ok (a, c)) -> k1 a c = k2 a c) ->
  bind m k1 = bind m k2.
Proof. destruct m as [[[a c]|e]|]; cbn [bind]; auto. Qed.

(** The opening tokens from an index on. *)
Lemma openers_skipn (c : nat) (token : Token) :
  nth_error tokens c = Some token ->
  openers (skipn c tokens)
  = ((if isOpener token then 1 else 0) + openers (skipn (S c) tokens))%nat.
Proof.
  revert c. induction tokens as [|t l IH]; intros c H.
  - now destruct c.
  - destruct c as [|c].
    + injection H as ->. unfold openers. cbn [skipn filter].
      now destruct (isOpener token).
    + cbn [nth_error] in H. apply IH in H. exact H.
Qed.

Lemma openers_skipn_S (c : nat) :
  (openers (skipn (S c) tokens) <= openers (skipn c tokens))%nat.
Proof.
  destruct (nth_error tokens c) as [token|] eqn:E.
  - rewrite (openers_skipn _ E). lia.
  - apply nth_error_None in E.
    rewrite !skipn_all2 by lia. reflexivity.
Qed.

Lemma openers_skipn_le (c c' : nat) :
  (c <= c')%nat ->
  (openers (skipn c' tokens) <= openers (skipn c tokens))%nat.
Proof.
  induction 1 as [|c' _ IH]; [reflexivity|].
  pose proof (openers_skipn_S c'). lia.
Qed.

(** A stack that holds more calls than there are opening tokens ahead is
    never exhausted. *)
Lemma stack_fits (fuel : nat) :
  (forall stack c,
      (openers (skipn c tokens) < stack)%nat ->
      CallStack.parseLiteral tokens fuel stack c = parseLiteral tokens fuel c)
  /\ (forall stack c acc,
        (openers (skipn c tokens) < stack)%nat ->
        CallStack.arrayLoop tokens fuel stack c acc
        = arrayLoop tokens fuel c acc)
  /\ (forall stack c acc,
        (openers (skipn c tokens) < stack)%nat ->
        CallStack.objectLoop tokens fuel stack c acc
        = objectLoop tokens fuel c acc).
Proof.
  induction fuel as [|f (IHl & IHa & IHo)]; [now repeat split|].
  split; [|split].
  - intros stack c Hs. cbn [CallStack.parseLiteral parseLiteral].
    destruct stack as [|deeper]; [lia|].
    destruct (nth_error tokens c) as [token|] eqn:Hn; [|reflexivity].
    pose proof (openers_skipn _ Hn) as Ho. unfold isOpener in Ho.
    destruct (type token); try reflexivity.
    + unfold parseArrayWith. apply bind_ext. intros t c1 He.
      apply eat_ok in He as (_ & _ & ->). rewrite IHa by lia. reflexivity.
    + unfold parseObjectWith. apply bind_ext. intros t c1 He.
      apply eat_ok in He as (_ & _ & ->). rewrite IHo by lia. reflexivity.
  - intros stack c acc Hs. cbn [CallStack.arrayLoop arrayLoop].
    apply bind_ext. intros closing c0 _. destruct closing; [reflexivity|].
    rewrite IHl by assumption. apply bind_ext. intros v c1 Hl.
    apply (proj1 (progress tokens f)) in Hl.
    assert (H1 : (openers (skipn c1 tokens) < stack)%nat).
    { pose proof (@openers_skipn_le c c1 ltac:(lia)). lia. }
    apply bind_ext. intros comma c1' _. destruct comma; [|now apply IHa].
    apply bind_ext. intros t c2 He. apply eat_ok in He as (_ & _ & ->).
    apply IHa. pose proof (openers_skipn_S c1). lia.
  - intros stack c acc Hs. cbn [CallStack.objectLoop objectLoop].
    apply bind_ext. intros closing c0 _. destruct closing; [reflexivity|].
    apply bind_ext. intros keyToken c1 He. apply eat_ok in He as (_ & _ & ->).
    apply bind_ext. intros t c2 He. apply eat_ok in He as (_ & _ & ->).
    assert (H2 : (openers (skipn (S (S c)) tokens) < stack)%nat).
    { pose proof (@openers_skipn_le c (S (S c)) ltac:(lia)). lia. }
    rewrite IHl by assumption. apply bind_ext. intros v c3 Hl.
    apply (proj1 (progress tokens f)) in Hl. cbv zeta.
    assert (H3 : (openers (skipn c3 tokens) < stack)%nat).
    { pose proof (@openers_skipn_le (S (S c)) c3 ltac:(lia)). lia. }
    apply bind_ext. intros comma c3' _. destruct comma; [|now apply IHo].
    apply bind_ext. intros t' c4 He. apply eat_ok in He as (_ & _ & ->).
    apply IHo. pose proof (openers_skipn_S c3). lia.
Qed.

(** One opening bracket more than the stack holds calls exhausts it. *)
Lemma stack_overflow (stack : nat) :
  forall fuel c,
    (2 * stack + 1 <= fuel)%nat ->
    (forall i, (i < stack)%nat -> typeAt tokens (c + i) = Some L_BRACKET) ->
    (stack = 0%nat \/ typeAt tokens (c + stack) = Some L_BRACKET) ->
    CallStack.parseLiteral tokens fuel stack c = Some (Throw RangeError).
Proof.
  induction stack as [|deeper IH]; intros fuel c Hf Hb Hlast.
  - destruct fuel as [|f]; [lia|]. reflexivity.
  - destruct fuel as [|[|f]]; try lia. destruct Hlast as [|Hlast]; [lia|].
    pose proof (Hb 0%nat ltac:(lia)) as H0. rewrite Nat.add_0_r in H0.
    assert (H1 : typeAt tokens (S c) = Some L_BRACKET).
    { destruct deeper as [|d].
      - now rewrite Nat.add_1_r in Hlast.
      - specialize (Hb 1%nat ltac:(lia)). now rewrite Nat.add_1_r in Hb. }
    cbn [CallStack.parseLiteral]. unfold typeAt in H0.
    destruct (nth_error tokens c) as [tok|] eqn:Hn; [|discriminate].
    injection H0 as H0. rewrite H0. unfold parseArrayWith, eat.
    rewrite Hn, H0. cbn [TokenType_eqb bind CallStack.arrayLoop].
    rewrite (typeAt_peekIs _ _ R_BRACKET H1). cbn [TokenType_eqb bind].
    rewrite IH; [reflexivity|lia| |].
    + intros i Hi. specialize (Hb (S i) ltac:(lia)).
      now rewrite Nat.add_succ_r in Hb.
    + destruct deeper as [|d]; [now left|right].
      now rewrite Nat.add_succ_r in Hlast.
Qed.

End Stack.

(** [parser] on a call stack gives what [parser] gives, or the
    RangeError. *)
Lemma parser_within (stack : nat) (tokens : list Token) :
  within (CallStack.parser stack tokens) (parser tokens).
Proof.
  unfold CallStack.parser, parser, CallStack.parseDeclaration, parseDeclaration.
  set (fuel := (2 * List.length tokens + 2)%nat).
  assert (H : within
            (bind (eat tokens TYPE 0) (fun typeToken c1 =>
             bind (eat tokens IDENTIFIER c1) (fun nameToken c2 =>
             bind (eat tokens EQUALS c2) (fun _ c3 =>
             bind (CallStack.parseLiteral tokens fuel stack c3) (fun v c4 =>
             bind (eat tokens SEMICOLON c4) (fun _ c5 =>
             Some (Ok (mkNode (value typeToken) (value nameToken) v, c5))))))))
            (bind (eat tokens TYPE 0) (fun typeToken c1 =>
             bind (eat tokens IDENTIFIER c1) (fun nameToken c2 =>
             bind (eat tokens EQUALS c2) (fun _ c3 =>
             bind (parseLiteral tokens fuel c3) (fun v c4 =>
             bind (eat tokens SEMICOLON c4) (fun _ c5 =>
             Some (Ok (mkNode (value typeToken) (value nameToken) v, c5))))))))).
  { apply within_bind; [apply within_refl|]. intros typeToken c1.
    apply within_bind; [apply within_refl|]. intros nameToken c2.
    apply within_bind; [apply within_refl|]. intros _ c3.
    apply within_bind; [apply (proj1 (stack_within tokens fuel))|].
    intros v c4. apply within_refl. }
  destruct H as [-> | ->]; [now left|now right].
Qed.

(** With more calls on the stack than opening tokens in the list, the
    limit is never met. *)
Lemma parser_fits (stack : nat) (tokens : list Token) :
  (openers tokens < stack)%nat ->
  CallStack.parser stack tokens = parser tokens.
Proof.
  intros Hs. unfold CallStack.parser, parser.
  set (fuel := (2 * List.length tokens + 2)%nat).
  assert (E : CallStack.parseDeclaration tokens fuel stack 0
              = parseDeclaration tokens fuel 0).
  { unfold CallStack.parseDeclaration, parseDeclaration.
    apply bind_ext. intros typeToken c1 _.
    apply bind_ext. intros nameToken c2 _.
    apply bind_ext. intros t c3 _.
    rewrite (proj1 (stack_fits tokens fuel)); [reflexivity|].
    pose proof (@openers_skipn_le tokens 0 c3 ltac:(lia)) as H.
    cbn [skipn] in H. lia. }
  now rewrite E.
Qed.

(** *** Elements and members with and without commas *)

Lemma nth_error_at {A : Type} (pre : list A) (x : A) (post : list A) :
  nth_error (pre ++ x :: post) (List.length pre) = Some x.
Proof. rewrite nth_error_app2 by lia. now rewrite Nat.sub_diag. Qed.

Lemma nth_error_after {A : Type} (pre : list A) (x y : A) (post : list A) :
  nth_error (pre ++ x :: y :: post) (S (List.length pre)) = Some y.
Proof.
  rewrite nth_error_app2 by lia.
  replace (S (List.length pre) - List.length pre)%nat with 1%nat by lia.
  reflexivity.
Qed.

Lemma parseLiteral_simple (tokens : list Token) (f c : nat) (t : Token) :
  nth_error tokens c = Some t -> simpleLiteral t = true -> (1 <= f)%nat ->
  parseLiteral tokens f c = Some (Ok (literalValue t, S c)).
Proof.
  intros Hn Hs Hf. destruct f as [|f]; [lia|]. cbn [parseLiteral]. rewrite Hn.
  unfold simpleLiteral in Hs. unfold literalValue.
  now destruct (type t).
Qed.

Lemma simpleLiteral_type (t : Token) (u : TokenType) :
  simpleLiteral t = true -> simpleLiteral (punct u) = false ->
  TokenType_eqb (type t) u = false.
Proof.
  unfold simpleLiteral. cbn [punct type].
  destruct (type t), u; easy.
Qed.

(** The token behind an element: a comma when the element has one, and no
    comma otherwise. *)
Lemma elementTokens_next (items : list (Token * bool)) (u : TokenType)
  (rest : list Token) :
  forallb (fun item => simpleLiteral (fst item)) items = true ->
  u <> COMMA ->
  exists x more, elementTokens items ++ punct u :: rest = x :: more
                 /\ TokenType_eqb (type x) COMMA = false.
Proof.
  intros Hs Hu. destruct items as [|[t comma] items]; cbn.
  - exists (punct u), rest. split; [easy|]. cbn. now destruct u.
  - apply andb_true_iff in Hs as [Ht _]. cbn in Ht.
    destruct comma; cbn; eexists _, _; (split; [reflexivity|]);
      now apply simpleLiteral_type.
Qed.

(** The array loop reads the elements, whether a comma follows an element
    or not, and stops at the closing bracket. *)
Lemma arrayLoop_items (rest : list Token) (items : list (Token * bool)) :
  forall (pre : list Token) (acc : list JSValue) (fuel : nat),
    forallb (fun item => simpleLiteral (fst item)) items = true ->
    (List.length items + 1 <= fuel)%nat ->
    arrayLoop (pre ++ elementTokens items ++ punct R_BRACKET :: rest) fuel
              (List.length pre) acc
    = Some (Ok (acc ++ map (fun item => literalValue (fst item)) items,
                (List.length pre + List.length (elementTokens items))%nat)).
Proof.
  induction items as [|[t comma] items IH]; intros pre acc fuel Hs Hf.
  - destruct fuel as [|f]; [cbn in Hf; lia|]. cbn [arrayLoop elementTokens flat_map app].
    unfold peekIs. rewrite nth_error_at. cbn.
    now rewrite app_nil_r, Nat.add_0_r.
  - cbn [forallb fst] in Hs. apply andb_true_iff in Hs as [Ht Hs].
    destruct fuel as [|f]; [cbn in Hf; lia|]. cbn [List.length] in Hf.
    cbn [elementTokens flat_map snd fst]. fold (elementTokens items).
    set (tokens := pre ++ _).
    assert (Hn : nth_error tokens (List.length pre) = Some t).
    { subst tokens. destruct comma; cbn [app]; apply nth_error_at. }
    cbn [arrayLoop]. unfold peekIs at 1. rewrite Hn.
    rewrite (@simpleLiteral_type t R_BRACKET Ht eq_refl). cbn [bind].
    rewrite (@parseLiteral_simple tokens f (List.length pre) t Hn Ht) by lia. cbn [bind].
    destruct comma.
    + assert (Hc : nth_error tokens (S (List.length pre)) = Some (punct COMMA)).
      { subst tokens. cbn [app]. apply nth_error_after. }
      unfold peekIs, eat. rewrite Hc. cbn [punct type TokenType_eqb bind].
      specialize (IH (pre ++ [t; punct COMMA]) (acc ++ [literalValue t]) f
                     Hs ltac:(lia)).
      rewrite length_app in IH. cbn [List.length] in IH.
      replace (List.length pre + 2)%nat with (S (S (List.length pre))) in IH
        by lia.
      subst tokens. cbn [app].
      rewrite <- app_assoc in IH. cbn [app] in IH. rewrite IH.
      cbn [map fst List.length]. rewrite <- app_assoc. cbn [app].
      do 3 f_equal. lia.
    + destruct (@elementTokens_next items R_BRACKET rest Hs ltac:(discriminate))
        as (x & more & Ex & Hx).
      assert (Hc : nth_error tokens (S (List.length pre)) = Some x).
      { subst tokens. cbn [app]. rewrite Ex. apply nth_error_after. }
      unfold peekIs. rewrite Hc, Hx. cbn [bind].
      specialize (IH (pre ++ [t]) (acc ++ [literalValue t]) f
                     Hs ltac:(lia)).
      rewrite length_app in IH. cbn [List.length] in IH.
      replace (List.length pre + 1)%nat with (S (List.length pre)) in IH
        by lia.
      subst tokens. cbn [app].
      rewrite <- app_assoc in IH. cbn [app] in IH. rewrite IH.
      cbn [map fst List.length]. rewrite <- app_assoc. cbn [app].
      do 3 f_equal. lia.
Qed.

Lemma nth_error_plus {A : Type} (pre l : list A) (n : nat) :
  nth_error (pre ++ l) (n + List.length pre) = nth_error l n.
Proof. rewrite nth_error_app2 by lia. f_equal. lia. Qed.

Lemma memberTokens_next (items : list (str * Token * bool)) (u : TokenType)
  (rest : list Token) :
  u <> COMMA ->
  exists x more, memberTokens items ++ punct u :: rest = x :: more
                 /\ TokenType_eqb (type x) COMMA = false.
Proof.
  intros Hu. destruct items as [|[[k t] comma] items]; cbn.
  - exists (punct u), rest. split; [easy|]. cbn. now destruct u.
  - destruct comma; cbn; eexists _, _; (split; [reflexivity|]); reflexivity.
Qed.

(** The object loop reads the members, whether a comma follows a member
    or not, and stops at the closing brace. *)
Lemma objectLoop_members (rest : list Token) (items : list (str * Token * bool)) :
  forall (pre : list Token) (obj : list (str * JSValue)) (fuel : nat),
    forallb (fun item : str * Token * bool => simpleLiteral (snd (fst item)))
            items = true ->
    (List.length items + 1 <= fuel)%nat ->
    objectLoop (pre ++ memberTokens items ++ punct R_BRACE :: rest) fuel
               (List.length pre) obj
    = Some (Ok (membersObject items obj,
                (List.length pre + List.length (memberTokens items))%nat)).
Proof.
  induction items as [|[[k t] comma] items IH]; intros pre obj fuel Hs Hf.
  - destruct fuel as [|f]; [cbn in Hf; lia|].
    cbn [objectLoop memberTokens flat_map app].
    unfold peekIs. rewrite nth_error_at. cbn. now rewrite Nat.add_0_r.
  - cbn [forallb fst snd] in Hs. apply andb_true_iff in Hs as [Ht Hs].
    destruct fuel as [|f]; [cbn in Hf; lia|]. cbn [List.length] in Hf.
    cbn [memberTokens flat_map]. fold (memberTokens items).
    set (tokens := pre ++ _).
    assert (H0 : nth_error tokens (List.length pre) = Some (stringToken k)).
    { subst tokens. destruct comma; cbn [app]; apply nth_error_at. }
    assert (H1 : nth_error tokens (S (List.length pre)) = Some (punct COLON)).
    { subst tokens. destruct comma; cbn [app]; apply nth_error_after. }
    assert (H2 : nth_error tokens (S (S (List.length pre))) = Some t).
    { subst tokens. change (S (S (List.length pre))) with (2 + List.length pre)%nat.
      rewrite nth_error_plus. now destruct comma. }
    cbn [objectLoop]. unfold peekIs at 1. rewrite H0. cbn [stringToken type TokenType_eqb bind].
    unfold eat at 1. rewrite H0. cbn [stringToken type TokenType_eqb bind].
    unfold eat at 1. rewrite H1. cbn [punct type TokenType_eqb bind].
    rewrite (@parseLiteral_simple tokens f (S (S (List.length pre))) t H2 Ht)
      by lia.
    cbn [bind]. change (propertyKey (value (stringToken k))) with k.
    destruct comma.
    + assert (Hc : nth_error tokens (S (S (S (List.length pre))))
                   = Some (punct COMMA)).
      { subst tokens.
        change (S (S (S (List.length pre)))) with (3 + List.length pre)%nat.
        now rewrite nth_error_plus. }
      unfold peekIs, eat. rewrite Hc. cbn [punct type TokenType_eqb bind].
      specialize (IH (pre ++ [stringToken k; punct COLON; t; punct COMMA])
                     (assignProp k (literalValue t) obj) f Hs ltac:(lia)).
      rewrite length_app in IH. cbn [List.length] in IH.
      replace (List.length pre + 4)%nat
        with (S (S (S (S (List.length pre))))) in IH by lia.
      subst tokens. cbn [app].
      rewrite <- app_assoc in IH. cbn [app] in IH. rewrite IH.
      cbn [List.length]. do 3 f_equal. lia.
    + destruct (@memberTokens_next items R_BRACE rest ltac:(discriminate))
        as (x & more & Ex & Hx).
      assert (Hc : nth_error tokens (S (S (S (List.length pre)))) = Some x).
      { subst tokens.
        change (S (S (S (List.length pre)))) with (3 + List.length pre)%nat.
        rewrite nth_error_plus. cbn [app nth_error]. now rewrite Ex. }
      unfold peekIs. rewrite Hc, Hx. cbn [bind].
      specialize (IH (pre ++ [stringToken k; punct COLON; t])
                     (assignProp k (literalValue t) obj) f Hs ltac:(lia)).
      rewrite length_app in IH. cbn [List.length] in IH.
      replace (List.length pre + 3)%nat
        with (S (S (S (List.length pre)))) in IH by lia.
      subst tokens. cbn [app].
      rewrite <- app_assoc in IH. cbn [app] in IH. rewrite IH.
      cbn [List.length]. do 3 f_equal. lia.
Qed.

Lemma elementTokens_length (items : list (Token * bool)) :
  (List.length items <= List.length (elementTokens items))%nat.
Proof.
  induction items as [|[t comma] items IH]; [easy|].
  unfold elementTokens in *. cbn [flat_map]. rewrite length_app.
  destruct comma; cbn [snd List.length]; lia.
Qed.

Lemma memberTokens_length (items : list (str * Token * bool)) :
  (List.length items <= List.length (memberTokens items))%nat.
Proof.
  induction items as [|[[k t] comma] items IH]; [easy|].
  unfold memberTokens in *. cbn [flat_map]. rewrite length_app.
  destruct comma; cbn [List.length]; lia.
Qed.

Ltac step_nth :=
  repeat match goal with
         | |- context [nth_error (?a :: ?l) (S ?n)] =>
             change (nth_error (a :: l) (S n)) with (nth_error l n)
         end.

(** X8.  The parser asks for no comma between the elements of an array
    nor between the members of an object: each element or member may have
    a comma behind it or not, the last one included, and the value is the
    same, the elements in their order, the members written into the
    object one after the other.  The type and the name of the declaration
    are the values of the first two tokens, and the tokens behind the
    separator are not read. *)
Theorem parser_commas_optional (T N : option str) (rest : list Token) :
  (forall items : list (Token * bool),
      forallb (fun item => simpleLiteral (fst item)) items = true ->
      parser (declarationHead T N
                ++ punct L_BRACKET :: elementTokens items
                ++ punct R_BRACKET :: punct SEMICOLON :: rest)
      = Some (Ok (mkNode T N
                         (JArr (map (fun item => literalValue (fst item))
                                    items)))))
  /\ (forall items : list (str * Token * bool),
        forallb (fun item : str * Token * bool =>
                   simpleLiteral (snd (fst item))) items = true ->
        parser (declarationHead T N
                  ++ punct L_BRACE :: memberTokens items
                  ++ punct R_BRACE :: punct SEMICOLON :: rest)
        = Some (Ok (mkNode T N (JObj (membersObject items []))))).
Proof.
  split.
  - intros items Hs. unfold parser, parseDeclaration, declarationHead.
    set (tokens := _ ++ _). cbn [app] in tokens.
    set (fuel := (2 * List.length tokens + 2)%nat).
    assert (Hfuel : (List.length items + 3 <= fuel)%nat).
    { subst fuel tokens. cbn [List.length]. rewrite length_app.
      pose proof (elementTokens_length items). cbn [List.length]. lia. }
    destruct fuel as [|f]; [lia|].
    unfold eat at 1 2 3. subst tokens. cbn [nth_error type TokenType_eqb bind punct].
    cbn [parseLiteral nth_error punct type]. unfold parseArrayWith.
    unfold eat at 1. cbn [nth_error punct type TokenType_eqb bind].
    pose proof (@arrayLoop_items (punct SEMICOLON :: rest) items
                  [mkToken TYPE T; mkToken IDENTIFIER N; punct EQUALS;
                   punct L_BRACKET] [] f Hs ltac:(lia)) as H.
    cbn [app List.length] in H. rewrite H. cbn [bind].
    unfold eat.
    change (4 + List.length (elementTokens items))%nat
      with (S (S (S (S (List.length (elementTokens items)))))).
    step_nth. rewrite (nth_error_at (elementTokens items)).
    cbn [punct type TokenType_eqb bind]. step_nth.
    rewrite (nth_error_after (elementTokens items)).
    reflexivity.
  - intros items Hs. unfold parser, parseDeclaration, declarationHead.
    set (tokens := _ ++ _). cbn [app] in tokens.
    set (fuel := (2 * List.length tokens + 2)%nat).
    assert (Hfuel : (List.length items + 3 <= fuel)%nat).
    { subst fuel tokens. cbn [List.length]. rewrite length_app.
      pose proof (memberTokens_length items). cbn [List.length]. lia. }
    destruct fuel as [|f]; [lia|].
    unfold eat at 1 2 3. subst tokens. cbn [nth_error type TokenType_eqb bind punct].
    cbn [parseLiteral nth_error punct type]. unfold parseObjectWith.
    unfold eat at 1. cbn [nth_error punct type TokenType_eqb bind].
    pose proof (@objectLoop_members (punct SEMICOLON :: rest) items
                  [mkToken TYPE T; mkToken IDENTIFIER N; punct EQUALS;
                   punct L_BRACE] [] f Hs ltac:(lia)) as H.
    cbn [app List.length] in H. rewrite H. cbn [bind].
    unfold eat.
    change (4 + List.length (memberTokens items))%nat
      with (S (S (S (S (List.length (memberTokens items)))))).
    step_nth. rewrite (nth_error_at (memberTokens items)).
    cbn [punct type TokenType_eqb bind]. step_nth.
    rewrite (nth_error_after (memberTokens items)).
    reflexivity.
Qed.

End ParserMore.

(** ** From the text of a statement to its node *)

Module PipelineFacts.
Import Lexer Parser Notions Terms JSFacts NumberFacts LexerFacts LexerMore
  TokenizeMore ParserFacts ParserMore.

Lemma keyword_word (T : str) :
  In T keywords ->
  (exists c w, T = c :: w /\ isAlpha c = true /\ forallb isWord w = true)
  /\ wordToken T = mkToken TYPE (Some T).
Proof.
  intros [<-|[<-|[<-|[<-|[<-|[]]]]]];
    (split; [eexists _, _; repeat split; reflexivity|reflexivity]).
Qed.

Lemma identifier_token (N : str) :
  identifierWord N -> wordToken N = mkToken IDENTIFIER (Some N).
Proof.
  intros (_ & Hk & Ht & Hf). unfold wordToken.
  destruct (includes keywords N) eqn:E; [now apply includes_In in E|].
  apply str_eqb_neq in Ht, Hf. now rewrite Ht, Hf.
Qed.

Lemma word_plain (w : str) : forallb isWord w = true -> forallb plain w = true.
Proof.
  apply forallb_impl. intros c Hc. unfold plain, isQuote.
  apply negb_true_iff. revert Hc.
  repeat match goal with
         | |- context [c =? ?a] =>
             let E := fresh in
             destruct (N.eqb_spec c a) as [E|_]; [rewrite E; discriminate|]
         end.
  reflexivity.
Qed.

Lemma digit_plain (w : str) : forallb isDigit w = true -> forallb plain w = true.
Proof.
  intros H. apply word_plain. revert H. apply forallb_impl, digit_is_word.
Qed.

(** The splitter leaves the literal at the top level. *)
Lemma scan_literal (l : SimpleLit) (st : LexState) :
  litOk l -> inString st = false ->
  scan_from st (litText l)
  = mkLex (declarations st) (buffer st ++ litText l) false None
          (braceDepth st) (bracketDepth st)
    \/ scan_from st (litText l)
       = mkLex (declarations st) (buffer st ++ litText l) false (stringChar st)
               (braceDepth st) (bracketDepth st).
Proof.
  intros Hl Hs. destruct l as [s|ds|b]; cbn [litText litOk] in *.
  - left. now apply scan_string_literal.
  - right. apply scan_plain; [easy|]. now apply digit_plain.
  - right. apply scan_plain; [easy|]. now destruct b.
Qed.

Lemma statement_lexer (T N : str) (l : SimpleLit) :
  In T keywords -> identifierWord N -> litOk l ->
  lexer (statementText T N l) = [statementText T N l].
Proof.
  intros HT HN Hl.
  destruct (keyword_word HT) as [(c & w & -> & Hc & Hw) _].
  destruct HN as [(c' & w' & -> & Hc' & Hw') _].
  set (P0 := (c :: w) ++ ch " " :: (c' :: w') ++ s2l " = ").
  assert (HP0 : scan P0 = mkLex [] P0 false None 0%Z 0%Z).
  { unfold scan. rewrite scan_plain; [reflexivity|reflexivity|].
    subst P0. rewrite forallb_app. cbn [forallb].
    rewrite forallb_app. cbn [forallb].
    assert (Ha : forall x, isAlpha x = true -> plain x = true).
    { intros x Hx. assert (H : forallb plain [x] = true).
      { apply word_plain. cbn. unfold isWord. now rewrite Hx. }
      cbn in H. now rewrite andb_true_r in H. }
    rewrite (Ha _ Hc), (Ha _ Hc'), !word_plain by assumption. reflexivity. }
  assert (Hpre : exists q, scan (P0 ++ litText l)
                           = mkLex [] (P0 ++ litText l) false q 0%Z 0%Z).
  { unfold scan. rewrite scan_from_app. fold (scan P0).
    destruct (@scan_literal l (scan P0) Hl) as [E|E];
      [now rewrite HP0| |]; rewrite E, HP0; cbn; eauto. }
  destruct Hpre as (q & Hpre).
  assert (Etext : statementText (c :: w) (c' :: w') l
                  = (P0 ++ litText l) ++ ch ";" :: []).
  { unfold statementText. subst P0.
    repeat first [rewrite <- app_assoc | rewrite <- app_comm_cons].
    reflexivity. }
  rewrite Etext at 1. rewrite lexer_at_boundary by now rewrite Hpre.
  rewrite Hpre. cbn [declarations buffer app].
  change (lexer []) with (@nil str). f_equal. rewrite <- Etext.
  apply trim_of_solid, solid_ends. split.
  - exists c, (w ++ ch " " :: (c' :: w') ++ s2l " = " ++ litText l ++ [ch ";"]).
    split; [reflexivity|]. revert Hc. unit_solve.
  - exists (P0 ++ litText l), (ch ";"). now rewrite Etext.
Qed.

Lemma tokenize_blank (r : str) (i : nat) (tokens : list Token) :
  tokenize_from (ch " " :: r) i tokens = tokenize_from r (S i) tokens.
Proof. reflexivity. Qed.

Lemma tokenize_equals (r : str) (i : nat) (tokens : list Token) :
  tokenize_from (ch "=" :: r) i tokens
  = tokenize_from r (S i) (tokens ++ [punct EQUALS]).
Proof. reflexivity. Qed.

Lemma statement_tokens (T N : str) (l : SimpleLit) :
  In T keywords -> identifierWord N -> litOk l ->
  tokenize (statementText T N l) = Ok (statementTokens T N l).
Proof.
  intros HT HN Hl. pose proof (identifier_token HN) as EN.
  destruct (keyword_word HT) as [(c & w & ET & Hc & Hw) ETok].
  destruct HN as [(c' & w' & EN' & Hc' & Hw') _].
  unfold tokenize, statementText. rewrite ET at 1.
  rewrite tokenize_word_stop by (assumption || reflexivity).
  rewrite tokenize_blank. rewrite EN' at 1.
  change (s2l " = " ++ litText l ++ [ch ";"])
    with (ch " " :: ch "=" :: ch " " :: litText l ++ [ch ";"]).
  rewrite tokenize_word_stop by (assumption || reflexivity).
  rewrite tokenize_blank, tokenize_equals, tokenize_blank.
  rewrite <- ET, <- EN', ETok, EN. unfold statementTokens.
  destruct l as [s|ds|b]; cbn [litText litOk litToken] in *.
  - cbn [app]. rewrite <- app_assoc. cbn [app].
    now rewrite tokenize_string_stop.
  - destruct Hl as [Hne Hd]. destruct ds as [|d ds]; [easy|].
    cbn [forallb] in Hd. apply andb_true_iff in Hd as [Hd Hds].
    now rewrite tokenize_number_stop.
  - now destruct b.
Qed.

(** A declaration of a literal of one token: the parser compares the type
    with nothing and reads nothing behind the separator. *)
Lemma parser_simple (T N : option str) (t : Token) (rest : list Token) :
  simpleLiteral t = true ->
  parser (declarationHead T N ++ t :: punct SEMICOLON :: rest)
  = Some (Ok (mkNode T N (literalValue t))).
Proof.
  intros Ht. unfold parser, parseDeclaration, declarationHead.
  set (tokens := _ ++ _). cbn [app] in tokens.
  set (fuel := (2 * List.length tokens + 2)%nat).
  assert (Hfuel : (1 <= fuel)%nat) by lia. clearbody fuel.
  unfold eat at 1 2 3. subst tokens.
  cbn [nth_error type TokenType_eqb bind punct].
  rewrite (@parseLiteral_simple
             (mkToken TYPE T :: mkToken IDENTIFIER N :: punct EQUALS :: t
                :: punct SEMICOLON :: rest) fuel 3 t eq_refl Ht Hfuel).
  reflexivity.
Qed.

Lemma statement_node (T N : option str) (l : SimpleLit) (rest : list Token) :
  litOk l ->
  parser (declarationHead T N ++ litToken l :: punct SEMICOLON :: rest)
  = Some (Ok (mkNode T N (litValue l))).
Proof.
  intros Hl. rewrite parser_simple by now destruct l.
  do 3 f_equal. destruct l as [s|ds|b]; cbn [litToken litValue litOk] in *.
  - reflexivity.
  - destruct Hl as [Hne Hd].
    pose proof (@StringToNumber_decimal [] false ds [] []) as E.
    rewrite !app_nil_r in E. cbn [app List.length Z.of_nat Z.opp] in E.
    unfold literalValue. cbn [type value NumberOf].
    rewrite E; [reflexivity|now left|easy|easy|easy|now left].
  - now destruct b.
Qed.

(** X9.  The three stages on the statement of a keyword, a name and a
    literal of one token: [lexer] returns the statement as it is, also
    when the string literal holds separators, braces or brackets;
    [tokenize] returns the six tokens; [parser] returns the node of that
    type, name and value: the string as it stands, the number nearest to
    the digits, the truth value.  The keyword is not compared with the
    kind of the literal: a NUMBER may hold a string. *)
Theorem statement_pipeline (T N : str) (l : SimpleLit) :
  In T keywords -> identifierWord N -> litOk l ->
  lexer (statementText T N l) = [statementText T N l]
  /\ tokenize (statementText T N l) = Ok (statementTokens T N l)
  /\ parser (statementTokens T N l)
     = Some (Ok (mkNode (Some T) (Some N) (litValue l))).
Proof.
  intros HT HN Hl. split; [now apply statement_lexer|].
  split; [now apply statement_tokens|].
  apply (@statement_node (Some T) (Some N) l [punct EOF] Hl).
Qed.

Lemma brackets_typeAt (T N : option str) (n i : nat) (rest : list Token) :
  (i < n)%nat ->
  typeAt (declarationHead T N ++ repeat (punct L_BRACKET) n ++ rest) (3 + i)
  = Some L_BRACKET.
Proof.
  intros Hi. unfold typeAt, declarationHead. cbn [app Nat.add nth_error].
  rewrite nth_error_app1 by (rewrite repeat_length; lia).
  now rewrite nth_error_repeat.
Qed.

(** X7.  On a list of tokens with an EOF token, and so on every list that
    [tokenize] returns, [parser] returns a node or throws one of three
    errors: its own two, the expected token with the type that it found
    and the unexpected literal token, or the RangeError of the engine,
    when the literals stand deeper inside one another than the call stack
    holds calls.  The cursor never runs off the list.  The stack adds the
    RangeError and changes nothing else: every other outcome is that of
    the run without a limit, and a stack that holds more calls than the
    list has opening brackets and braces is never exhausted, while more
    opening brackets in a row than the stack holds calls exhaust it.  On a
    list without EOF the cursor may run off: the head of a declaration
    alone makes the reading of [type] of [undefined] throw. *)
Theorem parser_errors_on_tokens :
  (forall (stack : nat) (tokens : list Token),
      (exists j, typeAt tokens j = Some EOF) ->
      (exists node, CallStack.parser stack tokens = Some (Ok node))
      \/ (exists e, CallStack.parser stack tokens = Some (Throw e)
                    /\ (ownError e \/ e = RangeError)))
  /\ (forall (stack : nat) (d : str) (ts : list Token),
        tokenize d = Ok ts ->
        (exists node, CallStack.parser stack ts = Some (Ok node))
        \/ (exists e, CallStack.parser stack ts = Some (Throw e)
                      /\ (ownError e \/ e = RangeError)))
  /\ (forall (stack : nat) (tokens : list Token),
        CallStack.parser stack tokens = Some (Throw RangeError)
        \/ CallStack.parser stack tokens = parser tokens)
  /\ (forall (stack : nat) (tokens : list Token),
        (openers tokens < stack)%nat ->
        CallStack.parser stack tokens = parser tokens)
  /\ (forall (stack n : nat) (T N : option str) (rest : list Token),
        (stack < n)%nat ->
        CallStack.parser stack
          (declarationHead T N ++ repeat (punct L_BRACKET) n ++ rest)
        = Some (Throw RangeError))
  /\ (forall (T N : option str) (stack : nat),
        CallStack.parser (S stack) (declarationHead T N)
        = Some (Throw TypeErrorUndefined)).
Proof.
  assert (H1 : forall (stack : nat) (tokens : list Token),
             (exists j, typeAt tokens j = Some EOF) ->
             (exists node, CallStack.parser stack tokens = Some (Ok node))
             \/ (exists e, CallStack.parser stack tokens = Some (Throw e)
                           /\ (ownError e \/ e = RangeError))).
  { intros stack tokens He.
    destruct (parser_within stack tokens) as [E|E]; [right; eauto|].
    rewrite E. destruct (@parser_guarded tokens He) as [(node & ->)|(e & -> & Ho)];
      [left|right]; eauto. }
  split; [exact H1|]. split; [|split; [|split; [|split]]].
  - intros stack d ts H. apply H1.
    pose proof (@tokenize_from_spec _ d 0%nat [] (le_n _)) as S.
    fold (tokenize d) in S. rewrite H in S. destruct S as (body & -> & _).
    exists (List.length body). unfold typeAt. cbn [app].
    now rewrite nth_error_at.
  - exact parser_within.
  - exact parser_fits.
  - intros stack n T N rest Hn.
    set (tokens := declarationHead T N ++ repeat (punct L_BRACKET) n ++ rest).
    assert (Hlen : (3 + n <= List.length tokens)%nat).
    { subst tokens. rewrite !length_app, repeat_length. cbn. lia. }
    unfold CallStack.parser, CallStack.parseDeclaration.
    assert (E : CallStack.parseLiteral tokens (2 * List.length tokens + 2)
                                       stack 3
                = Some (Throw RangeError)).
    { apply stack_overflow; [lia| |].
      - intros i Hi. apply brackets_typeAt. lia.
      - destruct stack as [|s]; [now left|right]. apply brackets_typeAt. lia. }
    assert (E0 : eat tokens TYPE 0 = Some (Ok (mkToken TYPE T, 1%nat)))
      by reflexivity.
    assert (E1 : eat tokens IDENTIFIER 1
                 = Some (Ok (mkToken IDENTIFIER N, 2%nat))) by reflexivity.
    assert (E2 : eat tokens EQUALS 2 = Some (Ok (punct EQUALS, 3%nat)))
      by reflexivity.
    rewrite E0. cbn [bind]. rewrite E1. cbn [bind]. rewrite E2. cbn [bind].
    now rewrite E.
  - reflexivity.
Qed.

(** The theorem at a NUMBER declared with a string that holds a separator
    and a brace. *)
Lemma statement_pipeline_witness :
  lexer (dq "NUMBER PORT = `8;{0`;") = [dq "NUMBER PORT = `8;{0`;"]
  /\ tokenize (dq "NUMBER PORT = `8;{0`;")
     = Ok [mkToken TYPE (Some (s2l "NUMBER"));
           mkToken IDENTIFIER (Some (s2l "PORT")); punct EQUALS;
           stringToken (s2l "8;{0"); punct SEMICOLON; punct EOF]
  /\ parser [mkToken TYPE (Some (s2l "NUMBER"));
             mkToken IDENTIFIER (Some (s2l "PORT")); punct EQUALS;
             stringToken (s2l "8;{0"); punct SEMICOLON; punct EOF]
     = Some (Ok (mkNode (Some (s2l "NUMBER")) (Some (s2l "PORT"))
                        (JStr (s2l "8;{0")))).
Proof.
  apply (@statement_pipeline (s2l "NUMBER") (s2l "PORT")
           (LitString (s2l "8;{0"))).
  - now left.
  - split; [|split; [|split]].
    + exists (ch "P"), (s2l "ORT"). now repeat split.
    + vm_compute. intros H.
      repeat (destruct H as [H|H]; [discriminate H|]). exact H.
    + discriminate.
    + discriminate.
  - vm_compute. intros H.
    repeat (destruct H as [H|H]; [discriminate H|]). exact H.
Defined.

End PipelineFacts.

(** ** The environment file: lines, values and the object of [config] *)

Module IndexMore.
Import Index Generate Notions Terms JSFacts NumberFacts IndexFacts StoreFacts
  LexerMore.

(** *** The kinds of the values *)

(** What [typeImplication] returns is of the kind that the type names. *)
Lemma typeImplication_kind (T v : str) (j : JSValue) :
  typeImplication T v = Ok j ->
  kindOf j = Some T /\ (forall n, j = JNum n -> isNaN n = false)
  /\ tsType T <> None.
Proof.
  unfold typeImplication, typeImplication_body, tsType.
  destruct (str_eqb T "NUMBER") eqn:E1.
  { apply str_eqb_eq in E1. subst T.
    destruct (isNaN (StringToNumber v)) eqn:En; [discriminate|].
    intros [= <-]. repeat split; [|discriminate]. now intros n [= <-]. }
  destruct (str_eqb T "STRING") eqn:E2.
  { apply str_eqb_eq in E2. subst T. intros [= <-].
    repeat split; discriminate. }
  destruct (str_eqb T "BOOL") eqn:E3.
  { apply str_eqb_eq in E3. subst T.
    destruct (negb _); [discriminate|]. intros [= <-].
    repeat split; discriminate. }
  destruct (str_eqb T "ARRAY") eqn:E4.
  { apply str_eqb_eq in E4. subst T.
    destruct (JSON_parse v) as [r|]; [|discriminate].
    destruct r; cbn; try discriminate. intros [= <-].
    repeat split; discriminate. }
  destruct (str_eqb T "OBJ") eqn:E5.
  { apply str_eqb_eq in E5. subst T.
    destruct (JSON_parse v) as [r|]; [|discriminate].
    destruct r; cbn; try discriminate. intros [= <-].
    repeat split; discriminate. }
  discriminate.
Qed.

Lemma readDeclaration_kind (t : str) (d : ParsedEnvVar) :
  readDeclaration t = Ok d -> wellTyped d /\ tsType (vtype d) <> None.
Proof.
  unfold readDeclaration. destruct (findKey _) as [k|e]; [|discriminate].
  destruct (typeImplication _ _) as [j|e] eqn:E; [|discriminate].
  intros [= <-]. apply typeImplication_kind in E as (H1 & H2 & H3).
  unfold wellTyped. cbn. auto.
Qed.

(** X10.  Every variable that [parseEnvFile] returns has one of the five
    types, and its value is of the kind that the type names: a number
    that is no NaN under NUMBER, a string under STRING, a truth value
    under BOOL, an array under ARRAY, an object that is no array and not
    null under OBJ.  So the lookup of the TypeScript type in
    [generateTypes] always finds one. *)
Theorem parsed_types_sound (text : str) (log : list Log)
  (envVars : list ParsedEnvVar) :
  parseEnvFile (Some text) = (log, Ok envVars) ->
  Forall (fun v => wellTyped v /\ tsType (vtype v) <> None) envVars.
Proof.
  intros H. unfold parseEnvFile in H.
  eapply forEach_Forall in H; [exact H| |constructor].
  intros t d. apply readDeclaration_kind.
Qed.

(** *** BOOL *)

Lemma lowerUnit_letter (l c : char) :
  isLower l = true -> (lowerUnit c = l <-> c = l \/ c + 32 = l).
Proof.
  intros Hl. unfold lowerUnit.
  destruct (isUpper c) eqn:Hu.
  - revert Hl Hu. unfold isLower, isUpper.
    rewrite !andb_true_iff, !N.leb_le. lia.
  - destruct ((192 <=? c) && (c <=? 222) && negb (c =? 215)) eqn:Hx.
    + revert Hl Hx. unfold isLower.
      rewrite !andb_true_iff, !N.leb_le. lia.
    + revert Hl Hu. unfold isLower, isUpper.
      rewrite !andb_true_iff, andb_false_iff, !N.leb_le, !N.leb_gt. lia.
Qed.

Lemma toLowerCase_spelled (lower v : str) :
  forallb isLower lower = true ->
  (toLowerCase v = lower <-> spelled lower v).
Proof.
  unfold spelled, toLowerCase. revert v.
  induction lower as [|l lower IH]; intros v Hl.
  - split.
    + intros H. destruct v; [constructor|discriminate].
    + intros H. now inversion H.
  - cbn in Hl. apply andb_true_iff in Hl as [Hl Hls]. split.
    + destruct v as [|c v]; [discriminate|]. cbn. intros [= Hc Hv].
      constructor; [now apply lowerUnit_letter|now apply IH].
    + intros H. inversion H as [|? c ? v' Hc Hv]; subst. cbn. f_equal.
      * now apply lowerUnit_letter.
      * now apply IH.
Qed.

(** X11.  Under BOOL the value is read without regard to case and is not
    trimmed nor unquoted: the four letters of [true] in any mix of cases
    give [true], the five letters of [false] give [false], and every
    other text throws the invalid-boolean error. *)
Theorem bool_coercion (v : str) :
  (spelled "true" v -> typeImplication "BOOL" v = Ok (JBool true))
  /\ (spelled "false" v -> typeImplication "BOOL" v = Ok (JBool false))
  /\ (~ spelled "true" v -> ~ spelled "false" v ->
      typeImplication "BOOL" v = Throw (Rethrown (InvalidBoolean v))).
Proof.
  assert (E : typeImplication "BOOL" v
              = if str_eqb (toLowerCase v) "true" then Ok (JBool true)
                else if str_eqb (toLowerCase v) "false" then Ok (JBool false)
                else Throw (Rethrown (InvalidBoolean v))).
  { unfold typeImplication, typeImplication_body.
    change (str_eqb "BOOL" "NUMBER") with false.
    change (str_eqb "BOOL" "STRING") with false.
    change (str_eqb "BOOL" "BOOL") with true. cbv iota.
    destruct (str_eqb (toLowerCase v) "true") eqn:Et; [reflexivity|].
    now destruct (str_eqb (toLowerCase v) "false"). }
  rewrite E. clear E.
  pose proof (@toLowerCase_spelled "true" v eq_refl) as Ht.
  pose proof (@toLowerCase_spelled "false" v eq_refl) as Hf.
  split; [|split].
  - intros H. apply Ht in H. now rewrite H.
  - intros H. apply Hf in H. now rewrite H.
  - intros Hnt Hnf.
    destruct (str_eqb (toLowerCase v) "true") eqn:Et.
    { apply str_eqb_eq in Et. tauto. }
    destruct (str_eqb (toLowerCase v) "false") eqn:Ef.
    { apply str_eqb_eq in Ef. tauto. }
    reflexivity.
Qed.

(** *** The fields of a line *)

Lemma fieldChar_blank (s : str) :
  forallb fieldChar s = true -> forallb (isnt (ch " ")) s = true.
Proof.
  apply forallb_impl. intros c H. unfold fieldChar in H.
  now apply andb_true_iff in H as [H _].
Qed.

Lemma fieldChar_equals (s : str) :
  forallb fieldChar s = true -> forallb (isnt (ch "=")) s = true.
Proof.
  apply forallb_impl. intros c H. unfold fieldChar in H.
  now apply andb_true_iff in H as [_ H].
Qed.

Lemma validName_word (K : str) :
  validName K -> K <> [] /\ forallb isWord K = true.
Proof.
  intros (c & r & -> & Hc & Hr). split; [easy|]. cbn [forallb]. rewrite Hr.
  rewrite andb_true_r. unfold isWord.
  apply orb_true_iff in Hc as [Hc|Hc].
  - now rewrite Hc.
  - apply N.eqb_eq in Hc. subst c. reflexivity.
Qed.

Lemma word_fields (K : str) :
  forallb isWord K = true -> forallb fieldChar K = true.
Proof. apply forallb_impl, word_fieldChar. Qed.

(** The three readers on a line of a type, one blank, a key, the equals
    sign and a value. *)
Lemma declaration_split (T K v : str) :
  forallb fieldChar T = true -> validName K ->
  findVarType (declarationLine T K v) = T
  /\ findKey (split (ch " ") (declarationLine T K v)) = Ok K
  /\ findValue (declarationLine T K v) = trim v.
Proof.
  intros HT HK. destruct (validName_word HK) as [HKne HKw].
  pose proof (word_fields _ HKw) as HKf.
  unfold declarationLine. split; [|split].
  - unfold findVarType.
    now rewrite split_app_sep by now apply fieldChar_blank.
  - unfold findKey. rewrite split_app_sep by now apply fieldChar_blank.
    cbn [nth_error].
    pose proof (split_not_nil (ch " ") (K ++ ch "=" :: v)) as Hne.
    pose proof (hd_split (ch " ") (K ++ ch "=" :: v)) as Hhd.
    destruct (split (ch " ") (K ++ ch "=" :: v)) as [|part parts]; [easy|].
    cbn [nth_error hd] in *. rewrite Hhd, hd_split, span_fst_idem.
    fold fieldChar. rewrite span_stop by (assumption || reflexivity).
    cbn [fst]. rewrite trim_of_solid by now apply word_solid.
    apply naming_spec in HK. now rewrite HK.
  - unfold findValue.
    change (T ++ ch " " :: K ++ ch "=" :: v)
      with (T ++ (ch " " :: K) ++ ch "=" :: v).
    rewrite app_assoc, split_app_sep.
    + cbn [tl]. change (s2l "=") with [ch "="]. now rewrite join_split.
    + apply forallb_app_true. split; [now apply fieldChar_equals|].
      cbn. now apply fieldChar_equals.
Qed.

Lemma readDeclaration_fields (T K v : str) :
  forallb fieldChar T = true -> validName K ->
  readDeclaration (declarationLine T K v)
  = match typeImplication T (trim v) with
    | Ok j => Ok (mkVar K T j)
    | Throw e => Throw e
    end.
Proof.
  intros HT HK. unfold readDeclaration.
  destruct (@declaration_split T K v HT HK) as (-> & -> & ->). reflexivity.
Qed.

Lemma declarationLine_shape (T K v : str) :
  T <> [] -> forallb isWord T = true -> validName K ->
  forallb (fun c => negb (isLineTerminator c)) v = true ->
  Shape (declarationLine T K v).
Proof.
  intros HT HTw HK Hv. destruct (validName_word HK) as [HKne HKw].
  exists T, [ch " "], K, [], [], v. cbn [app]. now repeat split.
Qed.

(** The callback on a line that trims to a type, a blank, a key, the
    equals sign and a value. *)
Lemma forEachLine_declaration (envVars : list ParsedEnvVar) (n : nat)
  (line T K v : str) :
  trim line = declarationLine T K v ->
  T <> [] -> forallb isWord T = true -> validName K ->
  forallb (fun c => negb (isLineTerminator c)) v = true ->
  forEachLine envVars n line
  = match typeImplication T (trim v) with
    | Ok j => (fst (store (mkVar K T j) envVars),
               Ok (snd (store (mkVar K T j) envVars)))
    | Throw e => ([], Throw (ErrorParsingLine (n + 1) e))
    end.
Proof.
  intros Ht HT HTw HK Hv.
  pose proof (@declarationLine_shape T K v HT HTw HK Hv) as Hs.
  pose proof (@readDeclaration_fields T K v (word_fields _ HTw) HK) as Hr.
  rewrite <- Ht in Hs, Hr.
  destruct (typeImplication T (trim v)) as [j|e].
  - now apply forEachLine_store.
  - now apply forEachLine_throw.
Qed.

(** X12.  A line that trims to a type word, one blank, a valid name, the
    equals sign and a value is read as the variable of that key and type:
    its value is the coercion of all that follows the first equals sign,
    trimmed, further equals signs and hash signs included; it is stored
    when the coercion returns, and the parse throws with the number of
    the line and the cause when the coercion throws. *)
Theorem declaration_fields (envVars : list ParsedEnvVar) (n : nat)
  (line T K v : str) :
  trim line = declarationLine T K v ->
  T <> [] /\ forallb isWord T = true -> validName K ->
  forallb (fun c => negb (isLineTerminator c)) v = true ->
  (forall j, typeImplication T (trim v) = Ok j ->
             forEachLine envVars n line
             = (fst (store (mkVar K T j) envVars),
                Ok (snd (store (mkVar K T j) envVars))))
  /\ (forall e, typeImplication T (trim v) = Throw e ->
                forEachLine envVars n line
                = ([], Throw (ErrorParsingLine (n + 1) e)))
  /\ findValue (trim line) = trim v.
Proof.
  intros Ht [HT HTw] HK Hv.
  pose proof (@forEachLine_declaration envVars n line T K v Ht HT HTw HK Hv) as H.
  split; [|split].
  - intros j Hj. now rewrite Hj in H.
  - intros e He. now rewrite He in H.
  - rewrite Ht.
    now destruct (@declaration_split T K v (word_fields _ HTw) HK)
      as (_ & _ & ->).
Qed.

(** *** Files of one line *)

Lemma split_one (sep : char) (s : str) :
  forallb (isnt sep) s = true -> split sep s = [s].
Proof.
  induction s as [|c s IH]; cbn; [easy|]. intros H.
  apply andb_true_iff in H as [Hc Hs]. unfold isnt in Hc.
  apply negb_true_iff in Hc. now rewrite Hc, IH.
Qed.

Lemma one_line_file (line : str) :
  forallb (isnt LF) line = true ->
  parseEnvFile (Some line) = forEachLine [] 0 line.
Proof.
  intros H. unfold parseEnvFile. fold LF. rewrite split_one by assumption.
  cbn [forEach]. destruct (forEachLine [] 0 line) as [log [vars|e]]; [|easy].
  now rewrite app_nil_r.
Qed.

Lemma word_not_LF (s : str) :
  forallb isWord s = true -> forallb (isnt LF) s = true.
Proof.
  apply forallb_impl. intros c H. unfold isnt, LF. apply negb_true_iff.
  revert H. unit_solve.
Qed.

(** A line that ends behind the equals sign, white space apart. *)
Lemma empty_value_line (T K ws : str) :
  T <> [] -> forallb isWord T = true -> validName K ->
  forallb isSpace ws = true -> forallb (isnt LF) ws = true ->
  parseEnvFile (Some (declarationLine T K ws))
  = match typeImplication T [] with
    | Ok j => ([], Ok [mkVar K T j])
    | Throw e => ([], Throw (ErrorParsingLine 1 e))
    end.
Proof.
  intros HT HTw HK Hws Hlf. destruct (validName_word HK) as [HKne HKw].
  rewrite one_line_file.
  - assert (Ht : trim (declarationLine T K ws) = declarationLine T K []).
    { unfold declarationLine.
      assert (E : T ++ ch " " :: K ++ ch "=" :: ws
                  = [] ++ (T ++ ch " " :: K ++ [ch "="]) ++ ws).
      { cbn [app]. rewrite <- app_assoc. cbn [app].
        now rewrite <- app_assoc. }
      rewrite E. apply trim_around; [reflexivity|assumption|].
      apply solid_ends. split.
      - destruct T as [|c T]; [easy|]. exists c, (T ++ ch " " :: K ++ [ch "="]).
        split; [reflexivity|]. cbn in HTw.
        apply andb_true_iff in HTw as [Hc _]. now apply word_not_space.
      - exists (T ++ ch " " :: K), (ch "="). split; [|reflexivity].
        now rewrite <- app_assoc. }
    rewrite (@forEachLine_declaration [] 0 _ T K [] Ht HT HTw HK eq_refl).
    change (trim []) with (@nil char).
    now destruct (typeImplication T []).
  - unfold declarationLine. apply forallb_app_true.
    split; [now apply word_not_LF|]. cbn [forallb].
    apply andb_true_iff. split; [reflexivity|].
    apply forallb_app_true. split; [now apply word_not_LF|].
    cbn [forallb]. now rewrite Hlf.
Qed.

(** X13.  A declaration with nothing but white space behind the equals
    sign: under NUMBER the value is zero, under STRING the empty string;
    under BOOL, ARRAY and OBJ the parse throws, with the invalid-boolean
    error and with the syntax error of [JSON.parse]. *)
Theorem empty_values (K ws : str) :
  validName K -> forallb isSpace ws = true -> forallb (isnt LF) ws = true ->
  parseEnvFile (Some (declarationLine "NUMBER" K ws))
  = ([], Ok [mkVar K "NUMBER" (JNum (S754_zero false))])
  /\ parseEnvFile (Some (declarationLine "STRING" K ws))
     = ([], Ok [mkVar K "STRING" (JStr [])])
  /\ parseEnvFile (Some (declarationLine "BOOL" K ws))
     = ([], Throw (ErrorParsingLine 1 (Rethrown (InvalidBoolean []))))
  /\ parseEnvFile (Some (declarationLine "ARRAY" K ws))
     = ([], Throw (ErrorParsingLine 1 (Rethrown JSONSyntaxError)))
  /\ parseEnvFile (Some (declarationLine "OBJ" K ws))
     = ([], Throw (ErrorParsingLine 1 (Rethrown JSONSyntaxError))).
Proof.
  intros HK Hws Hlf.
  repeat split; rewrite empty_value_line by (assumption || easy);
    reflexivity.
Qed.

(** *** Two blanks behind the type *)

Lemma double_blank_key (T rest : str) :
  forallb (isnt (ch " ")) T = true ->
  readDeclaration (T ++ ch " " :: ch " " :: rest) = Throw (InvalidName []).
Proof.
  intros HT. unfold readDeclaration, findKey.
  rewrite split_app_sep by assumption. cbn [nth_error split].
  change (ch " " =? ch " ") with true. cbv iota. cbn [nth_error hd split].
  reflexivity.
Qed.

(** X14.  The line pattern allows any white space between the type and
    the name, but the key is looked for in the second field between single
    blanks: on a line of the shape with two blanks behind the type that
    field is empty, the callback throws the invalid-name error for the
    empty name, and the whole file is refused. *)
Theorem double_blank_aborts (T rest : str) :
  forallb (isnt (ch " ")) T = true ->
  (forall (envVars : list ParsedEnvVar) (n : nat) (line : str),
      trim line = T ++ ch " " :: ch " " :: rest ->
      test regex (trim line) = true ->
      forEachLine envVars n line
      = ([], Throw (ErrorParsingLine (n + 1) (InvalidName []))))
  /\ (forall (text line : str),
        In line (split LF text) ->
        trim line = T ++ ch " " :: ch " " :: rest ->
        test regex (trim line) = true ->
        exists log n e,
          parseEnvFile (Some text) = (log, Throw (ErrorParsingLine n e))).
Proof.
  intros HT.
  assert (Hline : forall envVars n line,
             trim line = T ++ ch " " :: ch " " :: rest ->
             test regex (trim line) = true ->
             forEachLine envVars n line
             = ([], Throw (ErrorParsingLine (n + 1) (InvalidName [])))).
  { intros envVars n line Ht Hr. apply forEachLine_throw.
    - now apply regex_shape.
    - rewrite Ht. now apply double_blank_key. }
  split; [exact Hline|].
  intros text line Hin Ht Hr. unfold parseEnvFile. fold LF.
  apply forEach_throws with (line := line); [assumption|].
  intros envVars n. exists (InvalidName []). now apply Hline.
Qed.

(** *** A type that is none of the five *)

Lemma not_keyword_unknown (T v : str) :
  ~ In T Lexer.keywords ->
  typeImplication T v = Throw (Rethrown (InvalidType T)).
Proof.
  intros H. apply typeImplication_unknown; apply str_eqb_neq; intros ->;
    apply H; cbn; tauto.
Qed.

(** X15.  The names of the types are case sensitive and the line pattern
    does not know them: a line of a word that is none of the five names,
    a blank, a valid name, the equals sign and a value is not skipped; the
    callback throws the invalid-type error, and the whole file is
    refused. *)
Theorem unknown_type_aborts (T K v : str) :
  T <> [] /\ forallb isWord T = true -> ~ In T Lexer.keywords ->
  validName K -> forallb (fun c => negb (isLineTerminator c)) v = true ->
  (forall (envVars : list ParsedEnvVar) (n : nat) (line : str),
      trim line = declarationLine T K v ->
      forEachLine envVars n line
      = ([], Throw (ErrorParsingLine (n + 1) (Rethrown (InvalidType T)))))
  /\ (forall text line : str,
        In line (split LF text) -> trim line = declarationLine T K v ->
        exists log n e,
          parseEnvFile (Some text) = (log, Throw (ErrorParsingLine n e))).
Proof.
  intros [HT HTw] Hk HK Hv.
  assert (Hline : forall envVars n line,
             trim line = declarationLine T K v ->
             forEachLine envVars n line
             = ([], Throw (ErrorParsingLine (n + 1) (Rethrown (InvalidType T))))).
  { intros envVars n line Ht.
    rewrite (@forEachLine_declaration envVars n line T K v Ht HT HTw HK Hv).
    now rewrite not_keyword_unknown. }
  split; [exact Hline|].
  intros text line Hin Ht. unfold parseEnvFile. fold LF.
  apply forEach_throws with (line := line); [assumption|].
  intros envVars n. eexists. now apply Hline.
Qed.

(** *** Carriage returns *)

Lemma split_crlf (text : str) : split LF (crlf text) = addCR (split LF text).
Proof.
  induction text as [|c text IH]; [reflexivity|].
  pose proof (split_not_nil LF text) as Hne.
  unfold crlf in *. cbn [flat_map].
  destruct (N.eqb_spec c LF) as [->|Hc].
  - cbn [app split]. change (13 =? LF) with false. cbv iota.
    change (LF =? LF) with true. cbv iota. rewrite IH.
    cbn [addCR]. now destruct (split LF text).
  - cbn [app split]. apply N.eqb_neq in Hc. rewrite Hc. rewrite IH.
    destruct (split LF text) as [|h t]; [easy|]. cbn [addCR].
    now destruct t.
Qed.

Lemma trim_CR (l : str) : trim (l ++ [13]) = trim l.
Proof.
  destruct (trim_split l) as (ws1 & ws2 & E & H1 & H2 & [Hs|Hs]).
  - rewrite Hs in *. cbn [app] in E.
    rewrite E at 1. rewrite trim_spaces; [easy|].
    rewrite <- app_assoc. apply forallb_app_true. split; [easy|].
    apply forallb_app_true. now split.
  - rewrite E at 1. rewrite <- !app_assoc. apply trim_around; [easy| |easy].
    apply forallb_app_true. now split.
Qed.

Lemma forEachLine_CR (envVars : list ParsedEnvVar) (n : nat) (l : str) :
  snd (forEachLine envVars n (l ++ [13])) = snd (forEachLine envVars n l).
Proof.
  unfold forEachLine. rewrite trim_CR.
  destruct (_ || _); [reflexivity|].
  destruct (negb _); [reflexivity|].
  destruct (readDeclaration (trim l)); [|reflexivity].
  now destruct (store _ _).
Qed.

Lemma forEach_snd (line : str) (lines : list str) (n : nat)
  (envVars : list ParsedEnvVar) :
  snd (forEach (line :: lines) n envVars)
  = match snd (forEachLine envVars n line) with
    | Ok envVars' => snd (forEach lines (S n) envVars')
    | Throw e => Throw e
    end.
Proof.
  cbn [forEach]. destruct (forEachLine envVars n line) as [log [vars|e]];
    [|reflexivity].
  cbn [snd]. now destruct (forEach lines (S n) vars).
Qed.

Lemma forEach_addCR (lines : list str) :
  forall (n : nat) (envVars : list ParsedEnvVar),
    snd (forEach (addCR lines) n envVars) = snd (forEach lines n envVars).
Proof.
  induction lines as [|l lines IH]; intros n envVars; [reflexivity|].
  destruct lines as [|l' lines]; [reflexivity|].
  change (addCR (l :: l' :: lines)) with ((l ++ [13]) :: addCR (l' :: lines)).
  rewrite !forEach_snd, forEachLine_CR.
  destruct (snd (forEachLine envVars n l)); [apply IH|reflexivity].
Qed.

(** X16.  Line ends of a carriage return and a line feed are read as line
    feeds: the text with a carriage return before every line feed gives
    the same variables, or the same exception, as the text itself. *)
Theorem crlf_line_endings (text : str) :
  snd (parseEnvFile (Some (crlf text))) = snd (parseEnvFile (Some text)).
Proof.
  unfold parseEnvFile. fold LF. rewrite split_crlf. apply forEach_addCR.
Qed.

(** *** The object of [config] *)

Lemma setProp_fresh {V : Type} (k : str) (v : V) (props : list (str * V)) :
  ~ In k (map fst props) -> setProp k v props = props ++ [(k, v)].
Proof.
  induction props as [|[k' w] props IH]; cbn; [easy|]. intros H.
  destruct (str_eqb k' k) eqn:E.
  - apply str_eqb_eq in E. tauto.
  - rewrite IH by tauto. reflexivity.
Qed.

(** Writing the variables of distinct keys into an object, one after the
    other: each becomes a property, but the one called [__proto__]. *)
Lemma assign_all {V : Type} (f : ParsedEnvVar -> V)
  (envVars : list ParsedEnvVar) :
  forall acc : list (str * V),
    NoDup (map key envVars) ->
    (forall v, In v envVars -> ~ In (key v) (map fst acc)) ->
    fold_left (fun acc v => Parser.assignProp (key v) (f v) acc) envVars acc
    = acc ++ map (fun v => (key v, f v)) (filter notProto envVars).
Proof.
  induction envVars as [|v envVars IH]; intros acc Hnd Hacc.
  - cbn. now rewrite app_nil_r.
  - cbn [fold_left map filter]. apply NoDup_cons_iff in Hnd as [Hv Hnd].
    unfold Parser.assignProp at 2. unfold notProto at 1.
    destruct (str_eqb (key v) "__proto__"); cbn [negb].
    + apply IH; [easy|]. intros x Hx. apply Hacc. now right.
    + rewrite setProp_fresh by (apply Hacc; now left).
      rewrite IH; [now rewrite <- app_assoc|easy|].
      intros x Hx. rewrite map_app, in_app_iff. cbn.
      intros [H|[H|[]]].
      * apply (Hacc x); [now right|easy].
      * apply Hv. rewrite H. now apply in_map.
Qed.

Lemma parse_NoDup (text : str) (log : list Log) (envVars : list ParsedEnvVar) :
  parseEnvFile (Some text) = (log, Ok envVars) -> NoDup (map key envVars).
Proof.
  intros H. unfold parseEnvFile in H. fold LF in H.
  apply forEach_ok in H as [-> _]. rewrite storeAll_keys.
  apply firstSeen_NoDup. constructor.
Qed.

Lemma config_ok (text : str) (log : list Log) (envVars : list ParsedEnvVar)
  (strict : bool) :
  parseEnvFile (Some text) = (log, Ok envVars) ->
  config (Some text) strict = (log, Ok (ownProperties envVars)).
Proof.
  intros H. unfold config. rewrite H. do 2 f_equal.
  apply (assign_all val envVars []); [now apply parse_NoDup in H|easy].
Qed.

(** X17.  When [parseEnvFile] returns, [config] returns in both modes the
    object whose own properties are the variables in their order, each
    key with its value, but a variable called [__proto__], which becomes
    no property.  When [parseEnvFile] throws, [config] throws the same
    error in strict mode; otherwise it logs the error behind what was
    logged before and returns the empty object, also for a file that is
    not there. *)
Theorem config_object :
  (forall (text : str) (log : list Log) (envVars : list ParsedEnvVar)
          (strict : bool),
      parseEnvFile (Some text) = (log, Ok envVars) ->
      config (Some text) strict = (log, Ok (ownProperties envVars)))
  /\ (forall (file : option str) (log : list Log) (e : Error),
        parseEnvFile file = (log, Throw e) ->
        config file true = (log, Throw e)
        /\ config file false = (log ++ [ErrorReadingFile e], Ok []))
  /\ config None false = ([ErrorReadingFile FileNotFound], Ok []).
Proof.
  split; [exact config_ok|]. split; [|reflexivity].
  intros file log e H. unfold config. now rewrite H.
Qed.

(** *** [validateEnv] *)

Lemma hasProperty_mapValues {V W : Type} (f : V -> W) (o : Obj V) (k : str) :
  hasProperty k (mapValues f o) = hasProperty k o.
Proof.
  unfold hasProperty, mapValues, hasOwn. cbn [own inherited]. f_equal.
  induction (own o) as [|[k' v] l IH]; cbn; [easy|]. now rewrite IH.
Qed.

(** The order of the listing looks at the names only. *)
Lemma insertIndex_map {V W : Type} (g : str * V -> str * W) (n : N)
  (kv : str * V) (l : list (N * (str * V))) :
  insertIndex n (g kv) (map (fun x => (fst x, g (snd x))) l)
  = map (fun x => (fst x, g (snd x))) (insertIndex n kv l).
Proof.
  induction l as [|[m kv'] l IH]; cbn [insertIndex map fst snd]; [easy|].
  destruct (n <? m); cbn [map fst snd]; [easy|]. now rewrite IH.
Qed.

Lemma ownPropertyOrder_map {V W : Type} (f : V -> W) (l : list (str * V)) :
  ownPropertyOrder (map (fun kv => (fst kv, f (snd kv))) l)
  = map (fun kv => (fst kv, f (snd kv))) (ownPropertyOrder l).
Proof.
  set (g := fun kv : str * V => (fst kv, f (snd kv))).
  unfold ownPropertyOrder. rewrite map_app. f_equal.
  - assert (H : forall acc,
               fold_left (fun acc kv =>
                            match arrayIndex (fst kv) with
                            | Some n => insertIndex n kv acc
                            | None => acc
                            end) (map g l)
                         (map (fun x => (fst x, g (snd x))) acc)
               = map (fun x => (fst x, g (snd x)))
                     (fold_left (fun acc kv =>
                                   match arrayIndex (fst kv) with
                                   | Some n => insertIndex n kv acc
                                   | None => acc
                                   end) l acc)).
    { induction l as [|kv l IH]; intros acc; cbn [map fold_left]; [easy|].
      change (fst (g kv)) with (fst kv).
      destruct (arrayIndex (fst kv)) as [n|]; [|apply IH].
      rewrite insertIndex_map. apply IH. }
    specialize (H []). cbn [map] in H. rewrite H, !map_map. reflexivity.
  - induction l as [|kv l IH]; cbn [map filter]; [easy|].
    change (fst (g kv)) with (fst kv).
    destruct (negb (isArrayIndex (fst kv))); cbn [map]; now rewrite IH.
Qed.

Lemma insertIndex_In {V : Type} (n : N) (kv : str * V)
  (l : list (N * (str * V))) (x : N * (str * V)) :
  In x (insertIndex n kv l) <-> x = (n, kv) \/ In x l.
Proof.
  induction l as [|[m kv'] l IH]; cbn [insertIndex].
  - cbn. intuition congruence.
  - destruct (n <? m); cbn [In]; [intuition congruence|].
    rewrite IH. intuition congruence.
Qed.

(** The listing holds the own properties, each of them. *)
Lemma ownPropertyOrder_In {V : Type} (l : list (str * V)) (kv : str * V) :
  In kv (ownPropertyOrder l) <-> In kv l.
Proof.
  unfold ownPropertyOrder. rewrite in_app_iff, filter_In, in_map_iff.
  assert (H : forall acc x,
             In x (fold_left (fun acc kv =>
                                match arrayIndex (fst kv) with
                                | Some n => insertIndex n kv acc
                                | None => acc
                                end) l acc)
             <-> In x acc
                 \/ (In (snd x) l /\ arrayIndex (fst (snd x)) = Some (fst x))).
  { induction l as [|a l IH]; intros acc x; cbn [fold_left In].
    - intuition.
    - rewrite IH. destruct (arrayIndex (fst a)) as [n|] eqn:E.
      + rewrite insertIndex_In. split.
        * intros [[->|H]|[H1 H2]]; cbn [fst snd]; auto.
        * intros [H|[[->|H1] H2]]; auto.
          left. left. destruct x as [m kv']. cbn [fst snd] in *. congruence.
      + split.
        * intros [H|[H1 H2]]; auto.
        * intros [H|[[->|H1] H2]]; auto. congruence. }
  split.
  - intros [(x & <- & Hx)|[Hin _]]; [|exact Hin].
    apply H in Hx as [[]|[Hx _]]. exact Hx.
  - intros Hin. unfold isArrayIndex.
    destruct (arrayIndex (fst kv)) as [n|] eqn:E; [left|right; auto].
    exists (n, kv). split; [easy|]. apply H. right. auto.
Qed.

Lemma keys_In {V : Type} (o : Obj V) (k : str) :
  In k (keys o) <-> In k (map fst (own o)).
Proof.
  unfold keys. rewrite !in_map_iff. split; intros (kv & E & H); exists kv;
    (split; [exact E|]); now apply ownPropertyOrder_In.
Qed.

(** Names none of which is an array index are listed in creation order. *)
Lemma ownPropertyOrder_names {V : Type} (l : list (str * V)) :
  (forall kv, In kv l -> arrayIndex (fst kv) = None) ->
  ownPropertyOrder l = l.
Proof.
  intros H. unfold ownPropertyOrder.
  assert (E1 : forall acc,
             fold_left (fun acc (kv : str * V) =>
                          match arrayIndex (fst kv) with
                          | Some n => insertIndex n kv acc
                          | None => acc
                          end) l acc = acc).
  { induction l as [|a l IH]; intros acc; cbn [fold_left]; [easy|].
    rewrite (H a) by now left. apply IH. intros kv Hkv. apply H. now right. }
  rewrite E1. clear E1. cbn [map app].
  induction l as [|a l IH]; cbn [filter]; [easy|].
  unfold isArrayIndex at 1. rewrite (H a) by now left. cbn [negb]. f_equal.
  apply IH. intros kv Hkv. apply H. now right.
Qed.

Lemma keys_mapValues {V W : Type} (f : V -> W) (o : Obj V) :
  keys (mapValues f o) = keys o.
Proof.
  unfold keys, mapValues. cbn [own].
  now rewrite ownPropertyOrder_map, map_map.
Qed.

(** X18.  [validateEnv] looks at names only: whatever replaces the values
    of the environment and the types of the schema, the log and the
    answer are the same.  An environment whose values are not of the
    types of the schema is accepted like one whose values are. *)
Theorem validateEnv_ignores_values {V V' W W' : Type} (f : V -> V')
  (g : W -> W') (env : Obj V) (schema : Obj W) :
  validateEnv (mapValues f env) (mapValues g schema) = validateEnv env schema.
Proof.
  unfold validateEnv. rewrite !keys_mapValues.
  assert (E1 : forall l, filter (fun k => negb (hasProperty k (mapValues f env))) l
                         = filter (fun k => negb (hasProperty k env)) l).
  { intros l. apply filter_ext. intros k. now rewrite hasProperty_mapValues. }
  assert (E2 : forall l, filter (fun k => negb (hasProperty k (mapValues g schema))) l
                         = filter (fun k => negb (hasProperty k schema)) l).
  { intros l. apply filter_ext. intros k. now rewrite hasProperty_mapValues. }
  now rewrite E1, E2.
Qed.

Lemma filter_nil {A : Type} (p : A -> bool) (l : list A) :
  (forall x, In x l -> p x = false) -> filter p l = [].
Proof.
  induction l as [|a l IH]; cbn; [easy|]. intros H.
  rewrite (H a) by now left. apply IH. intros x Hx. apply H. now right.
Qed.

Lemma hasOwn_In {V : Type} (k : str) (props : list (str * V)) :
  In k (map fst props) -> hasOwn k props = true.
Proof.
  intros H. apply in_map_iff in H as ((k' & v) & E & Hin). cbn in E. subst k'.
  unfold hasOwn. apply existsb_exists. exists (k, v).
  split; [easy|apply str_eqb_refl].
Qed.

Lemma schemaOf_keys (envVars : list ParsedEnvVar) :
  NoDup (map key envVars) ->
  map fst (schemaOf envVars) = map fst (ownProperties envVars).
Proof.
  intros Hnd. unfold schemaOf, ownProperties.
  rewrite (assign_all vtype envVars []) by easy.
  cbn [app]. now rewrite !map_map.
Qed.

(** X19.  The schema that [generateTypes] makes of a file accepts the
    object that [config] makes of the same file: [validateEnv] returns
    [true] and logs nothing, neither a missing nor an extra name,
    whatever the object inherits. *)
Theorem schema_validates_config (text : str) (log : list Log)
  (envVars : list ParsedEnvVar) (strict : bool) :
  parseEnvFile (Some text) = (log, Ok envVars) ->
  exists parsedEnv,
    config (Some text) strict = (log, Ok parsedEnv)
    /\ forall inh : str -> bool,
        validateEnv (mkObj parsedEnv inh) (literal (schemaOf envVars))
        = ([], true).
Proof.
  intros H. exists (ownProperties envVars). split; [now apply config_ok|].
  intros inh. pose proof (@schemaOf_keys envVars (@parse_NoDup text log envVars H)) as Hk.
  unfold validateEnv.
  rewrite filter_nil.
  - cbn [List.length Nat.ltb Nat.leb Nat.eqb]. rewrite filter_nil; [easy|].
    intros k Hin. apply keys_In in Hin. cbn [own] in Hin.
    apply negb_false_iff. unfold hasProperty, literal. cbn [own].
    rewrite hasOwn_In; [easy|]. now rewrite Hk.
  - intros k Hin. apply keys_In in Hin. unfold literal in Hin.
    cbn [own] in Hin.
    apply negb_false_iff. unfold hasProperty. cbn [own].
    rewrite hasOwn_In; [easy|]. now rewrite <- Hk.
Qed.

(** *** [generateTypes] *)

Lemma calls_console (log : list Log) (effects : list Effect) :
  calls (map Console log ++ effects) = calls effects
  /\ existsb isReport (map Console log ++ effects) = existsb isReport effects.
Proof.
  induction log as [|l log [IH1 IH2]]; cbn; auto.
Qed.

Lemma calls_report (outputPath name : str) (comments : bool)
  (envVars : list ParsedEnvVar) :
  calls (report outputPath name comments envVars) = [].
Proof.
  unfold report, calls. rewrite filter_app. cbn [filter isCall app].
  destruct comments; [|reflexivity]. cbn [filter isCall].
  induction envVars as [|v l IH]; cbn; auto.
Qed.

(** X20.  [generateTypes] calls [fs.writeFileSync] once, with the output
    path, exactly when [parseEnvFile] returns at least one variable and
    the directory of the output path is there or has been made; it calls
    [fs.mkdirSync] on that directory, before the write, exactly when
    [parseEnvFile] returns at least one variable and the directory is not
    there.  Whatever [parseEnvFile] or one of the two calls throws is
    reported as the last thing done and thrown again, and no message of
    success is printed; a directory that cannot be made leaves the file
    unwritten.  When no variable is found, the last thing done is the
    warning and nothing is written or made.  When the write returns, the
    message of success follows it directly. *)
Theorem generateTypes_writes (w : World)
  (envPathArg outputPathArg : option str) (options : option Options) :
  let run := generateTypes w envPathArg outputPathArg options in
  let outputPath := orDefault (s2l "./src/types/env-types.ts") outputPathArg in
  let outputDir := dirname w outputPath in
  match snd (parseEnvFile (readFile w (orDefault (s2l ".env") envPathArg))) with
  | Throw e => calls (fst run) = [] /\ failedWith run e
  | Ok [] =>
      calls (fst run) = [] /\ snd run = Ok tt
      /\ exists effects, fst run = effects ++ [WarnNoVariables]
  | Ok (v :: vars) =>
      match (if existsSync w outputDir then None
             else mkdirSync w outputDir) with
      | Some e => calls (fst run) = [Mkdir outputDir] /\ failedWith run e
      | None =>
          exists text,
            calls (fst run)
            = (if existsSync w outputDir then [] else [Mkdir outputDir])
              ++ [WriteFile outputPath text]
            /\ match writeFileSync w outputPath text with
               | Some e => failedWith run e
               | None =>
                   snd run = Ok tt
                   /\ exists before after,
                       fst run
                       = before ++ WriteFile outputPath text
                                :: LogGenerated (S (List.length vars)) :: after
               end
      end
  end.
Proof.
  cbv zeta. unfold generateTypes, failedWith.
  destruct (parseEnvFile (readFile _ _)) as [log [[|v vars]|e]]; cbn [fst snd].
  - destruct (calls_console log [WarnNoVariables]) as [-> _].
    repeat split; eauto.
  - set (outputPath := orDefault (s2l "./src/types/env-types.ts") outputPathArg).
    set (text := content _ _ _ _ _ _).
    set (rep := report _ _ _ _).
    assert (Hrep : calls rep = []) by apply calls_report.
    destruct (existsSync w (dirname w outputPath)).
    + exists text. destruct (writeFileSync w outputPath text) as [e|];
        cbn [fst snd];
        match goal with
        | |- context [map Console log ++ ?effects] =>
            destruct (calls_console log effects) as [E1 E2];
            rewrite ?E1, ?E2; clear E1 E2
        end.
      * repeat split; try reflexivity.
        exists (map Console log ++ [WriteFile outputPath text]).
        now rewrite <- app_assoc.
      * cbn [calls filter isCall] in *. fold (calls rep). rewrite Hrep.
        repeat split. exists (map Console log), (tl rep). reflexivity.
    + destruct (mkdirSync w (dirname w outputPath)) as [e|].
      * cbn [fst snd].
        match goal with
        | |- context [map Console log ++ ?effects] =>
            destruct (calls_console log effects) as [E1 E2];
            rewrite ?E1, ?E2; clear E1 E2
        end.
        repeat split; try reflexivity.
        exists (map Console log ++ [Mkdir (dirname w outputPath)]).
        now rewrite <- app_assoc.
      * exists text. destruct (writeFileSync w outputPath text) as [e|];
          cbn [fst snd];
          match goal with
          | |- context [map Console log ++ ?effects] =>
              destruct (calls_console log effects) as [E1 E2];
              rewrite ?E1, ?E2; clear E1 E2
          end.
        -- repeat split; try reflexivity.
           exists (map Console log
                   ++ [Mkdir (dirname w outputPath); WriteFile outputPath text]).
           now rewrite <- app_assoc.
        -- cbn [calls filter isCall] in *. fold (calls rep). rewrite Hrep.
           repeat split.
           exists (map Console log ++ [Mkdir (dirname w outputPath)]), (tl rep).
           now rewrite <- app_assoc.
  - destruct (calls_console log [ErrorGeneratingTypes e]) as [-> ->].
    repeat split; eauto.
Qed.

(** *** The theorems at concrete files *)

(** A file of a number, a truth value and an array. *)
Lemma parsed_types_sound_witness :
  Forall (fun v => wellTyped v /\ tsType (vtype v) <> None)
         [mkVar (s2l "PORT") (s2l "NUMBER") (JNum (StringToNumber "8080"));
          mkVar (s2l "DEBUG") (s2l "BOOL") (JBool true);
          mkVar (s2l "IDS") (s2l "ARRAY")
                (JArr [JNum (StringToNumber "1"); JNull])].
Proof.
  apply (@parsed_types_sound
           (s2l "NUMBER PORT=8080" ++ LF :: s2l "BOOL DEBUG=True"
            ++ LF :: s2l "ARRAY IDS=[1, null]") []).
  reflexivity.
Defined.

(** A line whose value holds a hash sign and an equals sign. *)
Lemma declaration_fields_witness :
  forEachLine [] 0 (s2l "  STRING A=x # note = y ")
  = ([], Ok [mkVar (s2l "A") (s2l "STRING") (JStr (s2l "x # note = y"))])
  /\ findValue (trim (s2l "  STRING A=x # note = y ")) = s2l "x # note = y".
Proof.
  assert (Ht : trim (s2l "  STRING A=x # note = y ")
               = declarationLine (s2l "STRING") (s2l "A") (s2l "x # note = y"))
    by (vm_compute; reflexivity).
  assert (HT : s2l "STRING" <> [] /\ forallb isWord (s2l "STRING") = true)
    by (split; [discriminate|vm_compute; reflexivity]).
  assert (HK : validName (s2l "A")).
  { exists (ch "A"), []. repeat split; vm_compute; reflexivity. }
  assert (Hv : forallb (fun c => negb (isLineTerminator c)) (s2l "x # note = y")
               = true) by (vm_compute; reflexivity).
  assert (Hj : typeImplication (s2l "STRING") (trim (s2l "x # note = y"))
               = Ok (JStr (s2l "x # note = y"))) by (vm_compute; reflexivity).
  destruct (@declaration_fields [] 0 (s2l "  STRING A=x # note = y ")
              (s2l "STRING") (s2l "A") (s2l "x # note = y") Ht HT HK Hv)
    as (H1 & _ & H3).
  split.
  - rewrite (H1 _ Hj). vm_compute. reflexivity.
  - rewrite H3. vm_compute. reflexivity.
Defined.

(** The key [PORT] with a blank and a tabulator behind the equals sign. *)
Lemma empty_values_witness :
  parseEnvFile (Some (s2l "NUMBER PORT= " ++ [9]))
  = ([], Ok [mkVar (s2l "PORT") (s2l "NUMBER") (JNum (S754_zero false))])
  /\ parseEnvFile (Some (s2l "BOOL PORT= " ++ [9]))
     = ([], Throw (ErrorParsingLine 1 (Rethrown (InvalidBoolean [])))).
Proof.
  destruct (@empty_values (s2l "PORT") [ch " "; 9]
              (ex_intro _ (ch "P") (ex_intro _ (s2l "ORT") (conj eq_refl
                 (conj eq_refl eq_refl))))
              eq_refl eq_refl) as (H1 & _ & H3 & _).
  split; [exact H1|exact H3].
Defined.

(** The line [STRING  NAME=x], with two blanks, as the fifth line and in a
    file of two lines. *)
Lemma double_blank_aborts_witness :
  forEachLine [] 4 (s2l "STRING  NAME=x")
  = ([], Throw (ErrorParsingLine 5 (InvalidName [])))
  /\ exists log n e,
      parseEnvFile (Some (s2l "NUMBER A=1" ++ LF :: s2l "STRING  NAME=x"))
      = (log, Throw (ErrorParsingLine n e)).
Proof.
  destruct (@double_blank_aborts (s2l "STRING") (s2l "NAME=x") eq_refl)
    as [H1 H2].
  split.
  - exact (H1 [] 4%nat (s2l "STRING  NAME=x") eq_refl eq_refl).
  - apply (H2 _ (s2l "STRING  NAME=x")).
    + right. now left.
    + reflexivity.
    + reflexivity.
Defined.

(** The line [string NAME=x], the type in small letters. *)
Lemma unknown_type_aborts_witness :
  forEachLine [] 0 (s2l "string NAME=x")
  = ([], Throw (ErrorParsingLine 1 (Rethrown (InvalidType (s2l "string"))))).
Proof.
  assert (HT : s2l "string" <> [] /\ forallb isWord (s2l "string") = true)
    by (split; [discriminate|vm_compute; reflexivity]).
  assert (Hk : ~ In (s2l "string") Lexer.keywords).
  { vm_compute. intros H.
    repeat (destruct H as [H|H]; [discriminate H|]). exact H. }
  assert (HK : validName (s2l "NAME")).
  { exists (ch "N"), (s2l "AME"). repeat split; vm_compute; reflexivity. }
  assert (Hv : forallb (fun c => negb (isLineTerminator c)) (s2l "x") = true)
    by (vm_compute; reflexivity).
  assert (Ht : trim (s2l "string NAME=x")
               = declarationLine (s2l "string") (s2l "NAME") (s2l "x"))
    by (vm_compute; reflexivity).
  destruct (@unknown_type_aborts (s2l "string") (s2l "NAME") (s2l "x")
              HT Hk HK Hv) as [H1 _].
  exact (H1 [] 0%nat (s2l "string NAME=x") Ht).
Defined.

(** A file of three variables, one of them called [__proto__]. *)
Lemma schema_validates_config_witness :
  exists parsedEnv,
    config (Some (s2l "STRING A=1" ++ LF :: s2l "STRING __proto__=x"
                  ++ LF :: s2l "BOOL B=true")) true
    = ([], Ok parsedEnv)
    /\ forall inh : str -> bool,
        validateEnv (mkObj parsedEnv inh)
                    (literal [(s2l "A", s2l "STRING"); (s2l "B", s2l "BOOL")])
        = ([], true).
Proof.
  apply (@schema_validates_config
           (s2l "STRING A=1" ++ LF :: s2l "STRING __proto__=x"
            ++ LF :: s2l "BOOL B=true") []
           [mkVar (s2l "A") (s2l "STRING") (JStr (s2l "1"));
            mkVar (s2l "__proto__") (s2l "STRING") (JStr (s2l "x"));
            mkVar (s2l "B") (s2l "BOOL") (JBool true)] true).
  reflexivity.
Defined.

End IndexMore.

(** ** The generated file: its JSON texts *)

Module GenerateFacts.
Import Index Generate Notions Terms JSFacts IndexFacts IndexMore.

(** *** The texts of [JSON.stringify] read by [JSON.parse] *)

Lemma word_range (c : char) : isWord c = true -> 48 <= c <= 122 /\ c <> 92.
Proof. intros H. split; revert H; unit_solve. Qed.

Lemma quoteUnits_word (s : str) :
  forallb isWord s = true -> quoteUnits s = s.
Proof.
  induction s as [|c s IH]; [easy|]. cbn [forallb quoteUnits].
  intros H. apply andb_true_iff in H as [Hc Hs].
  apply word_range in Hc as [Hc Hb]. rewrite IH by assumption.
  unfold isLeadSurrogate, isTrailSurrogate, DQUOTE.
  change (ch "\") with 92.
  repeat match goal with
         | |- context [c =? ?k] => destruct (N.eqb_spec c k); [lia|]
         | |- context [c =? ?k] => destruct (N.eqb_spec c k); [easy|]
         end.
  destruct (N.ltb_spec c 32); [lia|].
  destruct (N.leb_spec 55296 c); [lia|].
  destruct (N.leb_spec 56320 c); [lia|]. reflexivity.
Qed.

Lemma jsonString_word (s r : str) :
  forallb isWord s = true ->
  forall acc, jsonString (s ++ DQUOTE :: r) acc = Some (acc ++ s, r).
Proof.
  induction s as [|c s IH]; intros H acc.
  - cbn. now rewrite app_nil_r.
  - cbn [forallb] in H. apply andb_true_iff in H as [Hc Hs].
    apply word_range in Hc as [Hc Hb]. cbn [app jsonString]. unfold DQUOTE at 1.
    change (ch "\") with 92.
    destruct (N.eqb_spec c 34); [lia|]. destruct (N.eqb_spec c 92); [easy|].
    destruct (N.ltb_spec c 32); [lia|].
    rewrite IH by assumption. now rewrite <- app_assoc.
Qed.

Lemma quoted_word (k r : str) :
  forallb isWord k = true ->
  QuoteJSONString k ++ r = DQUOTE :: k ++ DQUOTE :: r.
Proof.
  intros H. unfold QuoteJSONString. rewrite quoteUnits_word by assumption.
  cbn [app]. now rewrite <- app_assoc.
Qed.

(** A quoted word is read as the string of the word. *)
Lemma jsonValue_word (f : nat) (k r : str) :
  forallb isWord k = true -> (1 <= f)%nat ->
  jsonValue f (QuoteJSONString k ++ r) = Return (JStr k, r).
Proof.
  intros H Hf. destruct f as [|f]; [lia|].
  rewrite quoted_word by assumption. cbn [jsonValue skipWs].
  change (isJsonSpace DQUOTE) with false. cbv iota.
  change (DQUOTE =? ch "[") with false. change (DQUOTE =? ch "{") with false.
  change (DQUOTE =? DQUOTE) with true. cbv iota.
  now rewrite jsonString_word.
Qed.

Lemma join_cons2 (sep a b : str) (l : list str) :
  join sep (a :: b :: l) = a ++ sep ++ join sep (b :: l).
Proof. reflexivity. Qed.

(** The quoted words between commas are read as the array of the words. *)
Lemma jsonElements_words (ks : list str) :
  forall (acc : list JSValue) (fuel : nat) (r : str),
    ks <> [] -> Forall (fun k => forallb isWord k = true) ks ->
    (List.length ks + 1 <= fuel)%nat ->
    jsonElements fuel (join (s2l ",") (map QuoteJSONString ks) ++ ch "]" :: r)
                 acc
    = Return (JArr (acc ++ map JStr ks), r).
Proof.
  induction ks as [|k ks IH]; intros acc fuel r Hne Hw Hf; [easy|].
  apply Forall_cons_iff in Hw as [Hk Hw]. cbn [List.length] in Hf.
  destruct fuel as [|f]; [lia|].
  destruct ks as [|k2 ks].
  - cbn [map join jsonElements]. rewrite jsonValue_word by (assumption || lia).
    reflexivity.
  - cbn [map]. rewrite join_cons2, <- !app_assoc.
    cbn [jsonElements]. rewrite jsonValue_word by (assumption || lia).
    change (s2l "," ++ ?x) with (ch "," :: x). cbn [skipWs].
    change (isJsonSpace (ch ",")) with false. cbv iota.
    change (ch "," =? ch ",") with true. cbv iota.
    specialize (IH (acc ++ [JStr k]) f r ltac:(discriminate) Hw
                   ltac:(cbn [List.length] in *; lia)).
    cbn [map] in IH. rewrite IH. now rewrite <- app_assoc.
Qed.

Lemma join_length (sep : str) (parts : list str) :
  (forall p, In p parts -> (1 <= List.length p)%nat) ->
  (List.length parts <= List.length (join sep parts))%nat.
Proof.
  induction parts as [|a parts IH]; intros H; [easy|].
  destruct parts as [|b parts].
  - cbn. apply H. now left.
  - rewrite join_cons2, !length_app.
    assert (1 <= List.length a)%nat by (apply H; now left).
    assert (List.length (b :: parts) <= List.length (join sep (b :: parts)))%nat
      by (apply IH; intros p Hp; apply H; now right).
    cbn [List.length] in *. lia.
Qed.

Lemma keys_text (ks : list str) :
  Forall (fun k => forallb isWord k = true) ks ->
  JSON_parse (stringifyStrings ks) = Some (JArr (map JStr ks)).
Proof.
  intros Hw. unfold JSON_parse, stringifyStrings.
  set (body := join (s2l ",") (map QuoteJSONString ks)).
  assert (Hlen : (List.length ks <= List.length body)%nat).
  { subst body. rewrite <- (length_map QuoteJSONString ks).
    apply join_length. intros p Hp. apply in_map_iff in Hp as (k & <- & _).
    unfold QuoteJSONString. cbn [List.length]. lia. }
  cbn [List.length]. rewrite length_app. cbn [List.length].
  replace (2 * S (List.length body + 1) + 2)%nat
    with (S (2 * List.length body + 5)) by lia.
  cbn [jsonValue skipWs]. change (isJsonSpace (ch "[")) with false. cbv iota.
  change (ch "[" =? ch "[") with true. cbv iota.
  destruct ks as [|k ks].
  - reflexivity.
  - assert (Hs : exists x, body ++ [ch "]"] = DQUOTE :: x).
    { subst body. apply Forall_inv in Hw. destruct ks as [|k2 ks].
      - cbn [map join]. rewrite quoted_word by assumption. eauto.
      - cbn [map]. rewrite join_cons2, <- !app_assoc.
        rewrite quoted_word by assumption. eauto. }
    destruct Hs as (x & Hs). rewrite Hs. cbn [skipWs].
    change (isJsonSpace DQUOTE) with false. cbv iota. cbn [startsWith].
    change (DQUOTE =? ch "]") with false. cbv iota. rewrite <- Hs.
    subst body.
    rewrite (@jsonElements_words (k :: ks) [] _ [] ltac:(discriminate) Hw)
      by (cbn [List.length] in *; lia).
    reflexivity.
Qed.

(** The members of a record of words, each on a line of its own, are
    read into the object one after the other. *)
Lemma jsonMembers_words (o : list (str * str)) :
  forall (acc : list (str * JSValue)) (fuel : nat) (r : str),
    o <> [] ->
    Forall (fun kv => forallb isWord (fst kv) = true
                      /\ forallb isWord (snd kv) = true) o ->
    (List.length o + 1 <= fuel)%nat ->
    jsonMembers fuel
      (10 :: s2l "  "
       ++ join (ch "," :: 10 :: s2l "  ") (map memberText o)
       ++ 10 :: ch "}" :: r) acc
    = Return (JObj (fold_left (fun a kv => setProp (fst kv) (JStr (snd kv)) a)
                              o acc), r).
Proof.
  induction o as [|[k t] o IH]; intros acc fuel r Hne Hw Hf; [easy|].
  apply Forall_cons_iff in Hw as [[Hk Ht] Hw]. cbn [fst snd] in Hk, Ht.
  cbn [List.length] in Hf. destruct fuel as [|f]; [lia|].
  assert (Hstep : forall rest : str,
             jsonMembers (S f)
               (10 :: s2l "  " ++ memberText (k, t) ++ rest) acc
             = match skipWs rest with
               | c :: r' =>
                   if c =? ch "," then
                     jsonMembers f r' (setProp k (JStr t) acc)
                   else if c =? ch "}" then
                     Return (JObj (setProp k (JStr t) acc), r')
                   else SyntaxError
               | [] => SyntaxError
               end).
  { intros rest. unfold memberText. cbn [fst snd].
    rewrite <- !app_assoc. rewrite quoted_word by assumption.
    change (s2l "  " ++ ?x) with (32 :: 32 :: x).
    cbn [jsonMembers skipWs].
    change (isJsonSpace 10) with true. change (isJsonSpace 32) with true.
    cbv iota. change (isJsonSpace DQUOTE) with false. cbv iota.
    change (DQUOTE =? DQUOTE) with true. cbv iota.
    rewrite jsonString_word by assumption. cbn [app].
    change (s2l ": " ++ ?x) with (ch ":" :: 32 :: x). cbn [skipWs].
    change (isJsonSpace (ch ":")) with false. cbv iota.
    change (ch ":" =? ch ":") with true. cbv iota.
    assert (Hv : jsonValue f (32 :: QuoteJSONString t ++ rest)
                 = Return (JStr t, rest)).
    { destruct f as [|f']; [lia|].
      pose proof (@jsonValue_word (S f') t rest Ht ltac:(lia)) as E.
      cbn [jsonValue skipWs] in E |- *.
      change (isJsonSpace 32) with true. cbv iota. exact E. }
    now rewrite Hv. }
  destruct o as [|kv2 o].
  - cbn [map join fold_left]. rewrite Hstep. cbn [skipWs].
    change (isJsonSpace 10) with true. cbv iota.
    change (isJsonSpace (ch "}")) with false. cbv iota.
    reflexivity.
  - cbn [map]. rewrite join_cons2, <- !app_assoc. rewrite Hstep.
    cbn [app skipWs]. change (isJsonSpace (ch ",")) with false. cbv iota.
    change (ch "," =? ch ",") with true. cbv iota.
    specialize (IH (setProp k (JStr t) acc) f r ltac:(discriminate) Hw
                   ltac:(cbn [List.length] in *; lia)).
    exact IH.
Qed.

Lemma setProp_all (o : list (str * str)) :
  forall acc : list (str * JSValue),
    NoDup (map fst o) ->
    (forall kv, In kv o -> ~ In (fst kv) (map fst acc)) ->
    fold_left (fun a kv => setProp (fst kv) (JStr (snd kv)) a) o acc
    = acc ++ map (fun kv => (fst kv, JStr (snd kv))) o.
Proof.
  induction o as [|[k t] o IH]; intros acc Hnd Hacc.
  - cbn. now rewrite app_nil_r.
  - cbn [fold_left map fst snd]. cbn [map fst] in Hnd.
    apply NoDup_cons_iff in Hnd as [Hk Hnd].
    rewrite setProp_fresh by (apply (Hacc (k, t)); now left).
    rewrite IH; [now rewrite <- app_assoc|easy|].
    intros kv Hkv. rewrite map_app, in_app_iff. cbn.
    intros [H|[H|[]]].
    + apply (Hacc kv); [now right|easy].
    + apply Hk. rewrite H. now apply in_map.
Qed.

Lemma record_text (o : list (str * str)) :
  NoDup (map fst o) ->
  (forall kv, In kv o -> arrayIndex (fst kv) = None) ->
  Forall (fun kv => forallb isWord (fst kv) = true
                    /\ forallb isWord (snd kv) = true) o ->
  JSON_parse (stringifyRecord o) = Some (recordValue o).
Proof.
  intros Hnd Hnames Hw. unfold JSON_parse, stringifyRecord, recordValue.
  rewrite ownPropertyOrder_names by assumption.
  destruct o as [|kv o]; [reflexivity|].
  set (ms := map (fun kv0 : str * str => QuoteJSONString (fst kv0) ++ s2l ": "
                                          ++ QuoteJSONString (snd kv0))
                 (kv :: o)).
  change ms with (map memberText (kv :: o)).
  set (body := join (ch "," :: 10 :: s2l "  ") (map memberText (kv :: o))).
  assert (Hlen : (List.length (kv :: o) <= List.length body)%nat).
  { subst body. rewrite <- (length_map memberText (kv :: o)).
    apply join_length. intros p Hp. apply in_map_iff in Hp as (x & <- & _).
    unfold memberText, QuoteJSONString. cbn [List.length app]. lia. }
  set (text := ch "{" :: 10 :: s2l "  " ++ body ++ [10; ch "}"]).
  assert (Hfuel : exists f, (2 * List.length text + 2)%nat = S f
                            /\ (List.length (kv :: o) + 1 <= f)%nat).
  { exists (2 * List.length text + 1)%nat. split; [lia|].
    subst text. cbn [List.length app]. rewrite !length_app.
    cbn [List.length] in *. lia. }
  destruct Hfuel as (f & -> & Hf). subst text.
  cbn [jsonValue skipWs]. change (isJsonSpace (ch "{")) with false. cbv iota.
  change (ch "{" =? ch "[") with false. change (ch "{" =? ch "{") with true.
  cbv iota.
  assert (Hs : exists x, body ++ [10; ch "}"] = DQUOTE :: x).
  { subst body. apply Forall_inv in Hw as [Hk _]. destruct o as [|kv2 o].
    - cbn [map join]. unfold memberText. rewrite <- app_assoc.
      rewrite quoted_word by assumption. eauto.
    - cbn [map]. rewrite join_cons2. unfold memberText at 1.
      rewrite <- !app_assoc. rewrite quoted_word by assumption. eauto. }
  destruct Hs as (x & Hs).
  change (s2l "  " ++ body ++ [10; ch "}"]) with (32 :: 32 :: body ++ [10; ch "}"]).
  rewrite Hs. cbn [skipWs].
  change (isJsonSpace 10) with true. change (isJsonSpace 32) with true.
  cbv iota. change (isJsonSpace DQUOTE) with false. cbv iota.
  cbn [startsWith]. change (DQUOTE =? ch "}") with false. cbv iota.
  rewrite <- Hs. subst body.
  pose proof (@jsonMembers_words (kv :: o) [] f [] ltac:(discriminate) Hw Hf)
    as E.
  change (10 :: s2l "  " ++ ?y) with (10 :: 32 :: 32 :: y) in E.
  rewrite E. cbn [skipWs]. rewrite setProp_all by easy. reflexivity.
Qed.

Lemma readDeclaration_words (t : str) (d : ParsedEnvVar) :
  readDeclaration t = Ok d -> wordy (key d) /\ wordy (vtype d).
Proof.
  intros H. split.
  - apply readDeclaration_key in H. now apply validName_word in H.
  - apply readDeclaration_kind in H as [[Hk _] _].
    destruct (val d); cbn in Hk; try discriminate;
      injection Hk as <-; reflexivity.
Qed.

Lemma kept_keys_NoDup (envVars : list ParsedEnvVar) :
  NoDup (map key envVars) -> NoDup (map key (filter notProto envVars)).
Proof.
  induction envVars as [|v rest IH]; cbn; [easy|]. intros H.
  apply NoDup_cons_iff in H as [Hv Hrest]. destruct (notProto v); cbn; [|auto].
  constructor; [|auto]. intros Hin. apply Hv.
  apply in_map_iff in Hin as (x & E & Hx). apply filter_In in Hx as [Hx _].
  rewrite <- E. now apply in_map.
Qed.

Lemma schemaOf_map (envVars : list ParsedEnvVar) :
  NoDup (map key envVars) ->
  schemaOf envVars
  = map (fun v => (key v, vtype v)) (filter notProto envVars).
Proof.
  intros Hnd. unfold schemaOf. now rewrite (assign_all vtype envVars []).
Qed.

(** A name of a variable is no array index. *)
Lemma validName_no_index (k : str) : validName k -> arrayIndex k = None.
Proof.
  intros (c & r & -> & Hc & _). unfold arrayIndex. cbn [forallb].
  assert (Hd : isDigit c = false).
  { apply orb_true_iff in Hc as [Hc|Hc]; revert Hc; unit_solve. }
  now rewrite Hd.
Qed.

(** Words are written as they are, between quotes. *)
Lemma QuoteJSONString_word (k : str) :
  forallb isWord k = true -> QuoteJSONString k = quoted k.
Proof.
  intros H. unfold QuoteJSONString, quoted. now rewrite quoteUnits_word.
Qed.

Lemma stringifyStrings_plain (ks : list str) :
  Forall (fun k => forallb isWord k = true) ks ->
  stringifyStrings ks = plainArray ks.
Proof.
  intros H. unfold stringifyStrings, plainArray. do 3 f_equal.
  induction H as [|k ks Hk _ IH]; [easy|]. cbn [map].
  now rewrite IH, QuoteJSONString_word.
Qed.

Lemma stringifyRecord_plain (o : list (str * str)) :
  (forall kv, In kv o -> arrayIndex (fst kv) = None) ->
  Forall (fun kv => forallb isWord (fst kv) = true
                    /\ forallb isWord (snd kv) = true) o ->
  stringifyRecord o = plainRecord o.
Proof.
  intros Hnames Hw. unfold stringifyRecord, plainRecord.
  rewrite ownPropertyOrder_names by assumption.
  destruct o as [|kv o]; [reflexivity|]. fold LF. do 5 f_equal.
  clear Hnames. induction Hw as [|x l [Hk Ht] _ IH]; [easy|]. cbn [map].
  now rewrite IH, !QuoteJSONString_word.
Qed.

(** The text that a run writes is [content] of the variables read. *)
Lemma generateTypes_written (w : World) (envPathArg outputPathArg : option str)
  (options : option Options) (log : list Log) (envVars : list ParsedEnvVar)
  (p text : str) :
  parseEnvFile (readFile w (orDefault (s2l ".env") envPathArg))
  = (log, Ok envVars) ->
  In (WriteFile p text) (fst (generateTypes w envPathArg outputPathArg options)) ->
  p = orDefault (s2l "./src/types/env-types.ts") outputPathArg
  /\ text
     = content (orDefault (s2l ".env") envPathArg) (timestamp w)
               (orDefault (s2l "EnvConfig")
                  (interfaceName (orDefault (mkOptions None None None) options)))
               (orDefault true
                  (includeComments (orDefault (mkOptions None None None) options)))
               (orDefault true
                  (exportSchema (orDefault (mkOptions None None None) options)))
               envVars.
Proof.
  intros Hp. unfold generateTypes. rewrite Hp.
  assert (Hc : forall effects, In (WriteFile p text) (map Console log ++ effects)
                               -> In (WriteFile p text) effects).
  { intros effects H. apply in_app_iff in H as [H|H]; [|exact H].
    apply in_map_iff in H as (l & E & _). discriminate E. }
  assert (Hr : forall q n c vs, ~ In (WriteFile p text) (report q n c vs)).
  { intros q n c vs. unfold report. rewrite in_app_iff. cbn [In].
    intros [[H|[H|[H|[]]]]|H]; try discriminate H.
    destruct c; [|exact H]. destruct H as [H|H]; [discriminate H|].
    apply in_map_iff in H as (v & E & _). discriminate E. }
  destruct envVars as [|v vars].
  { cbn [fst]. intros H. apply Hc in H as [H|[]]. discriminate H. }
  destruct (existsSync w _).
  - destruct (writeFileSync w _ _); cbn [fst]; intros H; apply Hc in H.
    + destruct H as [H|[H|[]]]; [|discriminate H]. now injection H as <- <-.
    + destruct H as [H|H]; [now injection H as <- <-|]. now apply Hr in H.
  - destruct (mkdirSync w _).
    + cbn [fst]. intros H. apply Hc in H as [H|[H|[]]]; discriminate H.
    + destruct (writeFileSync w _ _); cbn [fst]; intros H; apply Hc in H.
      * destruct H as [H|[H|[H|[]]]]; try discriminate H.
        now injection H as <- <-.
      * destruct H as [H|[H|H]]; [discriminate H|now injection H as <- <-|].
        now apply Hr in H.
Qed.

(** A text that ends with [t]. *)
Lemma tail_here (t : str) : exists pre, t = pre ++ t.
Proof. now exists []. Qed.

Lemma tail_app (x y t : str) :
  (exists pre, y = pre ++ t) -> exists pre, x ++ y = pre ++ t.
Proof. intros (pre & ->). exists (x ++ pre). now rewrite app_assoc. Qed.

Ltac find_tail := repeat first [apply tail_here | apply tail_app].

(** X21.  The two JSON texts of the file that [generateTypes] writes read
    back as what they were made of.  The file holds, behind the words
    [export const envKeys: EnvKey[] =], the keys in their order, each
    between double quotes and none with an escape, and [JSON.parse] reads
    this text as the array of the keys; when the schema is exported, the
    file holds, behind the words [export const envSchema =], each key with
    its type, both between double quotes and without an escape, the
    variable called [__proto__] left out, and [JSON.parse] reads this text
    as the object of the keys with their types. *)
Theorem generated_json_reads_back (w : World)
  (envPathArg outputPathArg : option str) (options : option Options)
  (log : list Log) (envVars : list ParsedEnvVar) (p text : str) :
  parseEnvFile (readFile w (orDefault (s2l ".env") envPathArg))
  = (log, Ok envVars) ->
  In (WriteFile p text) (fst (generateTypes w envPathArg outputPathArg options)) ->
  let keysText := plainArray (map key envVars) in
  let schema := map (fun v => (key v, vtype v)) (filter notProto envVars) in
  (exists pre post,
      text = pre ++ s2l "export const envKeys: EnvKey[] = " ++ keysText
                 ++ s2l ";" ++ post)
  /\ JSON_parse keysText = Some (JArr (map (fun v => JStr (key v)) envVars))
  /\ (orDefault true (exportSchema (orDefault (mkOptions None None None) options))
      = true ->
      exists pre post,
        text = pre ++ s2l "export const envSchema = " ++ plainRecord schema
                   ++ s2l " as const;" ++ post)
  /\ JSON_parse (plainRecord schema) = Some (recordValue schema).
Proof.
  intros H Hin. cbv zeta.
  destruct (@generateTypes_written w envPathArg outputPathArg options log
              envVars p text H Hin) as [_ ->].
  destruct (readFile w _) as [file|]; [|discriminate H].
  pose proof (@parse_NoDup file log envVars H) as Hnd.
  assert (Hw : Forall (fun v => wordy (key v) /\ wordy (vtype v)) envVars).
  { unfold parseEnvFile in H.
    eapply forEach_Forall in H; [exact H| |constructor].
    intros t d. apply readDeclaration_words. }
  assert (Hn : Forall (fun v => validName (key v)) envVars).
  { unfold parseEnvFile in H.
    eapply forEach_Forall in H; [exact H| |constructor].
    intros t d. apply readDeclaration_key. }
  assert (Hk : Forall (fun k => forallb isWord k = true) (map key envVars)).
  { apply Forall_map. eapply Forall_impl; [|exact Hw]. now intros v [Hv _]. }
  set (schema := map (fun v => (key v, vtype v)) (filter notProto envVars)).
  assert (Hs1 : NoDup (map fst schema)).
  { subst schema. rewrite map_map. cbn [fst]. now apply kept_keys_NoDup. }
  assert (Hs2 : forall kv, In kv schema -> arrayIndex (fst kv) = None).
  { subst schema. intros kv Hkv. apply in_map_iff in Hkv as (v & <- & Hv).
    apply filter_In in Hv as [Hv _]. rewrite Forall_forall in Hn.
    apply validName_no_index. now apply Hn. }
  assert (Hs3 : Forall (fun kv => forallb isWord (fst kv) = true
                                  /\ forallb isWord (snd kv) = true) schema).
  { subst schema. apply Forall_map. cbn [fst snd]. apply Forall_forall.
    intros v Hv. apply filter_In in Hv as [Hv _]. rewrite Forall_forall in Hw.
    now apply Hw. }
  split; [|split; [|split]].
  - assert (E : exists post pre,
               content (orDefault (s2l ".env") envPathArg) (timestamp w)
                 (orDefault (s2l "EnvConfig")
                    (interfaceName (orDefault (mkOptions None None None) options)))
                 (orDefault true
                    (includeComments (orDefault (mkOptions None None None) options)))
                 (orDefault true
                    (exportSchema (orDefault (mkOptions None None None) options)))
                 envVars
               = pre ++ s2l "export const envKeys: EnvKey[] = "
                     ++ plainArray (map key envVars) ++ s2l ";" ++ post).
    { unfold content. rewrite (stringifyStrings_plain Hk).
      eexists. find_tail. }
    destruct E as (post & pre & E). now exists pre, post.
  - rewrite <- (stringifyStrings_plain Hk), keys_text by assumption.
    now rewrite map_map.
  - intros ->.
    assert (E : exists post pre,
               content (orDefault (s2l ".env") envPathArg) (timestamp w)
                 (orDefault (s2l "EnvConfig")
                    (interfaceName (orDefault (mkOptions None None None) options)))
                 (orDefault true
                    (includeComments (orDefault (mkOptions None None None) options)))
                 true envVars
               = pre ++ s2l "export const envSchema = " ++ plainRecord schema
                     ++ s2l " as const;" ++ post).
    { unfold content. rewrite schemaOf_map by assumption. fold schema.
      rewrite (stringifyRecord_plain Hs2 Hs3).
      rewrite <- !(app_assoc (s2l "export const envSchema = ")).
      rewrite <- !(app_assoc (plainRecord schema)).
      rewrite <- !(app_assoc (s2l " as const;")).
      eexists. find_tail. }
    destruct E as (post & pre & E). now exists pre, post.
  - rewrite <- (stringifyRecord_plain Hs2 Hs3). now apply record_text.
Qed.

(** The theorem at a file of two variables. *)
Lemma generated_json_reads_back_witness :
  JSON_parse (dq "[`PORT`,`NAME`]")
  = Some (JArr [JStr (s2l "PORT"); JStr (s2l "NAME")])
  /\ JSON_parse (plainRecord
                   [(s2l "PORT", s2l "NUMBER"); (s2l "NAME", s2l "STRING")])
     = Some (JObj [(s2l "PORT", JStr (s2l "NUMBER"));
                   (s2l "NAME", JStr (s2l "STRING"))]).
Proof.
  set (file := s2l "NUMBER PORT=80" ++ LF :: s2l "STRING NAME=web").
  set (vars := [mkVar (s2l "PORT") (s2l "NUMBER") (JNum (StringToNumber "80"));
                mkVar (s2l "NAME") (s2l "STRING") (JStr (s2l "web"))]).
  assert (Hp : parseEnvFile (readFile (worldOf file) (orDefault (s2l ".env") None))
               = ([], Ok vars)) by (vm_compute; reflexivity).
  assert (Hin : In (WriteFile (s2l "./src/types/env-types.ts")
                              (content (s2l ".env") (timestamp (worldOf file))
                                       (s2l "EnvConfig") true true vars))
                   (fst (generateTypes (worldOf file) None None None))).
  { left. vm_compute. reflexivity. }
  destruct (@generated_json_reads_back (worldOf file) None None None [] vars
              _ _ Hp Hin) as (_ & H2 & _ & H4).
  split; [exact H2|exact H4].
Defined.

End GenerateFacts.
